(** * libfive: the worker pool that builds the adaptive cell tree

    A shallow embedding of [src/libfive/src/render/brep/worker_pool.cpp]
    ([WorkerPool<T, Neighbors, N>::build] and [::run]).

    The file is laid out as follows.
    - [Ticks]: the 64-bit progress arithmetic of [build] and [run].
    - [Pool]: the data model (cells, tasks, the shared stack, the root),
      one pass of the worker loop, the loop itself, the interleaving of
      several workers and the two [build] overloads.  The classes that the
      template is instantiated with ([T], [Neighbors], [Region], the tape,
      the evaluator) are not part of the translated file; they are the
      fields of the class [Params].
    - [Toy]: a small instance used to run the model on concrete inputs.
    - Facts about the arithmetic, one pass, several workers, [build] and
      the shape of the heap; then the properties of the specification and
      their instances on concrete runs.
    - Facts about the budget in closed form, about one pass taken case by
      case and about what every step of a build keeps; then further
      properties of the code (the budget, the join, idle workers, the order
      of the stacks, the cells, their children, their depth, their number
      and their owners, the reports, the calls of [collectChildren] and
      the worker that can always go on) and their instances.
    - What [build] returns: the answers of [collectChildren], the tree
      that is built whatever the workers and their order, the rounds of
      passes after which [build] returns, and workers whose passes
      overlap; then the properties of the returned tree and of overlapping
      workers, and their instances. *)

From Stdlib Require Import ZArith List Lia Bool.
From stdpp Require Import base option list gmap.

Local Open Scope Z_scope.

(** ** Progress arithmetic *)

Module Ticks.

(** [uint64_t] arithmetic: results are reduced modulo [2^64]. *)
Definition uint64_mod : Z := 2 ^ 64.

Definition wrap64 (z : Z) : Z := z mod uint64_mod.

(** The loop body [ticks = (ticks + 1) * (1 << N)]. *)
Definition tick_body (N : nat) (ticks : Z) : Z :=
  wrap64 ((ticks + 1) * Z.shiftl 1 (Z.of_nat N)).

(** [for (int i=0; i <= level; ++i) { body }], started at [i]: the body runs
    while [i <= level].  [fuel] bounds the number of passes. *)
Fixpoint tick_for (N : nat) (fuel : nat) (i level ticks : Z) : Z :=
  match fuel with
  | O => ticks
  | S fuel' =>
      if i <=? level
      then tick_for N fuel' (i + 1) level (tick_body N ticks)
      else ticks
  end.

(** [uint64_t ticks = 0; for (int i=0; i <= region.level; ++i) ...].
    The loop makes [level + 1] passes (none when [level < 0]); that many
    units of fuel let it run until its condition fails. *)
Definition level_ticks (N : nat) (level : Z) : Z :=
  tick_for N (Z.to_nat (level + 1)) 0 level 0.

(** The recurrence as the specification writes it:
    [t_0 = 0], [t_{i+1} = (t_i + 1) * 2^N], over unbounded integers. *)
Fixpoint recurrence (N : nat) (i : nat) : Z :=
  match i with
  | O => 0
  | S j => (recurrence N j + 1) * 2 ^ Z.of_nat N
  end.

End Ticks.

(** ** Data model *)

Module Interval.

(** [Interval::State], the classification stored in a cell. *)
Inductive State : Set := EMPTY | FILLED | AMBIGUOUS | UNKNOWN.

End Interval.

(** A cell pointer [T*] is modelled by the position of the cell in the
    tree: the list of [parent_index] values met on the way from the cell up
    to the root.  The root, built by [new T(nullptr, 0, region)], is [[]];
    the cell built by [object_pool.get(t, i, rs[i])] is [i :: t].  A
    nullable pointer is an [option Addr]. *)
Definition Addr : Type := list nat.

(** [t->parent]. *)
Definition parent (t : Addr) : option Addr :=
  match t with
  | [] => None
  | _ :: p => Some p
  end.

(** [t->parent_index]. *)
Definition parent_index (t : Addr) : nat :=
  match t with
  | [] => O
  | i :: _ => i
  end.

(** The fields of a cell that the pool reads or that the cell's own
    methods write: [type], and [leaf] for everything else a cell carries
    (leaf data, the count of pending children, ...). *)
Record Cell (Leaf : Type) : Type := mkCell {
  type : Interval.State;
  leaf : Leaf
}.
Arguments mkCell {Leaf} _ _.
Arguments type {Leaf} _.
Arguments leaf {Leaf} _.

(** Modelled from the spec: what [evalInterval], which is declared outside
    the translated file, may answer.  The specification gives it the
    contract "sets cell.type ∈ {EMPTY, FILLED, AMBIGUOUS}" (§6). *)
Inductive Verdict : Set := VEmpty | VFilled | VAmbiguous.

Definition of_verdict (v : Verdict) : Interval.State :=
  match v with
  | VEmpty => Interval.EMPTY
  | VFilled => Interval.FILLED
  | VAmbiguous => Interval.AMBIGUOUS
  end.

(** The template parameters [T], [Neighbors], [N] of [WorkerPool] and the
    classes they bring with them. *)
Class Params : Type := {
  N : nat;
  Tape : Type;
  Region : Type;
  Region3 : Type;
  Neighbors : Type;
  XTreeEvaluator : Type;
  Tree : Type;
  Leaf : Type;
  double : Type;
  float : Type;
  ProgressCallback : Type;
  FreeThreadHandler : Type;
  (** [Region<N>]: [level], [withResolution], [subdivide()[i]], [parent(i)],
      [region3()]. *)
  level : Region -> Z;
  withResolution : Region -> double -> Region;
  subdivide : Region -> nat -> Region;
  region_parent : Region -> nat -> Region;
  region3 : Region -> Region3;
  (** [Tape::getBase], [eval->deck->tape], [XTreeEvaluator(t)]. *)
  getBase : Tape -> Region3 -> Tape;
  deck_tape : XTreeEvaluator -> Tape;
  make_evaluator : Tree -> XTreeEvaluator;
  (** [Neighbors()] and [Neighbors::push(index, children)]. *)
  neighbors_default : Neighbors;
  neighbors_push : Neighbors -> nat -> list (option (Cell Leaf)) -> Neighbors;
  (** The implicit conversion of [max_err] from [double] to [float] at the
      call of [run]. *)
  to_float : double -> float;
  (** The payload of a freshly constructed cell. *)
  leaf_init : Leaf;
  (** The answers of the three cell methods. *)
  interval_verdict : XTreeEvaluator -> Tape -> Region -> Verdict * Tape;
  leaf_eval :
    XTreeEvaluator -> Tape -> Region -> Neighbors -> Cell Leaf -> Cell Leaf;
  collect_eval :
    XTreeEvaluator -> Tape -> Region -> float ->
    gmap Addr (Cell Leaf) -> Addr -> bool * Leaf
}.

Section Pool.

Context {P : Params}.

Local Abbreviation Heap := (gmap Addr (Cell Leaf)).

(** [struct Task { T* target; Tape::Handle tape; Region<N> region;
    Neighbors parent_neighbors; }]. *)
Record Task : Type := mkTask {
  target : option Addr;
  tape : Tape;
  region : Region;
  parent_neighbors : Neighbors
}.

(** Modelled from the spec: [LockFreeStack], the stack of pending tasks,
    which is declared outside the translated file.  It is "a bounded
    lock-free stack of capacity proportional to workers" whose
    [bounded_push] fails when the stack is full (§4.1); [push] always
    succeeds and [pop] fails on the empty stack. *)
Record LockFreeStack : Type := mkStack {
  items : list Task;
  capacity : nat
}.

Definition stack_push (x : Task) (s : LockFreeStack) : LockFreeStack :=
  mkStack (x :: items s) (capacity s).

Definition stack_bounded_push (x : Task) (s : LockFreeStack)
  : bool * LockFreeStack :=
  if (length (items s) <? capacity s)%nat
  then (true, mkStack (x :: items s) (capacity s))
  else (false, s).

Definition stack_pop (s : LockFreeStack) : option Task * LockFreeStack :=
  match items s with
  | [] => (None, s)
  | x :: rest => (Some x, mkStack rest (capacity s))
  end.

(** [Root<T>]: the root pointer and the cells claimed from the workers'
    pools.  [Root<T>()] is the empty root. *)
Record Root : Type := mkRoot {
  root_ptr : option Addr;
  claimed : list Addr
}.

Definition Root_empty : Root := mkRoot None [].

Definition Root_of (t : Addr) : Root := mkRoot (Some t) [].

(** [root.claim(object_pool)]. *)
Definition Root_claim (object_pool : list Addr) (r : Root) : Root :=
  mkRoot (root_ptr r) (claimed r ++ object_pool).

(** Modelled from the spec: [ProgressWatcher] and [ProgressWatcher::build],
    which are declared outside the translated file.  A watcher holds the
    total, the offset and the callback it was built with; the callback is
    optional (§4.1, §6) and [run] tests the pointer it receives, so no
    callback gives no watcher.  The watcher reads the two flags it is given
    and writes neither (§4.4). *)
Record ProgressWatcher : Type := mkWatcher {
  total : Z;
  offset : Z;
  callback : ProgressCallback
}.

Definition ProgressWatcher_build (ticks offset : Z)
    (progress_callback : option ProgressCallback) : option ProgressWatcher :=
  match progress_callback with
  | Some f => Some (mkWatcher ticks offset f)
  | None => None
  end.

(** The calls a worker makes on the objects it is handed, in order;
    [CallEvalInterval] and [CallCollect] carry what the call left in
    [t->type] and what it returned. *)
Inductive Call : Type :=
| CallOfferWait
| CallEvalInterval (t : Addr) (stored : Interval.State)
| CallEvalLeaf (t : Addr)
| CallGet (t : Addr) (i : nat)
| CallCollect (t : Addr) (ok : bool)
| CallTick (n : Z).

(** What all workers share: the heap of cells, the task stack, the two
    flags, the root under construction, and the record of calls.  [failed]
    is set when an [assert] does not hold. *)
Record Shared : Type := mkShared {
  heap : Heap;
  tasks : LockFreeStack;
  done : bool;
  cancel : bool;
  out : Root;
  trace : list Call;
  failed : bool
}.

(** The locals of one invocation of [run]. *)
Record Worker : Type := mkWorker {
  local : list Task;
  object_pool : list Addr;
  returned : bool
}.

Definition Worker_start : Worker := mkWorker [] [] false.

Definition set_heap (h : Heap) (s : Shared) : Shared :=
  mkShared h (tasks s) (done s) (cancel s) (out s) (trace s) (failed s).
Definition set_tasks (q : LockFreeStack) (s : Shared) : Shared :=
  mkShared (heap s) q (done s) (cancel s) (out s) (trace s) (failed s).
Definition set_done (b : bool) (s : Shared) : Shared :=
  mkShared (heap s) (tasks s) b (cancel s) (out s) (trace s) (failed s).
Definition set_cancel (b : bool) (s : Shared) : Shared :=
  mkShared (heap s) (tasks s) (done s) b (out s) (trace s) (failed s).
Definition set_out (r : Root) (s : Shared) : Shared :=
  mkShared (heap s) (tasks s) (done s) (cancel s) r (trace s) (failed s).
Definition set_failed (b : bool) (s : Shared) : Shared :=
  mkShared (heap s) (tasks s) (done s) (cancel s) (out s) (trace s) b.
Definition record_call (c : Call) (s : Shared) : Shared :=
  mkShared (heap s) (tasks s) (done s) (cancel s) (out s) (trace s ++ [c])
           (failed s).

(** Modelled from the spec: a cell as the constructor
    [T(parent, index, region)], which is declared outside the translated
    file, leaves it.  "A cell is created by its parent (or as root) with
    type = UNKNOWN" (§3). *)
Definition new_cell : Cell Leaf := mkCell Interval.UNKNOWN leaf_init.

(** The object behind a pointer. *)
Definition cell_at (h : Heap) (t : Addr) : Cell Leaf :=
  default new_cell (h !! t).

(** [t->type]. *)
Definition type_at (h : Heap) (t : Addr) : Interval.State := type (cell_at h t).

(** [t->children]: an array of [1 << N] child pointers. *)
Definition children_size : nat := Nat.pow 2 N.

Definition children (h : Heap) (t : Addr) : list (option (Cell Leaf)) :=
  map (fun i => h !! (i :: t)) (seq 0 children_size).


(** ** The cell methods and the pool *)

(** Modelled from the spec: [t->evalInterval(eval, tape, region,
    object_pool)], which is declared outside the translated file.  It
    "produces an updated tape (possibly narrowed), and sets target.type"
    (§4.2): the verdict is stored in [t->type] and the tape to use inside
    the region is returned. *)
Definition evalInterval (eval : XTreeEvaluator) (tp : Tape) (r : Region)
    (t : Addr) (s : Shared) : Shared * Tape :=
  let '(v, tp') := interval_verdict eval tp r in
  let c := cell_at (heap s) t in
  (record_call (CallEvalInterval t (of_verdict v))
     (set_heap (<[t := mkCell (of_verdict v) (leaf c)]> (heap s)) s),
   tp').

(** Modelled from the spec: [t->evalLeaf(eval, tape, region, object_pool,
    neighbors)], which is declared outside the translated file.  It
    "populates target.leaf_payload" (§4.2, §6) of the cell it is called on.
    What it leaves in [type] the specification does not say where it
    describes the method; it asks elsewhere that no cell of a returned tree
    be left [UNKNOWN] (§7, §8), and a cell of level 0 sees no other
    evaluation.  The method therefore writes the whole cell, [type]
    included: what it writes is [leaf_eval]. *)
Definition evalLeaf (eval : XTreeEvaluator) (tp : Tape) (r : Region)
    (nb : Neighbors) (t : Addr) (s : Shared) : Shared :=
  let c := cell_at (heap s) t in
  record_call (CallEvalLeaf t)
    (set_heap (<[t := leaf_eval eval tp r nb c]> (heap s)) s).

(** Modelled from the spec: [t->collectChildren(eval, tape, region,
    object_pool, max_err)], which is declared outside the translated file.
    It answers whether the cell was collected and writes the merged payload
    (§3, §4.3); what it counts and what it merges is in the payload. *)
Definition collectChildren (eval : XTreeEvaluator) (tp : Tape) (r : Region)
    (max_err : float) (t : Addr) (s : Shared) : bool * Shared :=
  let '(ok, lf) := collect_eval eval tp r max_err (heap s) t in
  let c := cell_at (heap s) t in
  (ok,
   record_call (CallCollect t ok)
     (set_heap (<[t := mkCell (type c) lf]> (heap s)) s)).

(** [progress->tick(n)] behind the test [if (progress)]. *)
Definition tick (progress : option ProgressWatcher) (n : Z) (s : Shared)
  : Shared :=
  match progress with
  | Some _ => record_call (CallTick n) s
  | None => s
  end.

(** [free_thread_handler->offerWait()] behind the test
    [if (free_thread_handler != nullptr)]. *)
Definition offerWait (free_thread_handler : option FreeThreadHandler)
    (s : Shared) : Shared :=
  match free_thread_handler with
  | Some _ => record_call CallOfferWait s
  | None => s
  end.

Definition set_local (l : list Task) (w : Worker) : Worker :=
  mkWorker l (object_pool w) (returned w).
Definition set_returned (b : bool) (w : Worker) : Worker :=
  mkWorker (local w) (object_pool w) b.

(** [object_pool.get(t, i, region)]: a fresh cell, child [i] of [t]. *)
Definition pool_get (t : Addr) (i : nat) (s : Shared) (w : Worker)
  : Addr * Shared * Worker :=
  let next_tree := i :: t in
  (next_tree,
   record_call (CallGet t i) (set_heap (<[next_tree := new_cell]> (heap s)) s),
   mkWorker (local w) (object_pool w ++ [next_tree]) (returned w)).

(** ** One pass of the worker loop *)

(** The head of [run]'s loop body: a task from the local stack, else from
    the shared one; [None] stands for [task.target == nullptr]. *)
Definition take_task (s : Shared) (w : Worker)
  : option Task * Shared * Worker :=
  match local w with
  | tk :: rest => (Some tk, s, set_local rest w)
  | [] =>
      let '(o, q) := stack_pop (tasks s) in
      (o, set_tasks q s, w)
  end.

(** [Neighbors neighbors; if (t->parent) { neighbors =
    task.parent_neighbors.push(t->parent_index, t->parent->children); }]. *)
Definition local_neighbors (tk : Task) (t : Addr) (h : Heap) : Neighbors :=
  match parent t with
  | Some p =>
      neighbors_push (parent_neighbors tk) (parent_index t) (children h p)
  | None => neighbors_default
  end.

(** The child task of index [i]. *)
Definition child_task (t : Addr) (tp : Tape) (r : Region) (nb : Neighbors)
    (i : nat) : Task :=
  mkTask (Some (i :: t)) tp (subdivide r i) nb.

(** [for (unsigned i=0; i < t->children.size(); ++i) { ... }] over the
    indices [todo] still to do. *)
Fixpoint push_children (t : Addr) (tp : Tape) (r : Region) (nb : Neighbors)
    (todo : list nat) (s : Shared) (w : Worker) : Shared * Worker :=
  match todo with
  | [] => (s, w)
  | i :: rest =>
      let '(next_tree, s1, w1) := pool_get t i s w in
      let next := mkTask (Some next_tree) tp (subdivide r i) nb in
      let '(pushed, q) := stack_bounded_push next (tasks s1) in
      if pushed
      then push_children t tp r nb rest (set_tasks q s1) w1
      else push_children t tp r nb rest s1 (set_local (next :: local w1) w1)
  end.

(** The lambda [up]: one step towards the root. *)
Definition up (t : Addr) (r : Region) (tp : Tape)
  : option Addr * Region * Tape :=
  let r' := region_parent r (parent_index t) in
  (parent t, r', getBase tp (region3 r')).

(** [up(); while (t != nullptr && t->collectChildren(...)) { tick; up(); }]
    started on the cell [t]; the result is the pointer the loop stops on. *)
Fixpoint climb (eval : XTreeEvaluator) (max_err : float)
    (progress : option ProgressWatcher)
    (t : Addr) (r : Region) (tp : Tape) (s : Shared) : option Addr * Shared :=
  match t with
  | [] => (None, s)
  | i :: p =>
      let r' := region_parent r i in
      let tp' := getBase tp (region3 r') in
      let '(ok, s1) := collectChildren eval tp' r' max_err p s in
      if ok
      then climb eval max_err progress p r' tp' (tick progress 1 s1)
      else (Some p, s1)
  end.

(** How a pass through the loop body ends. *)
Inductive Flow : Set := Continue | Break | Abort.

(** The part of the body after the evaluation of a leaf or of a cell that
    is all empty or all filled: the progress report, the walk towards the
    root, and the test for termination. *)
Definition finish (eval : XTreeEvaluator) (max_err : float)
    (progress : option ProgressWatcher) (can_subdivide : bool)
    (t : Addr) (r : Region) (tp : Tape) (s : Shared) : Shared * Flow :=
  let s1 :=
    if can_subdivide
    then tick progress (Ticks.level_ticks N (level r)) s
    else tick progress 1 s in
  let '(t', s2) := climb eval max_err progress t r tp s1 in
  match t' with
  | None => (s2, Break)
  | Some _ => (s2, Continue)
  end.

(** The body of [while (!done.load() && !cancel.load()) { ... }]. *)
Definition run_body (eval : XTreeEvaluator) (max_err : float)
    (progress : option ProgressWatcher)
    (free_thread_handler : option FreeThreadHandler)
    (s : Shared) (w : Worker) : Shared * Worker * Flow :=
  let '(task, s0, w0) := take_task s w in
  match task with
  | None => (offerWait free_thread_handler s0, w0, Continue)
  | Some tk =>
      match target tk with
      | None => (offerWait free_thread_handler s0, w0, Continue)
      | Some t =>
          let neighbors := local_neighbors tk t (heap s0) in
          let can_subdivide := 0 <? level (region tk) in
          if can_subdivide
          then
            let '(s1, tp) := evalInterval eval (tape tk) (region tk) t s0 in
            match type_at (heap s1) t with
            | Interval.UNKNOWN => (set_failed true s1, w0, Abort)
            | Interval.AMBIGUOUS =>
                let '(s2, w2) :=
                  push_children t tp (region tk) neighbors
                                (seq 0 children_size) s1 w0 in
                (s2, w2, Continue)
            | _ =>
                let '(s2, fl) :=
                  finish eval max_err progress true t (region tk) tp s1 in
                (s2, w0, fl)
            end
          else
            let s1 := evalLeaf eval (tape tk) (region tk) neighbors t s0 in
            let '(s2, fl) :=
              finish eval max_err progress false t (region tk) (tape tk) s1 in
            (s2, w0, fl)
      end
  end.

(** What [run] does once its loop is over: [done.store(true)] and, under
    [root_lock], [root.claim(object_pool)]. *)
Definition run_exit (s : Shared) (w : Worker) : Shared * Worker :=
  (set_out (Root_claim (object_pool w) (out s)) (set_done true s),
   set_returned true w).

(** One pass of a worker that has not returned: the loop condition, the
    body, and the exit when the loop is left. *)
Definition run_pass (eval : XTreeEvaluator) (max_err : float)
    (progress : option ProgressWatcher)
    (free_thread_handler : option FreeThreadHandler)
    (s : Shared) (w : Worker) : Shared * Worker :=
  if negb (done s) && negb (cancel s)
  then
    match run_body eval max_err progress free_thread_handler s w with
    | (s', w', Continue) => (s', w')
    | (s', w', Break) => run_exit s' w'
    | (s', w', Abort) => (s', w')
    end
  else run_exit s w.

(** [run] for a worker left alone with the shared state: passes are made
    until the worker returns.  [None] when [fuel] passes were not enough or
    an assertion stopped the program. *)
Fixpoint run (fuel : nat) (eval : XTreeEvaluator) (max_err : float)
    (progress : option ProgressWatcher)
    (free_thread_handler : option FreeThreadHandler)
    (s : Shared) (w : Worker) : option (Shared * Worker) :=
  match fuel with
  | O => None
  | S fuel' =>
      let '(s', w') := run_pass eval max_err progress free_thread_handler s w in
      if failed s' then None
      else if returned w' then Some (s', w')
      else run fuel' eval max_err progress free_thread_handler s' w'
  end.

(** ** Several workers *)

(** The state of a build: what is shared, and the workers started by
    [std::async], in the order of the loop that starts them. *)
Record Machine : Type := mkMachine {
  shared : Shared;
  threads : list Worker
}.

(** What may happen next: worker [i] makes one pass through its loop, or
    whoever holds the [cancel] flag sets it.  The shared objects are
    atomic or locked in the source; a pass is taken as one step.  What
    changes when passes overlap is taken up further down: [moment] takes
    the condition of the loop and its body apart, and
    [push_children_among] lets the other workers act between two pushes. *)
Inductive Event : Set :=
| Pass (i : nat)
| SetCancel.

(** [eval + i] is [eval i].  A failed assertion stops everything; a worker
    that has returned, or that was never started, makes no pass. *)
Definition step (eval : nat -> XTreeEvaluator) (max_err : float)
    (progress : option ProgressWatcher)
    (free_thread_handler : option FreeThreadHandler)
    (e : Event) (m : Machine) : Machine :=
  if failed (shared m) then m
  else
    match e with
    | SetCancel => mkMachine (set_cancel true (shared m)) (threads m)
    | Pass i =>
        match threads m !! i with
        | Some w =>
            if returned w then m
            else
              let '(s', w') :=
                run_pass (eval i) max_err progress free_thread_handler
                         (shared m) w in
              mkMachine s' (<[i := w']> (threads m))
        | None => m
        end
    end.

Fixpoint exec (eval : nat -> XTreeEvaluator) (max_err : float)
    (progress : option ProgressWatcher)
    (free_thread_handler : option FreeThreadHandler)
    (sched : list Event) (m : Machine) : Machine :=
  match sched with
  | [] => m
  | e :: rest =>
      exec eval max_err progress free_thread_handler rest
           (step eval max_err progress free_thread_handler e m)
  end.

(** ** [build] *)

(** What a call of [build] comes to under a given schedule: the join is
    still waiting for a worker, an assertion failed, a root is returned, or
    the call has no defined behaviour. *)
Inductive Result : Type :=
| Waiting
| AssertionFailed
| Return (r : Root)
| Undefined.

(** [uint64_t ticks = 0; for (...) ticks = (ticks + 1) * (1 << N);] on the
    region [region_.withResolution(min_feature)]. *)
Definition build_ticks (region_ : Region) (min_feature : double) : Z :=
  Ticks.level_ticks N (level (withResolution region_ min_feature)).

(** [build] up to the point where the workers are started. *)
Definition build_start (eval : nat -> XTreeEvaluator) (region_ : Region)
    (min_feature : double) (workers : nat) (cancel : bool) : Machine :=
  let region := withResolution region_ min_feature in
  let root : Addr := [] in
  let tasks :=
    stack_push (mkTask (Some root) (deck_tape (eval O)) region neighbors_default)
               (mkStack [] workers) in
  mkMachine
    (mkShared {[ root := new_cell ]} tasks false cancel (Root_of root) [] false)
    (replicate workers Worker_start).

(** The watcher that [build] hands to the workers. *)
Definition build_watcher (region_ : Region) (min_feature : double)
    (progress_callback : option ProgressCallback) : option ProgressWatcher :=
  ProgressWatcher_build (build_ticks region_ min_feature) 0 progress_callback.

(** The state in which the schedule leaves the build. *)
Definition build_run (eval : nat -> XTreeEvaluator) (region_ : Region)
    (min_feature max_err : double) (workers : nat) (cancel : bool)
    (progress_callback : option ProgressCallback)
    (free_thread_handler : option FreeThreadHandler)
    (sched : list Event) : Machine :=
  exec eval (to_float max_err)
       (build_watcher region_ min_feature progress_callback)
       free_thread_handler sched
       (build_start eval region_ min_feature workers cancel).

(** The end of [build]: the join, [assert(done.load() || cancel.load())],
    and the choice of the root to return. *)
Definition build_return (m : Machine) : Result :=
  if failed (shared m) then AssertionFailed
  else if forallb returned (threads m)
  then
    if done (shared m) || cancel (shared m)
    then
      if cancel (shared m)
      then Return Root_empty
      else Return (out (shared m))
    else AssertionFailed
  else Waiting.

(** [build(XTreeEvaluator* eval, region_, min_feature, max_err, workers,
    cancel, progress_callback, free_thread_handler)].  [cancel] is the value
    of the caller's flag at the call; a [SetCancel] of the schedule is the
    caller setting it later. *)
Definition build (eval : nat -> XTreeEvaluator) (region_ : Region)
    (min_feature max_err : double) (workers : nat) (cancel : bool)
    (progress_callback : option ProgressCallback)
    (free_thread_handler : option FreeThreadHandler)
    (sched : list Event) : Result :=
  build_return
    (build_run eval region_ min_feature max_err workers cancel
               progress_callback free_thread_handler sched).

(** [build(const Tree t, region, min_feature, max_err, workers,
    progress_callback, free_thread_handler)]: one evaluator per worker and a
    [cancel] flag of its own, which nobody else can reach; its schedule
    therefore names workers only.  With no worker the vector [es] is empty,
    and the other overload reads [eval->deck->tape] (line 49) through
    [es.data()], which points to no evaluator. *)
Definition build_from_tree (t : Tree) (region : Region)
    (min_feature max_err : double) (workers : nat)
    (progress_callback : option ProgressCallback)
    (free_thread_handler : option FreeThreadHandler)
    (sched : list nat) : Result :=
  let es : nat -> XTreeEvaluator := fun _ => make_evaluator t in
  let cancel := false in
  match workers with
  | O => Undefined
  | S _ =>
      build es region min_feature max_err workers cancel
            progress_callback free_thread_handler (map Pass sched)
  end.

(** The heap after the cells of the children [todo] of [t] were made. *)
Definition alloc_children (t : Addr) (todo : list nat) (h : Heap) : Heap :=
  fold_left (fun h i => <[i :: t := new_cell]> h) todo h.

(** The cells above [t], nearest first: [t->parent], its parent, ... *)
Fixpoint ancestors (t : Addr) : list Addr :=
  match t with
  | [] => []
  | _ :: p => p :: ancestors p
  end.

(** What [tick progress n] adds to the record of calls. *)
Definition emitted (progress : option ProgressWatcher) (n : Z) : list Call :=
  match progress with
  | Some _ => [CallTick n]
  | None => []
  end.

(** The calls of a walk in which the first [k] cells above [t] were
    collected and which stopped on [t']. *)
Definition climb_calls (progress : option ProgressWatcher) (t : Addr)
    (k : nat) (t' : option Addr) : list Call :=
  flat_map (fun p => CallCollect p true :: emitted progress 1)
           (take k (ancestors t))
  ++ match t' with
     | Some p => [CallCollect p false]
     | None => []
     end.

(** The tasks that wait in the shared stack or in a local one. *)
Definition pending (m : Machine) : list Task :=
  items (tasks (shared m)) ++ concat (map local (threads m)).

(** The root cell has been dealt with: it was evaluated as a leaf, found
    all empty or all filled, or collected. *)
Definition root_finished (tr : list Call) : Prop :=
  CallEvalLeaf [] ∈ tr \/ CallEvalInterval [] Interval.EMPTY ∈ tr \/
  CallEvalInterval [] Interval.FILLED ∈ tr \/ CallCollect [] true ∈ tr.

(** The cells that pending tasks point to. *)
Definition targets (l : list Task) : list Addr := omap target l.

(** The heap holds, with every cell, the cell above it. *)
Definition prefix_closed (h : Heap) : Prop :=
  forall i a, is_Some (h !! (i :: a)) -> is_Some (h !! a).

(** Interval evaluation has not run on the cell [a]. *)
Definition not_evaluated (tr : list Call) (a : Addr) : Prop :=
  forall v, CallEvalInterval a v ∉ tr.

(** The shape of the heap during a build, for the cells [ts] that pending
    tasks point to: no cell is pending twice; a pending cell exists, has no
    children yet and was not evaluated; a cell on which interval evaluation
    ran has the type the evaluation stored, which is not [UNKNOWN]; a cell
    that no evaluation ran on has the type it was made with. *)
Record tree_ok (h : Heap) (tr : list Call) (ts : list Addr) : Prop := {
  ok_closed : prefix_closed h;
  ok_nodup : NoDup ts;
  ok_pending : forall a, a ∈ ts ->
    is_Some (h !! a) /\ (forall i, h !! (i :: a) = None) /\ not_evaluated tr a;
  ok_evaluated : forall a v, CallEvalInterval a v ∈ tr ->
    is_Some (h !! a) /\ type_at h a = v /\ v ≠ Interval.UNKNOWN;
  ok_unknown : forall a, not_evaluated tr a -> CallEvalLeaf a ∉ tr ->
    type_at h a = Interval.UNKNOWN
}.

(** [s'] differs from [s] by payloads and by calls other than
    [evalInterval]: same cells, same types, same task stack. *)
Definition touches (s s' : Shared) : Prop :=
  (forall a, is_Some (heap s' !! a) <-> is_Some (heap s !! a)) /\
  (forall a, type_at (heap s') a = type_at (heap s) a) /\
  tasks s' = tasks s /\
  exists calls, trace s' = trace s ++ calls /\
                forall a v, CallEvalInterval a v ∉ calls.

(** The cells that a record of calls shows as collected. *)
Definition collected (tr : list Call) : list Addr :=
  omap (fun c => match c with CallCollect t true => Some t | _ => None end) tr.

(** The ticks a record of calls holds, and their sum. *)
Definition ticks_of (tr : list Call) : list Z :=
  omap (fun c => match c with CallTick n => Some n | _ => None end) tr.

Definition ticks_sum (tr : list Call) : Z :=
  fold_right Z.add 0 (ticks_of tr).

(** ** Notions used to state the properties *)

(** The two flags, the root and the assertion mark are left alone. *)
Definition same_flags (s s' : Shared) : Prop :=
  done s' = done s /\ cancel s' = cancel s /\ out s' = out s /\
  failed s' = failed s.

(** The state in which the task [tk] on the cell [t] leaves the loop body,
    by the way taken: no subdivision possible, or the verdict of the
    interval evaluation. *)
Definition body_of_task (eval : XTreeEvaluator) (max_err : float)
    (progress : option ProgressWatcher) (tk : Task) (t : Addr)
    (s0 : Shared) (w0 : Worker) : Shared * Worker * Flow :=
  let nb := local_neighbors tk t (heap s0) in
  if 0 <? level (region tk)
  then
    let s1 := (evalInterval eval (tape tk) (region tk) t s0).1 in
    let tp := (interval_verdict eval (tape tk) (region tk)).2 in
    match (interval_verdict eval (tape tk) (region tk)).1 with
    | VAmbiguous =>
        let c := push_children t tp (region tk) nb (seq 0 children_size) s1 w0 in
        (c.1, c.2, Continue)
    | _ =>
        let f := finish eval max_err progress true t (region tk) tp s1 in
        (f.1, w0, f.2)
    end
  else
    let s1 := evalLeaf eval (tape tk) (region tk) nb t s0 in
    let f := finish eval max_err progress false t (region tk) (tape tk) s1 in
    (f.1, w0, f.2).

(** The record of calls of [s'] continues that of [s]. *)
Definition extends (s s' : Shared) : Prop :=
  exists calls, trace s' = trace s ++ calls.

(** Every worker that has returned has set [done]. *)
Definition returned_done (m : Machine) : Prop :=
  forall i w, threads m !! i = Some w -> returned w = true ->
              done (shared m) = true.

(** One of the two flags that end the loop is set. *)
Definition stop_set (m : Machine) : Prop :=
  done (shared m) = true \/ cancel (shared m) = true.

(** Once [done] is set, the build was cancelled or the root has been dealt
    with. *)
Definition done_reason (m : Machine) : Prop :=
  done (shared m) = true ->
  cancel (shared m) = true \/ root_finished (trace (shared m)).

(** Every cell of the heap is the root, or belongs to the pool of a worker,
    or has been claimed by the root under construction. *)
Definition owned (m : Machine) : Prop :=
  forall a, is_Some (heap (shared m) !! a) ->
    a = [] \/ a ∈ claimed (out (shared m)) \/
    exists i w, threads m !! i = Some w /\ a ∈ object_pool w.

(** The pool of every worker that has returned has been claimed. *)
Definition pools_claimed (m : Machine) : Prop :=
  forall i w, threads m !! i = Some w -> returned w = true ->
    forall a, a ∈ object_pool w -> a ∈ claimed (out (shared m)).

(** The shape of the heap of a machine. *)
Definition machine_ok (m : Machine) : Prop :=
  tree_ok (heap (shared m)) (trace (shared m)) (targets (pending m)).

(** The states of a build whose root region has level 0 and whose [cancel]
    flag is never set: nothing has happened yet, or the one leaf has been
    evaluated and reported. *)
Definition leaf_root_state (tk : Task) (m : Machine) : Prop :=
  cancel (shared m) = false /\ failed (shared m) = false /\
  ((trace (shared m) = [] /\ done (shared m) = false /\
    items (tasks (shared m)) = [tk] /\
    forall i w, threads m !! i = Some w -> local w = [] /\ returned w = false)
   \/ (ticks_of (trace (shared m)) = [1] /\ done (shared m) = true)).

(** ** Notions used for the whole build *)

(** The cells that a record of calls shows as evaluated, by [evalInterval]
    or by [evalLeaf], in the order of the calls. *)
Definition evaluated (tr : list Call) : list Addr :=
  omap (fun c => match c with
                 | CallEvalInterval t _ => Some t
                 | CallEvalLeaf t => Some t
                 | _ => None
                 end) tr.

(** The cells that a record of calls shows as finished: evaluated as a
    leaf, found all empty or all filled by [evalInterval], or collected. *)
Definition finished (tr : list Call) : list Addr :=
  omap (fun c => match c with
                 | CallEvalLeaf t => Some t
                 | CallEvalInterval t Interval.AMBIGUOUS => None
                 | CallEvalInterval t _ => Some t
                 | CallCollect t true => Some t
                 | _ => None
                 end) tr.

(** The cells on which [collectChildren] was called, in the order of the
    calls. *)
Definition collect_calls (tr : list Call) : list Addr :=
  omap (fun c => match c with CallCollect t _ => Some t | _ => None end) tr.

(** The cells that the pools were asked for by [object_pool.get], in the
    order of the calls. *)
Definition made (tr : list Call) : list Addr :=
  omap (fun c => match c with CallGet t i => Some (i :: t) | _ => None end) tr.

(** The cells in the pools of the workers that are still in [run]; a worker
    that returns has handed its pool to the root. *)
Definition live_pools (l : list Worker) : list Addr :=
  concat (map (fun w => if returned w then [] else object_pool w) l).

(** A pass of worker [i], whose locals are [w], through the loop body. *)
Definition body_step (eval : nat -> XTreeEvaluator) (max_err : float)
    (progress : option ProgressWatcher)
    (free_thread_handler : option FreeThreadHandler)
    (i : nat) (w : Worker) (m : Machine) : Machine :=
  let b := run_body (eval i) max_err progress free_thread_handler (shared m) w in
  mkMachine b.1.1 (<[i := b.1.2]> (threads m)).

(** Worker [i], whose locals are [w], leaves [run]. *)
Definition exit_step (i : nat) (w : Worker) (m : Machine) : Machine :=
  mkMachine (run_exit (shared m) w).1 (<[i := (run_exit (shared m) w).2]> (threads m)).

(** The depth of a cell: the number of cells above it. *)
Definition depth (a : Addr) : Z := Z.of_nat (length a).

(** Every cell of the heap either waits for a pass or has been evaluated,
    and none does both or either twice. *)
Definition accounted (m : Machine) : Prop :=
  NoDup (targets (pending m) ++ evaluated (trace (shared m))) /\
  forall a, is_Some (heap (shared m) !! a) <->
            a ∈ targets (pending m) ++ evaluated (trace (shared m)).

(** The cells below a cell are there exactly when interval evaluation found
    the cell ambiguous, and then all [2^N] of them are. *)
Definition divided_when_ambiguous (m : Machine) : Prop :=
  forall j a, is_Some (heap (shared m) !! (j :: a)) <->
    (j < children_size)%nat /\
    CallEvalInterval a Interval.AMBIGUOUS ∈ trace (shared m).

(** The levels of a build whose root region has level [L]: the region of a
    pending task has the level of the root less the depth of its cell; no
    cell lies deeper than [L]; interval evaluation ran above depth [L] only
    and leaf evaluation at depth [L] or below. *)
Definition levels_ok (L : Z) (m : Machine) : Prop :=
  (forall tk a, tk ∈ pending m -> target tk = Some a ->
                level (region tk) = L - depth a) /\
  (forall a, is_Some (heap (shared m) !! a) -> depth a <= Z.max 0 L) /\
  (forall a v, CallEvalInterval a v ∈ trace (shared m) -> depth a < L) /\
  (forall a, CallEvalLeaf a ∈ trace (shared m) -> L <= depth a).

(** No cell is held twice: the cells claimed by the root and those in the
    pools of the workers still running are all different, all in the heap,
    and none is the root cell. *)
Definition claims_ok (m : Machine) : Prop :=
  NoDup (claimed (out (shared m)) ++ live_pools (threads m)) /\
  forall a, a ∈ claimed (out (shared m)) ++ live_pools (threads m) ->
            is_Some (heap (shared m) !! a) /\ a <> [].

(** The reports in a record of calls: with a watcher one tick for each cell
    finished, without a watcher none. *)
Definition reports_match (progress : option ProgressWatcher)
    (tr : list Call) : Prop :=
  match progress with
  | Some _ => length (ticks_of tr) = length (finished tr)
  | None => ticks_of tr = []
  end.

(** Every cell that the pools made is in the heap, and is held once: by the
    pool of a worker still running or by the root under construction. *)
Definition cells_held (m : Machine) : Prop :=
  (forall a, a ∈ made (trace (shared m)) <->
             is_Some (heap (shared m) !! a) /\ a <> []) /\
  claimed (out (shared m)) ++ live_pools (threads m) ≡ₚ made (trace (shared m)).

(** What the argument that no cell is finished twice keeps: the cells are
    accounted for, children follow ambiguous verdicts, [collectChildren] is
    called on ambiguous cells only, and the cells finished are all
    different as long as the cells collected are. *)
Definition finished_once (m : Machine) : Prop :=
  accounted m /\ divided_when_ambiguous m /\
  (forall p ok, CallCollect p ok ∈ trace (shared m) ->
                CallEvalInterval p Interval.AMBIGUOUS ∈ trace (shared m)) /\
  (NoDup (collected (trace (shared m))) -> NoDup (finished (trace (shared m)))).

(** The positions of depth [d] in a tree in which every cell has
    [children_size] children. *)
Fixpoint cells_at_depth (d : nat) : list Addr :=
  match d with
  | O => [[]]
  | S d' =>
      flat_map (fun a => map (fun j => j :: a) (seq 0 children_size))
               (cells_at_depth d')
  end.

(** The positions of depth at most [L]. *)
Definition cells_down_to (L : nat) : list Addr :=
  flat_map cells_at_depth (seq 0 (S L)).

(** ** Notions used for what [build] returns *)

(** Modelled from the spec: when [collectChildren], which is declared
    outside the translated file, answers true.  The parent counts the
    children that are still to come, and the cell is collected by "the
    worker that just finished the last pending child" (§4.3); "a parent's
    collectChildren is never called before all eight children's evaluations
    (and any of their own subtree collections) have completed" (§5).  In
    [run] the method is called after every cell that is finished (lines
    217-219), so it is the answer that tells the last child from the others:
    in the record of calls, every answer [true] on a cell comes after all
    the children of the cell were finished. *)
Definition collects_wait (tr : list Call) : Prop :=
  forall tr1 tr2 p, tr = tr1 ++ CallCollect p true :: tr2 ->
  forall j, (j < children_size)%nat -> (j :: p) ∈ finished tr1.

(** Modelled from the spec: when [collectChildren], which is declared
    outside the translated file, answers false.  The call that follows the
    last child "drives the counter to 0 and performs collectChildren"
    (§4.3, §9); the comments of [run] say the same ("don't do anything until
    all of its children are done", lines 176-181; "if all of the children
    are done, then ask the parent to collect them", lines 209-211).  In the
    record of calls, every answer [false] on a cell comes while a child of
    the cell is not finished yet. *)
Definition collects_prompt (tr : list Call) : Prop :=
  forall tr1 tr2 p, tr = tr1 ++ CallCollect p false :: tr2 ->
  exists j, (j < children_size)%nat /\ (j :: p) ∉ finished tr1.

(** All the children of [p] are among the cells [seen]. *)
Definition children_finished (seen : list Addr) (p : Addr) : bool :=
  forallb (fun j => bool_decide ((j :: p) ∈ seen)) (seq 0 children_size).

(** The two conditions, checked along a record of calls; [seen] are the
    cells finished so far. *)
Fixpoint answers_checked (seen : list Addr) (tr : list Call) : bool :=
  match tr with
  | [] => true
  | c :: rest =>
      match c with
      | CallCollect p ok => Bool.eqb ok (children_finished seen p)
      | _ => true
      end && answers_checked (seen ++ finished [c]) rest
  end.

(** A list of events in which every worker makes a pass and nobody sets
    [cancel]. *)
Definition fair_round (workers : nat) (round : list Event) : Prop :=
  (SetCancel ∉ round) /\ forall j, (j < workers)%nat -> Pass j ∈ round.

(** The task that a build gives to the cell at the position [a], if the
    build comes to make that cell: the root has the tape of the evaluator
    and the root region; the child [j] of a cell whose region has
    [level > 0] and that interval evaluation finds ambiguous has the tape
    that the evaluation returned and the region [subdivide(region)[j]]; no
    other cell is made. *)
Fixpoint task_of (e : XTreeEvaluator) (root_region : Region) (a : Addr)
  : option (Tape * Region) :=
  match a with
  | [] => Some (deck_tape e, root_region)
  | j :: p =>
      match task_of e root_region p with
      | Some (tp, r) =>
          if (0 <? level r) && (j <? children_size)%nat
          then match (interval_verdict e tp r).1 with
               | VAmbiguous => Some ((interval_verdict e tp r).2, subdivide r j)
               | _ => None
               end
          else None
      | None => None
      end
  end.

(** The classification that the evaluation of the cell at [a] leaves:
    the verdict of interval evaluation when the region has [level > 0],
    else what [evalLeaf] writes; [UNKNOWN] where no cell is made. *)
Definition type_of (e : XTreeEvaluator) (root_region : Region) (a : Addr)
  : Interval.State :=
  match task_of e root_region a with
  | Some (tp, r) =>
      if 0 <? level r
      then of_verdict (interval_verdict e tp r).1
      else type (leaf_eval e tp r neighbors_default new_cell)
  | None => Interval.UNKNOWN
  end.

(** The cells on which [evalLeaf] ran are classified. *)
Definition leaves_classified (m : Machine) : Prop :=
  accounted m /\
  forall a, CallEvalLeaf a ∈ trace (shared m) ->
            type_at (heap (shared m)) a <> Interval.UNKNOWN.

(** The tasks and the evaluations of a build follow [task_of]. *)
Definition follows_tree (e : XTreeEvaluator) (root_region : Region)
    (m : Machine) : Prop :=
  accounted m /\
  (forall tk a, tk ∈ pending m -> target tk = Some a ->
     task_of e root_region a = Some (tape tk, region tk)) /\
  (forall a v, CallEvalInterval a v ∈ trace (shared m) ->
     exists tp r, task_of e root_region a = Some (tp, r) /\ 0 < level r /\
                  v = of_verdict (interval_verdict e tp r).1) /\
  (forall a, CallEvalLeaf a ∈ trace (shared m) ->
     exists tp r, task_of e root_region a = Some (tp, r) /\ level r <= 0 /\
       type_at (heap (shared m)) a
       = type (leaf_eval e tp r neighbors_default new_cell)).

(** A cell that interval evaluation found ambiguous has been collected as
    soon as all its children are finished. *)
Definition collected_when_done (m : Machine) : Prop :=
  forall p, CallEvalInterval p Interval.AMBIGUOUS ∈ trace (shared m) ->
    (forall j, (j < children_size)%nat -> (j :: p) ∈ finished (trace (shared m))) ->
    p ∈ finished (trace (shared m)).

(** What the argument for termination keeps, in a build in which
    [collectChildren] answers false only while a child is not finished. *)
Definition prompt_build (m : Machine) : Prop :=
  finished_once m /\
  (collects_prompt (trace (shared m)) -> collected_when_done m).

(** Once the root has been dealt with, [done] is set. *)
Definition root_done (m : Machine) : Prop :=
  [] ∈ finished (trace (shared m)) -> done (shared m) = true.

(** ** Passes that overlap *)

(** The loop over the children while the other workers go on: the cells
    come from the worker's own pool, but the tasks go to the stack that
    all share, and between the pushes of two children the others can take
    tasks from it and push theirs.  [others i] is what they have made of
    the shared state when child [i] is pushed. *)
Fixpoint push_children_among (others : nat -> Shared -> Shared)
    (t : Addr) (tp : Tape) (r : Region) (nb : Neighbors)
    (todo : list nat) (s : Shared) (w : Worker) : Shared * Worker :=
  match todo with
  | [] => (s, w)
  | i :: rest =>
      let '(next_tree, s1, w1) := pool_get t i s w in
      let next := mkTask (Some next_tree) tp (subdivide r i) nb in
      let s2 := others i s1 in
      let '(pushed, q) := stack_bounded_push next (tasks s2) in
      if pushed
      then push_children_among others t tp r nb rest (set_tasks q s2) w1
      else push_children_among others t tp r nb rest s2
             (set_local (next :: local w1) w1)
  end.

(** [step] takes a pass of the loop in one piece.  In [run] the two flags
    are read in the condition of the loop only (line 110): a worker that
    has entered the body finishes it, whatever is stored in the flags
    meanwhile.  The moments below take a pass in two pieces, the condition
    and the body, so that a flag can be set between the two. *)
Inductive Moment : Set :=
| Head (i : nat)
| Body (i : nat)
| Cancelled.

(** A machine, and for every worker whether it has read the flags and is
    in the body of its loop. *)
Record Overlap : Type := mkOverlap {
  machine : Machine;
  inside : list bool
}.

(** Worker [i] at the condition of its loop: it enters the body, or leaves
    [run]. *)
Definition head_step (i : nat) (w : Worker) (o : Overlap) : Overlap :=
  let m := machine o in
  if negb (done (shared m)) && negb (cancel (shared m))
  then mkOverlap m (<[i := true]> (inside o))
  else
    let '(s', w') := run_exit (shared m) w in
    mkOverlap (mkMachine s' (<[i := w']> (threads m))) (inside o).

(** Worker [i] through the body it has entered, and what follows a
    [break]. *)
Definition inside_step (eval : nat -> XTreeEvaluator) (max_err : float)
    (progress : option ProgressWatcher)
    (free_thread_handler : option FreeThreadHandler)
    (i : nat) (w : Worker) (o : Overlap) : Overlap :=
  let m := machine o in
  let '(s1, w1) :=
    match run_body (eval i) max_err progress free_thread_handler (shared m) w with
    | (s', w', Continue) => (s', w')
    | (s', w', Break) => run_exit s' w'
    | (s', w', Abort) => (s', w')
    end in
  mkOverlap (mkMachine s1 (<[i := w1]> (threads m))) (<[i := false]> (inside o)).

Definition moment (eval : nat -> XTreeEvaluator) (max_err : float)
    (progress : option ProgressWatcher)
    (free_thread_handler : option FreeThreadHandler)
    (e : Moment) (o : Overlap) : Overlap :=
  let m := machine o in
  if failed (shared m) then o
  else
    match e with
    | Cancelled =>
        mkOverlap (mkMachine (set_cancel true (shared m)) (threads m)) (inside o)
    | Head i =>
        match threads m !! i, inside o !! i with
        | Some w, Some false => if returned w then o else head_step i w o
        | _, _ => o
        end
    | Body i =>
        match threads m !! i, inside o !! i with
        | Some w, Some true =>
            inside_step eval max_err progress free_thread_handler i w o
        | _, _ => o
        end
    end.

Fixpoint overlapped (eval : nat -> XTreeEvaluator) (max_err : float)
    (progress : option ProgressWatcher)
    (free_thread_handler : option FreeThreadHandler)
    (ms : list Moment) (o : Overlap) : Overlap :=
  match ms with
  | [] => o
  | e :: rest =>
      overlapped eval max_err progress free_thread_handler rest
                 (moment eval max_err progress free_thread_handler e o)
  end.

(** The state in which the moments [ms] leave the build. *)
Definition build_overlapped (eval : nat -> XTreeEvaluator) (region_ : Region)
    (min_feature max_err : double) (workers : nat) (cancel : bool)
    (progress_callback : option ProgressCallback)
    (free_thread_handler : option FreeThreadHandler)
    (ms : list Moment) : Overlap :=
  overlapped eval (to_float max_err)
             (build_watcher region_ min_feature progress_callback)
             free_thread_handler ms
             (mkOverlap (build_start eval region_ min_feature workers cancel)
                        (replicate workers false)).

(** The moments of a schedule in which no two passes overlap. *)
Definition apart (sched : list Event) : list Moment :=
  flat_map (fun e => match e with
                     | Pass i => [Head i; Body i]
                     | SetCancel => [Cancelled]
                     end) sched.

(** The number of workers in the body of their loop. *)
Definition in_flight (o : Overlap) : nat :=
  length (filter (fun b => b = true) (inside o)).

End Pool.

(** ** A small instance *)

Module Toy.

(** A cube of side [side] (in units of the smallest feature that can be
    asked for) and its level. *)
Record ToyRegion : Set := mkToyRegion {
  side : Z;
  lvl : Z
}.

(** An instance in which everything can be computed: interval evaluation
    answers [iv] of the level of the region, [evalLeaf] finds its cell
    filled, and [collectChildren] answers [ok] on the last of the [2^3]
    calls made on a cell (the payload counts them). *)
Definition params (iv : Z -> Verdict) (ok : bool) : Params := {|
  N := 3;
  Tape := nat;
  Region := ToyRegion;
  Region3 := ToyRegion;
  Neighbors := list nat;
  XTreeEvaluator := nat;
  Tree := nat;
  Leaf := nat;
  double := Z;
  float := Z;
  ProgressCallback := unit;
  FreeThreadHandler := unit;
  level := lvl;
  withResolution := fun r min_feature =>
    mkToyRegion (side r) (Z.log2_up (side r / min_feature));
  subdivide := fun r _ => mkToyRegion (side r / 2) (lvl r - 1);
  region_parent := fun r _ => mkToyRegion (side r * 2) (lvl r + 1);
  region3 := fun r => r;
  getBase := fun tp _ => Nat.pred tp;
  deck_tape := fun _ => O;
  make_evaluator := fun t => t;
  neighbors_default := [];
  neighbors_push := fun nb i _ => i :: nb;
  to_float := fun x => x;
  leaf_init := O;
  interval_verdict := fun _ tp r => (iv (lvl r), S tp);
  leaf_eval := fun _ _ _ _ c => mkCell Interval.FILLED (leaf c);
  collect_eval := fun _ _ _ _ h t =>
    let n := S (leaf (default (mkCell Interval.UNKNOWN O) (h !! t))) in
    ((n =? 8)%nat && ok, n)
|}.

(** Every region that can be divided is ambiguous. *)
Definition all_ambiguous : Z -> Verdict := fun _ => VAmbiguous.

(** Every region that can be divided is empty. *)
Definition all_empty : Z -> Verdict := fun _ => VEmpty.

(** A region of side 1: asking for features of size 1 gives level 0. *)
Definition unit_cube : ToyRegion := mkToyRegion 1 0.

(** A region of side 2: asking for features of size 1 gives level 1. *)
Definition two_cube : ToyRegion := mkToyRegion 2 0.

(** A region of side [2^22]: asking for features of size 1 gives level 22. *)
Definition big_cube : ToyRegion := mkToyRegion (2 ^ 22) 0.

(** The schedule in which worker 0 makes [n] passes. *)
Definition solo (n : nat) : list Event := replicate n (Pass O).

(** The two instances used below, and an array of evaluators. *)
Definition amb : Params := params all_ambiguous true.
Definition emp : Params := params all_empty true.
Definition evals : nat -> nat := fun _ => O.

(** The watcher of the builds below that have a callback. *)
Definition watcher72 : ProgressWatcher (P := amb) := mkWatcher (P := amb) 72 0 tt.

(** The workers of a level-1 build with one worker, where every cell that
    can be divided is ambiguous, run under [sched] with the progress
    pointer [progress]. *)
Definition level1_run (progress : option (ProgressWatcher (P := amb)))
    (sched : list Event) : Machine (P := amb) :=
  exec (P := amb) evals 0 progress None sched
       (build_start (P := amb) evals two_cube 1 1 false).

(** That build after the root and seven of its eight leaves were done. *)
Definition last_leaf_left : Machine (P := amb) :=
  level1_run (Some watcher72) (solo 8).

(** The first pass of a level-1 build: the root task is in the shared
    stack. *)
Definition two_cube_start : Shared (P := amb) :=
  shared (build_start (P := amb) evals two_cube 1 1 false).

Definition two_cube_root_task : Task (P := amb) :=
  mkTask (P := amb) (Some []) O (mkToyRegion 2 1) [].

Definition unit_cube_start : Shared (P := amb) :=
  shared (build_start (P := amb) evals unit_cube 1 1 false).

Definition unit_cube_root_task : Task (P := amb) :=
  mkTask (P := amb) (Some []) O (mkToyRegion 1 0) [].

(** The same for the instance in which every region is empty. *)
Definition emp_watcher72 : ProgressWatcher (P := emp) := mkWatcher (P := emp) 72 0 tt.

Definition emp_two_cube_start : Shared (P := emp) :=
  shared (build_start (P := emp) evals two_cube 1 1 false).

Definition emp_two_cube_root_task : Task (P := emp) :=
  mkTask (P := emp) (Some []) O (mkToyRegion 2 1) [].

Definition emp_big_cube_start : Shared (P := emp) :=
  shared (build_start (P := emp) evals big_cube 1 1 false).

(** The worker of [last_leaf_left]. *)
Definition last_leaf_worker : Worker (P := amb) :=
  default Worker_start (threads last_leaf_left !! O).

(** The instance in two dimensions, as
    [WorkerPool<HybridTree<2>, HybridNeighbors<2>, 2>] is instantiated in
    [hybrid_pool2.cpp]: a cell has [2^2] children, and [collectChildren]
    answers true on the last of the 4 calls made on a cell. *)
Definition flat : Params := {|
  N := 2;
  Tape := nat;
  Region := ToyRegion;
  Region3 := ToyRegion;
  Neighbors := list nat;
  XTreeEvaluator := nat;
  Tree := nat;
  Leaf := nat;
  double := Z;
  float := Z;
  ProgressCallback := unit;
  FreeThreadHandler := unit;
  level := lvl;
  withResolution := fun r min_feature =>
    mkToyRegion (side r) (Z.log2_up (side r / min_feature));
  subdivide := fun r _ => mkToyRegion (side r / 2) (lvl r - 1);
  region_parent := fun r _ => mkToyRegion (side r * 2) (lvl r + 1);
  region3 := fun r => r;
  getBase := fun tp _ => Nat.pred tp;
  deck_tape := fun _ => O;
  make_evaluator := fun t => t;
  neighbors_default := [];
  neighbors_push := fun nb i _ => i :: nb;
  to_float := fun x => x;
  leaf_init := O;
  interval_verdict := fun _ tp r => (VAmbiguous, S tp);
  leaf_eval := fun _ _ _ _ c => mkCell Interval.FILLED (leaf c);
  collect_eval := fun _ _ _ _ h t =>
    let n := S (leaf (default (mkCell Interval.UNKNOWN O) (h !! t))) in
    ((n =? 4)%nat, n)
|}.

(** The first pass of a level-1 build in two dimensions with a shared
    stack of capacity 3. *)
Definition flat_start : Shared (P := flat) :=
  shared (build_start (P := flat) evals two_cube 1 3 false).

Definition flat_root_task : Task (P := flat) :=
  mkTask (P := flat) (Some []) O (mkToyRegion 2 1) [].

(** The instance in which every region that can be divided is ambiguous and
    [collectChildren] never answers true. *)
Definition stuck : Params := params all_ambiguous false.

(** A level-1 build of that instance with one worker, after the root and its
    eight leaves were done: no task is left and no flag is set. *)
Definition stuck_run : Machine (P := stuck) :=
  exec (P := stuck) evals 0 None None (solo 9)
       (build_start (P := stuck) evals two_cube 1 1 false).

Definition stuck_worker : Worker (P := stuck) :=
  default Worker_start (threads stuck_run !! O).

(** [n] rounds in each of which worker 0, then worker 1, makes a pass. *)
Definition rounds2 (n : nat) : list (list Event) :=
  replicate n [Pass 0; Pass 1]%nat.

(** A level-1 build with one worker, and with two workers taking turns. *)
Definition one_worker : list nat := replicate 9 O.
Definition two_workers : list nat := concat (replicate 11 [0; 1]%nat).

(** Nobody else touches the shared state. *)
Definition alone : nat -> Shared (P := flat) -> Shared (P := flat) :=
  fun _ s => s.

(** The instance in which every region that can be divided is ambiguous and
    [collectChildren] answers true at once, whatever the children. *)
Definition eager : Params := {|
  N := 3;
  Tape := nat;
  Region := ToyRegion;
  Region3 := ToyRegion;
  Neighbors := list nat;
  XTreeEvaluator := nat;
  Tree := nat;
  Leaf := nat;
  double := Z;
  float := Z;
  ProgressCallback := unit;
  FreeThreadHandler := unit;
  level := lvl;
  withResolution := fun r min_feature =>
    mkToyRegion (side r) (Z.log2_up (side r / min_feature));
  subdivide := fun r _ => mkToyRegion (side r / 2) (lvl r - 1);
  region_parent := fun r _ => mkToyRegion (side r * 2) (lvl r + 1);
  region3 := fun r => r;
  getBase := fun tp _ => Nat.pred tp;
  deck_tape := fun _ => O;
  make_evaluator := fun t => t;
  neighbors_default := [];
  neighbors_push := fun nb i _ => i :: nb;
  to_float := fun x => x;
  leaf_init := O;
  interval_verdict := fun _ tp r => (VAmbiguous, S tp);
  leaf_eval := fun _ _ _ _ c => mkCell Interval.FILLED (leaf c);
  collect_eval := fun _ _ _ _ h t =>
    (true, S (leaf (default (mkCell Interval.UNKNOWN O) (h !! t))))
|}.

(** A level-1 build of that instance with one worker, after two passes. *)
Definition eager_run : Machine (P := eager) :=
  build_run (P := eager) evals two_cube 1 0 1 false None None (solo 2).

End Toy.

(** ** Facts about the progress arithmetic *)

Section TickFacts.

Import Ticks.

Lemma wrap64_idem z : wrap64 (wrap64 z) = wrap64 z.
Proof. unfold wrap64, uint64_mod. apply Z.mod_mod. lia. Qed.

Lemma wrap64_small z : 0 <= z < uint64_mod -> wrap64 z = z.
Proof. intros H. unfold wrap64. apply Z.mod_small. exact H. Qed.

Lemma tick_body_wrap N z :
  tick_body N (wrap64 z) = wrap64 ((z + 1) * 2 ^ Z.of_nat N).
Proof.
  unfold tick_body, wrap64, uint64_mod.
  rewrite Z.shiftl_1_l.
  rewrite (Z.mul_mod (z mod 2 ^ 64 + 1)) by lia.
  rewrite (Z.add_mod (z mod 2 ^ 64)) by lia.
  rewrite Z.mod_mod by lia.
  rewrite <- Z.add_mod by lia.
  rewrite <- Z.mul_mod by lia.
  reflexivity.
Qed.

(** The loop started at pass [i] with [k] passes left adds [k] steps of the
    recurrence. *)
Lemma tick_for_recurrence N (k : nat) :
  forall (j : nat) (level : Z),
    level + 1 = Z.of_nat j + Z.of_nat k ->
    tick_for N k (Z.of_nat j) level (wrap64 (recurrence N j))
    = wrap64 (recurrence N (j + k)).
Proof.
  induction k as [|k IH]; intros j level Hlen; simpl.
  - rewrite Nat.add_0_r. reflexivity.
  - destruct (Z.leb_spec (Z.of_nat j) level) as [_|Hgt]; [|lia].
    rewrite tick_body_wrap.
    replace (Z.of_nat j + 1) with (Z.of_nat (S j)) by lia.
    change ((recurrence N j + 1) * 2 ^ Z.of_nat N) with (recurrence N (S j)).
    rewrite IH by lia.
    f_equal. f_equal. lia.
Qed.

Lemma level_ticks_negative N level : level < 0 -> level_ticks N level = 0.
Proof.
  intros Hl. unfold level_ticks.
  replace (Z.to_nat (level + 1)) with O by lia. reflexivity.
Qed.

Lemma level_ticks_recurrence N level :
  level_ticks N level = wrap64 (recurrence N (Z.to_nat (level + 1))).
Proof.
  destruct (Z.lt_ge_cases level 0) as [Hneg|Hl].
  - rewrite level_ticks_negative by exact Hneg.
    replace (Z.to_nat (level + 1)) with O by lia. reflexivity.
  - unfold level_ticks.
    change 0 with (Z.of_nat 0) at 1.
    change 0 with (wrap64 (recurrence N 0)).
    rewrite (tick_for_recurrence N (Z.to_nat (level + 1)) 0 level) by lia.
    reflexivity.
Qed.

Lemma recurrence_nonneg N i : 0 <= recurrence N i.
Proof. induction i; simpl; [lia|]. apply Z.mul_nonneg_nonneg; lia. Qed.

Lemma recurrence_mono N i : recurrence N i <= recurrence N (S i).
Proof.
  pose proof (recurrence_nonneg N i) as H0. simpl.
  assert (1 <= 2 ^ Z.of_nat N) by (apply (Z.pow_le_mono_r 2 0); lia).
  nia.
Qed.

Lemma recurrence_mono_le N i j : (i <= j)%nat -> recurrence N i <= recurrence N j.
Proof.
  induction 1 as [|j _ IH]; [lia|].
  pose proof (recurrence_mono N j). lia.
Qed.

(** In three dimensions the budget of a region of level at most 20 fits in
    64 bits. *)
Lemma recurrence3_fits i : (i <= 21)%nat -> 0 <= recurrence 3 i < uint64_mod.
Proof.
  intros Hi. split; [apply recurrence_nonneg|].
  apply Z.le_lt_trans with (recurrence 3 21).
  - apply recurrence_mono_le. exact Hi.
  - vm_compute. reflexivity.
Qed.

End TickFacts.

(** ** Facts about the cell methods and one pass of the loop *)

Section PoolFacts.

Context {P : Params}.

Local Abbreviation Heap := (gmap Addr (Cell Leaf)).

Lemma cell_at_insert (h : Heap) t c : cell_at (<[t := c]> h) t = c.
Proof. unfold cell_at. rewrite lookup_insert_eq. reflexivity. Qed.

Lemma cell_at_insert_ne (h : Heap) t u c :
  t ≠ u -> cell_at (<[t := c]> h) u = cell_at h u.
Proof. intros Hne. unfold cell_at. rewrite lookup_insert_ne by exact Hne. reflexivity. Qed.

Lemma type_at_insert (h : Heap) t c : type_at (<[t := c]> h) t = type c.
Proof. unfold type_at. rewrite cell_at_insert. reflexivity. Qed.

Lemma type_at_insert_ne (h : Heap) t u c :
  t ≠ u -> type_at (<[t := c]> h) u = type_at h u.
Proof. intros Hne. unfold type_at. rewrite cell_at_insert_ne by exact Hne. reflexivity. Qed.

Lemma of_verdict_known v : of_verdict v ≠ Interval.UNKNOWN.
Proof. destruct v; discriminate. Qed.

(** *** [evalInterval] *)

Lemma evalInterval_eq eval tp r t s :
  evalInterval eval tp r t s =
  (record_call (CallEvalInterval t (of_verdict (interval_verdict eval tp r).1))
     (set_heap (<[t := mkCell (of_verdict (interval_verdict eval tp r).1)
                              (leaf (cell_at (heap s) t))]> (heap s)) s),
   (interval_verdict eval tp r).2).
Proof. unfold evalInterval. destruct (interval_verdict eval tp r). reflexivity. Qed.

Lemma evalInterval_type eval tp r t s :
  type_at (heap (evalInterval eval tp r t s).1) t
  = of_verdict (interval_verdict eval tp r).1.
Proof. rewrite evalInterval_eq. simpl. apply type_at_insert. Qed.

Lemma collectChildren_eq eval tp r max_err t s :
  collectChildren eval tp r max_err t s =
  ((collect_eval eval tp r max_err (heap s) t).1,
   record_call (CallCollect t (collect_eval eval tp r max_err (heap s) t).1)
     (set_heap (<[t := mkCell (type (cell_at (heap s) t))
                              (collect_eval eval tp r max_err (heap s) t).2]>
                  (heap s)) s)).
Proof. unfold collectChildren. destruct (collect_eval _ _ _ _ _ _). reflexivity. Qed.

Lemma tick_trace progress n s :
  trace (tick progress n s) = trace s ++ emitted progress n.
Proof. destruct progress; simpl; [reflexivity|]. rewrite app_nil_r. reflexivity. Qed.

(** *** The walk towards the root *)

(** The loop of [climb], one turn unfolded: [up] gives the next cell, region
    and tape. *)
Lemma climb_up eval max_err progress t r tp s :
  climb eval max_err progress t r tp s =
  let '(t1, r1, tp1) := up t r tp in
  match t1 with
  | None => (None, s)
  | Some p =>
      let '(ok, s1) := collectChildren eval tp1 r1 max_err p s in
      if ok
      then climb eval max_err progress p r1 tp1 (tick progress 1 s1)
      else (Some p, s1)
  end.
Proof. destruct t as [|i p]; reflexivity. Qed.

Lemma climb_trace eval max_err progress t :
  forall r tp s t' s',
    climb eval max_err progress t r tp s = (t', s') ->
    exists k : nat,
      trace s' = trace s ++ climb_calls progress t k t' /\
      match t' with
      | None => k = length (ancestors t)
      | Some p => ancestors t !! k = Some p
      end.
Proof.
  induction t as [|i p IH]; intros r tp s t' s' Hc; simpl in Hc.
  - inversion Hc; subst. exists O. unfold climb_calls. simpl.
    rewrite app_nil_r. auto.
  - rewrite collectChildren_eq in Hc.
    destruct (collect_eval _ _ _ _ _ _) as [ok lf] eqn:Hce; simpl in Hc.
    destruct ok.
    + apply IH in Hc. destruct Hc as (k & Htr & Hk).
      exists (S k). split.
      * rewrite Htr, tick_trace. simpl. unfold climb_calls. simpl.
        rewrite <- !app_assoc. reflexivity.
      * destruct t'; simpl; [exact Hk | congruence].
    + inversion Hc; subst. exists O. split; [|reflexivity].
      unfold climb_calls. simpl. reflexivity.
Qed.

(** *** The flags *)

Lemma same_flags_refl s : same_flags s s.
Proof. unfold same_flags. auto. Qed.

Lemma same_flags_trans s1 s2 s3 :
  same_flags s1 s2 -> same_flags s2 s3 -> same_flags s1 s3.
Proof. unfold same_flags. intros (?&?&?&?) (?&?&?&?). repeat split; congruence. Qed.

Ltac flags_by_fields := unfold same_flags; simpl; auto.

Lemma tick_flags progress n s : same_flags s (tick progress n s).
Proof. destruct progress; flags_by_fields. Qed.

Lemma offerWait_flags fth s : same_flags s (offerWait fth s).
Proof. destruct fth; flags_by_fields. Qed.

Lemma evalInterval_flags eval tp r t s :
  same_flags s (evalInterval eval tp r t s).1.
Proof. rewrite evalInterval_eq. flags_by_fields. Qed.

Lemma evalLeaf_flags eval tp r nb t s : same_flags s (evalLeaf eval tp r nb t s).
Proof. flags_by_fields. Qed.

Lemma collectChildren_flags eval tp r max_err t s :
  same_flags s (collectChildren eval tp r max_err t s).2.
Proof. rewrite collectChildren_eq. flags_by_fields. Qed.

Lemma climb_flags eval max_err progress t :
  forall r tp s, same_flags s (climb eval max_err progress t r tp s).2.
Proof.
  induction t as [|i p IH]; intros r tp s; simpl.
  - apply same_flags_refl.
  - rewrite collectChildren_eq.
    destruct (collect_eval _ _ _ _ _ _) as [[] lf]; simpl.
    + eapply same_flags_trans; [|apply IH].
      eapply same_flags_trans; [|apply tick_flags]. flags_by_fields.
    + flags_by_fields.
Qed.

Lemma finish_eq eval max_err progress can t r tp s :
  finish eval max_err progress can t r tp s =
  let c := climb eval max_err progress t r tp
             (tick progress (if can then Ticks.level_ticks N (level r) else 1) s) in
  (c.2, match c.1 with None => Break | Some _ => Continue end).
Proof.
  unfold finish.
  destruct can; destruct (climb _ _ _ _ _ _ _) as [[q|] s2]; reflexivity.
Qed.

Lemma finish_flags eval max_err progress can t r tp s :
  same_flags s (finish eval max_err progress can t r tp s).1.
Proof.
  rewrite finish_eq. simpl.
  eapply same_flags_trans; [apply tick_flags | apply climb_flags].
Qed.

Lemma push_children_flags t tp r nb todo :
  forall s w, same_flags s (push_children t tp r nb todo s w).1.
Proof.
  induction todo as [|i rest IH]; intros s w; simpl.
  - apply same_flags_refl.
  - unfold stack_bounded_push. simpl.
    destruct (_ <? _)%nat; simpl;
      (eapply same_flags_trans; [|apply IH]); flags_by_fields.
Qed.

(** *** Taking a task *)

Lemma take_task_cases s w :
  (exists tk, local w = tk :: local (take_task s w).2 /\
     take_task s w = (Some tk, s, set_local (local (take_task s w).2) w)) \/
  (local w = [] /\ exists tk rest,
     items (tasks s) = tk :: rest /\
     take_task s w = (Some tk, set_tasks (mkStack rest (capacity (tasks s))) s, w)) \/
  (local w = [] /\ items (tasks s) = [] /\ take_task s w = (None, s, w)).
Proof.
  unfold take_task, stack_pop.
  destruct (local w) as [|tk rest] eqn:Hl.
  - destruct (items (tasks s)) as [|tk rest] eqn:Hi.
    + right. right. destruct s; auto.
    + right. left. split; [reflexivity|]. exists tk, rest. auto.
  - left. exists tk. simpl. auto.
Qed.

Lemma take_task_flags s w : same_flags s (take_task s w).1.2.
Proof.
  destruct (take_task_cases s w) as [(tk&_&->)|[(_&tk&rest&_&->)|(_&_&->)]];
    flags_by_fields.
Qed.

Lemma take_task_heap s w : heap (take_task s w).1.2 = heap s.
Proof.
  destruct (take_task_cases s w) as [(tk&_&->)|[(_&tk&rest&_&->)|(_&_&->)]];
    reflexivity.
Qed.

Lemma take_task_trace s w : trace (take_task s w).1.2 = trace s.
Proof.
  destruct (take_task_cases s w) as [(tk&_&->)|[(_&tk&rest&_&->)|(_&_&->)]];
    reflexivity.
Qed.

(** *** The four ways through the loop body *)

Lemma run_body_eq eval max_err progress fth s w :
  run_body eval max_err progress fth s w =
  let '(task, s0, w0) := take_task s w in
  match task ≫= (fun tk => (fun t => (tk, t)) <$> target tk) with
  | None => (offerWait fth s0, w0, Continue)
  | Some (tk, t) => body_of_task eval max_err progress tk t s0 w0
  end.
Proof.
  unfold run_body, body_of_task.
  destruct (take_task s w) as [[[tk|] s0] w0]; simpl; [|reflexivity].
  destruct (target tk) as [t|]; simpl; [|reflexivity].
  destruct (0 <? level (region tk)).
  - pose proof (evalInterval_type eval (tape tk) (region tk) t s0) as Hty.
    rewrite (evalInterval_eq eval (tape tk) (region tk) t s0) in *.
    simpl in *. rewrite Hty.
    destruct (interval_verdict eval (tape tk) (region tk)) as [[] tp]; simpl.
    + destruct (finish _ _ _ _ _ _ _ _). reflexivity.
    + destruct (finish _ _ _ _ _ _ _ _). reflexivity.
    + destruct (push_children _ _ _ _ _ _ _). reflexivity.
  - destruct (finish _ _ _ _ _ _ _ _). reflexivity.
Qed.

Lemma body_of_task_flags eval max_err progress tk t s0 w0 :
  same_flags s0 (body_of_task eval max_err progress tk t s0 w0).1.1.
Proof.
  unfold body_of_task.
  destruct (0 <? level (region tk)).
  - destruct (interval_verdict eval (tape tk) (region tk)).1; simpl;
      (eapply same_flags_trans; [apply evalInterval_flags|]);
      first [apply finish_flags | apply push_children_flags].
  - simpl. eapply same_flags_trans; [|apply finish_flags]. apply evalLeaf_flags.
Qed.

Lemma push_children_returned t tp r nb todo :
  forall s w, returned (push_children t tp r nb todo s w).2 = returned w.
Proof.
  induction todo as [|i rest IH]; intros s w; simpl; [reflexivity|].
  unfold stack_bounded_push. simpl.
  destruct (_ <? _)%nat; simpl; rewrite IH; reflexivity.
Qed.

Lemma body_of_task_returned eval max_err progress tk t s0 w0 :
  returned (body_of_task eval max_err progress tk t s0 w0).1.2 = returned w0.
Proof.
  unfold body_of_task.
  destruct (0 <? level (region tk)); [|reflexivity].
  destruct (interval_verdict eval (tape tk) (region tk)).1; simpl;
    try reflexivity.
  apply push_children_returned.
Qed.

Lemma body_of_task_flow eval max_err progress tk t s0 w0 :
  (body_of_task eval max_err progress tk t s0 w0).2 ≠ Abort.
Proof.
  unfold body_of_task.
  destruct (0 <? level (region tk)).
  - destruct (interval_verdict eval (tape tk) (region tk)).1; simpl;
      try discriminate; rewrite finish_eq; simpl;
      destruct (climb _ _ _ _ _ _ _).1; discriminate.
  - simpl. rewrite finish_eq; simpl.
    destruct (climb _ _ _ _ _ _ _).1; discriminate.
Qed.

Lemma take_task_returned s w : returned (take_task s w).2 = returned w.
Proof.
  destruct (take_task_cases s w) as [(tk&_&->)|[(_&tk&rest&_&->)|(_&_&->)]];
    reflexivity.
Qed.

(** The loop body leaves the flags alone, never ends on a failed assertion,
    and does not make the worker return. *)
Lemma run_body_frame eval max_err progress fth s w :
  same_flags s (run_body eval max_err progress fth s w).1.1 /\
  returned (run_body eval max_err progress fth s w).1.2 = returned w /\
  (run_body eval max_err progress fth s w).2 ≠ Abort.
Proof.
  rewrite run_body_eq.
  pose proof (take_task_flags s w) as Hf.
  pose proof (take_task_returned s w) as Hr.
  destruct (take_task s w) as [[task s0] w0]. simpl in Hf, Hr.
  destruct (task ≫= _) as [[tk t]|].
  - split; [|split].
    + eapply same_flags_trans; [exact Hf | apply body_of_task_flags].
    + rewrite body_of_task_returned. exact Hr.
    + apply body_of_task_flow.
  - simpl. split; [|split; [exact Hr | discriminate]].
    eapply same_flags_trans; [exact Hf | apply offerWait_flags].
Qed.

(** *** One pass *)

Lemma run_pass_exit eval max_err progress fth s w :
  done s = true \/ cancel s = true ->
  run_pass eval max_err progress fth s w = run_exit s w.
Proof.
  intros H. unfold run_pass.
  destruct (done s), (cancel s); simpl; try reflexivity.
  destruct H; discriminate.
Qed.

(** A pass either leaves the worker in the loop, with the flags as they
    were, or takes it through [run_exit]. *)
Lemma run_pass_cases eval max_err progress fth s w :
  (same_flags s (run_pass eval max_err progress fth s w).1 /\
   returned (run_pass eval max_err progress fth s w).2 = returned w) \/
  (exists s1 w1, same_flags s s1 /\
     run_pass eval max_err progress fth s w = run_exit s1 w1).
Proof.
  unfold run_pass.
  destruct (negb (done s) && negb (cancel s)).
  - destruct (run_body_frame eval max_err progress fth s w) as (Hf & Hr & Hfl).
    destruct (run_body eval max_err progress fth s w) as [[s' w'] fl].
    simpl in *. destruct fl.
    + left. auto.
    + right. exists s', w'. auto.
    + congruence.
  - right. exists s, w. split; [apply same_flags_refl | reflexivity].
Qed.

Lemma run_pass_failed eval max_err progress fth s w :
  failed (run_pass eval max_err progress fth s w).1 = failed s.
Proof.
  destruct (run_pass_cases eval max_err progress fth s w)
    as [[(_&_&_&Hf) _]|(s1&w1&(_&_&_&Hf)&->)]; [exact Hf|].
  simpl. exact Hf.
Qed.

Lemma run_pass_cancel eval max_err progress fth s w :
  cancel (run_pass eval max_err progress fth s w).1 = cancel s.
Proof.
  destruct (run_pass_cases eval max_err progress fth s w)
    as [[(_&Hc&_&_) _]|(s1&w1&(_&Hc&_&_)&->)]; [exact Hc|].
  simpl. exact Hc.
Qed.

Lemma run_pass_done_stays eval max_err progress fth s w :
  done s = true -> done (run_pass eval max_err progress fth s w).1 = true.
Proof.
  intros Hd. rewrite run_pass_exit by auto. reflexivity.
Qed.

Lemma run_pass_returned_done eval max_err progress fth s w :
  returned w = false ->
  returned (run_pass eval max_err progress fth s w).2 = true ->
  done (run_pass eval max_err progress fth s w).1 = true.
Proof.
  intros Hw Hr.
  destruct (run_pass_cases eval max_err progress fth s w)
    as [[_ Hr']|(s1&w1&_&Heq)]; [congruence|].
  rewrite Heq. reflexivity.
Qed.

Lemma run_pass_root_ptr eval max_err progress fth s w :
  root_ptr (out (run_pass eval max_err progress fth s w).1) = root_ptr (out s).
Proof.
  destruct (run_pass_cases eval max_err progress fth s w)
    as [[(_&_&Ho&_) _]|(s1&w1&(_&_&Ho&_)&->)]; [rewrite Ho; reflexivity|].
  simpl. rewrite Ho. reflexivity.
Qed.

(** *** Pushing the children *)

Lemma alloc_children_lookup t todo : forall (h : Heap) a,
  alloc_children t todo h !! a =
  match a with
  | i :: p => if decide (p = t /\ i ∈ todo) then Some new_cell else h !! a
  | [] => h !! a
  end.
Proof.
  induction todo as [|j rest IH]; intros h a; simpl.
  - destruct a as [|i p]; [reflexivity|].
    destruct (decide _) as [[_ H]|_]; [inversion H | reflexivity].
  - rewrite IH. destruct a as [|i p].
    + rewrite lookup_insert_ne by discriminate. reflexivity.
    + destruct (decide (p = t /\ i ∈ rest)) as [[-> Hin]|Hn].
      * rewrite decide_True; [reflexivity|]. split; [reflexivity|].
        apply list_elem_of_further, Hin.
      * destruct (decide (j :: t = i :: p)) as [Heq|Hne].
        -- inversion Heq; subst. rewrite lookup_insert_eq.
           rewrite decide_True; [reflexivity|]. split; [reflexivity|].
           apply list_elem_of_here.
        -- rewrite lookup_insert_ne by exact Hne.
           rewrite decide_False; [reflexivity|].
           intros [-> Hin]. apply elem_of_cons in Hin.
           destruct Hin as [->|Hin]; [congruence|]. apply Hn. auto.
Qed.

(** The loop over the children, in closed form: every child gets a cell from
    the pool; the tasks of the first [k] children go to the shared stack,
    where [k] is the room left in it, and the others to the local stack. *)
Lemma push_children_spec t tp r nb : forall n a s w,
  let k := Nat.min n (capacity (tasks s) - length (items (tasks s))) in
  push_children t tp r nb (seq a n) s w =
  (mkShared (alloc_children t (seq a n) (heap s))
            (mkStack (rev (map (child_task t tp r nb) (seq a k)) ++ items (tasks s))
                     (capacity (tasks s)))
            (done s) (cancel s) (out s)
            (trace s ++ map (CallGet t) (seq a n)) (failed s),
   mkWorker (rev (map (child_task t tp r nb) (seq (a + k) (n - k))) ++ local w)
            (object_pool w ++ map (fun i => i :: t) (seq a n))
            (returned w)).
Proof.
  induction n as [|n IH]; intros a s w; simpl.
  - destruct s as [h [q c] d cn o tr f], w as [l op rt]; simpl.
    rewrite !app_nil_r. reflexivity.
  - unfold stack_bounded_push. simpl.
    destruct (Nat.ltb_spec (length (items (tasks s))) (capacity (tasks s)))
      as [Hroom|Hfull].
    + rewrite IH. simpl.
      replace (capacity (tasks s) - length (items (tasks s)))%nat
        with (S (capacity (tasks s) - S (length (items (tasks s)))))%nat by lia.
      simpl. unfold child_task at 3.
      rewrite <- !app_assoc. simpl.
      replace (a + S (Nat.min n (capacity (tasks s) - S (length (items (tasks s))))))%nat
        with (S a + Nat.min n (capacity (tasks s) - S (length (items (tasks s)))))%nat
        by lia.
      reflexivity.
    + rewrite IH. simpl.
      replace (capacity (tasks s) - length (items (tasks s)))%nat with O by lia.
      rewrite !Nat.min_0_r. simpl.
      rewrite !Nat.add_0_r, !Nat.sub_0_r. unfold child_task at 2.
      rewrite <- !app_assoc. simpl. reflexivity.
Qed.

(** *** The record of calls only grows *)

Lemma extends_refl s : extends s s.
Proof. exists []. rewrite app_nil_r. reflexivity. Qed.

Lemma extends_trans s1 s2 s3 : extends s1 s2 -> extends s2 s3 -> extends s1 s3.
Proof.
  intros [c1 H1] [c2 H2]. exists (c1 ++ c2).
  rewrite H2, H1, app_assoc. reflexivity.
Qed.

Lemma extends_elem s s' c : extends s s' -> c ∈ trace s -> c ∈ trace s'.
Proof. intros [calls ->] Hc. apply elem_of_app. left. exact Hc. Qed.

Lemma record_call_extends c s : extends s (record_call c s).
Proof. exists [c]. reflexivity. Qed.

Lemma tick_extends progress n s : extends s (tick progress n s).
Proof. exists (emitted progress n). apply tick_trace. Qed.

Lemma offerWait_extends fth s : extends s (offerWait fth s).
Proof. destruct fth; [apply record_call_extends | apply extends_refl]. Qed.

Lemma evalInterval_extends eval tp r t s :
  extends s (evalInterval eval tp r t s).1.
Proof. rewrite evalInterval_eq. eexists. reflexivity. Qed.

Lemma evalLeaf_extends eval tp r nb t s : extends s (evalLeaf eval tp r nb t s).
Proof. eexists. reflexivity. Qed.

Lemma climb_extends eval max_err progress t r tp s :
  extends s (climb eval max_err progress t r tp s).2.
Proof.
  destruct (climb eval max_err progress t r tp s) as [t' s'] eqn:Hc.
  apply climb_trace in Hc. destruct Hc as (k & Htr & _).
  eexists. exact Htr.
Qed.

Lemma finish_extends eval max_err progress can t r tp s :
  extends s (finish eval max_err progress can t r tp s).1.
Proof.
  rewrite finish_eq. simpl.
  eapply extends_trans; [apply tick_extends | apply climb_extends].
Qed.

Lemma push_children_extends t tp r nb todo :
  forall s w, extends s (push_children t tp r nb todo s w).1.
Proof.
  induction todo as [|i rest IH]; intros s w; simpl.
  - apply extends_refl.
  - unfold stack_bounded_push. simpl.
    destruct (_ <? _)%nat; simpl;
      (eapply extends_trans; [|apply IH]); eexists; reflexivity.
Qed.

Lemma body_of_task_extends eval max_err progress tk t s0 w0 :
  extends s0 (body_of_task eval max_err progress tk t s0 w0).1.1.
Proof.
  unfold body_of_task.
  destruct (0 <? level (region tk)).
  - destruct (interval_verdict eval (tape tk) (region tk)).1; simpl;
      (eapply extends_trans; [apply evalInterval_extends|]);
      first [apply finish_extends | apply push_children_extends].
  - simpl. eapply extends_trans; [|apply finish_extends]. apply evalLeaf_extends.
Qed.

Lemma run_body_extends eval max_err progress fth s w :
  extends s (run_body eval max_err progress fth s w).1.1.
Proof.
  rewrite run_body_eq.
  pose proof (take_task_trace s w) as Ht.
  destruct (take_task s w) as [[task s0] w0]. simpl in Ht.
  assert (extends s s0) as H0 by (exists []; rewrite app_nil_r; exact Ht).
  destruct (task ≫= _) as [[tk t]|]; simpl.
  - eapply extends_trans; [exact H0 | apply body_of_task_extends].
  - eapply extends_trans; [exact H0 | apply offerWait_extends].
Qed.

Lemma run_pass_extends eval max_err progress fth s w :
  extends s (run_pass eval max_err progress fth s w).1.
Proof.
  unfold run_pass.
  destruct (negb (done s) && negb (cancel s));
    [|exists []; simpl; rewrite app_nil_r; reflexivity].
  pose proof (run_body_extends eval max_err progress fth s w) as He.
  destruct (run_body eval max_err progress fth s w) as [[s' w'] []]; exact He.
Qed.

Lemma root_finished_extends s s' :
  extends s s' -> root_finished (trace s) -> root_finished (trace s').
Proof.
  intros He. unfold root_finished.
  intros [H|[H|[H|H]]]; eauto using extends_elem.
Qed.

(** *** Leaving the loop through [break] *)

Lemma ancestors_root i p : [] ∈ ancestors (i :: p).
Proof.
  revert i. induction p as [|j p IH]; intros i; simpl.
  - apply list_elem_of_here.
  - apply list_elem_of_further. apply (IH j).
Qed.

(** A walk that ends on the null pointer either started on the root or
    collected it. *)
Lemma climb_past_root eval max_err progress t r tp s s' :
  climb eval max_err progress t r tp s = (None, s') ->
  t = [] \/ CallCollect [] true ∈ trace s'.
Proof.
  intros Hc. destruct t as [|i p]; [left; reflexivity|right].
  apply climb_trace in Hc. destruct Hc as (k & Htr & Hk).
  rewrite Htr. apply elem_of_app. right.
  unfold climb_calls. rewrite app_nil_r, Hk, firstn_all.
  apply list_elem_of_In, in_flat_map.
  exists []. split; [apply list_elem_of_In, ancestors_root | left; reflexivity].
Qed.

Lemma finish_break eval max_err progress can t r tp s :
  (finish eval max_err progress can t r tp s).2 = Break ->
  t = [] \/ CallCollect [] true ∈ trace (finish eval max_err progress can t r tp s).1.
Proof.
  rewrite finish_eq. simpl.
  destruct (climb _ _ _ _ _ _ _) as [[q|] s2] eqn:Hc; simpl; [discriminate|].
  intros _. eapply climb_past_root. exact Hc.
Qed.

(** A pass that breaks out of the loop has dealt with the root. *)
Lemma body_of_task_break eval max_err progress tk t s0 w0 :
  (body_of_task eval max_err progress tk t s0 w0).2 = Break ->
  root_finished (trace (body_of_task eval max_err progress tk t s0 w0).1.1).
Proof.
  unfold body_of_task, root_finished.
  destruct (0 <? level (region tk)).
  - destruct (interval_verdict eval (tape tk) (region tk)).1 eqn:Hv; simpl;
      try discriminate; intros Hb;
      (destruct (finish_break _ _ _ _ _ _ _ _ Hb) as [-> | Hin];
       [| right; right; right; exact Hin]);
      right.
    + left. eapply extends_elem; [apply finish_extends|].
      rewrite evalInterval_eq, Hv. simpl. apply elem_of_app. right.
      apply list_elem_of_here.
    + right. left. eapply extends_elem; [apply finish_extends|].
      rewrite evalInterval_eq, Hv. simpl. apply elem_of_app. right.
      apply list_elem_of_here.
  - simpl. intros Hb.
    destruct (finish_break _ _ _ _ _ _ _ _ Hb) as [-> | Hin];
      [| right; right; right; exact Hin].
    left. eapply extends_elem; [apply finish_extends|].
    simpl. apply elem_of_app. right. apply list_elem_of_here.
Qed.

Lemma run_body_break eval max_err progress fth s w :
  (run_body eval max_err progress fth s w).2 = Break ->
  root_finished (trace (run_body eval max_err progress fth s w).1.1).
Proof.
  rewrite run_body_eq.
  destruct (take_task s w) as [[task s0] w0].
  destruct (task ≫= _) as [[tk t]|]; simpl; [|discriminate].
  apply body_of_task_break.
Qed.

(** A pass keeps: once [done] is set, the build was cancelled or the root
    has been dealt with. *)
Lemma run_pass_done_reason eval max_err progress fth s w :
  (done s = true -> cancel s = true \/ root_finished (trace s)) ->
  let s' := (run_pass eval max_err progress fth s w).1 in
  done s' = true -> cancel s' = true \/ root_finished (trace s').
Proof.
  intros Hinv. simpl. rewrite run_pass_cancel.
  unfold run_pass.
  destruct (done s) eqn:Hd, (cancel s) eqn:Hc; simpl; auto.
  pose proof (run_body_frame eval max_err progress fth s w) as ((Hd'&_)&_&Hfl).
  pose proof (run_body_break eval max_err progress fth s w) as Hb.
  destruct (run_body eval max_err progress fth s w) as [[s' w'] fl].
  simpl in *. destruct fl; simpl.
  - congruence.
  - intros _. right. apply Hb. reflexivity.
  - congruence.
Qed.

(** *** The loop of a worker left alone *)

Lemma run_returns_done fuel eval max_err progress fth :
  forall s w s' w',
    returned w = false ->
    run fuel eval max_err progress fth s w = Some (s', w') ->
    done s' = true /\ returned w' = true.
Proof.
  induction fuel as [|fuel IH]; intros s w s' w' Hw Hrun; simpl in Hrun;
    [discriminate|].
  pose proof (run_pass_returned_done eval max_err progress fth s w Hw) as Hd.
  destruct (run_pass eval max_err progress fth s w) as [s1 w1]. simpl in Hd.
  destruct (failed s1); [discriminate|].
  destruct (returned w1) eqn:Hr1.
  - inversion Hrun; subst. auto.
  - eapply IH; eassumption.
Qed.

End PoolFacts.

(** ** Facts about several workers *)

Section MachineFacts.

Context {P : Params}.
Variable eval : nat -> XTreeEvaluator.
Variable max_err : float.
Variable progress : option ProgressWatcher.
Variable fth : option FreeThreadHandler.

Local Abbreviation step1 := (step eval max_err progress fth).
Local Abbreviation execs := (exec eval max_err progress fth).

(** What a step keeps true of a state is true of every state that a
    schedule leads to. *)
Lemma exec_invariant (Inv : Machine -> Prop) :
  (forall e m, Inv m -> Inv (step1 e m)) ->
  forall sched m, Inv m -> Inv (execs sched m).
Proof.
  intros Hstep sched. induction sched as [|e rest IH]; intros m Hm; simpl.
  - exact Hm.
  - apply IH, Hstep, Hm.
Qed.

Lemma exec_app sched1 sched2 m :
  execs (sched1 ++ sched2) m = execs sched2 (execs sched1 m).
Proof.
  revert m. induction sched1 as [|e rest IH]; intros m; simpl; [reflexivity|].
  apply IH.
Qed.

(** The step of a worker that is in its loop. *)
Lemma step_pass i m w :
  failed (shared m) = false ->
  threads m !! i = Some w ->
  returned w = false ->
  step1 (Pass i) m =
  mkMachine (run_pass (eval i) max_err progress fth (shared m) w).1
            (<[i := (run_pass (eval i) max_err progress fth (shared m) w).2]>
               (threads m)).
Proof.
  intros Hf Hw Hr. unfold step. rewrite Hf, Hw, Hr.
  destruct (run_pass _ _ _ _ _ _). reflexivity.
Qed.

(** A step is a pass of a worker in its loop, the setting of [cancel], or
    nothing at all. *)
Lemma step_cases e m :
  step1 e m = m \/
  (e = SetCancel /\ failed (shared m) = false /\
   step1 e m = mkMachine (set_cancel true (shared m)) (threads m)) \/
  (exists i w, e = Pass i /\ failed (shared m) = false /\
     threads m !! i = Some w /\ returned w = false /\
     step1 e m =
     mkMachine (run_pass (eval i) max_err progress fth (shared m) w).1
               (<[i := (run_pass (eval i) max_err progress fth (shared m) w).2]>
                  (threads m))).
Proof.
  destruct (failed (shared m)) eqn:Hf.
  { left. unfold step. rewrite Hf. reflexivity. }
  destruct e as [i|].
  - destruct (threads m !! i) as [w|] eqn:Hw.
    + destruct (returned w) eqn:Hr.
      * left. unfold step. rewrite Hf, Hw, Hr. reflexivity.
      * right. right. exists i, w. repeat split; auto using step_pass.
    + left. unfold step. rewrite Hf, Hw. reflexivity.
  - right. left. repeat split; auto. unfold step. rewrite Hf. reflexivity.
Qed.

Lemma step_failed e m : failed (shared (step1 e m)) = failed (shared m).
Proof.
  destruct (step_cases e m) as [->|[(_&_&->)|(i&w&_&_&_&_&->)]];
    [reflexivity|reflexivity|].
  simpl. apply run_pass_failed.
Qed.

Lemma exec_failed sched m : failed (shared (execs sched m)) = failed (shared m).
Proof.
  revert m. induction sched as [|e rest IH]; intros m; simpl; [reflexivity|].
  rewrite IH. apply step_failed.
Qed.

Lemma step_length e m : length (threads (step1 e m)) = length (threads m).
Proof.
  destruct (step_cases e m) as [->|[(_&_&->)|(i&w&_&_&_&_&->)]];
    [reflexivity|reflexivity|].
  simpl. apply length_insert.
Qed.

Lemma exec_length sched m : length (threads (execs sched m)) = length (threads m).
Proof.
  revert m. induction sched as [|e rest IH]; intros m; simpl; [reflexivity|].
  rewrite IH. apply step_length.
Qed.

Lemma step_done_stays e m :
  done (shared m) = true -> done (shared (step1 e m)) = true.
Proof.
  intros Hd.
  destruct (step_cases e m) as [->|[(_&_&->)|(i&w&_&_&_&_&->)]]; auto.
  simpl. apply run_pass_done_stays, Hd.
Qed.

Lemma exec_done_stays sched m :
  done (shared m) = true -> done (shared (execs sched m)) = true.
Proof. apply (exec_invariant (fun m => done (shared m) = true)), step_done_stays. Qed.

Lemma step_root_ptr e m :
  root_ptr (out (shared (step1 e m))) = root_ptr (out (shared m)).
Proof.
  destruct (step_cases e m) as [->|[(_&_&->)|(i&w&_&_&_&_&->)]];
    [reflexivity|reflexivity|].
  simpl. apply run_pass_root_ptr.
Qed.

Lemma exec_root_ptr sched m :
  root_ptr (out (shared (execs sched m))) = root_ptr (out (shared m)).
Proof.
  revert m. induction sched as [|e rest IH]; intros m; simpl; [reflexivity|].
  rewrite IH. apply step_root_ptr.
Qed.

(** [cancel] is set by [SetCancel] and by nothing else. *)
Lemma step_cancel e m :
  failed (shared m) = false ->
  cancel (shared (step1 e m)) = true <-> cancel (shared m) = true \/ e = SetCancel.
Proof.
  intros Hf.
  destruct (step_cases e m) as [Heq|[(-> & _ & ->)|(i & w & -> & _ & _ & _ & ->)]].
  - rewrite Heq. split; [auto|]. intros [H | ->]; [exact H|].
    unfold step in Heq. rewrite Hf in Heq.
    rewrite <- Heq. reflexivity.
  - simpl. tauto.
  - simpl. rewrite run_pass_cancel. split; [auto|]. intros [H|H]; [exact H|discriminate].
Qed.

Lemma exec_cancel sched :
  forall m, failed (shared m) = false ->
  cancel (shared (execs sched m)) = true <->
  cancel (shared m) = true \/ SetCancel ∈ sched.
Proof.
  induction sched as [|e rest IH]; intros m Hf; simpl.
  - split; [auto|]. intros [H|H]; [exact H|]. inversion H.
  - rewrite IH by (rewrite step_failed; exact Hf).
    rewrite step_cancel by exact Hf.
    rewrite elem_of_cons. split.
    + intros [[H|H]|H]; auto.
    + intros [H|[H|H]]; auto.
Qed.

(** A worker that has returned stays as it is. *)
Lemma step_returned_stays e m i w :
  threads m !! i = Some w -> returned w = true ->
  threads (step1 e m) !! i = Some w.
Proof.
  intros Hw Hr.
  destruct (step_cases e m) as [->|[(_&_&->)|(j&w'&_&_&Hj&Hrj&->)]]; auto.
  simpl. rewrite list_lookup_insert_ne; [exact Hw|].
  intros ->. congruence.
Qed.

Lemma exec_returned_stays sched : forall m i w,
  threads m !! i = Some w -> returned w = true ->
  threads (execs sched m) !! i = Some w.
Proof.
  induction sched as [|e rest IH]; intros m i w Hw Hr; simpl; [exact Hw|].
  apply IH; [|exact Hr]. apply step_returned_stays; assumption.
Qed.

Lemma step_returned_done e m : returned_done m -> returned_done (step1 e m).
Proof.
  intros Hinv.
  destruct (step_cases e m) as [->|[(_&_&->)|(j&w'&_&_&Hj&Hrj&->)]]; auto.
  intros i w. simpl. intros Hw Hr.
  destruct (decide (i = j)) as [->|Hne].
  - rewrite list_lookup_insert_eq in Hw by (eapply lookup_lt_Some; exact Hj).
    inversion Hw; subst. apply run_pass_returned_done; assumption.
  - rewrite list_lookup_insert_ne in Hw by congruence.
    apply run_pass_done_stays. eapply Hinv; eassumption.
Qed.

Lemma step_stop_stays e m : stop_set m -> stop_set (step1 e m).
Proof.
  intros [Hd|Hc]; [left; apply step_done_stays, Hd|].
  destruct (step_cases e m) as [->|[(_&_&->)|(i&w&_&_&_&_&->)]].
  - right. exact Hc.
  - right. reflexivity.
  - right. simpl. rewrite run_pass_cancel. exact Hc.
Qed.

(** Once a flag is set, the next pass of a worker makes it return. *)
Lemma step_pass_returns i m w :
  stop_set m -> failed (shared m) = false ->
  threads m !! i = Some w ->
  exists w', threads (step1 (Pass i) m) !! i = Some w' /\ returned w' = true.
Proof.
  intros Hd Hf Hw. destruct (returned w) eqn:Hr.
  - exists w. split; [|exact Hr]. apply step_returned_stays; assumption.
  - rewrite (step_pass i m w) by assumption. simpl.
    rewrite list_lookup_insert_eq by (eapply lookup_lt_Some; exact Hw).
    eexists. split; [reflexivity|].
    rewrite run_pass_exit by exact Hd. reflexivity.
Qed.

Lemma exec_pass_returns sched : forall i m,
  stop_set m -> failed (shared m) = false ->
  (i < length (threads m))%nat -> Pass i ∈ sched ->
  exists w', threads (execs sched m) !! i = Some w' /\ returned w' = true.
Proof.
  induction sched as [|e rest IH]; intros i m Hd Hf Hi Hin.
  - inversion Hin.
  - simpl. apply elem_of_cons in Hin. destruct Hin as [<-|Hin].
    + destruct (lookup_lt_is_Some_2 _ _ Hi) as [w Hw].
      destruct (step_pass_returns i m w Hd Hf Hw) as (w' & Hw' & Hr').
      exists w'. split; [|exact Hr']. apply exec_returned_stays; assumption.
    + apply IH; auto.
      * apply step_stop_stays, Hd.
      * rewrite step_failed. exact Hf.
      * rewrite step_length. exact Hi.
Qed.

(** Once a flag is set, a schedule that gives every worker a pass brings
    all of them to return. *)
Lemma exec_all_return sched m :
  stop_set m -> failed (shared m) = false ->
  (forall i, (i < length (threads m))%nat -> Pass i ∈ sched) ->
  forallb returned (threads (execs sched m)) = true.
Proof.
  intros Hd Hf Hall. apply forallb_forall. intros w Hw.
  apply list_elem_of_In, list_elem_of_lookup in Hw. destruct Hw as [i Hi].
  assert (i < length (threads m))%nat as Hlt.
  { rewrite <- (exec_length sched m). eapply lookup_lt_Some. exact Hi. }
  destruct (exec_pass_returns sched i m Hd Hf Hlt (Hall i Hlt)) as (w' & Hw' & Hr').
  congruence.
Qed.

Lemma exec_stop_stays sched m : stop_set m -> stop_set (execs sched m).
Proof. apply exec_invariant. intros e m'. apply step_stop_stays. Qed.

Lemma step_done_reason e m : done_reason m -> done_reason (step1 e m).
Proof.
  intros Hinv.
  destruct (step_cases e m) as [->|[(_&_&->)|(j&w'&_&_&Hj&Hrj&->)]]; auto.
  - intros _. left. reflexivity.
  - unfold done_reason. simpl. apply run_pass_done_reason. exact Hinv.
Qed.

End MachineFacts.

(** ** Facts about [build] *)

Section BuildFacts.

Context {P : Params}.

Lemma build_run_failed eval region_ min_feature max_err workers cancel cb fth sched :
  failed (shared (build_run eval region_ min_feature max_err workers cancel
                            cb fth sched)) = false.
Proof. unfold build_run. rewrite exec_failed. reflexivity. Qed.

Lemma build_run_length eval region_ min_feature max_err workers cancel cb fth sched :
  length (threads (build_run eval region_ min_feature max_err workers cancel
                             cb fth sched)) = workers.
Proof.
  unfold build_run. rewrite exec_length. simpl. apply length_replicate.
Qed.

Lemma build_run_app eval region_ min_feature max_err workers cancel cb fth
    sched1 sched2 :
  build_run eval region_ min_feature max_err workers cancel cb fth
            (sched1 ++ sched2)
  = exec eval (to_float max_err) (build_watcher region_ min_feature cb) fth sched2
      (build_run eval region_ min_feature max_err workers cancel cb fth sched1).
Proof. unfold build_run. apply exec_app. Qed.

Lemma build_run_cancel eval region_ min_feature max_err workers cancel0 cb fth sched :
  cancel (shared (build_run eval region_ min_feature max_err workers cancel0
                            cb fth sched)) = true
  <-> cancel0 = true \/ SetCancel ∈ sched.
Proof. unfold build_run. rewrite exec_cancel by reflexivity. reflexivity. Qed.

Lemma build_run_root_ptr eval region_ min_feature max_err workers cancel cb fth sched :
  root_ptr (out (shared (build_run eval region_ min_feature max_err workers
                                   cancel cb fth sched))) = Some [].
Proof. unfold build_run. rewrite exec_root_ptr. reflexivity. Qed.

Lemma build_run_returned_done eval region_ min_feature max_err workers cancel cb fth sched :
  returned_done (build_run eval region_ min_feature max_err workers cancel
                           cb fth sched).
Proof.
  unfold build_run. apply exec_invariant.
  - intros e m. apply step_returned_done.
  - intros i w Hw Hr. simpl in Hw.
    apply lookup_replicate in Hw. destruct Hw as [-> _]. discriminate.
Qed.

Lemma build_run_done_reason eval region_ min_feature max_err workers cancel cb fth sched :
  done_reason (build_run eval region_ min_feature max_err workers cancel
                         cb fth sched).
Proof.
  unfold build_run. apply exec_invariant.
  - intros e m. apply step_done_reason.
  - intros Hd. discriminate.
Qed.

(** What [build_return] returns, when it returns. *)
Lemma build_return_cases m r :
  build_return m = Return r ->
  forallb returned (threads m) = true /\
  ((cancel (shared m) = true /\ r = Root_empty) \/
   (cancel (shared m) = false /\ done (shared m) = true /\ r = out (shared m))).
Proof.
  unfold build_return.
  destruct (failed (shared m)); [discriminate|].
  destruct (forallb returned (threads m)); [|discriminate].
  destruct (done (shared m)), (cancel (shared m)); simpl;
    intros H; inversion H; subst; auto.
Qed.

(** With at least one worker, the assertion after the join holds: [build]
    waits or returns. *)
Lemma build_assertion_holds eval region_ min_feature max_err workers cancel0 cb fth sched :
  (0 < workers)%nat ->
  build eval region_ min_feature max_err workers cancel0 cb fth sched
  ≠ AssertionFailed.
Proof.
  intros Hw. unfold build, build_return.
  rewrite build_run_failed.
  destruct (forallb returned _) eqn:Hall; [|discriminate].
  assert (done (shared (build_run eval region_ min_feature max_err workers
                                  cancel0 cb fth sched)) = true) as ->.
  { destruct (lookup_lt_is_Some_2
                (threads (build_run eval region_ min_feature max_err workers
                                    cancel0 cb fth sched)) O) as [w Hl].
    { rewrite build_run_length. exact Hw. }
    eapply build_run_returned_done; [exact Hl|].
    rewrite forallb_forall in Hall. apply Hall.
    apply list_elem_of_In. eapply list_elem_of_lookup_2. exact Hl. }
  simpl. destruct (cancel _); discriminate.
Qed.

End BuildFacts.

(** ** The shape of the heap *)

Section TreeFacts.

Context {P : Params}.

Local Abbreviation Heap := (gmap Addr (Cell Leaf)).

Lemma tree_ok_perm (h : Heap) tr ts ts' :
  ts ≡ₚ ts' -> tree_ok h tr ts -> tree_ok h tr ts'.
Proof.
  intros Hp [Hc Hn Hpe He Hu]. split; auto.
  - rewrite <- Hp. exact Hn.
  - intros a Ha. apply Hpe. rewrite Hp. exact Ha.
Qed.

Lemma tree_ok_drop (h : Heap) tr a ts : tree_ok h tr (a :: ts) -> tree_ok h tr ts.
Proof.
  intros [Hc Hn Hpe He Hu]. split; auto.
  - apply NoDup_cons in Hn. tauto.
  - intros b Hb. apply Hpe. apply list_elem_of_further, Hb.
Qed.

Lemma touches_refl s : touches s s.
Proof.
  repeat split; auto. exists []. rewrite app_nil_r. split; [reflexivity|].
  intros a v H. inversion H.
Qed.

Lemma touches_trans s1 s2 s3 : touches s1 s2 -> touches s2 s3 -> touches s1 s3.
Proof.
  intros (Hd1 & Ht1 & Hq1 & c1 & Hc1 & Hn1) (Hd2 & Ht2 & Hq2 & c2 & Hc2 & Hn2).
  split; [|split; [|split]].
  - intros a. rewrite Hd2. apply Hd1.
  - intros a. rewrite Ht2. apply Ht1.
  - congruence.
  - exists (c1 ++ c2). split; [rewrite Hc2, Hc1, app_assoc; reflexivity|].
    intros a v Hin. apply elem_of_app in Hin. destruct Hin as [H|H].
    + exact (Hn1 a v H).
    + exact (Hn2 a v H).
Qed.

Lemma touches_closed s s' :
  touches s s' -> prefix_closed (heap s) -> prefix_closed (heap s').
Proof.
  intros (Hd & _) Hc i a Hs. apply Hd. apply (Hc i). apply Hd. exact Hs.
Qed.

Lemma tree_ok_touches s s' ts :
  touches s s' ->
  tree_ok (heap s) (trace s) ts -> tree_ok (heap s') (trace s') ts.
Proof.
  intros Ht [Hc Hn Hpe He Hu].
  pose proof (touches_closed s s' Ht Hc) as Hc'.
  destruct Ht as (Hd & Hty & _ & calls & Htr & Hno).
  assert (forall a, not_evaluated (trace s') a -> not_evaluated (trace s) a) as Hne.
  { intros a Ha v Hin. apply (Ha v). rewrite Htr. apply elem_of_app. auto. }
  split; auto.
  - intros a Ha. destruct (Hpe a Ha) as (H1 & H2 & H3). split; [|split].
    + apply Hd, H1.
    + intros i. apply eq_None_not_Some. intros Hs. apply Hd in Hs.
      rewrite H2 in Hs. destruct Hs; discriminate.
    + intros v Hin. rewrite Htr in Hin. apply elem_of_app in Hin.
      destruct Hin as [Hin|Hin]; [exact (H3 v Hin) | exact (Hno a v Hin)].
  - intros a v Hin. rewrite Htr in Hin. apply elem_of_app in Hin.
    destruct Hin as [Hin|Hin]; [|destruct (Hno a v Hin)].
    destruct (He a v Hin) as (H1 & H2 & H3).
    split; [apply Hd, H1|]. split; [rewrite Hty; exact H2 | exact H3].
  - intros a Ha Hl. rewrite Hty. apply Hu; [apply Hne, Ha|].
    intros Hin. apply Hl. rewrite Htr. apply elem_of_app. left. exact Hin.
Qed.

(** Writing the payload of a cell that exists, with a call that is not
    an interval evaluation. *)
Lemma touch_cell s p lf c :
  is_Some (heap s !! p) ->
  (forall a v, c ≠ CallEvalInterval a v) ->
  touches s (record_call c
               (set_heap (<[p := mkCell (type (cell_at (heap s) p)) lf]> (heap s)) s)).
Proof.
  intros Hp Hc. split; [|split; [|split]]; simpl.
  - intros a. destruct (decide (p = a)) as [->|Hne].
    + rewrite lookup_insert_eq. split; [intros _; exact Hp | eauto].
    + rewrite lookup_insert_ne by exact Hne. reflexivity.
  - intros a. destruct (decide (p = a)) as [->|Hne].
    + rewrite type_at_insert. reflexivity.
    + apply type_at_insert_ne, Hne.
  - reflexivity.
  - exists [c]. split; [reflexivity|].
    intros a v Hin. apply list_elem_of_singleton in Hin. exact (Hc a v (eq_sym Hin)).
Qed.

Lemma tick_touches progress n s : touches s (tick progress n s).
Proof.
  destruct progress; [|apply touches_refl].
  repeat split; auto. exists [CallTick n]. split; [reflexivity|].
  intros a v Hin. apply list_elem_of_singleton in Hin. discriminate.
Qed.

Lemma offerWait_touches fth s : touches s (offerWait fth s).
Proof.
  destruct fth; [|apply touches_refl].
  repeat split; auto. exists [CallOfferWait]. split; [reflexivity|].
  intros a v Hin. apply list_elem_of_singleton in Hin. discriminate.
Qed.

(** Leaf evaluation writes one cell that exists: the cells stay the
    same. *)
Lemma evalLeaf_dom eval tp r nb t s a :
  is_Some (heap s !! t) ->
  is_Some (heap (evalLeaf eval tp r nb t s) !! a) <-> is_Some (heap s !! a).
Proof.
  intros Ht. simpl. destruct (decide (t = a)) as [->|Hne].
  - rewrite lookup_insert_eq. split; [intros _; exact Ht | eauto].
  - rewrite lookup_insert_ne by exact Hne. reflexivity.
Qed.

Lemma evalLeaf_closed eval tp r nb t s :
  is_Some (heap s !! t) -> prefix_closed (heap s) ->
  prefix_closed (heap (evalLeaf eval tp r nb t s)).
Proof.
  intros Ht Hc i a Ha. apply evalLeaf_dom; [exact Ht|].
  apply (Hc i). apply (evalLeaf_dom eval tp r nb t s); assumption.
Qed.

Lemma collectChildren_touches eval tp r max_err t s :
  is_Some (heap s !! t) -> touches s (collectChildren eval tp r max_err t s).2.
Proof.
  intros Ht. rewrite collectChildren_eq. simpl.
  apply touch_cell; [exact Ht | discriminate].
Qed.

Lemma climb_touches eval max_err progress t :
  forall r tp s,
    prefix_closed (heap s) -> is_Some (heap s !! t) ->
    touches s (climb eval max_err progress t r tp s).2.
Proof.
  induction t as [|i p IH]; intros r tp s Hc Ht; simpl.
  - apply touches_refl.
  - pose proof (Hc i p Ht) as Hp.
    pose proof (collectChildren_touches eval
                  (getBase tp (region3 (region_parent r i)))
                  (region_parent r i) max_err p s Hp) as H1.
    destruct (collectChildren _ _ _ _ _ _) as [[] s1]; simpl in *; [|exact H1].
    pose proof (touches_trans _ _ _ H1 (tick_touches progress 1 s1)) as H2.
    eapply touches_trans; [exact H2|].
    apply IH.
    + eapply touches_closed; [exact H2 | exact Hc].
    + destruct H2 as (Hd & _). apply Hd. exact Hp.
Qed.

Lemma finish_touches eval max_err progress can t r tp s :
  prefix_closed (heap s) -> is_Some (heap s !! t) ->
  touches s (finish eval max_err progress can t r tp s).1.
Proof.
  intros Hc Ht. rewrite finish_eq. simpl.
  pose proof (tick_touches progress
                (if can then Ticks.level_ticks N (level r) else 1) s) as H1.
  eapply touches_trans; [exact H1|].
  apply climb_touches.
  - eapply touches_closed; [exact H1 | exact Hc].
  - destruct H1 as (Hd & _). apply Hd. exact Ht.
Qed.

(** Interval evaluation of a pending cell. *)
Lemma evalInterval_ok eval tp r t s ts :
  tree_ok (heap s) (trace s) (t :: ts) ->
  let s1 := (evalInterval eval tp r t s).1 in
  (tree_ok (heap s1) (trace s1) ts /\
   is_Some (heap s1 !! t) /\ (forall i, heap s1 !! (i :: t) = None) /\
   (t ∉ ts) /\ tasks s1 = tasks s).
Proof.
  intros [Hc Hn Hpe He Hu]. rewrite evalInterval_eq. simpl.
  apply NoDup_cons in Hn. destruct Hn as [Hnt Hn].
  destruct (Hpe t (list_elem_of_here _ _)) as (Ht & Hch & Hev).
  set (v := (interval_verdict eval tp r).1).
  set (c := mkCell (of_verdict v) (leaf (cell_at (heap s) t))).
  assert (forall a, is_Some (<[t := c]> (heap s) !! a) <-> is_Some (heap s !! a)) as Hd.
  { intros a. destruct (decide (t = a)) as [->|Hne].
    - rewrite lookup_insert_eq. split; [intros _; exact Ht | eauto].
    - rewrite lookup_insert_ne by exact Hne. reflexivity. }
  split; [|split; [|split; [|split]]].
  - split.
    + intros i a Hs. apply Hd. apply (Hc i). apply Hd. exact Hs.
    + exact Hn.
    + intros a Ha.
      assert (a ≠ t) as Hne by (intros ->; contradiction).
      destruct (Hpe a (list_elem_of_further _ _ _ Ha)) as (H1 & H2 & H3).
      split; [apply Hd, H1|]. split.
      * intros i. rewrite lookup_insert_ne; [apply H2|].
        intros Heq. rewrite Heq, H2 in Ht. destruct Ht; discriminate.
      * intros v' Hin. apply elem_of_app in Hin. destruct Hin as [Hin|Hin].
        -- exact (H3 v' Hin).
        -- apply list_elem_of_singleton in Hin. congruence.
    + intros a v' Hin. apply elem_of_app in Hin. destruct Hin as [Hin|Hin].
      * destruct (He a v' Hin) as (H1 & H2 & H3).
        assert (a ≠ t) as Hne by (intros ->; exact (Hev v' Hin)).
        split; [apply Hd, H1|]. split; [|exact H3].
        rewrite type_at_insert_ne by congruence. exact H2.
      * apply list_elem_of_singleton in Hin. inversion Hin; subst.
        rewrite lookup_insert_eq, type_at_insert. simpl.
        split; [eauto|]. split; [reflexivity | apply of_verdict_known].
    + intros a Ha Hl.
      assert (a ≠ t) as Hne.
      { intros ->. apply (Ha (of_verdict v)). apply elem_of_app. right.
        apply list_elem_of_here. }
      rewrite type_at_insert_ne by congruence. apply Hu.
      * intros v' Hin. apply (Ha v'). apply elem_of_app. left. exact Hin.
      * intros Hin. apply Hl. apply elem_of_app. left. exact Hin.
  - rewrite lookup_insert_eq. eauto.
  - intros i. rewrite lookup_insert_ne; [apply Hch|].
    intros Heq. apply (f_equal (@length nat)) in Heq. simpl in Heq. lia.
  - exact Hnt.
  - reflexivity.
Qed.

(** Leaf evaluation of a pending cell. *)
Lemma evalLeaf_ok eval tp r nb t s ts :
  tree_ok (heap s) (trace s) (t :: ts) ->
  tree_ok (heap (evalLeaf eval tp r nb t s)) (trace (evalLeaf eval tp r nb t s)) ts.
Proof.
  intros [Hc Hn Hpe He Hu].
  apply NoDup_cons in Hn. destruct Hn as [Hnt Hn].
  destruct (Hpe t (list_elem_of_here _ _)) as (Ht & Hch & Hev).
  pose proof (fun a => evalLeaf_dom eval tp r nb t s a Ht) as Hd.
  assert (forall a v, CallEvalInterval a v ∈ trace (evalLeaf eval tp r nb t s) ->
                      CallEvalInterval a v ∈ trace s) as Htr.
  { intros a v Hin. simpl in Hin. apply elem_of_app in Hin.
    destruct Hin as [Hin|Hin]; [exact Hin|].
    apply list_elem_of_singleton in Hin. discriminate. }
  split.
  - apply evalLeaf_closed; assumption.
  - exact Hn.
  - intros a Ha.
    assert (a ≠ t) as Hne by (intros ->; contradiction).
    destruct (Hpe a (list_elem_of_further _ _ _ Ha)) as (H1 & H2 & H3).
    split; [apply Hd, H1|]. split.
    + intros i. simpl. rewrite lookup_insert_ne; [apply H2|].
      intros Heq. rewrite Heq, H2 in Ht. destruct Ht; discriminate.
    + intros v Hin. exact (H3 v (Htr a v Hin)).
  - intros a v Hin. apply Htr in Hin.
    destruct (He a v Hin) as (H1 & H2 & H3).
    assert (a ≠ t) as Hne by (intros ->; exact (Hev v Hin)).
    split; [apply Hd, H1|]. split; [|exact H3].
    simpl. rewrite type_at_insert_ne by congruence. exact H2.
  - intros a Ha Hl.
    assert (a ≠ t) as Hne.
    { intros ->. apply Hl. simpl. apply elem_of_app. right. apply list_elem_of_here. }
    simpl. rewrite type_at_insert_ne by congruence. apply Hu.
    + intros v Hin. apply (Ha v). simpl. apply elem_of_app. left. exact Hin.
    + intros Hin. apply Hl. simpl. apply elem_of_app. left. exact Hin.
Qed.

(** Making the children of an evaluated cell that has none. *)
Lemma alloc_children_ok (t : Addr) (n : nat) (h : Heap) (tr : list Call)
    (ts : list Addr) :
  tree_ok h tr ts ->
  is_Some (h !! t) -> (forall i, h !! (i :: t) = None) -> t ∉ ts ->
  tree_ok (alloc_children t (seq 0 n) h) (tr ++ map (CallGet t) (seq 0 n))
          (map (fun i => i :: t) (seq 0 n) ++ ts).
Proof.
  intros [Hc Hn Hpe He Hu] Ht Hch Hnt.
  assert (forall a, is_Some (h !! a) -> alloc_children t (seq 0 n) h !! a = h !! a)
    as Hold.
  { intros a Ha. rewrite alloc_children_lookup. destruct a as [|i p]; [reflexivity|].
    destruct (decide _) as [[-> _]|_]; [|reflexivity].
    rewrite Hch in Ha. destruct Ha; discriminate. }
  assert (forall a v, CallEvalInterval a v ∈ tr ++ map (CallGet t) (seq 0 n) ->
                      CallEvalInterval a v ∈ tr) as Htr.
  { intros a v Hin. apply elem_of_app in Hin. destruct Hin as [Hin|Hin]; [exact Hin|].
    apply list_elem_of_In, in_map_iff in Hin. destruct Hin as (j & Hj & _).
    discriminate. }
  assert (forall a, not_evaluated tr a ->
                    not_evaluated (tr ++ map (CallGet t) (seq 0 n)) a) as Hne.
  { intros a Ha v Hin. exact (Ha v (Htr a v Hin)). }
  assert (forall a, a ∈ map (fun i => i :: t) (seq 0 n) ->
                    exists i, a = i :: t /\ i ∈ seq 0 n) as Hkid.
  { intros a Ha. apply list_elem_of_In, in_map_iff in Ha.
    destruct Ha as (i & <- & Hi). exists i. split; [reflexivity|].
    apply list_elem_of_In, Hi. }
  split.
  - intros i a Hs. rewrite alloc_children_lookup in Hs.
    destruct (decide _) as [[-> _]|_].
    + rewrite Hold by exact Ht. exact Ht.
    + pose proof (Hc i a Hs) as Ha. rewrite Hold by exact Ha. exact Ha.
  - apply NoDup_app. split; [|split; [|exact Hn]].
    + apply NoDup_fmap_2; [|apply NoDup_seq].
      intros i j Heq. congruence.
    + intros a Ha Ha'. destruct (Hkid a Ha) as (i & -> & _).
      destruct (Hpe _ Ha') as (H1 & _). rewrite Hch in H1. destruct H1; discriminate.
  - intros a Ha. apply elem_of_app in Ha. destruct Ha as [Ha|Ha].
    + destruct (Hkid a Ha) as (i & -> & Hi). split; [|split].
      * rewrite alloc_children_lookup. rewrite decide_True by auto. eauto.
      * intros j. rewrite alloc_children_lookup. rewrite decide_False.
        -- apply eq_None_not_Some. intros Hs. apply Hc in Hs.
           rewrite Hch in Hs. destruct Hs; discriminate.
        -- intros [Heq _]. apply (f_equal (@length nat)) in Heq. simpl in Heq. lia.
      * apply Hne. intros v Hin. destruct (He _ _ Hin) as (H1 & _).
        rewrite Hch in H1. destruct H1; discriminate.
    + destruct (Hpe a Ha) as (H1 & H2 & H3). split; [|split].
      * rewrite Hold by exact H1. exact H1.
      * intros i. rewrite alloc_children_lookup. rewrite decide_False; [apply H2|].
        intros [-> _]. contradiction.
      * apply Hne, H3.
  - intros a v Hin. apply Htr in Hin. destruct (He a v Hin) as (H1 & H2 & H3).
    split; [rewrite Hold by exact H1; exact H1|]. split; [|exact H3].
    unfold type_at, cell_at. rewrite Hold by exact H1. exact H2.
  - intros a Ha Hl. unfold type_at, cell_at. rewrite alloc_children_lookup.
    assert (not_evaluated tr a) as Ha'.
    { intros v Hin. apply (Ha v). apply elem_of_app. left. exact Hin. }
    assert (CallEvalLeaf a ∉ tr) as Hl'.
    { intros Hin. apply Hl. apply elem_of_app. left. exact Hin. }
    destruct a as [|i p]; [apply Hu; assumption|].
    destruct (decide _); [reflexivity | apply Hu; assumption].
Qed.

Lemma targets_app l1 l2 : targets (l1 ++ l2) = targets l1 ++ targets l2.
Proof. unfold targets. apply omap_app. Qed.

Lemma targets_children t tp r nb l :
  targets (map (child_task t tp r nb) l) = map (fun i => i :: t) l.
Proof. induction l as [|i l IH]; simpl; [reflexivity|]. f_equal. exact IH. Qed.

Lemma targets_rev l : targets (rev l) ≡ₚ targets l.
Proof.
  unfold targets. induction l as [|x l IH]; simpl; [reflexivity|].
  rewrite omap_app, IH. simpl.
  destruct (target x); simpl; [|rewrite app_nil_r; reflexivity].
  rewrite Permutation_app_comm. reflexivity.
Qed.

(** The loop body on a task taken from the pending ones; [others] are the
    tasks in the local stacks of the other workers. *)
Lemma body_of_task_ok eval max_err progress tk t s0 w0 others :
  tree_ok (heap s0) (trace s0)
          (t :: targets (items (tasks s0) ++ local w0 ++ others)) ->
  let b := body_of_task eval max_err progress tk t s0 w0 in
  tree_ok (heap b.1.1) (trace b.1.1)
          (targets (items (tasks b.1.1) ++ local b.1.2 ++ others)).
Proof.
  intros Hok. unfold body_of_task.
  destruct (0 <? level (region tk)).
  - destruct (evalInterval_ok eval (tape tk) (region tk) t s0 _ Hok)
      as (Hok1 & Ht1 & Hch1 & Hnt1 & Hq1).
    set (s1 := (evalInterval eval (tape tk) (region tk) t s0).1) in *.
    assert (forall can tp,
      let f := finish eval max_err progress can t (region tk) tp s1 in
      tree_ok (heap f.1) (trace f.1)
              (targets (items (tasks f.1) ++ local w0 ++ others))) as Hfin.
    { intros can tp.
      pose proof (finish_touches eval max_err progress can t (region tk) tp s1
                    (ok_closed _ _ _ Hok1) Ht1) as Hto.
      simpl. rewrite (proj1 (proj2 (proj2 Hto))), Hq1.
      apply (tree_ok_touches s1 _ _ Hto Hok1). }
    destruct (interval_verdict eval (tape tk) (region tk)).1; simpl;
      [apply Hfin | apply Hfin |].
    rewrite push_children_spec. simpl.
    rewrite Hq1.
    set (k := Nat.min children_size _).
    eapply tree_ok_perm;
      [| apply (alloc_children_ok t children_size _ _ _ Hok1 Ht1 Hch1 Hnt1)].
    rewrite !targets_app, !targets_rev, !targets_children.
    assert (seq 0 children_size = seq 0 k ++ seq (0 + k) (children_size - k))
      as Hseq.
    { rewrite <- seq_app. f_equal. unfold k. lia. }
    rewrite Hseq at 1. rewrite map_app.
    rewrite <- !app_assoc. apply Permutation_app_head.
    rewrite !app_assoc. apply Permutation_app_tail, Permutation_app_tail.
    apply Permutation_app_comm.
  - simpl.
    destruct (ok_pending _ _ _ Hok t (list_elem_of_here _ _)) as (Ht & _).
    pose proof (evalLeaf_ok eval (tape tk) (region tk)
                  (local_neighbors tk t (heap s0)) t s0 _ Hok) as Hok1.
    pose proof (proj2 (evalLeaf_dom eval (tape tk) (region tk)
                         (local_neighbors tk t (heap s0)) t s0 t Ht) Ht) as Ht1.
    assert (tasks (evalLeaf eval (tape tk) (region tk)
                            (local_neighbors tk t (heap s0)) t s0) = tasks s0)
      as Hq1 by reflexivity.
    set (s1 := evalLeaf eval (tape tk) (region tk)
                        (local_neighbors tk t (heap s0)) t s0) in *.
    pose proof (finish_touches eval max_err progress false t (region tk)
                  (tape tk) s1 (ok_closed _ _ _ Hok1) Ht1) as H2.
    rewrite (proj1 (proj2 (proj2 H2))), Hq1.
    apply (tree_ok_touches s1 _ _ H2 Hok1).
Qed.

Lemma take_task_spec s w :
  match local w with
  | tk :: rest => take_task s w = (Some tk, s, set_local rest w)
  | [] =>
      match items (tasks s) with
      | tk :: rest =>
          take_task s w
          = (Some tk, set_tasks (mkStack rest (capacity (tasks s))) s, w)
      | [] => take_task s w = (None, s, w)
      end
  end.
Proof.
  unfold take_task, stack_pop.
  destruct (local w); [|reflexivity].
  destruct (items (tasks s)) eqn:Hi; [|reflexivity].
  destruct s; reflexivity.
Qed.

Lemma run_body_ok eval max_err progress fth s w others :
  tree_ok (heap s) (trace s) (targets (items (tasks s) ++ local w ++ others)) ->
  let b := run_body eval max_err progress fth s w in
  tree_ok (heap b.1.1) (trace b.1.1)
          (targets (items (tasks b.1.1) ++ local b.1.2 ++ others)).
Proof.
  intros Hok. simpl. rewrite run_body_eq.
  assert (forall s0 w0,
            tree_ok (heap s0) (trace s0)
                    (targets (items (tasks s0) ++ local w0 ++ others)) ->
            tree_ok (heap (offerWait fth s0)) (trace (offerWait fth s0))
                    (targets (items (tasks (offerWait fth s0)) ++ local w0 ++ others)))
    as Hidle.
  { intros s0 w0 H0. pose proof (offerWait_touches fth s0) as Hto.
    rewrite (proj1 (proj2 (proj2 Hto))). apply (tree_ok_touches s0 _ _ Hto H0). }
  pose proof (take_task_spec s w) as Htake.
  destruct (local w) as [|tk rest] eqn:Hl.
  - destruct (items (tasks s)) as [|tk rest] eqn:Hi; rewrite Htake; simpl.
    + apply Hidle. rewrite Hi, Hl. exact Hok.
    + destruct (target tk) as [t|] eqn:Ht; simpl.
      * apply (body_of_task_ok eval max_err progress tk t
                 (set_tasks (mkStack rest (capacity (tasks s))) s) w others).
        simpl. rewrite Hl. unfold targets in *. simpl in Hok. rewrite Ht in Hok.
        exact Hok.
      * apply (Hidle (set_tasks (mkStack rest (capacity (tasks s))) s) w).
        simpl. rewrite Hl. unfold targets in *. simpl in Hok. rewrite Ht in Hok.
        exact Hok.
  - rewrite Htake. simpl.
    assert (targets (items (tasks s) ++ (tk :: rest) ++ others)
            ≡ₚ targets [tk] ++ targets (items (tasks s) ++ rest ++ others)) as Hp.
    { rewrite !targets_app. rewrite (app_assoc (targets [tk])).
      rewrite (Permutation_app_comm (targets [tk])).
      rewrite <- app_assoc. apply Permutation_app_head.
      change (tk :: rest) with ([tk] ++ rest). rewrite targets_app, <- app_assoc.
      reflexivity. }
    apply (tree_ok_perm _ _ _ _ Hp) in Hok.
    unfold targets at 1 in Hok. simpl in Hok.
    destruct (target tk) as [t|] eqn:Ht; simpl in *.
    + apply (body_of_task_ok eval max_err progress tk t s (set_local rest w) others).
      exact Hok.
    + apply (Hidle s (set_local rest w)). exact Hok.
Qed.

Lemma run_pass_ok eval max_err progress fth s w others :
  tree_ok (heap s) (trace s) (targets (items (tasks s) ++ local w ++ others)) ->
  let b := run_pass eval max_err progress fth s w in
  tree_ok (heap b.1) (trace b.1) (targets (items (tasks b.1) ++ local b.2 ++ others)).
Proof.
  intros Hok. simpl. unfold run_pass.
  destruct (negb (done s) && negb (cancel s)); [|exact Hok].
  pose proof (run_body_ok eval max_err progress fth s w others Hok) as Hb.
  destruct (run_body eval max_err progress fth s w) as [[s' w'] []]; exact Hb.
Qed.

Lemma locals_delete (l : list Worker) i w :
  l !! i = Some w ->
  concat (map local l) ≡ₚ local w ++ concat (map local (delete i l)).
Proof.
  revert i. induction l as [|x l IH]; intros i Hi; [inversion Hi|].
  destruct i as [|i]; simpl in *.
  - inversion Hi; subst. reflexivity.
  - rewrite (IH i Hi). rewrite !app_assoc.
    apply Permutation_app_tail, Permutation_app_comm.
Qed.

Lemma locals_insert (l : list Worker) i w w' :
  l !! i = Some w ->
  concat (map local (<[i := w']> l))
  ≡ₚ local w' ++ concat (map local (delete i l)).
Proof.
  revert i. induction l as [|x l IH]; intros i Hi; [inversion Hi|].
  destruct i as [|i]; simpl in *.
  - reflexivity.
  - rewrite (IH i Hi). rewrite !app_assoc.
    apply Permutation_app_tail, Permutation_app_comm.
Qed.

Lemma targets_perm l l' : l ≡ₚ l' -> targets l ≡ₚ targets l'.
Proof. intros H. unfold targets. rewrite H. reflexivity. Qed.

Lemma step_ok eval max_err progress fth e m :
  machine_ok m -> machine_ok (step eval max_err progress fth e m).
Proof.
  intros Hok.
  destruct (step_cases eval max_err progress fth e m)
    as [->|[(_&_&->)|(i&w&_&_&Hw&_&->)]]; [exact Hok|exact Hok|].
  unfold machine_ok, pending in *. simpl.
  set (others := concat (map local (delete i (threads m)))).
  pose proof (run_pass_ok (eval i) max_err progress fth (shared m) w others) as Hp.
  simpl in Hp.
  eapply tree_ok_perm; [|apply Hp].
  - apply targets_perm, Permutation_app_head. symmetry.
    apply (locals_insert _ _ w). exact Hw.
  - eapply tree_ok_perm; [|exact Hok].
    apply targets_perm, Permutation_app_head.
    apply locals_delete. exact Hw.
Qed.

Lemma build_start_ok eval region_ min_feature workers cancel :
  machine_ok (build_start eval region_ min_feature workers cancel).
Proof.
  unfold machine_ok, pending. simpl.
  assert (concat (map local (replicate workers Worker_start)) = []) as ->.
  { induction workers as [|n IH]; simpl; [reflexivity | exact IH]. }
  unfold targets. simpl. split.
  - intros i a Hs. rewrite lookup_singleton_ne in Hs by discriminate.
    destruct Hs; discriminate.
  - apply NoDup_singleton.
  - intros a Ha. apply list_elem_of_singleton in Ha. subst. split; [|split].
    + rewrite lookup_singleton_eq. eauto.
    + intros i. apply lookup_singleton_ne. discriminate.
    + intros v H. inversion H.
  - intros a v H. inversion H.
  - intros a _ _. unfold type_at, cell_at.
    destruct (decide (a = [])) as [->|Hne].
    + rewrite lookup_singleton_eq. reflexivity.
    + rewrite lookup_singleton_ne by congruence. reflexivity.
Qed.

Lemma build_run_ok eval region_ min_feature max_err workers cancel cb fth sched :
  machine_ok (build_run eval region_ min_feature max_err workers cancel
                        cb fth sched).
Proof.
  unfold build_run. apply exec_invariant.
  - intros e m. apply step_ok.
  - apply build_start_ok.
Qed.

(** *** Who owns the cells *)

Lemma evalInterval_dom eval tp r t s a :
  is_Some (heap s !! t) ->
  is_Some (heap (evalInterval eval tp r t s).1 !! a) <-> is_Some (heap s !! a).
Proof.
  intros Ht. rewrite evalInterval_eq. simpl.
  destruct (decide (t = a)) as [->|Hne].
  - rewrite lookup_insert_eq. split; [intros _; exact Ht | eauto].
  - rewrite lookup_insert_ne by exact Hne. reflexivity.
Qed.

(** The cells that a pass through the loop body adds to the heap come from
    the pool of the worker, which only grows. *)
Lemma body_of_task_owned eval max_err progress tk t s0 w0 ts :
  tree_ok (heap s0) (trace s0) (t :: ts) ->
  let b := body_of_task eval max_err progress tk t s0 w0 in
  (forall a, is_Some (heap b.1.1 !! a) ->
             is_Some (heap s0 !! a) \/ a ∈ object_pool b.1.2) /\
  (forall a, a ∈ object_pool w0 -> a ∈ object_pool b.1.2).
Proof.
  intros Hok.
  destruct (ok_pending _ _ _ Hok t (list_elem_of_here _ _)) as (Ht & _).
  unfold body_of_task.
  destruct (0 <? level (region tk)).
  - destruct (evalInterval_ok eval (tape tk) (region tk) t s0 _ Hok)
      as (Hok1 & Ht1 & _).
    pose proof (fun a => evalInterval_dom eval (tape tk) (region tk) t s0 a Ht)
      as Hdom.
    set (s1 := (evalInterval eval (tape tk) (region tk) t s0).1) in *.
    assert (forall can tp a,
              is_Some (heap (finish eval max_err progress can t (region tk) tp s1).1
                       !! a) -> is_Some (heap s0 !! a)) as Hfin.
    { intros can tp a Ha.
      pose proof (finish_touches eval max_err progress can t (region tk) tp s1
                    (ok_closed _ _ _ Hok1) Ht1) as (Hd & _).
      apply Hdom, Hd, Ha. }
    destruct (interval_verdict eval (tape tk) (region tk)).1; simpl;
      [split; [intros a Ha; left; eapply Hfin, Ha | auto]
      |split; [intros a Ha; left; eapply Hfin, Ha | auto] |].
    rewrite push_children_spec. simpl. split.
    + intros a Ha. rewrite alloc_children_lookup in Ha.
      destruct a as [|i p]; [left; apply Hdom, Ha|].
      destruct (decide _) as [[-> Hi]|_]; [|left; apply Hdom, Ha].
      right. apply elem_of_app. right.
      apply list_elem_of_In, in_map_iff. exists i. split; [reflexivity|].
      apply list_elem_of_In, Hi.
    + intros a Ha. apply elem_of_app. left. exact Ha.
  - simpl. split; [|auto]. intros a Ha. left.
    pose proof (fun a => evalLeaf_dom eval (tape tk) (region tk)
                  (local_neighbors tk t (heap s0)) t s0 a Ht) as H1.
    pose proof (finish_touches eval max_err progress false t (region tk)
                  (tape tk) _
                  (evalLeaf_closed eval (tape tk) (region tk)
                     (local_neighbors tk t (heap s0)) t s0 Ht (ok_closed _ _ _ Hok))
                  (proj2 (H1 t) Ht)) as H2.
    apply H1, (proj1 H2), Ha.
Qed.

Lemma run_body_owned eval max_err progress fth s w others :
  tree_ok (heap s) (trace s) (targets (items (tasks s) ++ local w ++ others)) ->
  let b := run_body eval max_err progress fth s w in
  (forall a, is_Some (heap b.1.1 !! a) ->
             is_Some (heap s !! a) \/ a ∈ object_pool b.1.2) /\
  (forall a, a ∈ object_pool w -> a ∈ object_pool b.1.2).
Proof.
  intros Hok. simpl. rewrite run_body_eq.
  assert (forall s0 a, is_Some (heap (offerWait fth s0) !! a) ->
                       is_Some (heap s0 !! a)) as Hidle.
  { intros s0 a Ha. apply (proj1 (offerWait_touches fth s0)), Ha. }
  pose proof (take_task_spec s w) as Htake.
  destruct (local w) as [|tk rest] eqn:Hl.
  - destruct (items (tasks s)) as [|tk rest] eqn:Hi; rewrite Htake; simpl.
    + split; [|auto]. intros a Ha. left. eapply Hidle; eauto.
    + destruct (target tk) as [t|] eqn:Ht; simpl.
      * apply (body_of_task_owned eval max_err progress tk t
                 (set_tasks (mkStack rest (capacity (tasks s))) s) w
                 (targets (rest ++ [] ++ others))).
        simpl. unfold targets in *. simpl in Hok. rewrite Ht in Hok. exact Hok.
      * split; [|auto]. intros a Ha. left.
        apply (Hidle (set_tasks (mkStack rest (capacity (tasks s))) s) a Ha).
  - rewrite Htake. simpl.
    assert (targets (items (tasks s) ++ (tk :: rest) ++ others)
            ≡ₚ targets [tk] ++ targets (items (tasks s) ++ rest ++ others)) as Hp.
    { rewrite !targets_app. rewrite (app_assoc (targets [tk])).
      rewrite (Permutation_app_comm (targets [tk])).
      rewrite <- app_assoc. apply Permutation_app_head.
      change (tk :: rest) with ([tk] ++ rest). rewrite targets_app, <- app_assoc.
      reflexivity. }
    apply (tree_ok_perm _ _ _ _ Hp) in Hok.
    unfold targets at 1 in Hok. simpl in Hok.
    destruct (target tk) as [t|] eqn:Ht; simpl in *.
    + apply (body_of_task_owned eval max_err progress tk t s (set_local rest w) _ Hok).
    + split; [|auto]. intros a Ha. left. eapply Hidle; eauto.
Qed.

(** A pass keeps the cells owned; a pass that makes the worker return hands
    its pool to the root. *)
Lemma run_pass_owned eval max_err progress fth s w others :
  tree_ok (heap s) (trace s) (targets (items (tasks s) ++ local w ++ others)) ->
  let b := run_pass eval max_err progress fth s w in
  (forall a, is_Some (heap b.1 !! a) ->
             is_Some (heap s !! a) \/ a ∈ object_pool b.2) /\
  (forall a, a ∈ object_pool w -> a ∈ object_pool b.2) /\
  (forall a, a ∈ claimed (out s) -> a ∈ claimed (out b.1)) /\
  (returned w = false -> returned b.2 = true ->
   forall a, a ∈ object_pool b.2 -> a ∈ claimed (out b.1)).
Proof.
  intros Hok. simpl. unfold run_pass.
  assert (forall s1 w1,
            (forall a, a ∈ claimed (out s) -> a ∈ claimed (out s1)) ->
            (forall a, a ∈ claimed (out s) -> a ∈ claimed (out (run_exit s1 w1).1)) /\
            (forall a, a ∈ object_pool (run_exit s1 w1).2 ->
                       a ∈ claimed (out (run_exit s1 w1).1))) as Hexit.
  { intros s1 w1 H1. simpl. split; intros a Ha; apply elem_of_app; auto. }
  destruct (negb (done s) && negb (cancel s)).
  - pose proof (run_body_owned eval max_err progress fth s w others Hok) as [Hh Hp].
    pose proof (run_body_frame eval max_err progress fth s w) as ((_&_&Ho&_)&Hr&_).
    destruct (run_body eval max_err progress fth s w) as [[s' w'] fl].
    simpl in *.
    assert (forall a, a ∈ claimed (out s) -> a ∈ claimed (out s')) as Hcl
        by (intros a Ha; rewrite Ho; exact Ha).
    destruct fl; simpl.
    + repeat split; auto. congruence.
    + destruct (Hexit s' w' Hcl) as [H1 H2]. repeat split; auto.
    + repeat split; auto. congruence.
  - destruct (Hexit s w (fun a H => H)) as [H1 H2]. simpl in *.
    repeat split; auto.
Qed.

Lemma step_owned eval max_err progress fth e m :
  machine_ok m -> owned m /\ pools_claimed m ->
  owned (step eval max_err progress fth e m) /\
  pools_claimed (step eval max_err progress fth e m).
Proof.
  intros Hok [Hown Hcl].
  destruct (step_cases eval max_err progress fth e m)
    as [->|[(_&_&->)|(i&w&_&_&Hw&Hr&->)]]; [auto|auto|].
  unfold machine_ok, pending in Hok.
  assert (tree_ok (heap (shared m)) (trace (shared m))
            (targets (items (tasks (shared m)) ++ local w
                      ++ concat (map local (delete i (threads m)))))) as Hok'.
  { eapply tree_ok_perm; [|exact Hok].
    apply targets_perm, Permutation_app_head, locals_delete, Hw. }
  destruct (run_pass_owned (eval i) max_err progress fth (shared m) w _ Hok')
    as (Hh & Hp & Hc & Hret).
  set (b := run_pass (eval i) max_err progress fth (shared m) w) in *.
  assert (i < length (threads m))%nat as Hi by (eapply lookup_lt_Some; exact Hw).
  split.
  - intros a Ha. simpl in Ha. destruct (Hh a Ha) as [Hold|Hnew].
    + destruct (Hown a Hold) as [H|[H|(j & wj & Hj & Hin)]]; auto.
      right. right. destruct (decide (j = i)) as [->|Hne].
      * exists i, b.2. simpl. rewrite list_lookup_insert_eq by exact Hi.
        split; [reflexivity|]. apply Hp.
        rewrite Hw in Hj. inversion Hj; subst. exact Hin.
      * exists j, wj. simpl. rewrite list_lookup_insert_ne by congruence. auto.
    + right. right. exists i, b.2. simpl.
      rewrite list_lookup_insert_eq by exact Hi. auto.
  - intros j wj Hj Hrj a Ha. simpl in *.
    destruct (decide (j = i)) as [->|Hne].
    + rewrite list_lookup_insert_eq in Hj by exact Hi. inversion Hj; subst.
      apply Hret; auto.
    + rewrite list_lookup_insert_ne in Hj by congruence.
      apply Hc. eapply Hcl; eauto.
Qed.

Lemma build_run_owned eval region_ min_feature max_err workers cancel cb fth sched :
  owned (build_run eval region_ min_feature max_err workers cancel cb fth sched) /\
  pools_claimed (build_run eval region_ min_feature max_err workers cancel
                           cb fth sched).
Proof.
  unfold build_run.
  apply (exec_invariant eval (to_float max_err)
           (build_watcher region_ min_feature cb) fth
           (fun m => machine_ok m /\ owned m /\ pools_claimed m)).
  - intros e m (Hok & Hown). split; [apply step_ok, Hok|].
    apply step_owned; assumption.
  - split; [apply build_start_ok|]. split.
    + intros a Ha. simpl in Ha. left.
      destruct (decide (a = [])) as [->|Hne]; [reflexivity|].
      rewrite lookup_singleton_ne in Ha by congruence. destruct Ha; discriminate.
    + intros i w Hw Hr. simpl in Hw. apply lookup_replicate in Hw.
      destruct Hw as [-> _]. discriminate.
Qed.

(** When every worker has returned, every cell but the root has been
    claimed. *)
Lemma all_returned_claimed (m : Machine) :
  owned m -> pools_claimed m ->
  forallb returned (threads m) = true ->
  forall a, is_Some (heap (shared m) !! a) ->
            a = [] \/ a ∈ claimed (out (shared m)).
Proof.
  intros Hown Hcl Hall a Ha.
  destruct (Hown a Ha) as [H|[H|(i & w & Hw & Hin)]]; auto.
  right. apply (Hcl i w Hw); [|exact Hin].
  rewrite forallb_forall in Hall. apply Hall.
  apply list_elem_of_In. eapply list_elem_of_lookup_2. exact Hw.
Qed.

End TreeFacts.

(** ** The properties of the specification *)

Section Properties.

Context {P : Params}.

(** C3, as the code has it.  The budget that [build] computes is the value of
    the recurrence [t_0 = 0], [t_{i+1} = (t_i + 1) * 2^N] after [level + 1]
    steps, one for each pass [i = 0 .. level] of the loop (none for a
    negative level), reduced modulo [2^64]; [level] is the level of
    [region_.withResolution(min_feature)].  In three dimensions and for a
    level of at most 20 nothing is lost in the reduction. *)
Theorem build_ticks_recurrence (region_ : Region) (min_feature : double) :
  build_ticks region_ min_feature
  = Ticks.wrap64
      (Ticks.recurrence N
         (Z.to_nat (level (withResolution region_ min_feature) + 1)))
  /\ (N = 3%nat -> level (withResolution region_ min_feature) <= 20 ->
      build_ticks region_ min_feature
      = Ticks.recurrence 3
          (Z.to_nat (level (withResolution region_ min_feature) + 1))).
Proof.
  unfold build_ticks. split.
  - apply level_ticks_recurrence.
  - intros HN Hle. rewrite level_ticks_recurrence. rewrite HN.
    apply wrap64_small, recurrence3_fits. lia.
Qed.

(** C9.  In every state of a build, a worker that has returned has stored
    [done = true], whichever way it left its loop; so has [run] when it
    returns from any state.  From then on the loop condition of every other
    worker fails: its next pass is [run_exit]; and a schedule that gives
    each worker one more pass brings all of them to return. *)
Theorem returned_worker_ends_all
    (eval : nat -> XTreeEvaluator) (region_ : Region)
    (min_feature max_err : double) (workers : nat) (cancel0 : bool)
    (cb : option ProgressCallback) (fth : option FreeThreadHandler)
    (sched : list Event) (i : nat) (w : Worker) :
  let m := build_run eval region_ min_feature max_err workers cancel0 cb fth sched in
  threads m !! i = Some w -> returned w = true ->
  done (shared m) = true /\
  (forall fuel e me pw s0 w0 s' w',
     returned w0 = false -> run fuel e me pw fth s0 w0 = Some (s', w') ->
     done s' = true /\ returned w' = true) /\
  (forall j w', threads m !! j = Some w' ->
     run_pass (eval j) (to_float max_err) (build_watcher region_ min_feature cb)
              fth (shared m) w' = run_exit (shared m) w') /\
  (forall sched', (forall j, (j < workers)%nat -> Pass j ∈ sched') ->
     forallb returned
       (threads (build_run eval region_ min_feature max_err workers cancel0
                           cb fth (sched ++ sched'))) = true).
Proof.
  intros m Hw Hr.
  assert (done (shared m) = true) as Hd.
  { eapply (build_run_returned_done eval region_ min_feature max_err workers
              cancel0 cb fth sched); eassumption. }
  split; [exact Hd|]. split; [|split].
  - intros fuel e me pw s0 w0 s' w'. apply run_returns_done.
  - intros j w' _. apply run_pass_exit. auto.
  - intros sched' Hall. rewrite build_run_app. fold m.
    apply exec_all_return; [left; exact Hd | apply build_run_failed |].
    intros j Hj. apply Hall. unfold m in Hj.
    rewrite build_run_length in Hj. exact Hj.
Qed.

(** C10.  The overload that takes the tree makes its own [cancel] flag,
    [false], and hands it to nobody: under every schedule the flag is still
    [false] at the end, and what is returned is never the empty root. *)
Theorem build_from_tree_never_empty
    (t : Tree) (region : Region) (min_feature max_err : double)
    (workers : nat) (cb : option ProgressCallback)
    (fth : option FreeThreadHandler) (sched : list nat) :
  cancel (shared (build_run (fun _ => make_evaluator t) region min_feature
                            max_err workers false cb fth (map Pass sched)))
  = false /\
  build_from_tree t region min_feature max_err workers cb fth sched
  ≠ Return Root_empty.
Proof.
  assert (cancel (shared (build_run (fun _ => make_evaluator t) region
            min_feature max_err workers false cb fth (map Pass sched))) = false)
    as Hc.
  { apply not_true_is_false. intros H. apply build_run_cancel in H.
    destruct H as [H|H]; [discriminate|].
    apply list_elem_of_In, in_map_iff in H. destruct H as (j & Hj & _).
    discriminate. }
  split; [exact Hc|].
  unfold build_from_tree, build. intros Hb.
  destruct workers as [|k]; [discriminate|]. set (workers := S k) in *.
  apply build_return_cases in Hb. destruct Hb as [_ [[Hcm _]|(_ & _ & Hr)]].
  - congruence.
  - pose proof (build_run_root_ptr (fun _ => make_evaluator t) region
                  min_feature max_err workers false cb fth (map Pass sched)) as Hp.
    rewrite <- Hr in Hp. discriminate.
Qed.

Local Arguments alloc_children : simpl never.

(** C4.  In three dimensions, a pass that takes a task on a cell [t] whose
    region has [level > 0] and that interval evaluation finds ambiguous
    gets exactly 8 cells from the worker's pool, the children [i :: t] for
    [i = 0 .. 7], and makes one task for each: the narrowed tape, the region
    [subdivide(region)[i]] and the neighbours computed for [t].  The first
    [k] of these tasks go to the shared stack, where [k] is the room left in
    it, and the others to the local stack.  The pass then goes back to the
    head of the loop: besides [evalInterval] and the 8 calls of the pool it
    makes no call, so no tick and no [collectChildren], and the flags are
    as they were. *)
Theorem ambiguous_pushes_children
    (eval : XTreeEvaluator) (max_err : float)
    (progress : option ProgressWatcher) (fth : option FreeThreadHandler)
    (s : Shared) (w : Worker) (tk : Task) (s0 : Shared) (w0 : Worker) (t : Addr) :
  N = 3%nat ->
  take_task s w = (Some tk, s0, w0) ->
  target tk = Some t ->
  0 < level (region tk) ->
  (interval_verdict eval (tape tk) (region tk)).1 = VAmbiguous ->
  let tp := (interval_verdict eval (tape tk) (region tk)).2 in
  let nb := local_neighbors tk t (heap s0) in
  let kids := map (child_task t tp (region tk) nb) (seq 0 8) in
  let k := Nat.min 8 (capacity (tasks s0) - length (items (tasks s0))) in
  exists s' w',
    run_body eval max_err progress fth s w = (s', w', Continue) /\
    object_pool w' = object_pool w0 ++ map (fun i => i :: t) (seq 0 8) /\
    (forall i, (i < 8)%nat -> heap s' !! (i :: t) = Some new_cell) /\
    type_at (heap s') t = Interval.AMBIGUOUS /\
    items (tasks s') = rev (take k kids) ++ items (tasks s0) /\
    local w' = rev (drop k kids) ++ local w0 /\
    trace s' = trace s ++ CallEvalInterval t Interval.AMBIGUOUS
                          :: map (CallGet t) (seq 0 8) /\
    done s' = done s /\ cancel s' = cancel s /\ failed s' = failed s /\
    returned w' = returned w.
Proof.
  intros HN Htake Htarget Hlevel Hv tp nb kids k.
  pose proof (take_task_flags s w) as (Hd0 & Hc0 & _ & Hf0).
  pose proof (take_task_trace s w) as Htr0.
  pose proof (take_task_returned s w) as Hr0.
  rewrite run_body_eq, Htake. rewrite Htake in Hd0, Hc0, Hf0, Htr0, Hr0.
  simpl in Hd0, Hc0, Hf0, Htr0, Hr0.
  simpl. rewrite Htarget. simpl.
  unfold body_of_task.
  destruct (Z.ltb_spec 0 (level (region tk))) as [_|Hle]; [|lia].
  rewrite Hv. fold tp nb.
  assert (children_size = 8%nat) as -> by (unfold children_size; rewrite HN; reflexivity).
  rewrite push_children_spec.
  rewrite evalInterval_eq, Hv. simpl.
  eexists _, _. split; [reflexivity|]. simpl.
  fold k.
  assert (k <= 8)%nat as Hk by (unfold k; lia).
  repeat split; try assumption.
  - intros i Hi. rewrite alloc_children_lookup.
    rewrite decide_True; [reflexivity|]. split; [reflexivity|].
    apply (proj2 (elem_of_seq 0 8 i)). lia.
  - unfold type_at, cell_at. rewrite alloc_children_lookup.
    destruct t as [|i p].
    + rewrite lookup_insert_eq. reflexivity.
    + rewrite decide_False.
      * rewrite lookup_insert_eq. reflexivity.
      * intros [Heq _]. apply (f_equal (@length nat)) in Heq. simpl in Heq. lia.
  - unfold kids. rewrite firstn_map, take_seq.
    replace (Nat.min k 8) with k by lia. reflexivity.
  - unfold kids. rewrite skipn_map, drop_seq. reflexivity.
  - rewrite Htr0. rewrite <- app_assoc. reflexivity.
Qed.

(** The calls of the part of the body that follows an evaluation. *)
Lemma finish_trace eval max_err progress can t r tp s :
  exists k t',
    trace (finish eval max_err progress can t r tp s).1 =
    trace s ++ emitted progress (if can then Ticks.level_ticks N (level r) else 1)
            ++ climb_calls progress t k t'.
Proof.
  rewrite finish_eq. simpl.
  destruct (climb eval max_err progress t r tp
              (tick progress (if can then Ticks.level_ticks N (level r) else 1) s))
    as [t' s'] eqn:Hc.
  apply climb_trace in Hc. destruct Hc as (k & Htr & _).
  exists k, t'. simpl. rewrite Htr, tick_trace, <- app_assoc. reflexivity.
Qed.

(** C5, as the code has it.  A pass that evaluates a leaf (a task whose
    region has no [level > 0]) reports one tick of amount 1 right after
    [evalLeaf], and a pass whose interval evaluation answers empty or filled
    reports one tick right after [evalInterval], of the amount that the loop
    of [build] gives for the level of the cell's own region: the recurrence
    after [level + 1] steps, modulo [2^64].  The report reaches the watcher
    when there is one ([emitted (Some pw) n = [CallTick n]]); without a
    watcher nothing is emitted ([emitted None n = []]).  The calls that
    follow are those of the walk towards the root. *)
Theorem leaf_and_uniform_cell_ticks
    (eval : XTreeEvaluator) (max_err : float)
    (progress : option ProgressWatcher) (fth : option FreeThreadHandler)
    (s : Shared) (w : Worker) (tk : Task) (s0 : Shared) (w0 : Worker) (t : Addr) :
  take_task s w = (Some tk, s0, w0) ->
  target tk = Some t ->
  let v := (interval_verdict eval (tape tk) (region tk)).1 in
  let s' := (run_body eval max_err progress fth s w).1.1 in
  (level (region tk) <= 0 ->
     exists k t',
       trace s' = trace s ++ CallEvalLeaf t :: emitted progress 1
                          ++ climb_calls progress t k t') /\
  (0 < level (region tk) -> v ≠ VAmbiguous ->
     exists k t',
       trace s' = trace s ++ CallEvalInterval t (of_verdict v)
                          :: emitted progress (Ticks.level_ticks N (level (region tk)))
                          ++ climb_calls progress t k t') /\
  (forall region_ min_feature,
     level (withResolution region_ min_feature) = level (region tk) ->
     Ticks.level_ticks N (level (region tk)) = build_ticks region_ min_feature) /\
  Ticks.level_ticks N (level (region tk))
  = Ticks.wrap64 (Ticks.recurrence N (Z.to_nat (level (region tk) + 1))) /\
  (forall pw n, emitted (Some pw) n = [CallTick n]) /\
  (forall n, emitted None n = []).
Proof.
  intros Htake Htarget v s'.
  pose proof (take_task_trace s w) as Htr0. rewrite Htake in Htr0. simpl in Htr0.
  assert (s' = (body_of_task eval max_err progress tk t s0 w0).1.1) as Hs'.
  { unfold s'. rewrite run_body_eq, Htake. simpl. rewrite Htarget. reflexivity. }
  repeat split.
  - intros Hl. rewrite Hs'. unfold body_of_task.
    destruct (Z.ltb_spec 0 (level (region tk))) as [?|_]; [lia|]. simpl.
    destruct (finish_trace eval max_err progress false t (region tk) (tape tk)
                (evalLeaf eval (tape tk) (region tk)
                          (local_neighbors tk t (heap s0)) t s0))
      as (k & t' & Htr).
    exists k, t'. rewrite Htr. simpl. rewrite Htr0, <- app_assoc. reflexivity.
  - intros Hl Hv. rewrite Hs'. unfold body_of_task.
    destruct (Z.ltb_spec 0 (level (region tk))) as [_|?]; [|lia].
    destruct (finish_trace eval max_err progress true t (region tk)
                (interval_verdict eval (tape tk) (region tk)).2
                (evalInterval eval (tape tk) (region tk) t s0).1)
      as (k & t' & Htr).
    exists k, t'. fold v in Hv |- *.
    destruct v eqn:Hveq; [| |congruence]; simpl; rewrite Htr;
      rewrite evalInterval_eq; simpl; fold v; rewrite Hveq; simpl;
      rewrite Htr0, <- app_assoc; reflexivity.
  - intros region_ min_feature Heq. unfold build_ticks. rewrite Heq. reflexivity.
  - apply level_ticks_recurrence.
Qed.

Lemma ticks_of_app l1 l2 : ticks_of (l1 ++ l2) = ticks_of l1 ++ ticks_of l2.
Proof. unfold ticks_of. apply omap_app. Qed.

Lemma collected_app l1 l2 : collected (l1 ++ l2) = collected l1 ++ collected l2.
Proof. unfold collected. apply omap_app. Qed.

(** In the calls of a walk, the cells collected are the first [k] above
    [t], and with a watcher there is one tick of amount 1 for each. *)
Lemma climb_calls_count progress t k t' :
  collected (climb_calls progress t k t') = take k (ancestors t) /\
  ticks_of (climb_calls progress t k t')
  = match progress with
    | Some _ => replicate (length (take k (ancestors t))) 1
    | None => []
    end.
Proof.
  unfold climb_calls. rewrite collected_app, ticks_of_app.
  assert (collected match t' with Some p => [CallCollect p false] | None => [] end
          = []) as -> by (destruct t'; reflexivity).
  assert (ticks_of match t' with Some p => [CallCollect p false] | None => [] end
          = []) as -> by (destruct t'; reflexivity).
  rewrite !app_nil_r.
  induction (take k (ancestors t)) as [|p l [IH1 IH2]]; simpl.
  - destruct progress; auto.
  - rewrite collected_app, ticks_of_app, IH1, IH2.
    destruct progress; simpl; auto.
Qed.

(** C6, as the code has it.  After a leaf or a cell that is all empty or all
    filled, [finish] reports the tick and walks up with [climb].  One turn
    of the walk is [up]: the region becomes [region.parent(t->parent_index)],
    the tape [Tape::getBase] of the old tape on the new region, the cell
    [t->parent]; as long as that cell is not null and its [collectChildren]
    answers true, the turn is repeated after one tick of amount 1, which
    reaches the watcher when there is one and is not emitted otherwise:
    the calls of a walk that collected [k] cells are [climb_calls], with as
    many ticks as cells collected.  A walk
    that ends on the null pointer has gone through every cell above [t];
    the pass then breaks out of the loop, and [run_exit] stores
    [done = true] and makes the worker return. *)
Theorem walk_up_collects
    (eval : XTreeEvaluator) (max_err : float)
    (progress : option ProgressWatcher) (fth : option FreeThreadHandler) :
  (forall can t r tp s,
     finish eval max_err progress can t r tp s =
     let c := climb eval max_err progress t r tp
                (tick progress (if can then Ticks.level_ticks N (level r) else 1) s) in
     (c.2, match c.1 with None => Break | Some _ => Continue end)) /\
  (forall t r tp,
     up t r tp =
     (parent t, region_parent r (parent_index t),
      getBase tp (region3 (region_parent r (parent_index t))))) /\
  (forall t r tp s,
     climb eval max_err progress t r tp s =
     let '(t1, r1, tp1) := up t r tp in
     match t1 with
     | None => (None, s)
     | Some p =>
         let '(ok, s1) := collectChildren eval tp1 r1 max_err p s in
         if ok
         then climb eval max_err progress p r1 tp1 (tick progress 1 s1)
         else (Some p, s1)
     end) /\
  (forall t r tp s t' s',
     climb eval max_err progress t r tp s = (t', s') ->
     exists k : nat,
       trace s' = trace s ++ climb_calls progress t k t' /\
       match t' with
       | None => k = length (ancestors t)
       | Some p => ancestors t !! k = Some p
       end) /\
  (forall t r tp s t' s',
     climb eval max_err progress t r tp s = (t', s') ->
     exists k : nat,
       collected (trace s') = collected (trace s) ++ take k (ancestors t) /\
       ticks_of (trace s')
       = ticks_of (trace s)
         ++ match progress with
            | Some _ => replicate (length (take k (ancestors t))) 1
            | None => []
            end) /\
  (forall pw n, emitted (Some pw) n = [CallTick n]) /\
  (forall n, emitted None n = []) /\
  (forall s w s' w',
     done s = false -> cancel s = false ->
     run_body eval max_err progress fth s w = (s', w', Break) ->
     run_pass eval max_err progress fth s w = run_exit s' w' /\
     done (run_exit s' w').1 = true /\ returned (run_exit s' w').2 = true).
Proof.
  split; [intros; apply finish_eq|].
  split; [reflexivity|].
  split; [intros; apply climb_up|].
  split; [intros t r tp s t' s'; apply climb_trace|].
  split.
  { intros t r tp s t' s' Hc. apply climb_trace in Hc.
    destruct Hc as (k & Htr & _). exists k.
    destruct (climb_calls_count progress t k t') as [H1 H2].
    rewrite Htr, collected_app, ticks_of_app, H1, H2. auto. }
  split; [reflexivity|]. split; [reflexivity|].
  intros s w s' w' Hd Hc Hb. unfold run_pass. rewrite Hd, Hc, Hb. auto.
Qed.

Lemma leaf_root_step eval max_err pw fth tk i m :
  target tk = Some [] -> level (region tk) = 0 ->
  leaf_root_state tk m ->
  leaf_root_state tk (step eval max_err (Some pw) fth (Pass i) m).
Proof.
  intros Htk Hlv (Hc & Hf & Hst).
  destruct (step_cases eval max_err (Some pw) fth (Pass i) m)
    as [->|[(Habs&_)|(j&w&Hj&_&Hw&Hr&->)]];
    [split; auto | discriminate |].
  split; [simpl; rewrite run_pass_cancel; exact Hc|].
  split; [simpl; rewrite run_pass_failed; exact Hf|].
  right. simpl.
  destruct Hst as [(Htr & Hd & Hit & Hws)|(Htk1 & Hd)].
  - destruct (Hws j w Hw) as [Hl _].
    unfold run_pass. rewrite Hd, Hc. simpl.
    rewrite run_body_eq.
    pose proof (take_task_spec (shared m) w) as Htake.
    rewrite Hl, Hit in Htake. rewrite Htake. simpl. rewrite Htk. simpl.
    unfold body_of_task. rewrite Hlv. simpl.
    rewrite Htr. simpl. auto.
  - rewrite run_pass_exit by auto. simpl. auto.
Qed.

Lemma leaf_root_exec eval max_err pw fth tk sched : forall m,
  target tk = Some [] -> level (region tk) = 0 ->
  SetCancel ∉ sched ->
  leaf_root_state tk m ->
  leaf_root_state tk (exec eval max_err (Some pw) fth sched m).
Proof.
  induction sched as [|e rest IH]; intros m Htk Hlv Hno Hst; simpl; [exact Hst|].
  apply not_elem_of_cons in Hno. destruct Hno as [Hne Hno].
  apply IH; auto.
  destruct e as [i|]; [|congruence].
  apply leaf_root_step; assumption.
Qed.

(** C1 on the smallest build.  In three dimensions, when the root region has
    level 0 and a progress callback is given, every build that returns
    without having been cancelled has emitted ticks that sum to 1, while the
    budget computed at the start is 8. *)
Theorem leaf_root_ticks_below_budget
    (eval : nat -> XTreeEvaluator) (region_ : Region)
    (min_feature max_err : double) (workers : nat)
    (f : ProgressCallback) (fth : option FreeThreadHandler)
    (sched : list Event) (r : Root) :
  N = 3%nat ->
  level (withResolution region_ min_feature) = 0 ->
  SetCancel ∉ sched ->
  build eval region_ min_feature max_err workers false (Some f) fth sched
  = Return r ->
  ticks_sum (trace (shared (build_run eval region_ min_feature max_err workers
                                      false (Some f) fth sched))) = 1 /\
  build_ticks region_ min_feature = 8.
Proof.
  intros HN Hlv Hno Hb. split.
  - unfold build in Hb. apply build_return_cases in Hb.
    destruct Hb as [_ [[Hc _]|(_ & Hd & _)]].
    + apply build_run_cancel in Hc. destruct Hc; [discriminate|contradiction].
    + unfold build_run, build_watcher, ProgressWatcher_build in *.
      set (tk := mkTask (Some []) (deck_tape (eval O))
                        (withResolution region_ min_feature) neighbors_default).
      pose proof (leaf_root_exec eval (to_float max_err)
                    (mkWatcher (build_ticks region_ min_feature) 0 f) fth tk sched
                    (build_start eval region_ min_feature workers false)
                    eq_refl Hlv Hno) as Hst.
      destruct Hst as (_ & _ & [(_ & Hd' & _)|(Htk & _)]).
      * split; [reflexivity|]. split; [reflexivity|]. left.
        split; [reflexivity|]. split; [reflexivity|]. split; [reflexivity|].
        intros i w Hw. simpl in Hw. apply lookup_replicate in Hw.
        destruct Hw as [-> _]. auto.
      * congruence.
      * unfold ticks_sum. rewrite Htk. reflexivity.
  - unfold build_ticks. rewrite Hlv, HN. reflexivity.
Qed.

End Properties.

(** ** Concrete runs *)

Section Runs.

Import Toy.

(** *** Runs of the model *)

Example level0_build :
  build (P := amb) evals unit_cube 1 0 1 false (Some tt) None (solo 1)
  = Return (Root_of []) /\
  trace (shared (build_run (P := amb) evals unit_cube 1 0 1 false (Some tt) None
                           (solo 1)))
  = [CallEvalLeaf []; CallTick 1] /\
  build_ticks (P := amb) unit_cube 1 = 8.
Proof. vm_compute. auto. Qed.

(** A level-1 build in which the root is ambiguous: eight leaves at one tick
    each and one tick for the collection of the root, against a budget of
    72. *)
Example level1_build :
  build (P := amb) evals two_cube 1 0 1 false (Some tt) None (solo 9)
  = Return (mkRoot (Some []) (map (fun i => [i]) (seq 0 8))) /\
  ticks_of (trace (shared (build_run (P := amb) evals two_cube 1 0 1 false
                                     (Some tt) None (solo 9))))
  = replicate 9 1 /\
  build_ticks (P := amb) two_cube 1 = 72.
Proof. vm_compute. auto. Qed.

(** The same build with two workers taking turns. *)
Example level1_build_two_workers :
  build (P := amb) evals two_cube 1 0 2 false (Some tt) None
        (concat (replicate 7 [Pass 0; Pass 1]))%nat
  = Return (mkRoot (Some []) (map (fun i => [i]) (seq 0 8))) /\
  ticks_sum (trace (shared (build_run (P := amb) evals two_cube 1 0 2 false
                                      (Some tt) None
                                      (concat (replicate 7 [Pass 0; Pass 1]))%nat)))
  = 9.
Proof. vm_compute. auto. Qed.

(** A level-1 build in which the root is empty: one tick of 72, the whole
    budget. *)
Example level1_empty_build :
  build (P := emp) evals two_cube 1 0 1 false (Some tt) None (solo 1)
  = Return (Root_of []) /\
  ticks_of (trace (shared (build_run (P := emp) evals two_cube 1 0 1 false
                                     (Some tt) None (solo 1))))
  = [72].
Proof. vm_compute. auto. Qed.

(** *** Where the specification and the code part *)

(** C3, as stated, fails.  Read as [t_level]: for a root region of level 0
    the budget is 8 and [t_0 = 0].  Read as the step applied for every
    [i] up to [level], which gives [t_{level+1}]: for a root region of level
    22 the 64-bit budget has wrapped around and is neither [t_22] nor
    [t_23]. *)
Lemma budget_is_not_recurrence_at_level :
  build_ticks (P := amb) unit_cube 1
  ≠ Ticks.recurrence (@N amb)
      (Z.to_nat (@level amb (@withResolution amb unit_cube 1))) /\
  @level amb (@withResolution amb big_cube 1) = 22 /\
  build_ticks (P := amb) big_cube 1 ≠ Ticks.recurrence (@N amb) 22 /\
  build_ticks (P := amb) big_cube 1 ≠ Ticks.recurrence (@N amb) 23.
Proof.
  vm_compute. split; [discriminate|]. split; [reflexivity|].
  split; discriminate.
Qed.

(** C5, as stated, fails: a pass of [run] with a null [progress] evaluates
    the leaf and emits no tick.  As to the amount for a cell found empty:
    at level 1 it is 72, not [t_1 = 8]; and at level 22 it has wrapped
    around and is neither [t_22] nor [t_23]. *)
Lemma leaf_and_uniform_ticks_differ :
  ticks_of (trace (run_pass (P := amb) O 0 None None unit_cube_start
                            Worker_start).1)
  ≠ [1] /\
  ticks_of (trace (run_pass (P := emp) O 0 (Some emp_watcher72) None
                            emp_two_cube_start Worker_start).1)
  ≠ [Ticks.recurrence (@N emp)
       (Z.to_nat (@level emp (region emp_two_cube_root_task)))] /\
  ticks_of (trace (run_pass (P := emp) O 0 (Some emp_watcher72) None
                            emp_big_cube_start Worker_start).1)
  ≠ [Ticks.recurrence (@N emp) 22] /\
  ticks_of (trace (run_pass (P := emp) O 0 (Some emp_watcher72) None
                            emp_big_cube_start Worker_start).1)
  ≠ [Ticks.recurrence (@N emp) 23].
Proof. vm_compute. repeat split; discriminate. Qed.

(** C6, as stated, fails: with a null [progress] the workers of a level-1
    build collect the root and no tick is emitted. *)
Lemma collection_without_watcher_emits_no_tick :
  let tr := trace (shared (level1_run None (solo 9))) in
  collected tr = [[]] /\ ticks_of tr = [].
Proof. vm_compute. auto. Qed.

(** *** The theorems at concrete inputs *)

Lemma leaf_root_ticks_unit_cube :
  ticks_sum (trace (shared (build_run (P := amb) evals unit_cube 1 0 1 false
                                      (Some tt) None (solo 1)))) = 1 /\
  build_ticks (P := amb) unit_cube 1 = 8.
Proof.
  apply (leaf_root_ticks_below_budget (P := amb) evals unit_cube 1 0 1 tt None
           (solo 1) (Root_of [])).
  - reflexivity.
  - reflexivity.
  - intros Hin. apply list_elem_of_In in Hin. simpl in Hin.
    destruct Hin as [H|H]; [discriminate H | exact H].
  - vm_compute. reflexivity.
Defined.

Lemma build_ticks_recurrence_two_cube :
  build_ticks (P := amb) two_cube 1 = Ticks.wrap64 (Ticks.recurrence 3 2) /\
  build_ticks (P := amb) two_cube 1 = Ticks.recurrence 3 2.
Proof.
  destruct (build_ticks_recurrence (P := amb) two_cube 1) as [H1 H2].
  split; [exact H1|]. apply H2; [reflexivity|]. vm_compute. discriminate.
Defined.

Lemma ambiguous_pushes_children_two_cube :
  exists s' w',
    run_body (P := amb) O 0 (Some watcher72) None two_cube_start Worker_start
    = (s', w', Continue) /\
    object_pool w' = map (fun i => [i]) (seq 0 8) /\
    trace s' = CallEvalInterval [] Interval.AMBIGUOUS :: map (CallGet []) (seq 0 8).
Proof.
  destruct (ambiguous_pushes_children (P := amb) O 0 (Some watcher72) None
              two_cube_start Worker_start two_cube_root_task
              (take_task two_cube_start Worker_start).1.2
              (take_task two_cube_start Worker_start).2 [])
    as (s' & w' & Hb & Hp & _ & _ & _ & _ & Htr & _).
  - reflexivity.
  - vm_compute. reflexivity.
  - reflexivity.
  - reflexivity.
  - reflexivity.
  - exists s', w'. split; [exact Hb|]. split; [exact Hp | exact Htr].
Defined.

Lemma leaf_and_uniform_cell_ticks_cubes :
  (exists k t',
     trace (run_body (P := amb) O 0 (Some watcher72) None unit_cube_start
                     Worker_start).1.1
     = CallEvalLeaf [] :: CallTick 1 :: climb_calls (Some watcher72) [] k t') /\
  (exists k t',
     trace (run_body (P := emp) O 0 (Some emp_watcher72) None emp_two_cube_start
                     Worker_start).1.1
     = CallEvalInterval [] Interval.EMPTY :: CallTick 72
         :: climb_calls (Some emp_watcher72) [] k t').
Proof.
  split.
  - destruct (leaf_and_uniform_cell_ticks (P := amb) O 0 (Some watcher72) None
                unit_cube_start Worker_start unit_cube_root_task
                (take_task unit_cube_start Worker_start).1.2
                (take_task unit_cube_start Worker_start).2 [])
      as (Hleaf & _).
    + vm_compute. reflexivity.
    + reflexivity.
    + apply Hleaf. vm_compute. discriminate.
  - destruct (leaf_and_uniform_cell_ticks (P := emp) O 0 (Some emp_watcher72) None
                emp_two_cube_start Worker_start emp_two_cube_root_task
                (take_task emp_two_cube_start Worker_start).1.2
                (take_task emp_two_cube_start Worker_start).2 [])
      as (_ & Hunif & _).
    + vm_compute. reflexivity.
    + reflexivity.
    + apply Hunif; [reflexivity | discriminate].
Defined.

Lemma walk_up_collects_last_leaf :
  (exists k,
     trace (climb (P := amb) O 0 (Some watcher72) [O] (mkToyRegion 1 0) 1%nat
                  (shared last_leaf_left)).2
     = trace (shared last_leaf_left)
       ++ climb_calls (Some watcher72) [O] k None /\
     k = 1%nat) /\
  done (run_pass (P := amb) O 0 (Some watcher72) None
                 (shared last_leaf_left) last_leaf_worker).1 = true.
Proof.
  destruct (walk_up_collects (P := amb) O 0 (Some watcher72) None)
    as (_ & _ & _ & Hc & _ & _ & _ & Hb).
  split.
  - destruct (Hc [O] (mkToyRegion 1 0) 1%nat (shared last_leaf_left)
                None
                (climb (P := amb) O 0 (Some watcher72) [O] (mkToyRegion 1 0) 1%nat
                       (shared last_leaf_left)).2)
      as (k & Htr & Hk).
    + vm_compute. reflexivity.
    + exists k. split; [exact Htr | exact Hk].
  - destruct (Hb (shared last_leaf_left) last_leaf_worker
                (run_body (P := amb) O 0 (Some watcher72) None
                   (shared last_leaf_left) last_leaf_worker).1.1
                (run_body (P := amb) O 0 (Some watcher72) None
                   (shared last_leaf_left) last_leaf_worker).1.2)
      as (Hp & Hd & _).
    + reflexivity.
    + reflexivity.
    + vm_compute. reflexivity.
    + rewrite Hp. exact Hd.
Defined.

Lemma returned_worker_ends_all_unit_cube :
  done (shared (build_run (P := amb) evals unit_cube 1 0 2 false None None
                          [Pass O])) = true /\
  forallb returned
    (threads (build_run (P := amb) evals unit_cube 1 0 2 false None None
                        ([Pass 0] ++ [Pass 0; Pass 1])%nat)) = true.
Proof.
  destruct (returned_worker_ends_all (P := amb) evals unit_cube 1 0 2 false
              None None [Pass O] O
              (default Worker_start
                 (threads (build_run (P := amb) evals unit_cube 1 0 2 false
                                     None None [Pass O]) !! O)))
    as (Hd & _ & _ & Hall).
  - vm_compute. reflexivity.
  - vm_compute. reflexivity.
  - split; [exact Hd|]. apply Hall.
    intros j Hj. destruct j as [|[|j]]; [| |lia].
    + apply list_elem_of_here.
    + apply list_elem_of_further, list_elem_of_here.
Defined.

Lemma build_from_tree_unit_cube :
  build_from_tree (P := amb) O unit_cube 1 0 1 (Some tt) None [O]
  = Return (Root_of []) /\
  build_from_tree (P := amb) O unit_cube 1 0 1 (Some tt) None [O]
  ≠ Return Root_empty.
Proof.
  split.
  - vm_compute. reflexivity.
  - exact (proj2 (build_from_tree_never_empty (P := amb) O unit_cube 1 0 1
                    (Some tt) None [O])).
Defined.

End Runs.

(** ** Facts about the budget *)

Section BudgetFacts.

Import Ticks.

(** Each step of the recurrence adds a power of [2^N]. *)
Lemma recurrence_step N n :
  recurrence N (S n) = recurrence N n + 2 ^ (Z.of_nat N * Z.of_nat (S n)).
Proof.
  induction n as [|n IH].
  - simpl recurrence. rewrite Z.mul_1_r. lia.
  - change (recurrence N (S (S n)))
      with ((recurrence N (S n) + 1) * 2 ^ Z.of_nat N).
    rewrite IH at 1.
    change (recurrence N (S n)) with ((recurrence N n + 1) * 2 ^ Z.of_nat N).
    replace (Z.of_nat N * Z.of_nat (S (S n)))
      with (Z.of_nat N * Z.of_nat (S n) + Z.of_nat N) by lia.
    rewrite Z.pow_add_r by lia.
    ring.
Qed.

(** The recurrence in closed form: a geometric sum. *)
Lemma recurrence_closed N n :
  (2 ^ Z.of_nat N - 1) * recurrence N n
  = 2 ^ Z.of_nat N * (2 ^ (Z.of_nat N * Z.of_nat n) - 1).
Proof.
  induction n as [|n IH].
  - change (recurrence N 0) with 0. change (Z.of_nat 0) with 0.
    rewrite !Z.mul_0_r. change (2 ^ 0) with 1. ring.
  - change (recurrence N (S n)) with ((recurrence N n + 1) * 2 ^ Z.of_nat N).
    replace (Z.of_nat N * Z.of_nat (S n))
      with (Z.of_nat N * Z.of_nat n + Z.of_nat N) by lia.
    rewrite Z.pow_add_r by lia.
    replace ((2 ^ Z.of_nat N - 1) * ((recurrence N n + 1) * 2 ^ Z.of_nat N))
      with (2 ^ Z.of_nat N * ((2 ^ Z.of_nat N - 1) * recurrence N n)
            + 2 ^ Z.of_nat N * (2 ^ Z.of_nat N - 1)) by ring.
    rewrite IH. ring.
Qed.

Lemma recurrence_bound N n :
  (0 < N)%nat -> recurrence N n < 2 ^ (Z.of_nat N * Z.of_nat n + 1).
Proof.
  intros HN.
  pose proof (recurrence_closed N n) as Hc.
  pose proof (recurrence_nonneg N n) as H0.
  assert (Hp : 2 <= 2 ^ Z.of_nat N).
  { change 2 with (2 ^ 1) at 1. apply Z.pow_le_mono_r; lia. }
  assert (Hq : 0 < 2 ^ (Z.of_nat N * Z.of_nat n)) by (apply Z.pow_pos_nonneg; lia).
  rewrite Z.pow_add_r by lia. change (2 ^ 1) with 2.
  nia.
Qed.

Lemma wrap64_add_multiple z k :
  64 <= k -> wrap64 (z + 2 ^ k) = wrap64 z.
Proof.
  intros Hk. unfold wrap64, uint64_mod.
  replace k with (64 + (k - 64)) by lia.
  rewrite Z.pow_add_r by lia.
  rewrite (Z.mul_comm (2 ^ 64)).
  apply Z_mod_plus_full.
Qed.

Lemma recurrence_saturates N n0 n :
  64 <= Z.of_nat N * Z.of_nat (S n0) -> (n0 <= n)%nat ->
  wrap64 (recurrence N n) = wrap64 (recurrence N n0).
Proof.
  intros H64 Hle. induction Hle as [|n Hle IH]; [reflexivity|].
  rewrite recurrence_step, wrap64_add_multiple by nia. exact IH.
Qed.

End BudgetFacts.

(** ** One pass, case by case *)

Section PassFacts.

Context {P : Params}.

Local Abbreviation Heap := (gmap Addr (Cell Leaf)).

Local Arguments alloc_children : simpl never.

Lemma children_size_pos : (0 < children_size)%nat.
Proof.
  unfold children_size.
  pose proof (Nat.pow_nonzero 2 N ltac:(lia)). lia.
Qed.

Lemma verdict_ambiguous_dec (v : Verdict) : {v = VAmbiguous} + {v <> VAmbiguous}.
Proof. destruct v; [right | right | left]; congruence. Qed.

(** The calls of the part of the body that follows an evaluation, and
    where the walk towards the root stops. *)
Lemma finish_walk eval max_err progress can t r tp s :
  exists k t',
    trace (finish eval max_err progress can t r tp s).1 =
    trace s ++ emitted progress (if can then Ticks.level_ticks N (level r) else 1)
            ++ climb_calls progress t k t' /\
    match t' with
    | None => k = length (ancestors t)
    | Some p => ancestors t !! k = Some p
    end.
Proof.
  rewrite finish_eq. simpl.
  destruct (climb eval max_err progress t r tp
              (tick progress (if can then Ticks.level_ticks N (level r) else 1) s))
    as [t' s'] eqn:Hc.
  apply climb_trace in Hc. destruct Hc as (k & Htr & Hk).
  exists k, t'. simpl. rewrite Htr, tick_trace, <- app_assoc.
  split; [reflexivity | exact Hk].
Qed.

(** What a pass does with a task whose cell is not divided: a leaf, or a
    cell that interval evaluation finds all empty or all filled. *)
Lemma body_of_task_finished eval max_err progress tk t s0 w0 :
  prefix_closed (heap s0) -> is_Some (heap s0 !! t) ->
  level (region tk) <= 0 \/
    (interval_verdict eval (tape tk) (region tk)).1 <> VAmbiguous ->
  let b := body_of_task eval max_err progress tk t s0 w0 in
  let can := 0 <? level (region tk) in
  b.1.2 = w0 /\ tasks b.1.1 = tasks s0 /\
  (forall a, is_Some (heap b.1.1 !! a) <-> is_Some (heap s0 !! a)) /\
  exists k t',
    trace b.1.1 =
    trace s0
    ++ (if can
        then CallEvalInterval t
               (of_verdict (interval_verdict eval (tape tk) (region tk)).1)
        else CallEvalLeaf t)
       :: emitted progress
            (if can then Ticks.level_ticks N (level (region tk)) else 1)
       ++ climb_calls progress t k t' /\
    match t' with
    | None => k = length (ancestors t)
    | Some p => ancestors t !! k = Some p
    end.
Proof.
  intros Hcl Ht Hcase. unfold body_of_task.
  destruct (Z.ltb_spec 0 (level (region tk))) as [Hpos|Hle]; simpl.
  - assert ((interval_verdict eval (tape tk) (region tk)).1 <> VAmbiguous)
      as Hv by (destruct Hcase as [H|H]; [lia | exact H]).
    set (s1 := (evalInterval eval (tape tk) (region tk) t s0).1).
    assert (forall a, is_Some (heap s1 !! a) <-> is_Some (heap s0 !! a)) as Hdom.
    { intros a. apply evalInterval_dom. exact Ht. }
    assert (prefix_closed (heap s1)) as Hcl1.
    { intros i a Ha. apply Hdom. apply (Hcl i). apply Hdom. exact Ha. }
    assert (tasks s1 = tasks s0) as Hq
      by (unfold s1; rewrite evalInterval_eq; reflexivity).
    assert (trace s1 = trace s0 ++
              [CallEvalInterval t
                 (of_verdict (interval_verdict eval (tape tk) (region tk)).1)])
      as Htr by (unfold s1; rewrite evalInterval_eq; reflexivity).
    assert (forall tp,
      let f := finish eval max_err progress true t (region tk) tp s1 in
      tasks f.1 = tasks s0 /\
      (forall a, is_Some (heap f.1 !! a) <-> is_Some (heap s0 !! a)) /\
      exists k t',
        trace f.1 =
        trace s0
        ++ CallEvalInterval t
             (of_verdict (interval_verdict eval (tape tk) (region tk)).1)
           :: emitted progress (Ticks.level_ticks N (level (region tk)))
           ++ climb_calls progress t k t' /\
        match t' with
        | None => k = length (ancestors t)
        | Some p => ancestors t !! k = Some p
        end) as Hfin.
    { intros tp.
      pose proof (finish_touches eval max_err progress true t (region tk) tp s1
                    Hcl1 (proj2 (Hdom t) Ht)) as (Hd & _ & Hq' & _).
      simpl. split; [congruence|]. split.
      - intros a. rewrite Hd. apply Hdom.
      - destruct (finish_walk eval max_err progress true t (region tk) tp s1)
          as (k & t' & Hf & Hk).
        exists k, t'. rewrite Hf, Htr, <- app_assoc.
        split; [reflexivity | exact Hk]. }
    destruct (interval_verdict eval (tape tk) (region tk)).1 eqn:Hverdict;
      simpl; [split; [reflexivity|]; apply Hfin ..|].
    congruence.
  - set (s1 := evalLeaf eval (tape tk) (region tk)
                        (local_neighbors tk t (heap s0)) t s0).
    pose proof (fun a => evalLeaf_dom eval (tape tk) (region tk)
                  (local_neighbors tk t (heap s0)) t s0 a Ht) as H1.
    fold s1 in H1.
    pose proof (finish_touches eval max_err progress false t (region tk)
                  (tape tk) s1
                  (evalLeaf_closed eval (tape tk) (region tk)
                     (local_neighbors tk t (heap s0)) t s0 Ht Hcl)
                  (proj2 (H1 t) Ht)) as (Hd & _ & Hq & _).
    split; [reflexivity|]. split; [exact Hq|].
    split; [intros a; rewrite Hd; apply H1|].
    destruct (finish_walk eval max_err progress false t (region tk) (tape tk) s1)
      as (k & t' & Hf & Hk).
    exists k, t'. rewrite Hf. unfold s1. simpl. rewrite <- app_assoc.
    split; [reflexivity | exact Hk].
Qed.

(** What a pass does with a task whose cell interval evaluation finds
    ambiguous. *)
Lemma body_of_task_ambiguous eval max_err progress tk t s0 w0 :
  0 < level (region tk) ->
  (interval_verdict eval (tape tk) (region tk)).1 = VAmbiguous ->
  let tp := (interval_verdict eval (tape tk) (region tk)).2 in
  let nb := local_neighbors tk t (heap s0) in
  let child := child_task t tp (region tk) nb in
  let k := Nat.min children_size
                   (capacity (tasks s0) - length (items (tasks s0))) in
  body_of_task eval max_err progress tk t s0 w0 =
  (mkShared
     (alloc_children t (seq 0 children_size)
        (<[t := mkCell Interval.AMBIGUOUS (leaf (cell_at (heap s0) t))]> (heap s0)))
     (mkStack (rev (map child (seq 0 k)) ++ items (tasks s0))
              (capacity (tasks s0)))
     (done s0) (cancel s0) (out s0)
     (trace s0 ++ CallEvalInterval t Interval.AMBIGUOUS
               :: map (CallGet t) (seq 0 children_size))
     (failed s0),
   mkWorker (rev (map child (seq k (children_size - k))) ++ local w0)
            (object_pool w0 ++ map (fun i => i :: t) (seq 0 children_size))
            (returned w0),
   Continue).
Proof.
  intros Hpos Hv tp nb child k. unfold body_of_task.
  destruct (Z.ltb_spec 0 (level (region tk))) as [_|Hle]; [|lia].
  rewrite Hv. fold tp nb.
  rewrite push_children_spec.
  rewrite evalInterval_eq, Hv. simpl.
  fold k. rewrite <- app_assoc. reflexivity.
Qed.

(** The children of a cell are split between the shared stack and the local
    one. *)
Lemma children_split {A} (f : nat -> A) (k n : nat) :
  (k <= n)%nat ->
  rev (map f (seq 0 k)) ++ rev (map f (seq k (n - k))) ≡ₚ map f (seq 0 n).
Proof.
  intros Hk.
  replace (seq 0 n) with (seq 0 k ++ seq (0 + k) (n - k))
    by (rewrite <- seq_app; f_equal; lia).
  rewrite map_app. simpl.
  apply Permutation_app; symmetry; apply Permutation_rev.
Qed.

(** What taking a task leaves as it was, and where the task comes from. *)
Lemma take_task_summary s w :
  let tt := take_task s w in
  heap tt.1.2 = heap s /\ trace tt.1.2 = trace s /\
  same_flags s tt.1.2 /\ capacity (tasks tt.1.2) = capacity (tasks s) /\
  object_pool tt.2 = object_pool w /\ returned tt.2 = returned w /\
  items (tasks s) ++ local w
  ≡ₚ option_list tt.1.1 ++ items (tasks tt.1.2) ++ local tt.2.
Proof.
  pose proof (take_task_spec s w) as Hspec.
  destruct (local w) as [|tk rest] eqn:Hl.
  - destruct (items (tasks s)) as [|tk rest] eqn:Hi; rewrite Hspec; simpl.
    + rewrite Hi, Hl. repeat split; reflexivity.
    + rewrite Hl. repeat split; reflexivity.
  - rewrite Hspec. simpl. repeat split; try reflexivity.
    rewrite Permutation_middle. reflexivity.
Qed.

(** The tasks that wait, seen from worker [i]. *)
Lemma pending_lookup (m : Machine) i w :
  threads m !! i = Some w ->
  pending m ≡ₚ (items (tasks (shared m)) ++ local w)
               ++ concat (map local (delete i (threads m))).
Proof.
  intros Hw. unfold pending. rewrite <- app_assoc.
  apply Permutation_app_head, locals_delete. exact Hw.
Qed.

Lemma pending_insert (m : Machine) i w s' w' :
  threads m !! i = Some w ->
  pending (mkMachine s' (<[i := w']> (threads m)))
  ≡ₚ (items (tasks s') ++ local w')
     ++ concat (map local (delete i (threads m))).
Proof.
  intros Hw. unfold pending. simpl. rewrite <- app_assoc.
  apply Permutation_app_head, (locals_insert _ _ w). exact Hw.
Qed.

Lemma pending_step (m : Machine) i w s' w' (gone new : list Task) :
  threads m !! i = Some w ->
  items (tasks (shared m)) ++ local w ≡ₚ gone ++ new ->
  items (tasks s') ++ local w' ≡ₚ new ->
  pending m ≡ₚ gone ++ pending (mkMachine s' (<[i := w']> (threads m))).
Proof.
  intros Hw Hold Hnew.
  rewrite (pending_lookup m i w Hw), (pending_insert m i w s' w' Hw).
  rewrite Hold, Hnew, <- app_assoc. reflexivity.
Qed.

(** One pass of a worker through the loop body, in a build: the worker
    finds no task; or it finishes a cell without dividing it; or it divides
    a cell, and the tasks of the children carry the tape that interval
    evaluation returned and the neighbours found for the cell. *)
Lemma body_step_cases eval max_err progress fth i w (m : Machine) :
  machine_ok m -> threads m !! i = Some w ->
  let m' := body_step eval max_err progress fth i w m in
  exists w',
    threads m' = <[i := w']> (threads m) /\ returned w' = returned w /\
    same_flags (shared m) (shared m') /\
    capacity (tasks (shared m')) = capacity (tasks (shared m)) /\
    ((heap (shared m') = heap (shared m) /\ object_pool w' = object_pool w /\
      trace (shared m') = trace (shared m) ++
                          match fth with Some _ => [CallOfferWait] | None => [] end /\
      exists nulls, Forall (fun tk => target tk = None) nulls /\
                    pending m ≡ₚ nulls ++ pending m')
     \/
     (exists tk t k t',
        target tk = Some t /\ is_Some (heap (shared m) !! t) /\
        pending m ≡ₚ tk :: pending m' /\
        object_pool w' = object_pool w /\
        (forall a, is_Some (heap (shared m') !! a)
                   <-> is_Some (heap (shared m) !! a)) /\
        (level (region tk) <= 0 \/
         (interval_verdict (eval i) (tape tk) (region tk)).1 <> VAmbiguous) /\
        trace (shared m') =
        trace (shared m)
        ++ (if 0 <? level (region tk)
            then CallEvalInterval t
                   (of_verdict (interval_verdict (eval i) (tape tk) (region tk)).1)
            else CallEvalLeaf t)
           :: emitted progress
                (if 0 <? level (region tk)
                 then Ticks.level_ticks N (level (region tk)) else 1)
           ++ climb_calls progress t k t' /\
        match t' with
        | None => k = length (ancestors t)
        | Some p => ancestors t !! k = Some p
        end)
     \/
     (exists tk t rest,
        target tk = Some t /\ is_Some (heap (shared m) !! t) /\
        (forall j, heap (shared m) !! (j :: t) = None) /\
        0 < level (region tk) /\
        (interval_verdict (eval i) (tape tk) (region tk)).1 = VAmbiguous /\
        pending m ≡ₚ tk :: rest /\
        pending m' ≡ₚ map (child_task t
                             (interval_verdict (eval i) (tape tk) (region tk)).2
                             (region tk)
                             (local_neighbors tk t (heap (shared m))))
                          (seq 0 children_size)
                      ++ rest /\
        object_pool w' = object_pool w
                         ++ map (fun j => j :: t) (seq 0 children_size) /\
        (forall a, is_Some (heap (shared m') !! a)
                   <-> is_Some (heap (shared m) !! a)
                       \/ exists j, (j < children_size)%nat /\ a = j :: t) /\
        trace (shared m') =
        trace (shared m) ++ CallEvalInterval t Interval.AMBIGUOUS
                         :: map (CallGet t) (seq 0 children_size))).
Proof.
  intros Hok Hw.
  set (others := concat (map local (delete i (threads m)))).
  pose proof (run_body_frame (eval i) max_err progress fth (shared m) w)
    as (Hflags & Hret & _).
  unfold body_step. simpl.
  set (b := run_body (eval i) max_err progress fth (shared m) w) in *.
  exists b.1.2. split; [reflexivity|]. split; [exact Hret|].
  split; [exact Hflags|].
  pose proof (take_task_summary (shared m) w)
    as (Hh & Htr & _ & Hcap & Hpool & _ & Hperm).
  assert (tree_ok (heap (shared m)) (trace (shared m))
            (targets (option_list (take_task (shared m) w).1.1
                      ++ (items (tasks (take_task (shared m) w).1.2)
                          ++ local (take_task (shared m) w).2) ++ others)))
    as Hok0.
  { eapply tree_ok_perm; [|exact Hok].
    apply targets_perm. rewrite (pending_lookup m i w Hw).
    fold others. rewrite Hperm, <- app_assoc. reflexivity. }
  unfold b. rewrite run_body_eq. clear b Hflags Hret.
  destruct (take_task (shared m) w) as [[o s0] w0]. simpl in *.
  assert (forall s0',
            tasks s0' = tasks s0 ->
            forall gone, items (tasks (shared m)) ++ local w
                         ≡ₚ gone ++ items (tasks s0) ++ local w0 ->
            pending m ≡ₚ gone ++ pending (mkMachine s0' (<[i := w0]> (threads m))))
    as Hpend.
  { intros s0' Hq gone Hg.
    apply (pending_step m i w s0' w0 gone _ Hw Hg). rewrite Hq. reflexivity. }
  assert (forall nulls,
            Forall (fun tk => target tk = None) nulls ->
            items (tasks (shared m)) ++ local w
            ≡ₚ nulls ++ items (tasks s0) ++ local w0 ->
            capacity (tasks (offerWait fth s0)) = capacity (tasks (shared m)) /\
            (heap (offerWait fth s0) = heap (shared m) /\
             object_pool w0 = object_pool w /\
             trace (offerWait fth s0) = trace (shared m) ++
               match fth with Some _ => [CallOfferWait] | None => [] end /\
             exists nulls, Forall (fun tk => target tk = None) nulls /\
               pending m ≡ₚ nulls ++
                 pending (mkMachine (offerWait fth s0) (<[i := w0]> (threads m)))))
    as Hidle.
  { intros nulls Hnull Hg.
    assert (tasks (offerWait fth s0) = tasks s0) as Hq by (destruct fth; reflexivity).
    split; [rewrite Hq; exact Hcap|].
    split; [destruct fth; simpl; exact Hh|].
    split; [exact Hpool|].
    split; [destruct fth; simpl; rewrite Htr; [reflexivity | rewrite app_nil_r; reflexivity]|].
    exists nulls. split; [exact Hnull|]. apply Hpend; assumption. }
  destruct o as [tk|]; simpl; [destruct (target tk) as [t|] eqn:Ht; simpl|].
  - (* a task *)
    unfold targets in Hok0. simpl in Hok0. rewrite Ht in Hok0.
    fold (targets ((items (tasks s0) ++ local w0) ++ others)) in Hok0.
    rewrite <- Hh, <- Htr in Hok0.
    destruct (ok_pending _ _ _ Hok0 t (list_elem_of_here _ _)) as (Hex & Hkids & _).
    pose proof (ok_closed _ _ _ Hok0) as Hcl.
    destruct (Z.ltb_spec 0 (level (region tk))) as [Hpos|Hle];
      [destruct (verdict_ambiguous_dec
                   (interval_verdict (eval i) (tape tk) (region tk)).1)
         as [Hamb|Hamb]|].
    + (* ambiguous *)
      rewrite (body_of_task_ambiguous (eval i) max_err progress tk t s0 w0 Hpos Hamb).
      simpl. split; [exact Hcap|]. right. right.
      set (tp := (interval_verdict (eval i) (tape tk) (region tk)).2).
      set (nb := local_neighbors tk t (heap s0)).
      set (k := Nat.min children_size _).
      exists tk, t, (items (tasks s0) ++ local w0 ++ others).
      rewrite <- Hh, <- Htr. fold tp nb.
      split; [exact Ht|]. split; [exact Hex|]. split; [exact Hkids|].
      split; [exact Hpos|]. split; [exact Hamb|]. split.
      { rewrite (pending_lookup m i w Hw). fold others. rewrite Hperm.
        simpl. rewrite <- app_assoc. reflexivity. }
      split.
      { rewrite (pending_insert m i w _ _ Hw). simpl. fold others.
        rewrite <- (children_split (child_task t tp (region tk) nb) k children_size)
          by (unfold k; lia).
        rewrite <- !app_assoc. apply Permutation_app_head.
        rewrite !app_assoc. apply Permutation_app_tail, Permutation_app_tail.
        apply Permutation_app_comm. }
      split; [rewrite Hpool; reflexivity|]. split; [|reflexivity].
      intros a. rewrite alloc_children_lookup.
      assert (is_Some (<[t := mkCell Interval.AMBIGUOUS (leaf (cell_at (heap s0) t))]>
                         (heap s0) !! a) <-> is_Some (heap s0 !! a)) as Hins.
      { destruct (decide (t = a)) as [->|Hne].
        - rewrite lookup_insert_eq. split; [intros _; exact Hex | intros _; eexists; reflexivity].
        - rewrite lookup_insert_ne by exact Hne. reflexivity. }
      destruct a as [|j p]; [rewrite Hins; split; [auto | intros [H|(j & _ & H)]; [exact H | discriminate]]|].
      destruct (decide (p = t /\ j ∈ seq 0 children_size)) as [[-> Hj]|Hno].
      * split; [|intros _; eexists; reflexivity].
        intros _. right. exists j. split; [|reflexivity].
        apply elem_of_seq in Hj. lia.
      * rewrite Hins. split; [auto|]. intros [H|(j' & Hj' & Heq)]; [exact H|].
        inversion Heq; subst. exfalso. apply Hno. split; [reflexivity|].
        apply elem_of_seq. lia.
    + (* all empty or all filled *)
      destruct (body_of_task_finished (eval i) max_err progress tk t s0 w0
                  Hcl Hex (or_intror Hamb)) as (Hw0 & Hq & Hdom & k & t' & Htrace & Hk).
      split; [rewrite Hq; exact Hcap|]. right. left.
      exists tk, t, k, t'. rewrite <- Hh, <- Htr.
      split; [exact Ht|]. split; [exact Hex|]. split.
      { rewrite Hw0. apply (Hpend _ Hq [tk]). exact Hperm. }
      split; [rewrite Hw0; exact Hpool|]. split; [exact Hdom|]. split; [right; exact Hamb|].
      split; [exact Htrace | exact Hk].
    + (* a leaf *)
      destruct (body_of_task_finished (eval i) max_err progress tk t s0 w0
                  Hcl Hex (or_introl Hle)) as (Hw0 & Hq & Hdom & k & t' & Htrace & Hk).
      split; [rewrite Hq; exact Hcap|]. right. left.
      exists tk, t, k, t'. rewrite <- Hh, <- Htr.
      split; [exact Ht|]. split; [exact Hex|]. split.
      { rewrite Hw0. apply (Hpend _ Hq [tk]). exact Hperm. }
      split; [rewrite Hw0; exact Hpool|]. split; [exact Hdom|]. split; [left; exact Hle|].
      split; [exact Htrace | exact Hk].
  - (* a task without a cell *)
    destruct (Hidle [tk]) as (Hc & Hrest);
      [repeat constructor; exact Ht | exact Hperm |].
    split; [exact Hc|]. left. exact Hrest.
  - destruct (Hidle []) as (Hc & Hrest); [constructor | exact Hperm |].
    split; [exact Hc|]. left. exact Hrest.
Qed.

(** The same, without the tape and the neighbours of the children. *)
Lemma body_step_summary eval max_err progress fth i w (m : Machine) :
  machine_ok m -> threads m !! i = Some w ->
  let m' := body_step eval max_err progress fth i w m in
  exists w',
    threads m' = <[i := w']> (threads m) /\ returned w' = returned w /\
    same_flags (shared m) (shared m') /\
    capacity (tasks (shared m')) = capacity (tasks (shared m)) /\
    ((heap (shared m') = heap (shared m) /\ object_pool w' = object_pool w /\
      trace (shared m') = trace (shared m) ++
                          match fth with Some _ => [CallOfferWait] | None => [] end /\
      exists nulls, Forall (fun tk => target tk = None) nulls /\
                    pending m ≡ₚ nulls ++ pending m')
     \/
     (exists tk t k t',
        target tk = Some t /\ is_Some (heap (shared m) !! t) /\
        pending m ≡ₚ tk :: pending m' /\
        object_pool w' = object_pool w /\
        (forall a, is_Some (heap (shared m') !! a)
                   <-> is_Some (heap (shared m) !! a)) /\
        (level (region tk) <= 0 \/
         (interval_verdict (eval i) (tape tk) (region tk)).1 <> VAmbiguous) /\
        trace (shared m') =
        trace (shared m)
        ++ (if 0 <? level (region tk)
            then CallEvalInterval t
                   (of_verdict (interval_verdict (eval i) (tape tk) (region tk)).1)
            else CallEvalLeaf t)
           :: emitted progress
                (if 0 <? level (region tk)
                 then Ticks.level_ticks N (level (region tk)) else 1)
           ++ climb_calls progress t k t' /\
        match t' with
        | None => k = length (ancestors t)
        | Some p => ancestors t !! k = Some p
        end)
     \/
     (exists tk t tp nb rest,
        target tk = Some t /\ is_Some (heap (shared m) !! t) /\
        (forall j, heap (shared m) !! (j :: t) = None) /\
        0 < level (region tk) /\
        pending m ≡ₚ tk :: rest /\
        pending m' ≡ₚ map (child_task t tp (region tk) nb) (seq 0 children_size)
                      ++ rest /\
        object_pool w' = object_pool w
                         ++ map (fun j => j :: t) (seq 0 children_size) /\
        (forall a, is_Some (heap (shared m') !! a)
                   <-> is_Some (heap (shared m) !! a)
                       \/ exists j, (j < children_size)%nat /\ a = j :: t) /\
        trace (shared m') =
        trace (shared m) ++ CallEvalInterval t Interval.AMBIGUOUS
                         :: map (CallGet t) (seq 0 children_size))).
Proof.
  intros Hok Hw.
  destruct (body_step_cases eval max_err progress fth i w m Hok Hw)
    as (w' & H1 & H2 & H3 & H4 & Hcase).
  exists w'. split; [exact H1|]. split; [exact H2|]. split; [exact H3|].
  split; [exact H4|].
  destruct Hcase
    as [Hidle|[Hfin|(tk & t & rest & Ha & Hb & Hc & Hd & _ & He & Hf & Hg & Hh & Hi)]].
  - left. exact Hidle.
  - right. left. exact Hfin.
  - right. right. eexists tk, t, _, _, rest.
    split; [exact Ha|]. split; [exact Hb|]. split; [exact Hc|]. split; [exact Hd|].
    split; [exact He|]. split; [exact Hf|]. split; [exact Hg|].
    split; [exact Hh | exact Hi].
Qed.

End PassFacts.

(** ** What every step of a build keeps *)

Section PhaseFacts.

Context {P : Params}.

Local Abbreviation Heap := (gmap Addr (Cell Leaf)).

(** A step of the build is a flag set by the caller, a pass through the
    loop body, a return from [run], or a pass through the body that breaks
    out of the loop followed by the return: what the two flags, the body
    and the return keep, every step keeps. *)
Lemma step_phases eval max_err progress fth (Inv : Machine -> Prop) :
  (forall m, Inv m -> Inv (mkMachine (set_cancel true (shared m)) (threads m))) ->
  (forall m i w, machine_ok m -> Inv m ->
     threads m !! i = Some w -> returned w = false ->
     Inv (body_step eval max_err progress fth i w m)) ->
  (forall m i w, Inv m -> threads m !! i = Some w -> returned w = false ->
     Inv (exit_step i w m)) ->
  forall e m, machine_ok m -> Inv m -> Inv (step eval max_err progress fth e m).
Proof.
  intros Hcancel Hbody Hexit e m Hok HI.
  destruct (step_cases eval max_err progress fth e m)
    as [->|[(_&_&->)|(i&w&_&_&Hw&Hr&->)]];
    [exact HI | apply Hcancel; exact HI |].
  unfold run_pass.
  destruct (negb (done (shared m)) && negb (cancel (shared m))).
  - pose proof (Hbody m i w Hok HI Hw Hr) as Hb. unfold body_step in Hb.
    pose proof (run_body_frame (eval i) max_err progress fth (shared m) w)
      as (_ & Hret & Hflow).
    destruct (run_body (eval i) max_err progress fth (shared m) w)
      as [[s' w'] fl].
    simpl in *. destruct fl; [exact Hb | | congruence].
    pose proof (Hexit _ i w' Hb) as He. unfold exit_step in He. simpl in He.
    rewrite list_insert_insert_eq in He. apply He.
    + apply list_lookup_insert_eq. eapply lookup_lt_Some. exact Hw.
    + congruence.
  - apply (Hexit m i w HI Hw Hr).
Qed.

(** What the three kinds of step keep holds after every schedule. *)
Lemma exec_phases eval max_err progress fth (Inv : Machine -> Prop) :
  (forall m, Inv m -> Inv (mkMachine (set_cancel true (shared m)) (threads m))) ->
  (forall m i w, machine_ok m -> Inv m ->
     threads m !! i = Some w -> returned w = false ->
     Inv (body_step eval max_err progress fth i w m)) ->
  (forall m i w, Inv m -> threads m !! i = Some w -> returned w = false ->
     Inv (exit_step i w m)) ->
  forall sched m, machine_ok m -> Inv m ->
                  Inv (exec eval max_err progress fth sched m).
Proof.
  intros Hcancel Hbody Hexit sched m Hok HI.
  apply (exec_invariant eval max_err progress fth
           (fun m => machine_ok m /\ Inv m)); [|split; assumption].
  intros e m' (Hok' & HI'). split; [apply step_ok, Hok'|].
  apply step_phases; assumption.
Qed.

Lemma build_start_pending eval region_ min_feature workers cancel0 :
  pending (build_start eval region_ min_feature workers cancel0)
  = [mkTask (Some []) (deck_tape (eval O))
            (withResolution region_ min_feature) neighbors_default].
Proof.
  unfold pending. simpl.
  assert (concat (map local (replicate workers Worker_start)) = []) as ->.
  { induction workers as [|n IH]; simpl; [reflexivity | exact IH]. }
  reflexivity.
Qed.

Lemma build_start_heap eval region_ min_feature workers cancel0 (a : Addr) :
  is_Some (heap (shared (build_start eval region_ min_feature workers cancel0)) !! a)
  <-> a = [].
Proof.
  simpl. destruct (decide (a = [])) as [->|Hne].
  - rewrite lookup_singleton_eq. split; [reflexivity | eauto].
  - rewrite lookup_singleton_ne by congruence.
    split; [intros [x Hx]; discriminate | congruence].
Qed.

(** The calls that follow an evaluation are ticks and calls of
    [collectChildren]. *)
Lemma walk_calls progress n t k t' c :
  c ∈ emitted progress n ++ climb_calls progress t k t' ->
  (exists a ok, c = CallCollect a ok) \/ (exists z, c = CallTick z).
Proof.
  assert (forall z, c ∈ emitted progress z -> exists z', c = CallTick z') as Hem.
  { intros z Hc. destruct progress; simpl in Hc.
    - apply list_elem_of_singleton in Hc. eauto.
    - inversion Hc. }
  intros Hc. apply elem_of_app in Hc. destruct Hc as [Hc|Hc]; [right; eauto|].
  unfold climb_calls in Hc. apply elem_of_app in Hc. destruct Hc as [Hc|Hc].
  - induction (take k (ancestors t)) as [|p l IH]; simpl in Hc; [inversion Hc|].
    apply elem_of_cons in Hc. destruct Hc as [->|Hc]; [left; eauto|].
    apply elem_of_app in Hc. destruct Hc as [Hc|Hc]; [right; eauto | auto].
  - destruct t'; [|inversion Hc].
    apply list_elem_of_singleton in Hc. left. eauto.
Qed.

Lemma evaluated_app l1 l2 : evaluated (l1 ++ l2) = evaluated l1 ++ evaluated l2.
Proof. unfold evaluated. apply omap_app. Qed.

Lemma finished_app l1 l2 : finished (l1 ++ l2) = finished l1 ++ finished l2.
Proof. unfold finished. apply omap_app. Qed.

Lemma evaluated_none (l : list Call) :
  (forall c, c ∈ l ->
     (exists a ok, c = CallCollect a ok) \/ (exists z, c = CallTick z)) ->
  evaluated l = [].
Proof.
  induction l as [|c l IH]; intros H; [reflexivity|].
  assert (evaluated l = []) as Hl.
  { apply IH. intros c' Hc'. apply H. apply list_elem_of_further. exact Hc'. }
  destruct (H c (list_elem_of_here _ _)) as [(a & ok & ->)|(z & ->)]; exact Hl.
Qed.

Lemma evaluated_walk progress n t k t' :
  evaluated (emitted progress n ++ climb_calls progress t k t') = [].
Proof. apply evaluated_none, walk_calls. Qed.

Lemma evaluated_gets t l : evaluated (map (CallGet t) l) = [].
Proof. induction l as [|i l IH]; [reflexivity | exact IH]. Qed.

Lemma targets_nulls (nulls : list Task) :
  Forall (fun tk => target tk = None) nulls -> targets nulls = [].
Proof.
  induction 1 as [|tk l Htk _ IH]; [reflexivity|].
  unfold targets in *. simpl. rewrite Htk. exact IH.
Qed.

Lemma kids_nodup (t : Addr) n : NoDup (map (fun j => j :: t) (seq 0 n)).
Proof.
  apply (NoDup_fmap_2 (fun j => j :: t)), NoDup_seq.
Qed.

Lemma kids_elem (t a : Addr) n :
  a ∈ map (fun j => j :: t) (seq 0 n) <-> exists j, (j < n)%nat /\ a = j :: t.
Proof.
  change (map (fun j => j :: t) (seq 0 n)) with ((fun j => j :: t) <$> seq 0 n).
  rewrite list_elem_of_fmap. split.
  - intros (j & -> & Hj). apply elem_of_seq in Hj. exists j. split; [lia | reflexivity].
  - intros (j & Hj & ->). exists j. split; [reflexivity|]. apply elem_of_seq. lia.
Qed.

(** *** Every cell waits or has been evaluated *)

Lemma accounted_body eval max_err progress fth i w (m : Machine) :
  machine_ok m -> accounted m -> threads m !! i = Some w ->
  accounted (body_step eval max_err progress fth i w m).
Proof.
  intros Hok (Hnd & Hdom) Hw.
  destruct (body_step_summary eval max_err progress fth i w m Hok Hw)
    as (w' & _ & _ & _ & _ & Hcase).
  set (m' := body_step eval max_err progress fth i w m) in *.
  unfold accounted.
  destruct Hcase as [(Hh & _ & Htr & nulls & Hnull & Hp)
                    |[(tk & t & k & t' & Ht & _ & Hp & _ & Hd & _ & Htr & _)
                     |(tk & t & tp & nb & rest & Ht & _ & Hkids & _ & Hp & Hp'
                       & _ & Hd & Htr)]].
  - assert (targets (pending m) ≡ₚ targets (pending m')) as Hts.
    { rewrite (targets_perm _ _ Hp), targets_app, (targets_nulls _ Hnull).
      reflexivity. }
    assert (evaluated (trace (shared m')) = evaluated (trace (shared m))) as He.
    { rewrite Htr, evaluated_app. destruct fth; simpl; apply app_nil_r. }
    rewrite He, Hh.
    split; [rewrite <- Hts; exact Hnd | intros a; rewrite <- Hts; apply Hdom].
  - assert (targets (pending m) ≡ₚ t :: targets (pending m')) as Hts.
    { rewrite (targets_perm _ _ Hp). unfold targets. simpl. rewrite Ht. reflexivity. }
    assert (evaluated (trace (shared m')) = evaluated (trace (shared m)) ++ [t]) as He.
    { rewrite Htr, evaluated_app. f_equal.
      change (?c :: ?l) with ([c] ++ l). rewrite evaluated_app, evaluated_walk.
      destruct (0 <? level (region tk)); reflexivity. }
    assert (targets (pending m') ++ evaluated (trace (shared m'))
            ≡ₚ targets (pending m) ++ evaluated (trace (shared m))) as Hall.
    { rewrite He, Hts. simpl. rewrite app_assoc, <- Permutation_cons_append.
      reflexivity. }
    split; [rewrite Hall; exact Hnd|].
    intros a. rewrite Hd, Hall. apply Hdom.
  - set (kids := map (fun j => j :: t) (seq 0 children_size)) in *.
    assert (targets (pending m) ≡ₚ t :: targets rest) as Hts.
    { rewrite (targets_perm _ _ Hp). unfold targets. simpl. rewrite Ht. reflexivity. }
    assert (targets (pending m') ≡ₚ kids ++ targets rest) as Hts'.
    { rewrite (targets_perm _ _ Hp'), targets_app, targets_children. reflexivity. }
    assert (evaluated (trace (shared m')) = evaluated (trace (shared m)) ++ [t]) as He.
    { rewrite Htr, evaluated_app. f_equal.
      change (?c :: ?l) with ([c] ++ l). rewrite evaluated_app, evaluated_gets.
      reflexivity. }
    assert (targets (pending m') ++ evaluated (trace (shared m'))
            ≡ₚ kids ++ targets (pending m) ++ evaluated (trace (shared m))) as Hall.
    { rewrite He, Hts, Hts'. rewrite <- app_assoc. apply Permutation_app_head.
      simpl. rewrite app_assoc, <- Permutation_cons_append. reflexivity. }
    split.
    + rewrite Hall. apply NoDup_app. split; [apply kids_nodup|]. split; [|exact Hnd].
      intros a Ha Hold. apply kids_elem in Ha. destruct Ha as (j & _ & ->).
      apply Hdom in Hold. rewrite Hkids in Hold. destruct Hold; discriminate.
    + intros a. rewrite Hd, Hall, elem_of_app, <- Hdom.
      unfold kids. rewrite kids_elem. tauto.
Qed.

Lemma accounted_exit i w (m : Machine) :
  accounted m -> threads m !! i = Some w -> accounted (exit_step i w m).
Proof.
  intros Hacc Hw. unfold accounted in *.
  assert (targets (pending (exit_step i w m)) ≡ₚ targets (pending m)) as Hts.
  { apply targets_perm. unfold exit_step.
    rewrite (pending_insert m i w _ _ Hw), (pending_lookup m i w Hw). reflexivity. }
  destruct Hacc as (Hnd & Hdom).
  split; [rewrite Hts; exact Hnd | intros a; rewrite Hts; apply Hdom].
Qed.

(** *** Children and verdicts *)

Lemma divided_body eval max_err progress fth i w (m : Machine) :
  machine_ok m -> divided_when_ambiguous m -> threads m !! i = Some w ->
  divided_when_ambiguous (body_step eval max_err progress fth i w m).
Proof.
  intros Hok Hdiv Hw.
  destruct (body_step_summary eval max_err progress fth i w m Hok Hw)
    as (w' & _ & _ & _ & _ & Hcase).
  set (m' := body_step eval max_err progress fth i w m) in *.
  unfold divided_when_ambiguous in *. intros j a.
  destruct Hcase as [(Hh & _ & Htr & _)
                    |[(tk & t & k & t' & Ht & _ & _ & _ & Hd & Hv & Htr & _)
                     |(tk & t & tp & nb & rest & Ht & _ & Hkids & _ & _ & _
                       & _ & Hd & Htr)]].
  - rewrite Hh, Htr, elem_of_app, Hdiv.
    split; [intros (Hj & Hin); split; [exact Hj | left; exact Hin]|].
    intros (Hj & [Hin|Hin]); [split; assumption|].
    destruct fth; [apply list_elem_of_singleton in Hin; discriminate | inversion Hin].
  - rewrite Hd, Htr, elem_of_app, Hdiv.
    split; [intros (Hj & Hin); split; [exact Hj | left; exact Hin]|].
    intros (Hj & [Hin|Hin]); [split; assumption|]. exfalso.
    apply elem_of_cons in Hin. destruct Hin as [Heq|Hin].
    + destruct (0 <? level (region tk)) eqn:Hcan; [|discriminate].
      destruct Hv as [Hle|Hv]; [apply Z.ltb_lt in Hcan; lia|].
      destruct ((interval_verdict (eval i) (tape tk) (region tk)).1);
        simpl in Heq; congruence.
    + apply walk_calls in Hin. destruct Hin as [(? & ? & ?)|(? & ?)]; discriminate.
  - rewrite Hd, Htr, elem_of_app, Hdiv, elem_of_cons. split.
    + intros [(Hj & Hin)|(j' & Hj' & Heq)].
      * split; [exact Hj | left; exact Hin].
      * inversion Heq; subst. split; [exact Hj' | right; left; reflexivity].
    + intros (Hj & [Hin|[Heq|Hin]]).
      * left. split; assumption.
      * inversion Heq; subst. right. exists j. split; [exact Hj | reflexivity].
      * exfalso. clear -Hin. induction (seq 0 children_size) as [|x l IH];
          simpl in Hin; [inversion Hin|].
        apply elem_of_cons in Hin. destruct Hin as [Heq|Hin]; [discriminate | auto].
Qed.

(** *** Levels *)

Lemma levels_body eval max_err progress fth L i w (m : Machine) :
  (forall r j, (j < children_size)%nat -> level (subdivide r j) = level r - 1) ->
  machine_ok m -> levels_ok L m -> threads m !! i = Some w ->
  levels_ok L (body_step eval max_err progress fth i w m).
Proof.
  intros Hsub Hok (Hlev & Hdeep & Hint & Hleaf) Hw.
  destruct (body_step_summary eval max_err progress fth i w m Hok Hw)
    as (w' & _ & _ & _ & _ & Hcase).
  set (m' := body_step eval max_err progress fth i w m) in *.
  unfold levels_ok.
  destruct Hcase as [(Hh & _ & Htr & nulls & _ & Hp)
                    |[(tk & t & k & t' & Ht & _ & Hp & _ & Hd & Hv & Htr & _)
                     |(tk & t & tp & nb & rest & Ht & _ & _ & Hpos & Hp & Hp'
                       & _ & Hd & Htr)]].
  - rewrite Hh, Htr. repeat split.
    + intros tk a Htk. apply Hlev. rewrite Hp. apply elem_of_app. right. exact Htk.
    + exact Hdeep.
    + intros a v Hin. apply elem_of_app in Hin. destruct Hin as [Hin|Hin];
        [eapply Hint; exact Hin|].
      destruct fth; [apply list_elem_of_singleton in Hin; discriminate | inversion Hin].
    + intros a Hin. apply elem_of_app in Hin. destruct Hin as [Hin|Hin];
        [apply Hleaf; exact Hin|].
      destruct fth; [apply list_elem_of_singleton in Hin; discriminate | inversion Hin].
  - assert (level (region tk) = L - depth t) as Htk.
    { apply Hlev; [|exact Ht]. rewrite Hp. apply list_elem_of_here. }
    rewrite Htr. repeat split.
    + intros tk' a Htk'. apply Hlev. rewrite Hp. apply list_elem_of_further.
      exact Htk'.
    + intros a Ha. apply Hdeep, Hd. exact Ha.
    + intros a v Hin. apply elem_of_app in Hin. destruct Hin as [Hin|Hin];
        [eapply Hint; exact Hin|].
      apply elem_of_cons in Hin. destruct Hin as [Heq|Hin].
      * destruct (Z.ltb_spec 0 (level (region tk))); [|discriminate].
        inversion Heq; subst. lia.
      * apply walk_calls in Hin. destruct Hin as [(? & ? & ?)|(? & ?)]; discriminate.
    + intros a Hin. apply elem_of_app in Hin. destruct Hin as [Hin|Hin];
        [apply Hleaf; exact Hin|].
      apply elem_of_cons in Hin. destruct Hin as [Heq|Hin].
      * destruct (Z.ltb_spec 0 (level (region tk))); [discriminate|].
        inversion Heq; subst. lia.
      * apply walk_calls in Hin. destruct Hin as [(? & ? & ?)|(? & ?)]; discriminate.
  - assert (level (region tk) = L - depth t) as Htk.
    { apply Hlev; [|exact Ht]. rewrite Hp. apply list_elem_of_here. }
    assert (forall j, depth (j :: t) = depth t + 1) as Hdepth
      by (intros j; unfold depth; simpl length; lia).
    rewrite Htr. repeat split.
    + intros tk' a Htk' Ha. rewrite Hp' in Htk'. apply elem_of_app in Htk'.
      destruct Htk' as [Hkid|Hold].
      * change (map ?f ?l) with (f <$> l) in Hkid.
        apply list_elem_of_fmap in Hkid. destruct Hkid as (j & -> & Hj).
        apply elem_of_seq in Hj. simpl in Ha. inversion Ha; subst.
        simpl. rewrite Hsub by lia. rewrite Hdepth. lia.
      * apply Hlev; [|exact Ha]. rewrite Hp. apply list_elem_of_further. exact Hold.
    + intros a Ha. apply Hd in Ha. destruct Ha as [Ha|(j & _ & ->)];
        [apply Hdeep; exact Ha|].
      rewrite Hdepth. lia.
    + intros a v Hin. apply elem_of_app in Hin. destruct Hin as [Hin|Hin];
        [eapply Hint; exact Hin|].
      apply elem_of_cons in Hin. destruct Hin as [Heq|Hin].
      * inversion Heq; subst. lia.
      * exfalso. clear -Hin. induction (seq 0 children_size) as [|x l IH];
          simpl in Hin; [inversion Hin|].
        apply elem_of_cons in Hin. destruct Hin as [Heq|Hin]; [discriminate | auto].
    + intros a Hin. apply elem_of_app in Hin. destruct Hin as [Hin|Hin];
        [apply Hleaf; exact Hin|].
      apply elem_of_cons in Hin. destruct Hin as [Heq|Hin]; [discriminate|].
      exfalso. clear -Hin. induction (seq 0 children_size) as [|x l IH];
        simpl in Hin; [inversion Hin|].
      apply elem_of_cons in Hin. destruct Hin as [Heq|Hin]; [discriminate | auto].
Qed.

Lemma levels_exit L i w (m : Machine) :
  levels_ok L m -> threads m !! i = Some w -> levels_ok L (exit_step i w m).
Proof.
  intros (Hlev & Hrest) Hw. split; [|exact Hrest].
  intros tk a Htk. apply Hlev. unfold exit_step in Htk.
  rewrite (pending_insert m i w _ _ Hw) in Htk.
  rewrite (pending_lookup m i w Hw). exact Htk.
Qed.

(** *** Pools *)

Lemma live_pools_lookup (l : list Worker) i w :
  l !! i = Some w ->
  live_pools l ≡ₚ (if returned w then [] else object_pool w)
                  ++ live_pools (delete i l).
Proof.
  unfold live_pools.
  revert i. induction l as [|x l IH]; intros i Hi; [inversion Hi|].
  destruct i as [|i]; simpl in *.
  - inversion Hi; subst. reflexivity.
  - rewrite (IH i Hi). rewrite !app_assoc.
    apply Permutation_app_tail, Permutation_app_comm.
Qed.

Lemma live_pools_insert (l : list Worker) i w w' :
  l !! i = Some w ->
  live_pools (<[i := w']> l) ≡ₚ (if returned w' then [] else object_pool w')
                                ++ live_pools (delete i l).
Proof.
  unfold live_pools.
  revert i. induction l as [|x l IH]; intros i Hi; [inversion Hi|].
  destruct i as [|i]; simpl in *.
  - reflexivity.
  - rewrite (IH i Hi). rewrite !app_assoc.
    apply Permutation_app_tail, Permutation_app_comm.
Qed.

Lemma claims_body eval max_err progress fth i w (m : Machine) :
  machine_ok m -> claims_ok m -> threads m !! i = Some w -> returned w = false ->
  claims_ok (body_step eval max_err progress fth i w m).
Proof.
  intros Hok (Hnd & Hin) Hw Hr.
  destruct (body_step_summary eval max_err progress fth i w m Hok Hw)
    as (w' & Hth & Hr' & (_ & _ & Hout & _) & _ & Hcase).
  set (m' := body_step eval max_err progress fth i w m) in *.
  set (others := live_pools (delete i (threads m))).
  assert (claimed (out (shared m)) ++ live_pools (threads m)
          ≡ₚ claimed (out (shared m)) ++ object_pool w ++ others) as Hold.
  { rewrite (live_pools_lookup _ i w Hw), Hr. reflexivity. }
  assert (claimed (out (shared m')) ++ live_pools (threads m')
          ≡ₚ claimed (out (shared m)) ++ object_pool w' ++ others) as Hnew.
  { rewrite Hth, Hout, (live_pools_insert _ i w w' Hw), Hr', Hr. reflexivity. }
  unfold claims_ok.
  destruct Hcase as [(Hh & Hpool & _)
                    |[(tk & t & k & t' & _ & _ & _ & Hpool & Hd & _ & _)
                     |(tk & t & tp & nb & rest & _ & _ & Hkids & _ & _ & _
                       & Hpool & Hd & _)]].
  - rewrite Hpool, <- Hold in Hnew.
    split; [rewrite Hnew; exact Hnd|].
    intros a Ha. rewrite Hnew in Ha. rewrite Hh. apply Hin. exact Ha.
  - rewrite Hpool, <- Hold in Hnew.
    split; [rewrite Hnew; exact Hnd|].
    intros a Ha. rewrite Hnew in Ha. rewrite Hd. apply Hin. exact Ha.
  - set (kids := map (fun j => j :: t) (seq 0 children_size)) in *.
    assert (claimed (out (shared m')) ++ live_pools (threads m')
            ≡ₚ kids ++ claimed (out (shared m)) ++ live_pools (threads m)) as Hall.
    { rewrite Hnew, Hold, Hpool.
      rewrite (Permutation_app_comm (object_pool w) kids), <- !app_assoc.
      rewrite (app_assoc (claimed _) kids), (Permutation_app_comm (claimed _) kids).
      rewrite <- app_assoc. reflexivity. }
    split.
    + rewrite Hall. apply NoDup_app. split; [apply kids_nodup|]. split; [|exact Hnd].
      intros a Ha Hold'. apply kids_elem in Ha. destruct Ha as (j & _ & ->).
      apply Hin in Hold'. destruct Hold' as (Hsome & _).
      rewrite Hkids in Hsome. destruct Hsome; discriminate.
    + intros a Ha. rewrite Hall in Ha. apply elem_of_app in Ha.
      rewrite Hd. destruct Ha as [Ha|Ha].
      * apply kids_elem in Ha. destruct Ha as (j & Hj & ->).
        split; [right; exists j; split; [exact Hj | reflexivity] | discriminate].
      * destruct (Hin a Ha) as (Hsome & Hne). split; [left; exact Hsome | exact Hne].
Qed.

Lemma claims_exit i w (m : Machine) :
  claims_ok m -> threads m !! i = Some w -> returned w = false ->
  claims_ok (exit_step i w m).
Proof.
  intros (Hnd & Hin) Hw Hr.
  assert (claimed (out (shared (exit_step i w m)))
          ++ live_pools (threads (exit_step i w m))
          ≡ₚ claimed (out (shared m)) ++ live_pools (threads m)) as Hall.
  { unfold exit_step. simpl.
    rewrite (live_pools_insert _ i w _ Hw), (live_pools_lookup _ i w Hw), Hr.
    simpl. rewrite <- app_assoc. reflexivity. }
  split; [rewrite Hall; exact Hnd|].
  intros a Ha. rewrite Hall in Ha. apply Hin. exact Ha.
Qed.

(** *** Reports *)

Lemma climb_calls_finished progress t k t' :
  finished (climb_calls progress t k t') = take k (ancestors t).
Proof.
  unfold climb_calls. rewrite finished_app.
  assert (finished match t' with Some p => [CallCollect p false] | None => [] end
          = []) as -> by (destruct t'; reflexivity).
  rewrite app_nil_r.
  induction (take k (ancestors t)) as [|p l IH]; [reflexivity|].
  simpl flat_map. change (?c :: ?l) with ([c] ++ l).
  rewrite !finished_app, IH.
  destruct progress; reflexivity.
Qed.

Lemma walk_reports progress n t k t' :
  finished (emitted progress n ++ climb_calls progress t k t')
  = take k (ancestors t) /\
  ticks_of (emitted progress n ++ climb_calls progress t k t')
  = match progress with
    | Some _ => n :: replicate (length (take k (ancestors t))) 1
    | None => []
    end.
Proof.
  rewrite finished_app, ticks_of_app, climb_calls_finished.
  rewrite (proj2 (climb_calls_count progress t k t')).
  destruct progress; split; reflexivity.
Qed.

Lemma ticks_of_gets t l : ticks_of (map (CallGet t) l) = [].
Proof. induction l as [|i l IH]; [reflexivity | exact IH]. Qed.

Lemma finished_gets t l : finished (map (CallGet t) l) = [].
Proof. induction l as [|i l IH]; [reflexivity | exact IH]. Qed.

Lemma reports_body eval max_err progress fth i w (m : Machine) :
  machine_ok m -> reports_match progress (trace (shared m)) ->
  threads m !! i = Some w ->
  reports_match progress
    (trace (shared (body_step eval max_err progress fth i w m))).
Proof.
  intros Hok Hrep Hw.
  destruct (body_step_summary eval max_err progress fth i w m Hok Hw)
    as (w' & _ & _ & _ & _ & Hcase).
  set (m' := body_step eval max_err progress fth i w m) in *.
  destruct Hcase as [(_ & _ & Htr & _)
                    |[(tk & t & k & t' & _ & _ & _ & _ & _ & Hv & Htr & _)
                     |(tk & t & tp & nb & rest & _ & _ & _ & _ & _ & _
                       & _ & _ & Htr)]].
  - rewrite Htr. unfold reports_match in *.
    rewrite ticks_of_app, finished_app.
    destruct fth; simpl; rewrite !app_nil_r; exact Hrep.
  - rewrite Htr. unfold reports_match in *.
    rewrite ticks_of_app, finished_app.
    change (?c :: ?l) with ([c] ++ l).
    rewrite ticks_of_app, finished_app.
    destruct (walk_reports progress
                (if 0 <? level (region tk)
                 then Ticks.level_ticks N (level (region tk)) else 1) t k t')
      as (-> & ->).
    assert (ticks_of [if 0 <? level (region tk)
                      then CallEvalInterval t
                             (of_verdict
                                (interval_verdict (eval i) (tape tk) (region tk)).1)
                      else CallEvalLeaf t] = []) as ->
      by (destruct (0 <? level (region tk)); reflexivity).
    assert (finished [if 0 <? level (region tk)
                      then CallEvalInterval t
                             (of_verdict
                                (interval_verdict (eval i) (tape tk) (region tk)).1)
                      else CallEvalLeaf t] = [t]) as ->.
    { destruct (Z.ltb_spec 0 (level (region tk))) as [Hpos|Hle]; [|reflexivity].
      destruct Hv as [Hle|Hv]; [lia|].
      destruct ((interval_verdict (eval i) (tape tk) (region tk)).1);
        [reflexivity | reflexivity | congruence]. }
    destruct progress.
    + rewrite !length_app. simpl. rewrite length_replicate. lia.
    + rewrite Hrep. reflexivity.
  - rewrite Htr. unfold reports_match in *.
    rewrite ticks_of_app, finished_app.
    change (?c :: ?l) with ([c] ++ l).
    rewrite ticks_of_app, finished_app, ticks_of_gets, finished_gets.
    simpl. rewrite !app_nil_r. exact Hrep.
Qed.

Lemma waits_body eval max_err progress i w (m : Machine) :
  machine_ok m -> CallOfferWait ∉ trace (shared m) ->
  threads m !! i = Some w ->
  CallOfferWait ∉ trace (shared (body_step eval max_err progress None i w m)).
Proof.
  intros Hok Hno Hw.
  destruct (body_step_summary eval max_err progress None i w m Hok Hw)
    as (w' & _ & _ & _ & _ & Hcase).
  set (m' := body_step eval max_err progress None i w m) in *.
  destruct Hcase as [(_ & _ & Htr & _)
                    |[(tk & t & k & t' & _ & _ & _ & _ & _ & _ & Htr & _)
                     |(tk & t & tp & nb & rest & _ & _ & _ & _ & _ & _
                       & _ & _ & Htr)]];
    rewrite Htr; intros Hin; apply elem_of_app in Hin;
    destruct Hin as [Hin|Hin]; try (apply Hno; exact Hin).
  - inversion Hin.
  - apply elem_of_cons in Hin. destruct Hin as [Heq|Hin].
    + destruct (0 <? level (region tk)); discriminate.
    + apply walk_calls in Hin. destruct Hin as [(? & ? & ?)|(? & ?)]; discriminate.
  - apply elem_of_cons in Hin. destruct Hin as [Heq|Hin]; [discriminate|].
    clear -Hin. induction (seq 0 children_size) as [|x l IH];
      simpl in Hin; [inversion Hin|].
    apply elem_of_cons in Hin. destruct Hin as [Heq|Hin]; [discriminate | auto].
Qed.

End PhaseFacts.

Section WalkFacts.

Context {P : Params}.

Local Abbreviation Heap := (gmap Addr (Cell Leaf)).

(** *** Calls of [collectChildren] *)

Lemma collect_calls_app l1 l2 :
  collect_calls (l1 ++ l2) = collect_calls l1 ++ collect_calls l2.
Proof. unfold collect_calls. apply omap_app. Qed.

Lemma collect_calls_gets t l : collect_calls (map (CallGet t) l) = [].
Proof. induction l as [|i l IH]; [reflexivity | exact IH]. Qed.

Lemma collect_calls_elem p ok tr : CallCollect p ok ∈ tr -> p ∈ collect_calls tr.
Proof.
  intros Hin. unfold collect_calls. apply list_elem_of_omap.
  exists (CallCollect p ok). split; [exact Hin | reflexivity].
Qed.

(** The cells above [t] and the first [k] cells above it are the first
    [k + 1] cells above [t]. *)
Lemma ancestors_parents (t : Addr) :
  forall k, omap parent (t :: take k (ancestors t)) = take (S k) (ancestors t).
Proof.
  induction t as [|i p IH]; intros k.
  - simpl. rewrite take_nil. reflexivity.
  - destruct k as [|k]; [reflexivity|].
    change (ancestors (i :: p)) with (p :: ancestors p).
    change (take (S k) (p :: ancestors p)) with (p :: take k (ancestors p)).
    change (omap parent ((i :: p) :: p :: take k (ancestors p)))
      with (p :: omap parent (p :: take k (ancestors p))).
    rewrite IH. reflexivity.
Qed.

Lemma collect_calls_emitted progress n : collect_calls (emitted progress n) = [].
Proof. destruct progress; reflexivity. Qed.

Lemma climb_calls_collects progress t k t' :
  match t' with
  | None => k = length (ancestors t)
  | Some p => ancestors t !! k = Some p
  end ->
  collect_calls (climb_calls progress t k t') = take (S k) (ancestors t).
Proof.
  intros Hk. unfold climb_calls. rewrite collect_calls_app.
  assert (collect_calls
            (flat_map (fun p => CallCollect p true :: emitted progress 1)
                      (take k (ancestors t)))
          = take k (ancestors t)) as ->.
  { induction (take k (ancestors t)) as [|p l IH]; [reflexivity|].
    simpl flat_map.
    change (CallCollect p true :: ?x) with ([CallCollect p true] ++ x).
    rewrite !collect_calls_app, IH, collect_calls_emitted. reflexivity. }
  destruct t' as [p|].
  - rewrite (take_S_r _ _ _ Hk). reflexivity.
  - simpl. rewrite app_nil_r, !take_ge by lia. reflexivity.
Qed.

Lemma collects_body eval max_err progress fth i w (m : Machine) :
  machine_ok m ->
  collect_calls (trace (shared m)) = omap parent (finished (trace (shared m))) ->
  threads m !! i = Some w ->
  collect_calls (trace (shared (body_step eval max_err progress fth i w m)))
  = omap parent
      (finished (trace (shared (body_step eval max_err progress fth i w m)))).
Proof.
  intros Hok Hinv Hw.
  destruct (body_step_summary eval max_err progress fth i w m Hok Hw)
    as (w' & _ & _ & _ & _ & Hcase).
  set (m' := body_step eval max_err progress fth i w m) in *.
  destruct Hcase as [(_ & _ & Htr & _)
                    |[(tk & t & k & t' & _ & _ & _ & _ & _ & Hv & Htr & Hk)
                     |(tk & t & tp & nb & rest & _ & _ & _ & _ & _ & _
                       & _ & _ & Htr)]].
  - rewrite Htr, collect_calls_app, finished_app, omap_app, Hinv.
    destruct fth; reflexivity.
  - rewrite Htr, collect_calls_app, finished_app, omap_app, Hinv. f_equal.
    change (?c :: ?l) with ([c] ++ l).
    rewrite collect_calls_app, finished_app.
    rewrite (collect_calls_app (emitted _ _)), collect_calls_emitted.
    rewrite (proj1 (walk_reports progress _ t k t')).
    rewrite (climb_calls_collects progress t k t' Hk).
    assert (collect_calls
              [if 0 <? level (region tk)
               then CallEvalInterval t
                      (of_verdict (interval_verdict (eval i) (tape tk) (region tk)).1)
               else CallEvalLeaf t] = []) as ->
      by (destruct (0 <? level (region tk)); reflexivity).
    assert (finished
              [if 0 <? level (region tk)
               then CallEvalInterval t
                      (of_verdict (interval_verdict (eval i) (tape tk) (region tk)).1)
               else CallEvalLeaf t] = [t]) as ->.
    { destruct (Z.ltb_spec 0 (level (region tk))) as [Hpos|Hle]; [|reflexivity].
      destruct Hv as [Hle|Hv]; [lia|].
      destruct ((interval_verdict (eval i) (tape tk) (region tk)).1);
        [reflexivity | reflexivity | congruence]. }
    simpl app. symmetry. apply ancestors_parents.
  - rewrite Htr, collect_calls_app, finished_app, omap_app, Hinv. f_equal.
    change (?c :: ?l) with ([c] ++ l).
    rewrite collect_calls_app, finished_app, collect_calls_gets, finished_gets.
    reflexivity.
Qed.

(** A cell of the heap has, below each of the cells above it, a cell of the
    heap. *)
Lemma ancestors_child (h : Heap) (t p : Addr) :
  prefix_closed h -> is_Some (h !! t) -> p ∈ ancestors t ->
  exists j, is_Some (h !! (j :: p)).
Proof.
  intros Hcl. induction t as [|i q IH]; intros Ht Hp; [inversion Hp|].
  simpl in Hp. apply elem_of_cons in Hp. destruct Hp as [->|Hp].
  - exists i. exact Ht.
  - apply IH; [|exact Hp]. apply (Hcl i). exact Ht.
Qed.

Lemma collected_ambiguous_body eval max_err progress fth i w (m : Machine) :
  machine_ok m -> divided_when_ambiguous m ->
  (forall p ok, CallCollect p ok ∈ trace (shared m) ->
                CallEvalInterval p Interval.AMBIGUOUS ∈ trace (shared m)) ->
  threads m !! i = Some w ->
  forall p ok,
    CallCollect p ok
      ∈ trace (shared (body_step eval max_err progress fth i w m)) ->
    CallEvalInterval p Interval.AMBIGUOUS
      ∈ trace (shared (body_step eval max_err progress fth i w m)).
Proof.
  intros Hok Hdiv Hinv Hw.
  destruct (body_step_summary eval max_err progress fth i w m Hok Hw)
    as (w' & _ & _ & _ & _ & Hcase).
  set (m' := body_step eval max_err progress fth i w m) in *.
  intros p ok Hin.
  destruct Hcase as [(_ & _ & Htr & _)
                    |[(tk & t & k & t' & _ & Ht & _ & _ & _ & _ & Htr & Hk)
                     |(tk & t & tp & nb & rest & _ & _ & _ & _ & _ & _
                       & _ & _ & Htr)]];
    rewrite Htr in *; apply elem_of_app in Hin; apply elem_of_app;
    (destruct Hin as [Hin|Hin]; [left; apply (Hinv p ok Hin)|]).
  - destruct fth; [apply list_elem_of_singleton in Hin; discriminate | inversion Hin].
  - left. apply elem_of_cons in Hin. destruct Hin as [Heq|Hin];
      [destruct (0 <? level (region tk)); discriminate|].
    apply elem_of_app in Hin. destruct Hin as [Hin|Hin];
      [destruct progress; [apply list_elem_of_singleton in Hin; discriminate
                          | inversion Hin]|].
    apply collect_calls_elem in Hin.
    rewrite (climb_calls_collects progress t k t' Hk) in Hin.
    apply subseteq_take in Hin.
    destruct (ancestors_child (heap (shared m)) t p (ok_closed _ _ _ Hok) Ht Hin)
      as (j & Hj).
    apply Hdiv in Hj. apply Hj.
  - exfalso. apply elem_of_cons in Hin. destruct Hin as [Heq|Hin]; [discriminate|].
    clear -Hin. induction (seq 0 children_size) as [|x l IH];
      simpl in Hin; [inversion Hin|].
    apply elem_of_cons in Hin. destruct Hin as [Heq|Hin]; [discriminate | auto].
Qed.

(** *** Tasks have a cell *)

Lemma targets_body eval max_err progress fth i w (m : Machine) :
  machine_ok m ->
  (forall tk, tk ∈ pending m -> is_Some (target tk)) ->
  threads m !! i = Some w ->
  forall tk, tk ∈ pending (body_step eval max_err progress fth i w m) ->
             is_Some (target tk).
Proof.
  intros Hok Hinv Hw.
  destruct (body_step_summary eval max_err progress fth i w m Hok Hw)
    as (w' & _ & _ & _ & _ & Hcase).
  set (m' := body_step eval max_err progress fth i w m) in *.
  intros tk' Hin.
  destruct Hcase as [(_ & _ & _ & nulls & _ & Hp)
                    |[(tk & t & k & t' & _ & _ & Hp & _)
                     |(tk & t & tp & nb & rest & _ & _ & _ & _ & Hp & Hp' & _)]].
  - apply Hinv. rewrite Hp. apply elem_of_app. right. exact Hin.
  - apply Hinv. rewrite Hp. apply list_elem_of_further. exact Hin.
  - rewrite Hp' in Hin. apply elem_of_app in Hin. destruct Hin as [Hkid|Hold].
    + change (map ?f ?l) with (f <$> l) in Hkid.
      apply list_elem_of_fmap in Hkid. destruct Hkid as (j & -> & _).
      simpl. eauto.
    + apply Hinv. rewrite Hp. apply list_elem_of_further. exact Hold.
Qed.

Lemma targets_exit i w (m : Machine) :
  (forall tk, tk ∈ pending m -> is_Some (target tk)) ->
  threads m !! i = Some w ->
  forall tk, tk ∈ pending (exit_step i w m) -> is_Some (target tk).
Proof.
  intros Hinv Hw tk Htk. apply Hinv. unfold exit_step in Htk.
  rewrite (pending_insert m i w _ _ Hw) in Htk.
  rewrite (pending_lookup m i w Hw). exact Htk.
Qed.

End WalkFacts.

Section MadeFacts.

Context {P : Params}.

Local Abbreviation Heap := (gmap Addr (Cell Leaf)).

(** *** The cells that the pools made *)

Lemma made_app l1 l2 : made (l1 ++ l2) = made l1 ++ made l2.
Proof. unfold made. apply omap_app. Qed.

Lemma made_gets t l : made (map (CallGet t) l) = map (fun j => j :: t) l.
Proof. induction l as [|i l IH]; [reflexivity|]. simpl. f_equal. exact IH. Qed.

Lemma made_walk progress n t k t' :
  made (emitted progress n ++ climb_calls progress t k t') = [].
Proof.
  pose proof (walk_calls progress n t k t') as H.
  revert H. generalize (emitted progress n ++ climb_calls progress t k t').
  intros l. induction l as [|c l IH]; intros H; [reflexivity|].
  assert (made l = []) as Hl.
  { apply IH. intros c' Hc'. apply H. apply list_elem_of_further. exact Hc'. }
  destruct (H c (list_elem_of_here _ _)) as [(a & ok & ->)|(z & ->)]; exact Hl.
Qed.

Lemma made_elem (tr : list Call) j a : CallGet a j ∈ tr <-> (j :: a) ∈ made tr.
Proof.
  unfold made. rewrite list_elem_of_omap. split.
  - intros H. exists (CallGet a j). split; [exact H | reflexivity].
  - intros (c & Hc & Heq). destruct c; try discriminate.
    inversion Heq; subst. exact Hc.
Qed.

Lemma cells_held_body eval max_err progress fth i w (m : Machine) :
  machine_ok m -> cells_held m -> threads m !! i = Some w -> returned w = false ->
  cells_held (body_step eval max_err progress fth i w m).
Proof.
  intros Hok (Hmade & Hheld) Hw Hr.
  destruct (body_step_summary eval max_err progress fth i w m Hok Hw)
    as (w' & Hth & Hr' & (_ & _ & Hout & _) & _ & Hcase).
  set (m' := body_step eval max_err progress fth i w m) in *.
  set (others := live_pools (delete i (threads m))).
  assert (claimed (out (shared m)) ++ live_pools (threads m)
          ≡ₚ claimed (out (shared m)) ++ object_pool w ++ others) as Hold.
  { rewrite (live_pools_lookup _ i w Hw), Hr. reflexivity. }
  assert (claimed (out (shared m')) ++ live_pools (threads m')
          ≡ₚ claimed (out (shared m)) ++ object_pool w' ++ others) as Hnew.
  { rewrite Hth, Hout, (live_pools_insert _ i w w' Hw), Hr', Hr. reflexivity. }
  unfold cells_held.
  destruct Hcase as [(Hh & Hpool & Htr & _)
                    |[(tk & t & k & t' & _ & _ & _ & Hpool & Hd & _ & Htr & _)
                     |(tk & t & tp & nb & rest & _ & _ & _ & _ & _ & _
                       & Hpool & Hd & Htr)]].
  - assert (made (trace (shared m')) = made (trace (shared m))) as Hm.
    { rewrite Htr, made_app. destruct fth; simpl; apply app_nil_r. }
    rewrite Hm, Hh. split; [exact Hmade|].
    rewrite Hnew, Hpool, <- Hold. exact Hheld.
  - assert (made (trace (shared m')) = made (trace (shared m))) as Hm.
    { rewrite Htr, made_app.
      change (?c :: ?l) with ([c] ++ l). rewrite made_app, made_walk.
      destruct (0 <? level (region tk)); simpl; apply app_nil_r. }
    rewrite Hm. split.
    + intros a. rewrite Hd. apply Hmade.
    + rewrite Hnew, Hpool, <- Hold. exact Hheld.
  - set (kids := map (fun j => j :: t) (seq 0 children_size)) in *.
    assert (made (trace (shared m')) = made (trace (shared m)) ++ kids) as Hm.
    { rewrite Htr, made_app. f_equal.
      change (?c :: ?l) with ([c] ++ l). rewrite made_app, made_gets. reflexivity. }
    rewrite Hm. split.
    + intros a. rewrite elem_of_app, Hd, Hmade. unfold kids. rewrite kids_elem.
      split.
      * intros [(Ha & Hne)|(j & Hj & ->)].
        -- split; [left; exact Ha | exact Hne].
        -- split; [right; exists j; split; [exact Hj | reflexivity] | discriminate].
      * intros ([Ha|Hkid] & Hne); [left; split; assumption | right; exact Hkid].
    + rewrite Hnew, Hpool, <- Hheld, Hold.
      rewrite <- !app_assoc. apply Permutation_app_head, Permutation_app_head.
      apply Permutation_app_comm.
Qed.

Lemma cells_held_exit i w (m : Machine) :
  cells_held m -> threads m !! i = Some w -> returned w = false ->
  cells_held (exit_step i w m).
Proof.
  intros (Hmade & Hheld) Hw Hr. split; [exact Hmade|].
  unfold exit_step. simpl.
  rewrite (live_pools_insert _ i w _ Hw). simpl.
  rewrite <- Hheld, (live_pools_lookup _ i w Hw), Hr, <- app_assoc. reflexivity.
Qed.

End MadeFacts.

(** ** Facts about the whole build *)

Section ControlFacts.

Context {P : Params}.

Local Abbreviation Heap := (gmap Addr (Cell Leaf)).

(** Without workers nothing but the [cancel] flag changes. *)
Lemma step_no_threads eval max_err progress fth e (m : Machine) :
  threads m = [] ->
  threads (step eval max_err progress fth e m) = [] /\
  done (shared (step eval max_err progress fth e m)) = done (shared m).
Proof.
  intros Hth.
  destruct (step_cases eval max_err progress fth e m)
    as [->|[(_&_&->)|(i&w&_&_&Hw&_)]].
  - split; [exact Hth | reflexivity].
  - split; [exact Hth | reflexivity].
  - rewrite Hth in Hw. inversion Hw.
Qed.

Lemma exec_no_threads eval max_err progress fth sched : forall m : Machine,
  threads m = [] ->
  done (shared (exec eval max_err progress fth sched m)) = done (shared m).
Proof.
  induction sched as [|e sched IH]; intros m Hth; simpl; [reflexivity|].
  destruct (step_no_threads eval max_err progress fth e m Hth) as (H1 & H2).
  rewrite IH by exact H1. exact H2.
Qed.

(** Once a flag that ends the loop is set, a step changes neither the
    cells, nor the stacks, nor the record of calls. *)
Lemma step_frozen eval max_err progress fth e (m : Machine) :
  stop_set m ->
  heap (shared (step eval max_err progress fth e m)) = heap (shared m) /\
  tasks (shared (step eval max_err progress fth e m)) = tasks (shared m) /\
  trace (shared (step eval max_err progress fth e m)) = trace (shared m) /\
  map local (threads (step eval max_err progress fth e m))
  = map local (threads m).
Proof.
  intros Hstop.
  destruct (step_cases eval max_err progress fth e m)
    as [->|[(_&_&->)|(i&w&_&_&Hw&_&->)]]; [auto | simpl; auto |].
  rewrite run_pass_exit by exact Hstop. simpl.
  split; [reflexivity|]. split; [reflexivity|]. split; [reflexivity|].
  change (map local (<[i := set_returned true w]> (threads m)))
    with (local <$> <[i := set_returned true w]> (threads m)).
  rewrite list_fmap_insert. simpl. apply list_insert_id.
  rewrite list_lookup_fmap, Hw. reflexivity.
Qed.

Lemma exec_frozen eval max_err progress fth sched : forall m : Machine,
  stop_set m ->
  heap (shared (exec eval max_err progress fth sched m)) = heap (shared m) /\
  tasks (shared (exec eval max_err progress fth sched m)) = tasks (shared m) /\
  trace (shared (exec eval max_err progress fth sched m)) = trace (shared m) /\
  map local (threads (exec eval max_err progress fth sched m))
  = map local (threads m).
Proof.
  induction sched as [|e sched IH]; intros m Hstop; simpl; [auto|].
  destruct (step_frozen eval max_err progress fth e m Hstop)
    as (H1 & H2 & H3 & H4).
  destruct (IH _ (step_stop_stays eval max_err progress fth e m Hstop))
    as (I1 & I2 & I3 & I4).
  rewrite I1, I2, I3, I4. auto.
Qed.

(** A worker that finds neither stack holding a task goes back to the head
    of the loop. *)
Lemma idle_pass eval max_err progress fth s w :
  done s = false -> cancel s = false ->
  local w = [] -> items (tasks s) = [] ->
  run_pass eval max_err progress fth s w = (offerWait fth s, w).
Proof.
  intros Hd Hc Hl Hi. unfold run_pass. rewrite Hd, Hc. simpl.
  rewrite run_body_eq.
  pose proof (take_task_spec s w) as Ht. rewrite Hl, Hi in Ht. rewrite Ht.
  reflexivity.
Qed.

(** [run] left alone is the build with one worker. *)
Lemma run_is_solo_exec eval max_err progress fth fuel :
  forall s w s' w',
    failed s = false -> returned w = false ->
    run fuel (eval O) max_err progress fth s w = Some (s', w') ->
    exists n, (0 < n <= fuel)%nat /\
      exec eval max_err progress fth (replicate n (Pass O)) (mkMachine s [w])
      = mkMachine s' [w'].
Proof.
  induction fuel as [|fuel IH]; intros s w s' w' Hf Hr Hrun; [discriminate|].
  simpl in Hrun.
  assert (step eval max_err progress fth (Pass O) (mkMachine s [w])
          = mkMachine (run_pass (eval O) max_err progress fth s w).1
                      [(run_pass (eval O) max_err progress fth s w).2]) as Hstep.
  { rewrite (step_pass eval max_err progress fth O (mkMachine s [w]) w Hf
               eq_refl Hr). reflexivity. }
  destruct (run_pass (eval O) max_err progress fth s w) as [s1 w1].
  simpl in Hstep.
  destruct (failed s1) eqn:Hf1; [discriminate|].
  destruct (returned w1) eqn:Hr1.
  - inversion Hrun; subst. exists 1%nat. split; [lia|].
    simpl. rewrite Hstep. reflexivity.
  - destruct (IH s1 w1 s' w' Hf1 Hr1 Hrun) as (n & Hn & He).
    exists (S n). split; [lia|].
    change (replicate (S n) (Pass O)) with (Pass O :: replicate n (Pass O)).
    simpl exec. rewrite Hstep. exact He.
Qed.

(** *** The invariants in every state of a build *)

Lemma build_run_accounted eval region_ min_feature max_err workers cancel0 cb fth sched :
  accounted (build_run eval region_ min_feature max_err workers cancel0 cb fth sched).
Proof.
  unfold build_run. apply exec_phases.
  - intros m0 H. exact H.
  - intros m0 i w Hok H Hw _. apply accounted_body; assumption.
  - intros m0 i w H Hw _. apply (accounted_exit i w m0 H Hw).
  - apply build_start_ok.
  - unfold accounted. rewrite build_start_pending. simpl. split.
    + apply NoDup_singleton.
    + intros a. rewrite list_elem_of_singleton.
      apply (build_start_heap eval region_ min_feature workers cancel0 a).
Qed.

Lemma build_run_divided eval region_ min_feature max_err workers cancel0 cb fth sched :
  divided_when_ambiguous
    (build_run eval region_ min_feature max_err workers cancel0 cb fth sched).
Proof.
  unfold build_run. apply exec_phases.
  - intros m0 H. exact H.
  - intros m0 i w Hok H Hw _. apply divided_body; assumption.
  - intros m0 i w H Hw _. exact H.
  - apply build_start_ok.
  - intros j a. simpl. rewrite lookup_singleton_ne by discriminate. split.
    + intros [x Hx]. discriminate.
    + intros [_ Hin]. inversion Hin.
Qed.

Lemma build_run_levels eval region_ min_feature max_err workers cancel0 cb fth sched :
  (forall r j, (j < children_size)%nat -> level (subdivide r j) = level r - 1) ->
  levels_ok (level (withResolution region_ min_feature))
    (build_run eval region_ min_feature max_err workers cancel0 cb fth sched).
Proof.
  intros Hsub. unfold build_run. apply exec_phases.
  - intros m0 H. exact H.
  - intros m0 i w Hok H Hw _. apply levels_body; assumption.
  - intros m0 i w H Hw _. apply (levels_exit _ i w m0 H Hw).
  - apply build_start_ok.
  - unfold levels_ok. rewrite build_start_pending. repeat split.
    + intros tk a Htk Ha. apply list_elem_of_singleton in Htk. subst tk.
      simpl in Ha. inversion Ha; subst. unfold depth. simpl. lia.
    + intros a Ha. apply build_start_heap in Ha. subst a. unfold depth. simpl. lia.
    + intros a v Hin. inversion Hin.
    + intros a Hin. inversion Hin.
Qed.

Lemma build_run_claims eval region_ min_feature max_err workers cancel0 cb fth sched :
  claims_ok (build_run eval region_ min_feature max_err workers cancel0 cb fth sched).
Proof.
  unfold build_run. apply exec_phases.
  - intros m0 H. exact H.
  - intros m0 i w Hok H Hw Hr. apply claims_body; assumption.
  - intros m0 i w H Hw Hr. apply claims_exit; assumption.
  - apply build_start_ok.
  - unfold claims_ok. simpl.
    assert (live_pools (replicate workers Worker_start) = []) as ->.
    { unfold live_pools. induction workers as [|n IH]; simpl; [reflexivity | exact IH]. }
    split; [apply NoDup_nil_2|]. intros a Ha. inversion Ha.
Qed.

Lemma exec_reports eval region_ min_feature max_err workers cancel0 progress fth sched :
  reports_match progress
    (trace (shared (exec eval max_err progress fth sched
                         (build_start eval region_ min_feature workers cancel0)))).
Proof.
  apply (exec_phases eval max_err progress fth
           (fun m => reports_match progress (trace (shared m)))).
  - intros m0 H. exact H.
  - intros m0 i w Hok H Hw _. apply reports_body; assumption.
  - intros m0 i w H Hw _. exact H.
  - apply build_start_ok.
  - destruct progress; reflexivity.
Qed.

Lemma exec_waits eval region_ min_feature max_err workers cancel0 progress sched :
  CallOfferWait
    ∉ trace (shared (exec eval max_err progress None sched
                          (build_start eval region_ min_feature workers cancel0))).
Proof.
  apply (exec_phases eval max_err progress None
           (fun m => CallOfferWait ∉ trace (shared m))).
  - intros m0 H. exact H.
  - intros m0 i w Hok H Hw _. apply waits_body; assumption.
  - intros m0 i w H Hw _. exact H.
  - apply build_start_ok.
  - intros Hin. inversion Hin.
Qed.

Lemma build_run_collects eval region_ min_feature max_err workers cancel0 cb fth sched :
  let m := build_run eval region_ min_feature max_err workers cancel0 cb fth sched in
  collect_calls (trace (shared m)) = omap parent (finished (trace (shared m))).
Proof.
  unfold build_run.
  apply (exec_phases eval (to_float max_err) (build_watcher region_ min_feature cb)
           fth
           (fun m => collect_calls (trace (shared m))
                     = omap parent (finished (trace (shared m))))).
  - intros m0 H. exact H.
  - intros m0 i w Hok H Hw _. apply collects_body; assumption.
  - intros m0 i w H Hw _. exact H.
  - apply build_start_ok.
  - reflexivity.
Qed.

Lemma build_run_collected_ambiguous eval region_ min_feature max_err workers cancel0
    cb fth sched :
  let m := build_run eval region_ min_feature max_err workers cancel0 cb fth sched in
  forall p ok, CallCollect p ok ∈ trace (shared m) ->
               CallEvalInterval p Interval.AMBIGUOUS ∈ trace (shared m).
Proof.
  unfold build_run.
  apply (exec_phases eval (to_float max_err) (build_watcher region_ min_feature cb)
           fth
           (fun m => divided_when_ambiguous m /\
                     forall p ok, CallCollect p ok ∈ trace (shared m) ->
                       CallEvalInterval p Interval.AMBIGUOUS ∈ trace (shared m))).
  - intros m0 H. exact H.
  - intros m0 i w Hok (Hd & H) Hw _.
    split; [apply divided_body | apply collected_ambiguous_body]; assumption.
  - intros m0 i w H Hw _. exact H.
  - apply build_start_ok.
  - split; [apply (build_run_divided eval region_ min_feature max_err workers
                     cancel0 cb fth [])|].
    intros p ok Hin. inversion Hin.
Qed.

Lemma build_run_targets eval region_ min_feature max_err workers cancel0 cb fth sched :
  let m := build_run eval region_ min_feature max_err workers cancel0 cb fth sched in
  forall tk, tk ∈ pending m -> is_Some (target tk).
Proof.
  unfold build_run.
  apply (exec_phases eval (to_float max_err) (build_watcher region_ min_feature cb)
           fth (fun m => forall tk, tk ∈ pending m -> is_Some (target tk))).
  - intros m0 H. exact H.
  - intros m0 i w Hok H Hw _. apply targets_body; assumption.
  - intros m0 i w H Hw _. apply (targets_exit i w m0 H Hw).
  - apply build_start_ok.
  - intros tk Htk. rewrite build_start_pending in Htk.
    apply list_elem_of_singleton in Htk. subst tk. simpl. eauto.
Qed.

Lemma build_run_cells_held eval region_ min_feature max_err workers cancel0 cb fth sched :
  cells_held (build_run eval region_ min_feature max_err workers cancel0 cb fth sched).
Proof.
  unfold build_run. apply exec_phases.
  - intros m0 H. exact H.
  - intros m0 i w Hok H Hw Hr. apply cells_held_body; assumption.
  - intros m0 i w H Hw Hr. apply cells_held_exit; assumption.
  - apply build_start_ok.
  - split.
    + intros a. split; [intros Ha; inversion Ha|].
      intros (Ha & Hne). apply build_start_heap in Ha. contradiction.
    + simpl.
      assert (live_pools (replicate workers Worker_start) = []) as ->.
      { unfold live_pools. induction workers as [|n IH]; simpl; [reflexivity | exact IH]. }
      reflexivity.
Qed.

End ControlFacts.

Section FinishedFacts.

Context {P : Params}.

Local Abbreviation Heap := (gmap Addr (Cell Leaf)).

(** *** No cell is finished twice *)

Lemma omap_nodup_inj {A B} (f : A -> option B) (l : list A) :
  NoDup (omap f l) ->
  forall x y b, x ∈ l -> y ∈ l -> f x = Some b -> f y = Some b -> x = y.
Proof.
  induction l as [|c l IH]; intros Hnd x y b Hx Hy Hfx Hfy; [inversion Hx|].
  simpl in Hnd.
  assert (forall z, z ∈ l -> f z = Some b -> b ∈ omap f l) as Hin.
  { intros z Hz Hfz. apply list_elem_of_omap. exists z. split; assumption. }
  apply elem_of_cons in Hx. apply elem_of_cons in Hy.
  destruct (f c) as [b'|] eqn:Hfc.
  - apply NoDup_cons in Hnd. destruct Hnd as (Hnotin & Hnd).
    destruct Hx as [->|Hx], Hy as [->|Hy].
    + reflexivity.
    + exfalso. apply Hnotin. rewrite Hfc in Hfx. inversion Hfx; subst.
      apply (Hin y Hy Hfy).
    + exfalso. apply Hnotin. rewrite Hfc in Hfy. inversion Hfy; subst.
      apply (Hin x Hx Hfx).
    + apply (IH Hnd x y b); assumption.
  - destruct Hx as [->|Hx]; [congruence|].
    destruct Hy as [->|Hy]; [congruence|].
    apply (IH Hnd x y b); assumption.
Qed.

Lemma finished_elem (tr : list Call) (a : Addr) :
  a ∈ finished tr <->
  CallEvalLeaf a ∈ tr \/
  (exists v, v <> Interval.AMBIGUOUS /\ CallEvalInterval a v ∈ tr) \/
  CallCollect a true ∈ tr.
Proof.
  unfold finished. rewrite list_elem_of_omap. split.
  - intros (c & Hc & Heq). destruct c as [|t v|t|t j|t ok|z]; try discriminate.
    + destruct v; try discriminate; inversion Heq; subst;
        right; left; eexists; (split; [|exact Hc]); discriminate.
    + inversion Heq; subst. left. exact Hc.
    + destruct ok; [|discriminate]. inversion Heq; subst. right. right. exact Hc.
  - intros [H|[(v & Hv & H)|H]].
    + exists (CallEvalLeaf a). split; [exact H | reflexivity].
    + exists (CallEvalInterval a v). split; [exact H|].
      destruct v; [reflexivity | reflexivity | congruence | reflexivity].
    + exists (CallCollect a true). split; [exact H | reflexivity].
Qed.

Lemma collected_elem (tr : list Call) (a : Addr) :
  a ∈ collected tr <-> CallCollect a true ∈ tr.
Proof.
  unfold collected. rewrite list_elem_of_omap. split.
  - intros (c & Hc & Heq). destruct c as [|t v|t|t j|t ok|z]; try discriminate.
    destruct ok; [|discriminate]. inversion Heq; subst. exact Hc.
  - intros H. exists (CallCollect a true). split; [exact H | reflexivity].
Qed.

Lemma evaluated_elem (tr : list Call) (c : Call) (a : Addr) :
  c ∈ tr -> (c = CallEvalLeaf a \/ exists v, c = CallEvalInterval a v) ->
  a ∈ evaluated tr.
Proof.
  intros Hc Hform. unfold evaluated. apply list_elem_of_omap.
  exists c. split; [exact Hc|].
  destruct Hform as [->|(v & ->)]; reflexivity.
Qed.

Lemma ancestors_shorter (t a : Addr) :
  a ∈ ancestors t -> (length a < length t)%nat.
Proof.
  induction t as [|i p IH]; intros Ha; [inversion Ha|].
  simpl in Ha. apply elem_of_cons in Ha. destruct Ha as [->|Ha]; simpl; [lia|].
  specialize (IH Ha). lia.
Qed.

Lemma ancestors_nodup (t : Addr) : NoDup (ancestors t).
Proof.
  induction t as [|i p IH]; simpl; [apply NoDup_nil_2|].
  apply NoDup_cons. split; [|exact IH].
  intros Hp. apply ancestors_shorter in Hp. lia.
Qed.

Lemma collected_walk progress n t k t' :
  collected (emitted progress n ++ climb_calls progress t k t')
  = take k (ancestors t).
Proof.
  rewrite collected_app, (proj1 (climb_calls_count progress t k t')).
  destruct progress; reflexivity.
Qed.

Lemma collected_gets t l : collected (map (CallGet t) l) = [].
Proof. induction l as [|i l IH]; [reflexivity | exact IH]. Qed.

Lemma finished_once_body eval max_err progress fth i w (m : Machine) :
  machine_ok m -> finished_once m -> threads m !! i = Some w ->
  finished_once (body_step eval max_err progress fth i w m).
Proof.
  intros Hok (Hacc & Hdiv & Hamb & Hfin) Hw.
  split; [apply accounted_body; assumption|].
  split; [apply divided_body; assumption|].
  split; [apply collected_ambiguous_body; assumption|].
  destruct (body_step_summary eval max_err progress fth i w m Hok Hw)
    as (w' & _ & _ & _ & _ & Hcase).
  set (m' := body_step eval max_err progress fth i w m) in *.
  destruct Hcase as [(_ & _ & Htr & _)
                    |[(tk & t & k & t' & Htk & Ht & Hp & _ & _ & Hv & Htr & _)
                     |(tk & t & tp & nb & rest & _ & _ & _ & _ & _ & _
                       & _ & _ & Htr)]].
  - rewrite Htr, collected_app, finished_app.
    assert (collected match fth with Some _ => [CallOfferWait] | None => [] end = [])
      as -> by (destruct fth; reflexivity).
    assert (finished match fth with Some _ => [CallOfferWait] | None => [] end = [])
      as -> by (destruct fth; reflexivity).
    rewrite !app_nil_r. exact Hfin.
  - rewrite Htr, collected_app, finished_app.
    change (?c :: ?l) with ([c] ++ l).
    rewrite collected_app, finished_app, collected_walk.
    rewrite (proj1 (walk_reports progress _ t k t')).
    assert (collected
              [if 0 <? level (region tk)
               then CallEvalInterval t
                      (of_verdict (interval_verdict (eval i) (tape tk) (region tk)).1)
               else CallEvalLeaf t] = []) as ->
      by (destruct (0 <? level (region tk)); reflexivity).
    assert (finished
              [if 0 <? level (region tk)
               then CallEvalInterval t
                      (of_verdict (interval_verdict (eval i) (tape tk) (region tk)).1)
               else CallEvalLeaf t] = [t]) as ->.
    { destruct (Z.ltb_spec 0 (level (region tk))) as [Hpos|Hle]; [|reflexivity].
      destruct Hv as [Hle|Hv]; [lia|].
      destruct ((interval_verdict (eval i) (tape tk) (region tk)).1);
        [reflexivity | reflexivity | congruence]. }
    simpl app. intros Hnd.
    apply NoDup_app in Hnd. destruct Hnd as (Hnd1 & Hdisj & Hnd2).
    destruct Hacc as (Hnd0 & Hdom).
    apply NoDup_app in Hnd0. destruct Hnd0 as (_ & Hpe & Hnde).
    assert (t ∈ targets (pending m)) as Htp.
    { rewrite (targets_perm _ _ Hp). unfold targets. simpl. rewrite Htk.
      apply list_elem_of_here. }
    assert (forall a, a ∈ finished (trace (shared m)) ->
                      a ∈ evaluated (trace (shared m))) as Hfe.
    { intros a Ha. apply finished_elem in Ha.
      destruct Ha as [Ha|[(v & _ & Ha)|Ha]].
      - apply (evaluated_elem _ _ a Ha). left. reflexivity.
      - apply (evaluated_elem _ _ a Ha). right. eauto.
      - apply Hamb in Ha. apply (evaluated_elem _ _ a Ha). right. eauto. }
    apply NoDup_app. split; [apply Hfin; exact Hnd1|]. split.
    + intros a Ha Hnew. apply elem_of_cons in Hnew. destruct Hnew as [->|Hanc].
      * apply (Hpe t Htp). apply Hfe. exact Ha.
      * apply finished_elem in Ha.
        assert (CallEvalInterval a Interval.AMBIGUOUS ∈ trace (shared m)) as Hamb_a.
        { apply subseteq_take in Hanc.
          destruct (ancestors_child (heap (shared m)) t a (ok_closed _ _ _ Hok)
                      Ht Hanc) as (j & Hj).
          apply Hdiv in Hj. apply Hj. }
        destruct Ha as [Ha|[(v & Hv' & Ha)|Ha]].
        -- pose proof (omap_nodup_inj _ _ Hnde _ _ a Ha Hamb_a eq_refl eq_refl).
           discriminate.
        -- pose proof (omap_nodup_inj _ _ Hnde _ _ a Ha Hamb_a eq_refl eq_refl)
             as Heq.
           inversion Heq. contradiction.
        -- apply (Hdisj a); [apply collected_elem; exact Ha | exact Hanc].
    + apply NoDup_cons. split.
      * intros Hin. apply subseteq_take, ancestors_shorter in Hin. lia.
      * apply (sublist_NoDup _ (ancestors t)); [apply ancestors_nodup|].
        apply sublist_take.
  - rewrite Htr, collected_app, finished_app.
    change (?c :: ?l) with ([c] ++ l).
    rewrite collected_app, finished_app, collected_gets, finished_gets.
    simpl. rewrite !app_nil_r. exact Hfin.
Qed.

Lemma build_run_finished_once eval region_ min_feature max_err workers cancel0
    cb fth sched :
  finished_once
    (build_run eval region_ min_feature max_err workers cancel0 cb fth sched).
Proof.
  unfold build_run. apply exec_phases.
  - intros m0 H. exact H.
  - intros m0 i w Hok H Hw _. apply finished_once_body; assumption.
  - intros m0 i w (Hacc & Hrest) Hw _.
    split; [apply (accounted_exit i w m0 Hacc Hw) | exact Hrest].
  - apply build_start_ok.
  - split; [apply (build_run_accounted eval region_ min_feature max_err workers
                     cancel0 cb fth [])|].
    split; [apply (build_run_divided eval region_ min_feature max_err workers
                     cancel0 cb fth [])|].
    split; [intros p ok Hin; inversion Hin|].
    intros _. apply NoDup_nil_2.
Qed.

(** Among cells that are all different and lie below [p] with an index
    less than [n], at most [n] have [p] as their parent. *)
Lemma parents_count (l : list Addr) (p : Addr) (n : nat) :
  NoDup l ->
  (forall j, (j :: p) ∈ l -> (j < n)%nat) ->
  (length (filter (fun q => q = p) (omap parent l)) <= n)%nat.
Proof.
  intros Hnd Hlt.
  assert (length (filter (fun q => q = p) (omap parent l))
          = length (filter (fun a => parent a = Some p) l)) as ->.
  { clear. induction l as [|a l IH]; [reflexivity|].
    simpl. rewrite filter_cons.
    destruct (parent a) as [q|] eqn:Hq.
    - rewrite filter_cons.
      destruct (decide (q = p)) as [->|Hne].
      + rewrite decide_True by reflexivity. simpl. f_equal. exact IH.
      + rewrite decide_False by congruence. exact IH.
    - rewrite decide_False by discriminate. exact IH. }
  transitivity (length (map (fun j => j :: p) (seq 0 n)));
    [|rewrite length_map, length_seq; reflexivity].
  apply submseteq_length, NoDup_submseteq; [apply NoDup_filter; exact Hnd|].
  intros a Ha. apply list_elem_of_filter in Ha. destruct Ha as (Hpa & Ha).
  destruct a as [|j q]; [discriminate|]. simpl in Hpa. inversion Hpa; subst.
  apply kids_elem. exists j. split; [apply Hlt; exact Ha | reflexivity].
Qed.

End FinishedFacts.

Section SizeFacts.

Context {P : Params}.

Local Abbreviation Heap := (gmap Addr (Cell Leaf)).

Import Ticks.

Lemma cells_at_depth_elem (a : Addr) :
  Forall (fun j => (j < children_size)%nat) a -> a ∈ cells_at_depth (length a).
Proof.
  induction a as [|j a IH]; intros HF; [apply list_elem_of_here|].
  inversion HF; subst. simpl.
  apply list_elem_of_In, in_flat_map. exists a. split.
  - apply list_elem_of_In, IH. assumption.
  - apply (in_map (fun i => i :: a) (seq 0 children_size) j), in_seq. lia.
Qed.

Lemma flat_map_length_constant {A B} (f : A -> list B) (c : nat) (l : list A) :
  (forall x, length (f x) = c) -> length (flat_map f l) = (length l * c)%nat.
Proof.
  intros Hc. induction l as [|x l IH]; [reflexivity|].
  simpl. rewrite length_app, Hc, IH. reflexivity.
Qed.

Lemma cells_at_depth_length (d : nat) :
  length (cells_at_depth d) = (children_size ^ d)%nat.
Proof.
  induction d as [|d IH]; [reflexivity|].
  change (cells_at_depth (S d))
    with (flat_map (fun a => map (fun j => j :: a) (seq 0 children_size))
                   (cells_at_depth d)).
  rewrite (flat_map_length_constant _ children_size)
    by (intros x; rewrite length_map, length_seq; reflexivity).
  rewrite Nat.pow_succ_r', Nat.mul_comm. f_equal. exact IH.
Qed.

Lemma cells_down_to_elem (a : Addr) (L : nat) :
  Forall (fun j => (j < children_size)%nat) a -> (length a <= L)%nat ->
  a ∈ cells_down_to L.
Proof.
  intros HF Hlen. apply list_elem_of_In, in_flat_map. exists (length a). split.
  - apply in_seq. lia.
  - apply list_elem_of_In, cells_at_depth_elem. exact HF.
Qed.

Lemma cells_down_to_S (L : nat) :
  cells_down_to (S L) = cells_down_to L ++ cells_at_depth (S L).
Proof.
  unfold cells_down_to. rewrite (seq_S (S L) 0), flat_map_app.
  simpl flat_map at 2. rewrite app_nil_r. reflexivity.
Qed.

(** The positions of depth at most [L] are as many as the recurrence of the
    budget, after [L + 1] steps, has multiples of [2^N]. *)
Lemma cells_down_to_length (L : nat) :
  2 ^ Z.of_nat N * Z.of_nat (length (cells_down_to L)) = recurrence N (S L).
Proof.
  induction L as [|L IH].
  - simpl. lia.
  - rewrite cells_down_to_S, length_app, cells_at_depth_length, Nat2Z.inj_add.
    rewrite Z.mul_add_distr_l, IH, (recurrence_step N (S L)).
    f_equal. unfold children_size.
    rewrite !Nat2Z.inj_pow. change (Z.of_nat 2) with 2.
    rewrite <- Z.pow_mul_r, <- Z.pow_add_r by lia.
    f_equal. lia.
Qed.

(** In a tree in which children follow ambiguous verdicts, every index on
    the way to a cell is less than [children_size]. *)
Lemma heap_indices (m : Machine) :
  machine_ok m -> divided_when_ambiguous m ->
  forall a, is_Some (heap (shared m) !! a) ->
            Forall (fun j => (j < children_size)%nat) a.
Proof.
  intros Hok Hdiv a. induction a as [|j a IH]; intros Ha; [constructor|].
  constructor.
  - apply Hdiv in Ha. apply Ha.
  - apply IH. apply (ok_closed _ _ _ Hok j). exact Ha.
Qed.

End SizeFacts.

Section ProgressFacts.

Context {P : Params}.

Local Abbreviation Heap := (gmap Addr (Cell Leaf)).

Local Arguments alloc_children : simpl never.

(** *** Some worker can always go on *)

Lemma locals_nonempty (l : list Worker) :
  concat (map local l) <> [] ->
  exists i w tk rest, l !! i = Some w /\ local w = tk :: rest.
Proof.
  induction l as [|x l IH]; intros Hne; [contradiction|].
  destruct (local x) as [|tk rest] eqn:Hx.
  - simpl in Hne. rewrite Hx in Hne. simpl in Hne.
    destruct (IH Hne) as (i & w & tk & rest & Hi & Hw).
    exists (S i), w, tk, rest. split; assumption.
  - exists O, x, tk, rest. split; [reflexivity | exact Hx].
Qed.

(** A pass that does not find the loop over leaves the record of calls of
    the loop body. *)
Lemma run_pass_trace eval max_err progress fth s w :
  done s = false -> cancel s = false ->
  trace (run_pass eval max_err progress fth s w).1
  = trace (run_body eval max_err progress fth s w).1.1.
Proof.
  intros Hd Hc. unfold run_pass. rewrite Hd, Hc. simpl.
  destruct (run_body eval max_err progress fth s w) as [[s' w'] fl].
  destruct fl; reflexivity.
Qed.

(** A pass on a task evaluates the cell of the task, and no other. *)
Lemma body_of_task_evaluated eval max_err progress tk t s0 w0 :
  prefix_closed (heap s0) -> is_Some (heap s0 !! t) ->
  evaluated (trace (body_of_task eval max_err progress tk t s0 w0).1.1)
  = evaluated (trace s0) ++ [t].
Proof.
  intros Hcl Ht.
  destruct (Z.ltb_spec 0 (level (region tk))) as [Hpos|Hle];
    [destruct (verdict_ambiguous_dec
                 (interval_verdict eval (tape tk) (region tk)).1) as [Hamb|Hamb]|].
  - rewrite (body_of_task_ambiguous eval max_err progress tk t s0 w0 Hpos Hamb).
    simpl. rewrite evaluated_app. f_equal.
    change (?c :: ?l) with ([c] ++ l). rewrite evaluated_app, evaluated_gets.
    reflexivity.
  - destruct (body_of_task_finished eval max_err progress tk t s0 w0 Hcl Ht
                (or_intror Hamb)) as (_ & _ & _ & k & t' & Htr & _).
    rewrite Htr, evaluated_app. f_equal.
    change (?c :: ?l) with ([c] ++ l). rewrite evaluated_app, evaluated_walk.
    destruct (0 <? level (region tk)); reflexivity.
  - destruct (body_of_task_finished eval max_err progress tk t s0 w0 Hcl Ht
                (or_introl Hle)) as (_ & _ & _ & k & t' & Htr & _).
    rewrite Htr, evaluated_app. f_equal.
    change (?c :: ?l) with ([c] ++ l). rewrite evaluated_app, evaluated_walk.
    destruct (0 <? level (region tk)); reflexivity.
Qed.

(** A worker in the loop that has a task at hand, in its local stack or,
    that one being empty, in the shared stack, evaluates the cell of that
    task in its next pass. *)
Lemma pass_evaluates eval max_err progress fth i w tk t (m : Machine) :
  machine_ok m ->
  failed (shared m) = false -> done (shared m) = false ->
  cancel (shared m) = false ->
  threads m !! i = Some w -> returned w = false ->
  target tk = Some t ->
  (exists rest, local w = tk :: rest) \/
    (local w = [] /\ exists rest, items (tasks (shared m)) = tk :: rest) ->
  evaluated (trace (shared (step eval max_err progress fth (Pass i) m)))
  = evaluated (trace (shared m)) ++ [t].
Proof.
  intros Hok Hf Hd Hc Hw Hr Htk Hhas.
  rewrite (step_pass eval max_err progress fth i m w Hf Hw Hr). simpl.
  rewrite run_pass_trace by assumption.
  rewrite run_body_eq.
  pose proof (take_task_spec (shared m) w) as Hspec.
  pose proof (take_task_heap (shared m) w) as Hheap.
  pose proof (take_task_trace (shared m) w) as Htrace.
  assert (tk ∈ pending m) as Hpend.
  { unfold pending. apply elem_of_app.
    destruct Hhas as [(rest & Hl)|(_ & rest & Hi)].
    - right. apply list_elem_of_In, in_concat. exists (local w). split.
      + apply in_map, list_elem_of_In, (list_elem_of_lookup_2 _ i). exact Hw.
      + rewrite Hl. left. reflexivity.
    - left. rewrite Hi. apply list_elem_of_here. }
  assert (t ∈ targets (pending m)) as Htp.
  { unfold targets. apply list_elem_of_omap. exists tk. split; assumption. }
  destruct (ok_pending _ _ _ Hok t Htp) as (Hex & _).
  pose proof (ok_closed _ _ _ Hok) as Hcl.
  assert (exists s0 w0, take_task (shared m) w = (Some tk, s0, w0)) as (s0 & w0 & Ht).
  { destruct Hhas as [(rest & Hl)|(Hl & rest & Hi)].
    - rewrite Hl in Hspec. eauto.
    - rewrite Hl, Hi in Hspec. eauto. }
  rewrite Ht in *. simpl in *. rewrite Htk. simpl.
  rewrite body_of_task_evaluated; rewrite ?Hheap; try assumption.
  rewrite Htrace. reflexivity.
Qed.

End ProgressFacts.

(** ** Further properties of the code *)

Section BudgetProperties.

Import Ticks.

(** X1.  Below the width of [uint64_t] the loop
    [ticks = (ticks + 1) * (1 << N)] run for the passes [i = 0 .. level]
    computes a geometric sum: [(2^N - 1) * ticks = 2^N * (2^(N*(level+1)) - 1)],
    that is [2^N] times the number of cells of a tree in which every cell
    down to level 0 is divided.  This holds as long as [N * (level + 1) < 64]:
    up to level 20 in three dimensions and up to level 30 in two. *)
Theorem budget_closed_form (N : nat) (level : Z) :
  (0 < N <= 30)%nat -> 0 <= level -> Z.of_nat N * (level + 1) < 64 ->
  (2 ^ Z.of_nat N - 1) * level_ticks N level
  = 2 ^ Z.of_nat N * (2 ^ (Z.of_nat N * (level + 1)) - 1)
  /\ 0 < level_ticks N level < 2 ^ 64.
Proof.
  intros HN Hl Hfit.
  rewrite level_ticks_recurrence.
  pose proof (recurrence_bound N (Z.to_nat (level + 1)) ltac:(lia)) as Hb.
  pose proof (recurrence_nonneg N (Z.to_nat (level + 1))) as H0.
  assert (Hlt : recurrence N (Z.to_nat (level + 1)) < 2 ^ 64).
  { eapply Z.lt_le_trans; [exact Hb|]. apply Z.pow_le_mono_r; lia. }
  rewrite wrap64_small by (unfold uint64_mod; lia).
  split.
  - rewrite recurrence_closed. f_equal. f_equal. f_equal. lia.
  - split; [|exact Hlt].
    replace (Z.to_nat (level + 1)) with (S (Z.to_nat level)) by lia.
    change (recurrence N (S (Z.to_nat level)))
      with ((recurrence N (Z.to_nat level) + 1) * 2 ^ Z.of_nat N).
    pose proof (recurrence_nonneg N (Z.to_nat level)).
    assert (0 < 2 ^ Z.of_nat N) by (apply Z.pow_pos_nonneg; lia).
    nia.
Qed.

(** X2.  Past the width of [uint64_t] the budget no longer grows: each
    further pass of the loop adds a multiple of [2^64], which the
    [uint64_t] arithmetic drops.  Once [N * (level0 + 2) >= 64] every level
    from [level0] on (as far as the [int] counter of the loop goes) gets
    the budget of [level0]: in three dimensions all levels from 20 on get
    the same budget, in two dimensions all levels from 30 on. *)
Theorem budget_saturates (N : nat) (level0 level : Z) :
  (N <= 30)%nat -> 64 <= Z.of_nat N * (level0 + 2) ->
  0 <= level0 <= level -> level < 2 ^ 31 - 1 ->
  level_ticks N level = level_ticks N level0.
Proof.
  intros HN H64 Hl Hint.
  rewrite !level_ticks_recurrence.
  apply recurrence_saturates; lia.
Qed.

End BudgetProperties.

Section Coverage.

Context {P : Params}.

Local Abbreviation Heap := (gmap Addr (Cell Leaf)).

Local Arguments alloc_children : simpl never.

(** X3.  The assertion [done.load() || cancel.load()] that [build] makes
    after joining the workers fails in exactly one case: [build] was asked
    for no worker at all and nobody set [cancel].  With at least one worker
    it holds under every schedule. *)
Theorem join_assertion_needs_a_worker
    (eval : nat -> XTreeEvaluator) (region_ : Region)
    (min_feature max_err : double) (workers : nat) (cancel0 : bool)
    (cb : option ProgressCallback) (fth : option FreeThreadHandler)
    (sched : list Event) :
  build eval region_ min_feature max_err workers cancel0 cb fth sched
  = AssertionFailed
  <-> workers = O /\ cancel0 = false /\ SetCancel ∉ sched.
Proof.
  split.
  - intros Hb. destruct workers as [|n].
    + split; [reflexivity|].
      unfold build, build_return in Hb. rewrite build_run_failed in Hb.
      destruct (forallb returned _); [|discriminate].
      destruct (done _ || cancel _) eqn:Hdc.
      { destruct (cancel _); discriminate. }
      apply orb_false_iff in Hdc. destruct Hdc as [_ Hc].
      destruct cancel0.
      * exfalso.
        rewrite (proj2 (build_run_cancel eval region_ min_feature max_err O true
                          cb fth sched) (or_introl eq_refl)) in Hc.
        discriminate.
      * split; [reflexivity|]. intros Hin.
        rewrite (proj2 (build_run_cancel eval region_ min_feature max_err O false
                          cb fth sched) (or_intror Hin)) in Hc.
        discriminate.
    + exfalso.
      apply (build_assertion_holds eval region_ min_feature max_err (S n)
               cancel0 cb fth sched); [lia | exact Hb].
  - intros (-> & -> & Hno). unfold build, build_return.
    rewrite build_run_failed.
    assert (threads (build_run eval region_ min_feature max_err O false cb fth sched)
            = []) as Hth.
    { apply length_zero_iff_nil, build_run_length. }
    rewrite Hth. simpl.
    assert (done (shared (build_run eval region_ min_feature max_err O false
                                    cb fth sched)) = false) as ->.
    { unfold build_run. rewrite exec_no_threads by reflexivity. reflexivity. }
    assert (cancel (shared (build_run eval region_ min_feature max_err O false
                                      cb fth sched)) = false) as ->.
    { destruct (cancel _) eqn:Hc; [|reflexivity].
      apply build_run_cancel in Hc. destruct Hc as [Hc|Hc];
        [discriminate | contradiction]. }
    reflexivity.
Qed.

(** X5.  A worker in the loop that finds its local stack and the shared
    stack both empty, with neither flag set, calls [offerWait] when it was
    given a handler and goes back to the head of the loop with everything
    else as it was.  Left alone in that state it never leaves the loop:
    [run] does not return, however many passes it is given. *)
Theorem idle_worker_spins
    (eval : XTreeEvaluator) (max_err : float)
    (progress : option ProgressWatcher) (fth : option FreeThreadHandler)
    (s : Shared) (w : Worker) :
  done s = false -> cancel s = false -> returned w = false ->
  local w = [] -> items (tasks s) = [] ->
  run_pass eval max_err progress fth s w = (offerWait fth s, w) /\
  trace (offerWait fth s)
  = trace s ++ match fth with Some _ => [CallOfferWait] | None => [] end /\
  heap (offerWait fth s) = heap s /\ tasks (offerWait fth s) = tasks s /\
  forall fuel, run fuel eval max_err progress fth s w = None.
Proof.
  intros Hd Hc Hr Hl Hi.
  split; [apply idle_pass; assumption|].
  split; [destruct fth; simpl; [reflexivity | rewrite app_nil_r; reflexivity]|].
  split; [destruct fth; reflexivity|].
  split; [destruct fth; reflexivity|].
  intros fuel. revert s Hd Hc Hi.
  induction fuel as [|fuel IH]; intros s Hd Hc Hi; [reflexivity|].
  simpl. rewrite idle_pass by assumption.
  destruct (failed (offerWait fth s)); [reflexivity|].
  rewrite Hr. apply IH; destruct fth; assumption.
Qed.

(** X8.  In every state of a build, every waiting task has a cell (the
    branch for a null target is taken only when a worker finds no task),
    and every cell of the heap either is the target of exactly one waiting
    task or has been evaluated exactly once, by [evalInterval] or by
    [evalLeaf], and never both: no cell is pending twice, none is evaluated
    twice, none is forgotten, and no task or evaluation is about a cell
    that is not in the heap. *)
Theorem cells_evaluated_once
    (eval : nat -> XTreeEvaluator) (region_ : Region)
    (min_feature max_err : double) (workers : nat) (cancel0 : bool)
    (cb : option ProgressCallback) (fth : option FreeThreadHandler)
    (sched : list Event) :
  let m := build_run eval region_ min_feature max_err workers cancel0 cb fth sched in
  (forall tk, tk ∈ pending m -> is_Some (target tk)) /\
  NoDup (targets (pending m)) /\
  NoDup (evaluated (trace (shared m))) /\
  (forall a, a ∈ targets (pending m) -> a ∉ evaluated (trace (shared m))) /\
  (forall a, is_Some (heap (shared m) !! a) <->
             a ∈ targets (pending m) \/ a ∈ evaluated (trace (shared m))).
Proof.
  intros m.
  destruct (build_run_accounted eval region_ min_feature max_err workers cancel0
              cb fth sched) as (Hnd & Hdom).
  fold m in Hnd, Hdom.
  apply NoDup_app in Hnd. destruct Hnd as (H1 & H2 & H3).
  split; [apply (build_run_targets eval region_ min_feature max_err workers cancel0
                   cb fth sched)|].
  repeat split; try assumption.
  - intros Ha. apply Hdom, elem_of_app in Ha. exact Ha.
  - intros Ha. apply Hdom, elem_of_app. exact Ha.
Qed.

(** X9.  In every state of a build, the pool has been asked for the cell of
    index [j] below a cell [a], and that cell is in the heap, exactly when
    [j < 2^N] and interval evaluation has found [a] ambiguous: a cell found
    empty or filled and a leaf never get children, and a cell found
    ambiguous has all [2^N] of them.  So every
    cell but the root has its parent in the heap, and the [2^N] children of
    that parent are in the heap with it. *)
Theorem children_exactly_when_ambiguous
    (eval : nat -> XTreeEvaluator) (region_ : Region)
    (min_feature max_err : double) (workers : nat) (cancel0 : bool)
    (cb : option ProgressCallback) (fth : option FreeThreadHandler)
    (sched : list Event) :
  let m := build_run eval region_ min_feature max_err workers cancel0 cb fth sched in
  (forall j a, CallGet a j ∈ trace (shared m) <->
     (j < 2 ^ N)%nat /\
     CallEvalInterval a Interval.AMBIGUOUS ∈ trace (shared m)) /\
  (forall j a, is_Some (heap (shared m) !! (j :: a)) <->
     (j < 2 ^ N)%nat /\
     CallEvalInterval a Interval.AMBIGUOUS ∈ trace (shared m)) /\
  (forall j a, is_Some (heap (shared m) !! (j :: a)) ->
     is_Some (heap (shared m) !! a) /\
     forall j', (j' < 2 ^ N)%nat -> is_Some (heap (shared m) !! (j' :: a))).
Proof.
  intros m.
  pose proof (build_run_divided eval region_ min_feature max_err workers cancel0
                cb fth sched) as Hdiv.
  fold m in Hdiv. unfold divided_when_ambiguous in Hdiv.
  change children_size with (2 ^ N)%nat in Hdiv.
  split.
  { pose proof (proj1 (build_run_cells_held eval region_ min_feature max_err
                         workers cancel0 cb fth sched)) as Hmade.
    fold m in Hmade.
    intros j a. rewrite <- Hdiv, made_elem, Hmade.
    split; [intros (H & _); exact H | intros H; split; [exact H | discriminate]]. }
  split; [exact Hdiv|].
  intros j a Hja. apply Hdiv in Hja. destruct Hja as (_ & Hin).
  pose proof (build_run_ok eval region_ min_feature max_err workers cancel0
                cb fth sched) as Hok.
  fold m in Hok.
  destruct (ok_evaluated _ _ _ Hok a _ Hin) as (Hsome & _).
  split; [exact Hsome|].
  intros j' Hj'. apply Hdiv. split; assumption.
Qed.

(** X10.  When every region that [subdivide] gives is one level below the
    region divided, the tree is no deeper than the level [L] of the root
    region: in every state of a build, a waiting task on a cell of depth
    [d] has a region of level [L - d]; no cell lies deeper than [L] (than 0
    when [L] is negative); [evalInterval] has only run on cells of depth
    less than [L], and [evalLeaf] only on cells of depth [L] (on the root
    when [L] is negative). *)
Theorem tree_depth_bounded_by_level
    (eval : nat -> XTreeEvaluator) (region_ : Region)
    (min_feature max_err : double) (workers : nat) (cancel0 : bool)
    (cb : option ProgressCallback) (fth : option FreeThreadHandler)
    (sched : list Event) :
  (forall r j, (j < 2 ^ N)%nat -> level (subdivide r j) = level r - 1) ->
  let L := level (withResolution region_ min_feature) in
  let m := build_run eval region_ min_feature max_err workers cancel0 cb fth sched in
  (forall tk a, tk ∈ pending m -> target tk = Some a ->
                level (region tk) = L - depth a) /\
  (forall a, is_Some (heap (shared m) !! a) -> depth a <= Z.max 0 L) /\
  (forall a v, CallEvalInterval a v ∈ trace (shared m) -> depth a < L) /\
  (forall a, CallEvalLeaf a ∈ trace (shared m) -> depth a = Z.max 0 L).
Proof.
  intros Hsub L m.
  destruct (build_run_levels eval region_ min_feature max_err workers cancel0
              cb fth sched Hsub) as (H1 & H2 & H3 & H4).
  fold L m in H1, H2, H3, H4.
  repeat split; try assumption.
  intros a Hin. pose proof (H4 a Hin) as Hge.
  assert (is_Some (heap (shared m) !! a)) as Ha.
  { apply (proj2 (build_run_accounted eval region_ min_feature max_err workers
                    cancel0 cb fth sched)).
    apply elem_of_app. right.
    unfold evaluated. apply list_elem_of_omap. exists (CallEvalLeaf a).
    split; [exact Hin | reflexivity]. }
  pose proof (H2 a Ha). unfold depth in *. lia.
Qed.

(** X11.  No cell is held twice and none is lost.  In every state of a
    build the cells that the root has claimed and the cells in the pools of
    the workers still running are all different, and they are exactly the
    cells that the pools were asked for: the cells of the heap other than
    the root cell.  The root that [build] returns therefore lists no cell
    twice, and never the root cell. *)
Theorem no_cell_claimed_twice
    (eval : nat -> XTreeEvaluator) (region_ : Region)
    (min_feature max_err : double) (workers : nat) (cancel0 : bool)
    (cb : option ProgressCallback) (fth : option FreeThreadHandler)
    (sched : list Event) :
  let m := build_run eval region_ min_feature max_err workers cancel0 cb fth sched in
  NoDup (claimed (out (shared m)) ++ live_pools (threads m)) /\
  claimed (out (shared m)) ++ live_pools (threads m) ≡ₚ made (trace (shared m)) /\
  (forall a, a ∈ claimed (out (shared m)) ++ live_pools (threads m) <->
             is_Some (heap (shared m) !! a) /\ a <> []) /\
  (forall r,
     build eval region_ min_feature max_err workers cancel0 cb fth sched = Return r ->
     NoDup (claimed r) /\ [] ∉ claimed r).
Proof.
  intros m.
  destruct (build_run_claims eval region_ min_feature max_err workers cancel0
              cb fth sched) as (Hnd & Hin).
  fold m in Hnd, Hin.
  destruct (build_run_cells_held eval region_ min_feature max_err workers cancel0
              cb fth sched) as (Hmade & Hheld).
  fold m in Hmade, Hheld.
  split; [exact Hnd|]. split; [exact Hheld|].
  split; [intros a; rewrite Hheld; apply Hmade|].
  intros r Hr. apply build_return_cases in Hr.
  destruct Hr as (_ & [(_ & ->)|(_ & _ & ->)]).
  - split; [apply NoDup_nil_2 | intros H; inversion H].
  - fold m. split.
    + apply NoDup_app in Hnd. apply Hnd.
    + intros Hroot. apply (proj2 (Hin [] (proj2 (elem_of_app _ _ _) (or_introl Hroot)))).
      reflexivity.
Qed.

(** X12.  [build] with one worker is [run] on the state that [build]
    prepares: when [run], started on that state, returns after at most
    [fuel] passes, the build in which worker 0 makes that many passes is in
    the state that [run] left, and [build] returns the empty root when
    [cancel] is set in it and the root under construction otherwise. *)
Theorem single_worker_build_is_run
    (eval : nat -> XTreeEvaluator) (region_ : Region)
    (min_feature max_err : double) (cancel0 : bool)
    (cb : option ProgressCallback) (fth : option FreeThreadHandler)
    (fuel : nat) (s' : Shared) (w' : Worker) :
  run fuel (eval O) (to_float max_err) (build_watcher region_ min_feature cb) fth
      (shared (build_start eval region_ min_feature 1 cancel0)) Worker_start
  = Some (s', w') ->
  exists n, (0 < n <= fuel)%nat /\
    build_run eval region_ min_feature max_err 1 cancel0 cb fth
              (replicate n (Pass O)) = mkMachine s' [w'] /\
    build eval region_ min_feature max_err 1 cancel0 cb fth (replicate n (Pass O))
    = Return (if cancel s' then Root_empty else out s').
Proof.
  intros Hrun.
  destruct (run_returns_done fuel (eval O) (to_float max_err)
              (build_watcher region_ min_feature cb) fth _ Worker_start s' w'
              eq_refl Hrun) as (Hdone & Hret).
  destruct (run_is_solo_exec eval (to_float max_err)
              (build_watcher region_ min_feature cb) fth fuel
              (shared (build_start eval region_ min_feature 1 cancel0))
              Worker_start s' w' eq_refl eq_refl Hrun) as (n & Hn & He).
  exists n. split; [exact Hn|].
  assert (build_run eval region_ min_feature max_err 1 cancel0 cb fth
                    (replicate n (Pass O)) = mkMachine s' [w']) as Hb by exact He.
  split; [exact Hb|].
  pose proof (build_run_failed eval region_ min_feature max_err 1%nat cancel0 cb fth
                (replicate n (Pass O))) as Hf.
  unfold build, build_return. rewrite Hb in *. simpl in *.
  rewrite Hf, Hret, Hdone. simpl. destruct (cancel s'); reflexivity.
Qed.

(** X13.  With a watcher, a build reports one tick for each cell finished:
    in every state the number of ticks emitted is the number of cells that
    were evaluated as leaves, found all empty or all filled, or collected.
    A cell found ambiguous is reported only once it is collected. *)
Theorem one_tick_per_finished_cell
    (eval : nat -> XTreeEvaluator) (region_ : Region) (min_feature : double)
    (max_err : float) (workers : nat) (cancel0 : bool)
    (pw : ProgressWatcher) (fth : option FreeThreadHandler)
    (sched : list Event) :
  let m := exec eval max_err (Some pw) fth sched
                (build_start eval region_ min_feature workers cancel0) in
  length (ticks_of (trace (shared m))) = length (finished (trace (shared m))).
Proof.
  intros m.
  exact (exec_reports eval region_ min_feature max_err workers cancel0 (Some pw)
           fth sched).
Qed.

(** X14.  The two optional pointers are never used when they are null:
    workers that were given no watcher emit no tick, under any schedule,
    and workers that were given no handler never call [offerWait]. *)
Theorem null_pointers_never_used
    (eval : nat -> XTreeEvaluator) (region_ : Region) (min_feature : double)
    (max_err : float) (workers : nat) (cancel0 : bool) (sched : list Event) :
  (forall fth,
     ticks_of (trace (shared (exec eval max_err None fth sched
                                   (build_start eval region_ min_feature workers
                                                cancel0)))) = []) /\
  (forall progress,
     CallOfferWait
       ∉ trace (shared (exec eval max_err progress None sched
                             (build_start eval region_ min_feature workers
                                          cancel0)))).
Proof.
  split.
  - intros fth.
    exact (exec_reports eval region_ min_feature max_err workers cancel0 None
             fth sched).
  - intros progress. apply exec_waits.
Qed.

End Coverage.

Section FinishedProperties.

Context {P : Params}.

(** X16.  Provided [collectChildren] has answered true at most once on each
    cell, no cell is finished twice: in every state of a build the cells
    evaluated as leaves, found all empty or all filled, or collected are all
    different and all in the heap.  Then [collectChildren] has been called
    at most [2^N] times on each cell, once for each child finished, and with
    a watcher the number of ticks emitted is at most the number of cells of
    the heap. *)
Theorem no_cell_finished_twice
    (eval : nat -> XTreeEvaluator) (region_ : Region)
    (min_feature max_err : double) (workers : nat) (cancel0 : bool)
    (cb : option ProgressCallback) (fth : option FreeThreadHandler)
    (sched : list Event) :
  let m := build_run eval region_ min_feature max_err workers cancel0 cb fth sched in
  NoDup (collected (trace (shared m))) ->
  NoDup (finished (trace (shared m))) /\
  (forall a, a ∈ finished (trace (shared m)) -> is_Some (heap (shared m) !! a)) /\
  (forall p, (length (filter (fun q => q = p) (collect_calls (trace (shared m))))
              <= 2 ^ N)%nat) /\
  (length (finished (trace (shared m))) <= size (heap (shared m)))%nat /\
  (forall f, cb = Some f ->
     (length (ticks_of (trace (shared m))) <= size (heap (shared m)))%nat).
Proof.
  intros m Hcol.
  destruct (build_run_finished_once eval region_ min_feature max_err workers
              cancel0 cb fth sched) as ((Hnd0 & Hdom) & Hdiv & Hamb & Hfin).
  fold m in Hnd0, Hdom, Hdiv, Hamb, Hfin.
  pose proof (Hfin Hcol) as Hnd.
  assert (forall a, a ∈ finished (trace (shared m)) ->
                    is_Some (heap (shared m) !! a)) as Hheap.
  { intros a Ha. apply Hdom, elem_of_app. right.
    apply finished_elem in Ha. destruct Ha as [Ha|[(v & _ & Ha)|Ha]].
    - apply (evaluated_elem _ _ a Ha). left. reflexivity.
    - apply (evaluated_elem _ _ a Ha). right. eauto.
    - apply Hamb in Ha. apply (evaluated_elem _ _ a Ha). right. eauto. }
  assert (length (finished (trace (shared m))) <= size (heap (shared m)))%nat
    as Hsize.
  { rewrite <- (size_dom (D := gset Addr)).
    apply submseteq_length, NoDup_submseteq; [exact Hnd|].
    intros a Ha. apply elem_of_elements, elem_of_dom, Hheap. exact Ha. }
  split; [exact Hnd|]. split; [exact Hheap|]. split; [|split; [exact Hsize|]].
  - intros p.
    pose proof (build_run_collects eval region_ min_feature max_err workers cancel0
                  cb fth sched) as Hc.
    cbv zeta in Hc. fold m in Hc. rewrite Hc.
    apply parents_count; [exact Hnd|].
    intros j Hj. apply Hheap, Hdiv in Hj. apply Hj.
  - intros f ->.
    pose proof (exec_reports eval region_ min_feature (to_float max_err) workers
                  cancel0 (build_watcher region_ min_feature (Some f)) fth sched)
      as Hrep.
    change (exec eval (to_float max_err)
                 (build_watcher region_ min_feature (Some f)) fth sched
                 (build_start eval region_ min_feature workers cancel0))
      with m in Hrep.
    simpl in Hrep. rewrite Hrep. exact Hsize.
Qed.

End FinishedProperties.

Section SizeProperties.

Context {P : Params}.

(** X17.  When every region that [subdivide] gives is one level below the
    region divided and the root region has a level [L >= 0], a build never
    makes more cells than a tree has in which every cell down to level 0 is
    divided: [2^N] times the number of cells is at most the value of the
    budget recurrence after [L + 1] steps, and, as long as that value fits
    [uint64_t], at most the budget that [build] computes. *)
Theorem tree_size_bounded_by_budget
    (eval : nat -> XTreeEvaluator) (region_ : Region)
    (min_feature max_err : double) (workers : nat) (cancel0 : bool)
    (cb : option ProgressCallback) (fth : option FreeThreadHandler)
    (sched : list Event) :
  (forall r j, (j < 2 ^ N)%nat -> level (subdivide r j) = level r - 1) ->
  0 <= level (withResolution region_ min_feature) ->
  let L := level (withResolution region_ min_feature) in
  let m := build_run eval region_ min_feature max_err workers cancel0 cb fth sched in
  2 ^ Z.of_nat N * Z.of_nat (size (heap (shared m)))
  <= Ticks.recurrence N (Z.to_nat (L + 1)) /\
  ((0 < N <= 30)%nat -> Z.of_nat N * (L + 1) < 64 ->
   2 ^ Z.of_nat N * Z.of_nat (size (heap (shared m)))
   <= build_ticks region_ min_feature).
Proof.
  intros Hsub HL L m.
  pose proof (build_run_ok eval region_ min_feature max_err workers cancel0
                cb fth sched) as Hok.
  pose proof (build_run_divided eval region_ min_feature max_err workers cancel0
                cb fth sched) as Hdiv.
  destruct (build_run_levels eval region_ min_feature max_err workers cancel0
              cb fth sched Hsub) as (_ & Hdeep & _).
  fold L m in Hok, Hdiv, Hdeep.
  assert (size (heap (shared m)) <= length (cells_down_to (Z.to_nat L)))%nat
    as Hsize.
  { rewrite <- (size_dom (D := gset Addr)).
    apply submseteq_length, NoDup_submseteq; [apply NoDup_elements|].
    intros a Ha. apply elem_of_elements, elem_of_dom in Ha.
    apply cells_down_to_elem; [apply (heap_indices m Hok Hdiv a Ha)|].
    specialize (Hdeep a Ha). unfold depth in Hdeep. lia. }
  assert (2 ^ Z.of_nat N * Z.of_nat (size (heap (shared m)))
          <= Ticks.recurrence N (Z.to_nat (L + 1))) as Hbound.
  { replace (Z.to_nat (L + 1)) with (S (Z.to_nat L)) by lia.
    rewrite <- cells_down_to_length.
    apply Z.mul_le_mono_nonneg_l; [apply Z.pow_nonneg; lia | lia]. }
  split; [exact Hbound|].
  intros HN Hfit. unfold build_ticks. fold L.
  rewrite level_ticks_recurrence.
  pose proof (recurrence_bound N (Z.to_nat (L + 1)) ltac:(lia)) as Hb.
  pose proof (recurrence_nonneg N (Z.to_nat (L + 1))) as H0.
  rewrite wrap64_small; [exact Hbound|].
  split; [exact H0|]. unfold Ticks.uint64_mod.
  eapply Z.lt_le_trans; [exact Hb|]. apply Z.pow_le_mono_r; lia.
Qed.

End SizeProperties.

Section ProgressProperties.

Context {P : Params}.

(** X18.  Work never gets stuck.  In every state of a build with at least
    one worker in which neither flag is set and a task is waiting, there is
    a worker whose next pass evaluates the cell of a waiting task: the
    worker that holds a task in its local stack or, when all local stacks
    are empty, any worker, which then takes the top of the shared stack. *)
Theorem some_worker_can_evaluate
    (eval : nat -> XTreeEvaluator) (region_ : Region)
    (min_feature max_err : double) (workers : nat) (cancel0 : bool)
    (cb : option ProgressCallback) (fth : option FreeThreadHandler)
    (sched : list Event) :
  let m := build_run eval region_ min_feature max_err workers cancel0 cb fth sched in
  (0 < workers)%nat ->
  done (shared m) = false -> cancel (shared m) = false -> pending m <> [] ->
  exists i t,
    (i < workers)%nat /\ t ∈ targets (pending m) /\
    evaluated (trace (shared (build_run eval region_ min_feature max_err workers
                                        cancel0 cb fth (sched ++ [Pass i]))))
    = evaluated (trace (shared m)) ++ [t].
Proof.
  intros m Hworkers Hd Hc Hpend.
  pose proof (build_run_ok eval region_ min_feature max_err workers cancel0
                cb fth sched) as Hok.
  pose proof (build_run_failed eval region_ min_feature max_err workers cancel0
                cb fth sched) as Hf.
  pose proof (build_run_returned_done eval region_ min_feature max_err workers
                cancel0 cb fth sched) as Hrd.
  pose proof (build_run_length eval region_ min_feature max_err workers cancel0
                cb fth sched) as Hlen.
  pose proof (build_run_targets eval region_ min_feature max_err workers cancel0
                cb fth sched) as Htargets.
  cbv zeta in Htargets. fold m in Hok, Hf, Hrd, Hlen, Htargets.
  assert (forall i w, threads m !! i = Some w -> returned w = false) as Hrun.
  { intros i w Hw. destruct (returned w) eqn:Hr; [|reflexivity].
    rewrite (Hrd i w Hw Hr) in Hd. discriminate. }
  assert (forall i w tk t,
            threads m !! i = Some w -> target tk = Some t -> tk ∈ pending m ->
            (exists rest, local w = tk :: rest) \/
              (local w = [] /\ exists rest, items (tasks (shared m)) = tk :: rest) ->
            exists i t,
              (i < workers)%nat /\ t ∈ targets (pending m) /\
              evaluated (trace (shared (build_run eval region_ min_feature max_err
                                          workers cancel0 cb fth (sched ++ [Pass i]))))
              = evaluated (trace (shared m)) ++ [t]) as Hgo.
  { intros i w tk t Hw Htk Hin Hhas. exists i, t.
    split; [rewrite <- Hlen; eapply lookup_lt_Some; exact Hw|].
    split; [apply list_elem_of_omap; exists tk; split; assumption|].
    rewrite build_run_app. fold m. simpl.
    apply (pass_evaluates _ _ _ _ i w tk t m); auto. apply (Hrun i w Hw). }
  destruct (list_eq_nil_dec (concat (map local (threads m)))) as [Hnil|Hsome].
  - destruct (items (tasks (shared m))) as [|tk rest] eqn:Hitems.
    { exfalso. apply Hpend. unfold pending. rewrite Hitems, Hnil. reflexivity. }
    assert (tk ∈ pending m) as Hin.
    { unfold pending. rewrite Hitems. apply list_elem_of_here. }
    destruct (Htargets tk Hin) as (t & Ht).
    destruct (lookup_lt_is_Some_2 (threads m) O) as (w & Hw); [lia|].
    apply (Hgo O w tk t Hw Ht Hin). right. split; [|eauto].
    destruct (local w) as [|x l] eqn:Hl; [reflexivity|]. exfalso.
    assert (x ∈ concat (map local (threads m))) as Hx.
    { apply list_elem_of_In, in_concat. exists (local w). split.
      - apply in_map, list_elem_of_In, (list_elem_of_lookup_2 _ O). exact Hw.
      - rewrite Hl. left. reflexivity. }
    rewrite Hnil in Hx. inversion Hx.
  - destruct (locals_nonempty _ Hsome) as (i & w & tk & rest & Hw & Hl).
    assert (tk ∈ pending m) as Hin.
    { unfold pending. apply elem_of_app. right.
      apply list_elem_of_In, in_concat. exists (local w). split.
      - apply in_map, list_elem_of_In, (list_elem_of_lookup_2 _ i). exact Hw.
      - rewrite Hl. left. reflexivity. }
    destruct (Htargets tk Hin) as (t & Ht).
    apply (Hgo i w tk t Hw Ht Hin). left. eauto.
Qed.

End ProgressProperties.

(** ** Instances of the further properties *)

Section CoverageRuns.

Import Toy.

(** *** Instances of the properties of the whole build *)

Lemma budget_closed_form_two_dimensions :
  (2 ^ 2 - 1) * Ticks.level_ticks 2 30 = 2 ^ 2 * (2 ^ (2 * (30 + 1)) - 1) /\
  0 < Ticks.level_ticks 2 30 < 2 ^ 64.
Proof. apply (budget_closed_form 2 30); lia. Defined.

Lemma budget_saturates_three_dimensions :
  Ticks.level_ticks 3 25 = Ticks.level_ticks 3 20.
Proof. apply (budget_saturates 3 20 25); lia. Defined.

Lemma idle_worker_spins_stuck :
  run_pass (P := stuck) O 0 None None (shared stuck_run) stuck_worker
  = (offerWait (P := stuck) None (shared stuck_run), stuck_worker) /\
  run (P := stuck) 50 O 0 None None (shared stuck_run) stuck_worker = None.
Proof.
  destruct (idle_worker_spins (P := stuck) O 0 None None (shared stuck_run)
              stuck_worker) as (H1 & _ & _ & _ & H2);
    [vm_compute; reflexivity ..|].
  split; [exact H1 | exact (H2 50%nat)].
Defined.

Lemma tree_depth_bounded_two_cube :
  depth [7%nat] = Z.max 0 (@level amb (@withResolution amb two_cube 1)).
Proof.
  apply (tree_depth_bounded_by_level (P := amb) evals two_cube 1 0 1 false None None
           (solo 9)).
  - intros r j _. reflexivity.
  - apply list_elem_of_In. vm_compute.
    repeat (first [left; reflexivity | right]).
Defined.

Lemma single_worker_build_is_run_unit_cube :
  exists n, (0 < n <= 3)%nat /\
    build (P := amb) evals unit_cube 1 0 1 false None None (replicate n (Pass O))
    = Return (Root_of []).
Proof.
  destruct (single_worker_build_is_run (P := amb) evals unit_cube 1 0 false
              None None 3
              (shared (build_run (P := amb) evals unit_cube 1 0 1 false None None
                                 [Pass O]))
              (default Worker_start
                 (threads (build_run (P := amb) evals unit_cube 1 0 1 false
                                     None None [Pass O]) !! O)))
    as (n & Hn & _ & Hb).
  - vm_compute. reflexivity.
  - exists n. split; [exact Hn|]. rewrite Hb. vm_compute. reflexivity.
Defined.

Lemma no_cell_finished_twice_two_cube :
  le (length (filter (fun q => q = [])
                (collect_calls
                   (trace (shared (build_run (P := amb) evals two_cube 1 0 1 false
                                             None None (solo 9)))))))
     8%nat.
Proof.
  destruct (no_cell_finished_twice (P := amb) evals two_cube 1 0 1 false None None
              (solo 9)) as (_ & _ & H & _).
  - assert (collected
              (trace (shared (build_run (P := amb) evals two_cube 1 0 1 false
                                        None None (solo 9)))) = [[]]) as ->
      by (vm_compute; reflexivity).
    apply NoDup_singleton.
  - exact (H []).
Defined.

Lemma tree_size_bounded_two_cube :
  2 ^ Z.of_nat (@N amb)
  * Z.of_nat (size (heap (shared (build_run (P := amb) evals two_cube 1 0 1 false
                                            None None (solo 9)))))
  <= build_ticks (P := amb) two_cube 1.
Proof.
  apply (tree_size_bounded_by_budget (P := amb) evals two_cube 1 0 1 false
           None None (solo 9)).
  - intros r j _. reflexivity.
  - vm_compute. discriminate.
  - simpl. lia.
  - vm_compute. reflexivity.
Defined.

Lemma some_worker_can_evaluate_two_cube :
  exists i t,
    (i < 1)%nat /\
    t ∈ targets (pending (build_run (P := amb) evals two_cube 1 0 1 false None None [])) /\
    evaluated (trace (shared (build_run (P := amb) evals two_cube 1 0 1 false None None
                                        ([] ++ [Pass i]))))
    = evaluated (trace (shared (build_run (P := amb) evals two_cube 1 0 1 false
                                          None None []))) ++ [t].
Proof.
  apply (some_worker_can_evaluate (P := amb) evals two_cube 1 0 1 false None None []).
  - lia.
  - reflexivity.
  - reflexivity.
  - intros H. vm_compute in H. discriminate.
Defined.

End CoverageRuns.

(** ** What [build] returns *)

(** *** The answers of [collectChildren] *)

Section ContractFacts.

Context {P : Params}.

Local Abbreviation Heap := (gmap Addr (Cell Leaf)).

Lemma collects_wait_prefix tr more : collects_wait (tr ++ more) -> collects_wait tr.
Proof.
  intros H tr1 tr2 p Heq. apply (H tr1 (tr2 ++ more) p).
  rewrite Heq, <- app_assoc. reflexivity.
Qed.

Lemma collects_prompt_prefix tr more :
  collects_prompt (tr ++ more) -> collects_prompt tr.
Proof.
  intros H tr1 tr2 p Heq. apply (H tr1 (tr2 ++ more) p).
  rewrite Heq, <- app_assoc. reflexivity.
Qed.

Lemma children_finished_spec seen p :
  children_finished seen p = true <->
  forall j, (j < children_size)%nat -> (j :: p) ∈ seen.
Proof.
  unfold children_finished. rewrite forallb_forall. split.
  - intros H j Hj. apply (bool_decide_eq_true_1 _). apply H, in_seq. lia.
  - intros H j Hj. apply (bool_decide_eq_true_2 _). apply H. apply in_seq in Hj. lia.
Qed.

(** The check, on a record of calls that comes after the cells [seen] were
    finished. *)
Lemma answers_checked_split : forall tr seen tr1 tr2 p ok,
  answers_checked seen tr = true ->
  tr = tr1 ++ CallCollect p ok :: tr2 ->
  ok = children_finished (seen ++ finished tr1) p.
Proof.
  induction tr as [|c rest IH]; intros seen tr1 tr2 p ok Hchk Heq.
  - destruct tr1; discriminate.
  - cbn [answers_checked] in Hchk.
    apply andb_true_iff in Hchk. destruct Hchk as [Hc Hrest].
    destruct tr1 as [|c1 tr1]; simpl in Heq; inversion Heq; subst.
    + change (finished []) with (@nil Addr). rewrite app_nil_r.
      apply eqb_prop. exact Hc.
    + rewrite (IH (seen ++ finished [c1]) tr1 tr2 p ok Hrest eq_refl).
      change (c1 :: tr1) with ([c1] ++ tr1).
      rewrite finished_app, app_assoc. reflexivity.
Qed.

(** A record of calls that passes the check meets both conditions. *)
Lemma answers_checked_sound tr :
  answers_checked [] tr = true -> collects_wait tr /\ collects_prompt tr.
Proof.
  intros Hchk. split.
  - intros tr1 tr2 p Heq.
    pose proof (answers_checked_split tr [] tr1 tr2 p true Hchk Heq) as H.
    simpl in H. symmetry in H. apply children_finished_spec. exact H.
  - intros tr1 tr2 p Heq.
    pose proof (answers_checked_split tr [] tr1 tr2 p false Hchk Heq) as H.
    simpl in H. symmetry in H.
    destruct (decide (Exists (fun j => (j :: p) ∉ finished tr1)
                             (seq 0 children_size))) as [Hex|Hno].
    + apply Exists_exists in Hex. destruct Hex as (j & Hj & Hnot).
      exists j. split; [apply elem_of_seq in Hj; lia | exact Hnot].
    + exfalso.
      assert (children_finished (finished tr1) p = true) as Hall; [|congruence].
      apply children_finished_spec. intros j Hj.
      destruct (decide ((j :: p) ∈ finished tr1)) as [Hin|Hout]; [exact Hin|].
      exfalso. apply Hno. apply Exists_exists. exists j.
      split; [apply elem_of_seq; lia | exact Hout].
Qed.

(** *** The tree when the root has been dealt with *)

Lemma root_finished_elem tr : root_finished tr -> [] ∈ finished tr.
Proof.
  intros H. apply finished_elem.
  destruct H as [H|[H|[H|H]]]; [left; exact H | | | right; right; exact H].
  - right. left. exists Interval.EMPTY. split; [discriminate | exact H].
  - right. left. exists Interval.FILLED. split; [discriminate | exact H].
Qed.

Lemma evaluated_calls (tr : list Call) (a : Addr) :
  a ∈ evaluated tr <->
  CallEvalLeaf a ∈ tr \/ exists v, CallEvalInterval a v ∈ tr.
Proof.
  split.
  - intros H. unfold evaluated in H. apply list_elem_of_omap in H.
    destruct H as (c & Hc & Heq).
    destruct c; try discriminate; inversion Heq; subst; eauto.
  - intros [H|(v & H)]; eapply evaluated_elem; eauto.
Qed.

(** A cell is evaluated by one call only. *)
Lemma evaluated_once_call (tr : list Call) (a : Addr) (c1 c2 : Call) :
  NoDup (evaluated tr) -> c1 ∈ tr -> c2 ∈ tr ->
  (c1 = CallEvalLeaf a \/ exists v, c1 = CallEvalInterval a v) ->
  (c2 = CallEvalLeaf a \/ exists v, c2 = CallEvalInterval a v) ->
  c1 = c2.
Proof.
  intros Hnd H1 H2 Hc1 Hc2.
  apply (omap_nodup_inj _ tr Hnd c1 c2 a H1 H2).
  - destruct Hc1 as [->|(v & ->)]; reflexivity.
  - destruct Hc2 as [->|(v & ->)]; reflexivity.
Qed.

(** In a build in which [collectChildren] answered true only after all the
    children, once the root has been dealt with every cell has been dealt
    with, and no task waits. *)
Lemma build_run_populated eval region_ min_feature max_err workers cancel0 cb fth sched :
  let m := build_run eval region_ min_feature max_err workers cancel0 cb fth sched in
  collects_wait (trace (shared m)) ->
  root_finished (trace (shared m)) ->
  (forall a, is_Some (heap (shared m) !! a) ->
             a ∈ finished (trace (shared m)) /\ a ∈ evaluated (trace (shared m))) /\
  pending m = [].
Proof.
  intros m Hwait Hroot.
  pose proof (build_run_accounted eval region_ min_feature max_err workers cancel0
                cb fth sched) as (Hnd & Hacc).
  pose proof (build_run_divided eval region_ min_feature max_err workers cancel0
                cb fth sched) as Hdiv.
  pose proof (build_run_ok eval region_ min_feature max_err workers cancel0
                cb fth sched) as Hok.
  pose proof (build_run_collected_ambiguous eval region_ min_feature max_err workers
                cancel0 cb fth sched) as Hcamb.
  pose proof (build_run_targets eval region_ min_feature max_err workers cancel0
                cb fth sched) as Htargets.
  cbv zeta in Hcamb, Htargets. fold m in Hnd, Hacc, Hdiv, Hok, Hcamb, Htargets.
  apply NoDup_app in Hnd. destruct Hnd as (_ & Hdisj & Hnde).
  assert (forall a, is_Some (heap (shared m) !! a) -> a ∈ finished (trace (shared m)))
    as Hfin.
  { intros a. induction a as [|j p IH]; intros Ha; [apply root_finished_elem, Hroot|].
    pose proof (proj1 (Hdiv j p) Ha) as (Hj & Hamb).
    specialize (IH (ok_closed _ _ _ Hok j p Ha)).
    apply finished_elem in IH. destruct IH as [Hl|[(v & Hv & Hi)|Hc]].
    - pose proof (evaluated_once_call _ p _ _ Hnde Hl Hamb
                    (or_introl eq_refl) (or_intror (ex_intro _ _ eq_refl))) as Heq.
      discriminate.
    - pose proof (evaluated_once_call _ p _ _ Hnde Hi Hamb
                    (or_intror (ex_intro _ _ eq_refl))
                    (or_intror (ex_intro _ _ eq_refl))) as Heq.
      inversion Heq. congruence.
    - apply list_elem_of_split in Hc. destruct Hc as (tr1 & tr2 & Heq).
      pose proof (Hwait tr1 tr2 p Heq j Hj) as Hin.
      rewrite Heq, finished_app. apply elem_of_app. left. exact Hin. }
  assert (forall a, a ∈ finished (trace (shared m)) -> a ∈ evaluated (trace (shared m)))
    as Hev.
  { intros a Ha. apply evaluated_calls. apply finished_elem in Ha.
    destruct Ha as [Hl|[(v & _ & Hi)|Hc]]; [left; exact Hl | right; eauto |].
    right. exists Interval.AMBIGUOUS. apply (Hcamb a true Hc). }
  split; [intros a Ha; split; [|apply Hev]; apply Hfin, Ha|].
  destruct (pending m) as [|tk rest] eqn:Hp; [reflexivity|]. exfalso.
  destruct (Htargets tk (list_elem_of_here _ _)) as (t & Ht).
  assert (t ∈ targets (tk :: rest)) as Hin.
  { apply list_elem_of_omap. exists tk. split; [apply list_elem_of_here | exact Ht]. }
  apply (Hdisj t Hin). apply Hev, Hfin, Hacc. apply elem_of_app. left. exact Hin.
Qed.

End ContractFacts.

(** *** The tree that is built *)

Section ShapeFacts.

Context {P : Params}.

Local Abbreviation Heap := (gmap Addr (Cell Leaf)).

Local Arguments alloc_children : simpl never.

(** *** The types that a pass writes *)

(** A pass on the task of a cell [t] that has no children writes the type
    of [t] only, and a leaf evaluation leaves there the type of what
    [leaf_eval] answers. *)
Lemma body_of_task_types eval max_err progress tk t s0 w0 :
  prefix_closed (heap s0) -> is_Some (heap s0 !! t) ->
  (forall j, heap s0 !! (j :: t) = None) ->
  let b := body_of_task eval max_err progress tk t s0 w0 in
  (forall a, a <> t -> is_Some (heap s0 !! a) ->
             type_at (heap b.1.1) a = type_at (heap s0) a) /\
  (level (region tk) <= 0 ->
   type_at (heap b.1.1) t
   = type (leaf_eval eval (tape tk) (region tk) (local_neighbors tk t (heap s0))
                     (cell_at (heap s0) t))).
Proof.
  intros Hcl Ht Hkids.
  destruct (Z.ltb_spec 0 (level (region tk))) as [Hpos|Hle];
    [destruct (verdict_ambiguous_dec
                 (interval_verdict eval (tape tk) (region tk)).1) as [Hamb|Hamb]|].
  - rewrite (body_of_task_ambiguous eval max_err progress tk t s0 w0 Hpos Hamb).
    simpl. split; [|lia].
    intros a Hne Ha. unfold type_at, cell_at. rewrite alloc_children_lookup.
    destruct a as [|j p].
    + rewrite lookup_insert_ne by congruence. reflexivity.
    + destruct (decide (p = t /\ j ∈ seq 0 children_size)) as [[-> _]|_].
      * rewrite Hkids in Ha. destruct Ha; discriminate.
      * rewrite lookup_insert_ne by congruence. reflexivity.
  - split; [|lia]. intros a Hne Ha. unfold body_of_task.
    destruct (Z.ltb_spec 0 (level (region tk))) as [_|Hle]; [|lia].
    set (s1 := (evalInterval eval (tape tk) (region tk) t s0).1).
    assert (forall b, is_Some (heap s1 !! b) <-> is_Some (heap s0 !! b)) as Hdom.
    { intros b. apply evalInterval_dom. exact Ht. }
    assert (prefix_closed (heap s1)) as Hcl1.
    { intros j b Hb. apply Hdom. apply (Hcl j). apply Hdom. exact Hb. }
    assert (type_at (heap s1) a = type_at (heap s0) a) as Hty.
    { unfold s1. rewrite evalInterval_eq. simpl.
      apply type_at_insert_ne. congruence. }
    assert (forall tp,
              type_at (heap (finish eval max_err progress true t (region tk) tp s1).1) a
              = type_at (heap s0) a) as Hfin.
    { intros tp.
      destruct (finish_touches eval max_err progress true t (region tk) tp s1
                  Hcl1 (proj2 (Hdom t) Ht)) as (_ & Hsame & _).
      rewrite Hsame. exact Hty. }
    destruct (interval_verdict eval (tape tk) (region tk)).1; simpl;
      [apply Hfin | apply Hfin | congruence].
  - unfold body_of_task.
    destruct (Z.ltb_spec 0 (level (region tk))) as [Hpos|_]; [lia|]. simpl.
    set (nb := local_neighbors tk t (heap s0)).
    set (s1 := evalLeaf eval (tape tk) (region tk) nb t s0).
    destruct (finish_touches eval max_err progress false t (region tk) (tape tk) s1
                (evalLeaf_closed eval (tape tk) (region tk) nb t s0 Ht Hcl)
                (proj2 (evalLeaf_dom eval (tape tk) (region tk) nb t s0 t Ht) Ht))
      as (_ & Hsame & _).
    split.
    + intros a Hne Ha. rewrite Hsame. unfold s1. simpl.
      apply type_at_insert_ne. congruence.
    + intros _. rewrite Hsame. unfold s1. simpl. apply type_at_insert.
Qed.

(** The only call of [evalLeaf] that a pass makes is on the cell of its
    task, when the region of the task has no [level > 0]. *)
Lemma body_of_task_leaf_call eval max_err progress tk t s0 w0 a :
  prefix_closed (heap s0) -> is_Some (heap s0 !! t) ->
  CallEvalLeaf a ∈ trace (body_of_task eval max_err progress tk t s0 w0).1.1 ->
  CallEvalLeaf a ∈ trace s0 \/ (a = t /\ level (region tk) <= 0).
Proof.
  intros Hcl Ht.
  assert (forall n k t', CallEvalLeaf a ∉ emitted progress n ++ climb_calls progress t k t')
    as Hwalk.
  { intros n k t' Hin. apply walk_calls in Hin.
    destruct Hin as [(b & ok & Heq)|(z & Heq)]; discriminate. }
  destruct (Z.ltb_spec 0 (level (region tk))) as [Hpos|Hle];
    [destruct (verdict_ambiguous_dec
                 (interval_verdict eval (tape tk) (region tk)).1) as [Hamb|Hamb]|].
  - rewrite (body_of_task_ambiguous eval max_err progress tk t s0 w0 Hpos Hamb).
    simpl. intros Hin. apply elem_of_app in Hin. destruct Hin as [Hin|Hin]; [left; exact Hin|].
    apply elem_of_cons in Hin. destruct Hin as [Hin|Hin]; [discriminate|].
    apply list_elem_of_fmap in Hin. destruct Hin as (j & Heq & _). discriminate.
  - destruct (body_of_task_finished eval max_err progress tk t s0 w0 Hcl Ht
                (or_intror Hamb)) as (_ & _ & _ & k & t' & Htr & _).
    rewrite Htr. intros Hin. apply elem_of_app in Hin.
    destruct Hin as [Hin|Hin]; [left; exact Hin|].
    apply elem_of_cons in Hin. destruct Hin as [Hin|Hin]; [|destruct (Hwalk _ _ _ Hin)].
    destruct (0 <? level (region tk)) eqn:Hlt; [discriminate|].
    apply Z.ltb_ge in Hlt. inversion Hin; subst. right. split; [reflexivity | exact Hlt].
  - destruct (body_of_task_finished eval max_err progress tk t s0 w0 Hcl Ht
                (or_introl Hle)) as (_ & _ & _ & k & t' & Htr & _).
    rewrite Htr. intros Hin. apply elem_of_app in Hin.
    destruct Hin as [Hin|Hin]; [left; exact Hin|].
    apply elem_of_cons in Hin. destruct Hin as [Hin|Hin]; [|destruct (Hwalk _ _ _ Hin)].
    destruct (0 <? level (region tk)) eqn:Hlt; [discriminate|].
    inversion Hin; subst. right. split; [reflexivity | exact Hle].
Qed.

(** A pass of a worker in a build: the cells that no task waits for keep
    their type, and a new call of [evalLeaf] is on the cell of a task that
    waited and leaves there the type of what [leaf_eval] answers. *)
Lemma body_step_types eval max_err progress fth i w (m : Machine) :
  machine_ok m -> threads m !! i = Some w ->
  let m' := body_step eval max_err progress fth i w m in
  (forall a, is_Some (heap (shared m) !! a) -> a ∉ targets (pending m) ->
             type_at (heap (shared m')) a = type_at (heap (shared m)) a) /\
  (forall a, CallEvalLeaf a ∈ trace (shared m') ->
     CallEvalLeaf a ∈ trace (shared m) \/
     exists tk nb c, tk ∈ pending m /\ target tk = Some a /\
       level (region tk) <= 0 /\
       type_at (heap (shared m')) a
       = type (leaf_eval (eval i) (tape tk) (region tk) nb c)).
Proof.
  intros Hok Hw. unfold body_step. simpl.
  rewrite run_body_eq.
  pose proof (take_task_summary (shared m) w)
    as (Hh & Htr & _ & _ & _ & _ & Hperm).
  destruct (take_task (shared m) w) as [[o s0] w0]. simpl in *.
  assert (forall s1, heap s1 = heap (shared m) ->
            (forall a, CallEvalLeaf a ∈ trace (offerWait fth s1) ->
                       CallEvalLeaf a ∈ trace s1) /\
            heap (offerWait fth s1) = heap (shared m)) as Hidle.
  { intros s1 Hs1. destruct fth; simpl; [|auto]. split; [|exact Hs1].
    intros a Hin. apply elem_of_app in Hin. destruct Hin as [Hin|Hin]; [exact Hin|].
    apply list_elem_of_singleton in Hin. discriminate. }
  destruct o as [tk|]; simpl; [destruct (target tk) as [t|] eqn:Ht; simpl|].
  - assert (tk ∈ pending m) as Hin.
    { rewrite (pending_lookup m i w Hw), Hperm. simpl.
      apply list_elem_of_here. }
    assert (t ∈ targets (pending m)) as Htp.
    { apply list_elem_of_omap. exists tk. split; assumption. }
    destruct (ok_pending _ _ _ Hok t Htp) as (Hex & Hkids & _).
    pose proof (ok_closed _ _ _ Hok) as Hcl.
    rewrite <- Hh in Hex, Hkids, Hcl.
    destruct (body_of_task_types (eval i) max_err progress tk t s0 w0 Hcl Hex Hkids)
      as [Hframe Hleaf].
    split.
    + intros a Ha Hnot. rewrite <- Hh. apply Hframe; [|rewrite Hh; exact Ha].
      intros ->. contradiction.
    + intros a Hcall.
      apply (body_of_task_leaf_call _ _ _ _ _ _ _ _ Hcl Hex) in Hcall.
      destruct Hcall as [Hold|[-> Hle]]; [left; rewrite <- Htr; exact Hold|].
      right. exists tk, (local_neighbors tk t (heap s0)), (cell_at (heap s0) t).
      split; [exact Hin|]. split; [exact Ht|]. split; [exact Hle|].
      apply Hleaf, Hle.
  - destruct (Hidle s0 Hh) as [H1 H2]. split.
    + intros a _ _. rewrite H2. reflexivity.
    + intros a Hcall. left. rewrite <- Htr. apply H1, Hcall.
  - destruct (Hidle s0 Hh) as [H1 H2]. split.
    + intros a _ _. rewrite H2. reflexivity.
    + intros a Hcall. left. rewrite <- Htr. apply H1, Hcall.
Qed.

(** A cell that was evaluated is in the heap and waits for no task. *)
Lemma accounted_evaluated (m : Machine) (a : Addr) :
  accounted m -> a ∈ evaluated (trace (shared m)) ->
  is_Some (heap (shared m) !! a) /\ a ∉ targets (pending m).
Proof.
  intros (Hnd & Hacc) Ha. split.
  - apply Hacc, elem_of_app. right. exact Ha.
  - apply NoDup_app in Hnd. destruct Hnd as (_ & Hdisj & _).
    intros Hin. exact (Hdisj a Hin Ha).
Qed.

(** *** Leaves are classified when [evalLeaf] classifies *)

Lemma leaves_classified_body eval max_err progress fth i w (m : Machine) :
  (forall e tp r nb c, type (leaf_eval e tp r nb c) <> Interval.UNKNOWN) ->
  machine_ok m -> leaves_classified m -> threads m !! i = Some w ->
  leaves_classified (body_step eval max_err progress fth i w m).
Proof.
  intros Hleaf Hok (Hacc & Hcls) Hw.
  split; [apply accounted_body; assumption|].
  destruct (body_step_types eval max_err progress fth i w m Hok Hw) as [Hframe Hnew].
  intros a Hcall. destruct (Hnew a Hcall) as [Hold|(tk & nb & c & _ & _ & _ & Hty)].
  - destruct (accounted_evaluated m a Hacc) as [Ha Hnot].
    { apply evaluated_calls. left. exact Hold. }
    rewrite (Hframe a Ha Hnot). apply Hcls, Hold.
  - rewrite Hty. apply Hleaf.
Qed.

Lemma build_run_leaves_classified eval region_ min_feature max_err workers cancel0
    cb fth sched :
  (forall e tp r nb c, type (leaf_eval e tp r nb c) <> Interval.UNKNOWN) ->
  leaves_classified
    (build_run eval region_ min_feature max_err workers cancel0 cb fth sched).
Proof.
  intros Hleaf. unfold build_run. apply exec_phases.
  - intros m H. exact H.
  - intros m i w Hok H Hw _. apply leaves_classified_body; assumption.
  - intros m i w (Hacc & H) Hw _. split; [apply accounted_exit; assumption | exact H].
  - apply build_start_ok.
  - split.
    + pose proof (build_run_accounted eval region_ min_feature max_err workers cancel0
                    cb fth []) as H. exact H.
    + intros a H. inversion H.
Qed.

(** *** The tree that a build follows *)

Lemma follows_tree_body eval e R max_err progress fth i w (m : Machine) :
  (forall j, eval j = e) ->
  (forall tp r nb nb' c c',
     type (leaf_eval e tp r nb c) = type (leaf_eval e tp r nb' c')) ->
  machine_ok m -> follows_tree e R m -> threads m !! i = Some w ->
  follows_tree e R (body_step eval max_err progress fth i w m).
Proof.
  intros Hconst Hleaf Hok (Hacc & Htask & Hint & Hlf) Hw.
  split; [apply accounted_body; assumption|].
  destruct (body_step_types eval max_err progress fth i w m Hok Hw) as [Hframe Hnew].
  assert (forall a, CallEvalLeaf a ∈ trace (shared m) ->
            exists tp r, task_of e R a = Some (tp, r) /\ level r <= 0 /\
              type_at (heap (shared (body_step eval max_err progress fth i w m))) a
              = type (leaf_eval e tp r neighbors_default new_cell)) as Hold.
  { intros a Hcall. destruct (Hlf a Hcall) as (tp & r & H1 & H2 & H3).
    exists tp, r. split; [exact H1|]. split; [exact H2|].
    destruct (accounted_evaluated m a Hacc) as [Ha Hnot].
    { apply evaluated_calls. left. exact Hcall. }
    rewrite (Hframe a Ha Hnot). exact H3. }
  assert (forall a, CallEvalLeaf a ∈ trace (shared (body_step eval max_err progress
                                                               fth i w m)) ->
            exists tp r, task_of e R a = Some (tp, r) /\ level r <= 0 /\
              type_at (heap (shared (body_step eval max_err progress fth i w m))) a
              = type (leaf_eval e tp r neighbors_default new_cell)) as Hleaves.
  { intros a Hcall. destruct (Hnew a Hcall) as [Hin|(tk & nb & c & Hin & Ht & Hle & Hty)].
    - apply Hold, Hin.
    - exists (tape tk), (region tk). split; [apply Htask; assumption|].
      split; [exact Hle|]. rewrite Hty, Hconst. apply Hleaf. }
  destruct (body_step_cases eval max_err progress fth i w m Hok Hw)
    as (w' & _ & _ & _ & _ & Hcase).
  set (m' := body_step eval max_err progress fth i w m) in *.
  destruct Hcase as [(_ & _ & Htr & nulls & _ & Hp)
                    |[(tk & t & k & t' & Ht & _ & Hp & _ & _ & Hkind & Htr & _)
                     |(tk & t & rest & Ht & _ & _ & Hpos & Hamb & Hp & Hp' & _ & _ & Htr)]].
  - (* no task *)
    split; [|split; [|exact Hleaves]].
    + intros tk a Hin. apply Htask. rewrite Hp. apply elem_of_app. right. exact Hin.
    + intros a v Hin. rewrite Htr in Hin. apply elem_of_app in Hin.
      destruct Hin as [Hin|Hin]; [apply Hint, Hin|].
      destruct fth; [apply list_elem_of_singleton in Hin; discriminate | inversion Hin].
  - (* a cell finished *)
    assert (tk ∈ pending m) as Htk by (rewrite Hp; apply list_elem_of_here).
    split; [|split; [|exact Hleaves]].
    + intros tk' a Hin. apply Htask. rewrite Hp. apply list_elem_of_further. exact Hin.
    + intros a v Hin. rewrite Htr in Hin. apply elem_of_app in Hin.
      destruct Hin as [Hin|Hin]; [apply Hint, Hin|].
      apply elem_of_cons in Hin. destruct Hin as [Hin|Hin].
      * destruct (0 <? level (region tk)) eqn:Hlt; [|discriminate].
        apply Z.ltb_lt in Hlt. inversion Hin; subst.
        exists (tape tk), (region tk). split; [apply Htask; assumption|].
        split; [exact Hlt|]. rewrite Hconst. reflexivity.
      * apply walk_calls in Hin.
        destruct Hin as [(b & ok & Heq)|(z & Heq)]; discriminate.
  - (* a cell divided *)
    assert (tk ∈ pending m) as Htk by (rewrite Hp; apply list_elem_of_here).
    pose proof (Htask tk t Htk Ht) as Htree.
    rewrite Hconst in Hamb, Hp'.
    split; [|split; [|exact Hleaves]].
    + intros tk' a Hin Ha. rewrite Hp' in Hin. apply elem_of_app in Hin.
      destruct Hin as [Hin|Hin].
      * apply list_elem_of_fmap in Hin. destruct Hin as (j & -> & Hj).
        apply elem_of_seq in Hj. simpl in Ha. inversion Ha; subst a. simpl.
        rewrite Htree.
        destruct (Z.ltb_spec 0 (level (region tk))) as [_|Hle]; [|lia].
        destruct (Nat.ltb_spec j children_size) as [_|Hge]; [|lia].
        simpl. rewrite Hamb. reflexivity.
      * apply Htask; [|exact Ha]. rewrite Hp. apply list_elem_of_further. exact Hin.
    + intros a v Hin. rewrite Htr in Hin. apply elem_of_app in Hin.
      destruct Hin as [Hin|Hin]; [apply Hint, Hin|].
      apply elem_of_cons in Hin. destruct Hin as [Hin|Hin].
      * inversion Hin; subst.
        exists (tape tk), (region tk). split; [exact Htree|].
        split; [exact Hpos|]. rewrite Hamb. reflexivity.
      * apply list_elem_of_fmap in Hin. destruct Hin as (j & Heq & _). discriminate.
Qed.

Lemma build_run_follows_tree (e : XTreeEvaluator) region_ min_feature max_err workers
    cancel0 cb fth sched :
  (forall tp r nb nb' c c',
     type (leaf_eval e tp r nb c) = type (leaf_eval e tp r nb' c')) ->
  follows_tree e (withResolution region_ min_feature)
    (build_run (fun _ => e) region_ min_feature max_err workers cancel0 cb fth sched).
Proof.
  intros Hleaf. unfold build_run. apply exec_phases.
  - intros m H. exact H.
  - intros m i w Hok H Hw _.
    apply (follows_tree_body (fun _ => e) e); auto.
  - intros m i w (Hacc & Htask & H) Hw _.
    split; [apply accounted_exit; assumption|]. split; [|exact H].
    intros tk a Hin. apply Htask. unfold exit_step in Hin.
    rewrite (pending_insert m i w _ _ Hw) in Hin.
    rewrite (pending_lookup m i w Hw). exact Hin.
  - apply build_start_ok.
  - split; [|split; [|split]].
    + exact (build_run_accounted (fun _ => e) region_ min_feature max_err workers
               cancel0 cb fth []).
    + intros tk a Hin Ha. rewrite build_start_pending in Hin.
      apply list_elem_of_singleton in Hin. subst tk. simpl in Ha.
      inversion Ha; subst. reflexivity.
    + intros a v H. inversion H.
    + intros a H. inversion H.
Qed.

(** The cells of a build that has dealt with its root, and their types,
    are those that [task_of] and [type_of] give. *)
Lemma build_run_shape (e : XTreeEvaluator) region_ min_feature max_err workers
    cancel0 cb fth sched :
  (forall tp r nb nb' c c',
     type (leaf_eval e tp r nb c) = type (leaf_eval e tp r nb' c')) ->
  let m := build_run (fun _ => e) region_ min_feature max_err workers cancel0
                     cb fth sched in
  let R := withResolution region_ min_feature in
  collects_wait (trace (shared m)) ->
  root_finished (trace (shared m)) ->
  (forall a, is_Some (heap (shared m) !! a) <-> is_Some (task_of e R a)) /\
  (forall a, type_at (heap (shared m)) a = type_of e R a).
Proof.
  intros Hleaf m R Hwait Hroot.
  destruct (build_run_follows_tree e region_ min_feature max_err workers cancel0
              cb fth sched Hleaf) as ((Hnd & Hacc) & Htask & Hint & Hlf).
  destruct (build_run_populated (fun _ => e) region_ min_feature max_err workers
              cancel0 cb fth sched Hwait Hroot) as (Hpop & _).
  pose proof (build_run_divided (fun _ => e) region_ min_feature max_err workers
                cancel0 cb fth sched) as Hdiv.
  pose proof (build_run_ok (fun _ => e) region_ min_feature max_err workers cancel0
                cb fth sched) as Hok.
  fold m R in Hnd, Hacc, Htask, Hint, Hlf, Hpop, Hdiv, Hok.
  assert (forall a, is_Some (heap (shared m) !! a) ->
            (exists tp r, task_of e R a = Some (tp, r) /\ 0 < level r /\
               CallEvalInterval a (of_verdict (interval_verdict e tp r).1)
                 ∈ trace (shared m)) \/
            (exists tp r, task_of e R a = Some (tp, r) /\ level r <= 0 /\
               type_at (heap (shared m)) a
               = type (leaf_eval e tp r neighbors_default new_cell))) as Hcell.
  { intros a Ha. destruct (Hpop a Ha) as (_ & Hev).
    apply evaluated_calls in Hev. destruct Hev as [Hl|(v & Hi)].
    - right. apply Hlf, Hl.
    - left. destruct (Hint a v Hi) as (tp & r & H1 & H2 & ->). eauto. }
  assert (forall a, is_Some (heap (shared m) !! a) <-> is_Some (task_of e R a))
    as Hdom.
  { intros a. split.
    - intros Ha. destruct (Hcell a Ha) as [(tp & r & H & _)|(tp & r & H & _)];
        rewrite H; eauto.
    - induction a as [|j p IH]; intros Ha.
      + apply Hacc. apply elem_of_app. right. apply evaluated_calls.
        destruct Hroot as [H|[H|[H|H]]]; [left; exact H | right; eauto | right; eauto|].
        right. exists Interval.AMBIGUOUS.
        apply (build_run_collected_ambiguous (fun _ => e) region_ min_feature
                 max_err workers cancel0 cb fth sched [] true H).
      + simpl in Ha. destruct (task_of e R p) as [[tp r]|] eqn:Hp;
          [|destruct Ha; discriminate].
        destruct (Z.ltb_spec 0 (level r)) as [Hpos|Hle];
          [|simpl in Ha; destruct Ha; discriminate].
        destruct (Nat.ltb_spec j children_size) as [Hj|Hge];
          [|simpl in Ha; destruct Ha; discriminate].
        simpl in Ha.
        destruct (interval_verdict e tp r).1 eqn:Hv;
          [destruct Ha; discriminate | destruct Ha; discriminate |].
        assert (is_Some (heap (shared m) !! p)) as Hin by (apply IH; eauto).
        apply Hdiv. split; [exact Hj|].
        destruct (Hcell p Hin) as [(tp' & r' & H1 & _ & H3)|(tp' & r' & H1 & H2 & _)].
        * rewrite Hp in H1. inversion H1; subst. rewrite Hv in H3. exact H3.
        * rewrite Hp in H1. inversion H1; subst. lia. }
  split; [exact Hdom|].
  intros a. unfold type_of.
  destruct (decide (is_Some (heap (shared m) !! a))) as [Ha|Hno].
  - destruct (Hcell a Ha) as [(tp & r & H1 & H2 & H3)|(tp & r & H1 & H2 & H3)];
      rewrite H1.
    + destruct (Z.ltb_spec 0 (level r)) as [_|Hle]; [|lia].
      apply (ok_evaluated _ _ _ Hok a _ H3).
    + destruct (Z.ltb_spec 0 (level r)) as [Hpos|_]; [lia|]. exact H3.
  - assert (task_of e R a = None) as ->.
    { apply eq_None_not_Some. intros H. apply Hno, Hdom, H. }
    unfold type_at, cell_at.
    assert (heap (shared m) !! a = None) as -> by (apply eq_None_not_Some; exact Hno).
    reflexivity.
Qed.

End ShapeFacts.

(** *** The walk towards the root *)

Section WalkUpFacts.

Context {P : Params}.

Local Abbreviation Heap := (gmap Addr (Cell Leaf)).

(** *** The cells that a walk towards the root passes *)

(** A cell on the walk from [t] has its parent on the walk, or the walk
    stopped on the parent. *)
Lemma walk_parent (t : Addr) : forall k j p,
  (j :: p) ∈ t :: take k (ancestors t) ->
  p ∈ take k (ancestors t) \/ ancestors t !! k = Some p.
Proof.
  induction t as [|i q IH]; intros k j p Hin.
  - simpl in Hin. rewrite take_nil in Hin.
    apply list_elem_of_singleton in Hin. discriminate.
  - apply elem_of_cons in Hin. destruct Hin as [Heq|Hin].
    + inversion Heq; subst. destruct k as [|k]; [right; reflexivity|].
      left. simpl. apply list_elem_of_here.
    + destruct k as [|k]; [inversion Hin|]. simpl in Hin.
      destruct (IH k j p Hin) as [H|H].
      * left. simpl. apply list_elem_of_further. exact H.
      * right. exact H.
Qed.

Lemma ancestors_length (t : Addr) : length (ancestors t) = length t.
Proof. induction t as [|i q IH]; simpl; [reflexivity | f_equal; exact IH]. Qed.

Lemma ancestors_lookup_length (t : Addr) : forall n a,
  ancestors t !! n = Some a -> (length a + S n = length t)%nat.
Proof.
  induction t as [|i q IH]; intros n a Hn; [inversion Hn|].
  destruct n as [|n]; simpl in Hn.
  - inversion Hn; subst. simpl. lia.
  - apply IH in Hn. simpl. lia.
Qed.

(** A walk that stops on a cell has not passed the root. *)
Lemma walk_below_root (t p : Addr) (k : nat) :
  ancestors t !! k = Some p -> [] ∉ t :: take k (ancestors t).
Proof.
  intros Hk Hin.
  pose proof (ancestors_lookup_length t k p Hk) as Hlen.
  apply elem_of_cons in Hin. destruct Hin as [<-|Hin]; [simpl in Hlen; lia|].
  apply list_elem_of_lookup in Hin. destruct Hin as (n & Hn).
  pose proof (lookup_lt_Some _ _ _ Hn) as Hlt.
  rewrite length_take in Hlt.
  rewrite lookup_take_lt in Hn by lia.
  apply ancestors_lookup_length in Hn. simpl in Hn. lia.
Qed.

(** The cells that a pass finishes when it does not divide its cell. *)
Lemma finished_pass eval (tk : Task) (t : Addr) progress (k : nat) (t' : option Addr) :
  level (region tk) <= 0 \/
    (interval_verdict eval (tape tk) (region tk)).1 <> VAmbiguous ->
  finished
    ((if 0 <? level (region tk)
      then CallEvalInterval t
             (of_verdict (interval_verdict eval (tape tk) (region tk)).1)
      else CallEvalLeaf t)
     :: emitted progress
          (if 0 <? level (region tk)
           then Ticks.level_ticks N (level (region tk)) else 1)
     ++ climb_calls progress t k t')
  = t :: take k (ancestors t).
Proof.
  intros Hv. change (?c :: ?l) with ([c] ++ l).
  rewrite finished_app, (proj1 (walk_reports progress _ t k t')).
  assert (finished
            [if 0 <? level (region tk)
             then CallEvalInterval t
                    (of_verdict (interval_verdict eval (tape tk) (region tk)).1)
             else CallEvalLeaf t] = [t]) as ->; [|reflexivity].
  destruct (Z.ltb_spec 0 (level (region tk))) as [Hpos|Hle]; [|reflexivity].
  destruct Hv as [Hle|Hv]; [lia|].
  destruct ((interval_verdict eval (tape tk) (region tk)).1);
    [reflexivity | reflexivity | congruence].
Qed.

(** The calls of a pass that does not divide its cell hold no interval
    evaluation that answers ambiguous. *)
Lemma ambiguous_pass eval (tk : Task) (t p : Addr) progress (k : nat)
    (t' : option Addr) :
  level (region tk) <= 0 \/
    (interval_verdict eval (tape tk) (region tk)).1 <> VAmbiguous ->
  CallEvalInterval p Interval.AMBIGUOUS
  ∉ (if 0 <? level (region tk)
     then CallEvalInterval t
            (of_verdict (interval_verdict eval (tape tk) (region tk)).1)
     else CallEvalLeaf t)
    :: emitted progress
         (if 0 <? level (region tk)
          then Ticks.level_ticks N (level (region tk)) else 1)
    ++ climb_calls progress t k t'.
Proof.
  intros Hv Hin. apply elem_of_cons in Hin. destruct Hin as [Hin|Hin].
  - destruct (Z.ltb_spec 0 (level (region tk))) as [Hpos|Hle]; [|discriminate].
    destruct Hv as [Hle|Hv]; [lia|].
    destruct ((interval_verdict eval (tape tk) (region tk)).1);
      [discriminate | discriminate | congruence].
  - apply walk_calls in Hin. destruct Hin as [(b & ok & Heq)|(z & Heq)]; discriminate.
Qed.

(** A cell that is finished is in the heap. *)
Lemma finished_in_heap (m : Machine) (a : Addr) :
  finished_once m -> a ∈ finished (trace (shared m)) ->
  is_Some (heap (shared m) !! a).
Proof.
  intros ((_ & Hacc) & _ & Hamb & _) Ha. apply Hacc, elem_of_app. right.
  apply evaluated_calls. apply finished_elem in Ha.
  destruct Ha as [Ha|[(v & _ & Ha)|Ha]]; [left; exact Ha | right; eauto |].
  right. exists Interval.AMBIGUOUS. apply (Hamb a true Ha).
Qed.

(** *** Collection follows the last child *)

Lemma prompt_build_body eval max_err progress fth i w (m : Machine) :
  machine_ok m -> prompt_build m -> threads m !! i = Some w ->
  prompt_build (body_step eval max_err progress fth i w m).
Proof.
  intros Hok (Hfo & Hcwd) Hw.
  split; [apply finished_once_body; assumption|].
  destruct (body_step_cases eval max_err progress fth i w m Hok Hw)
    as (w' & _ & _ & _ & _ & Hcase).
  set (m' := body_step eval max_err progress fth i w m) in *.
  intros Hprompt.
  assert (exists calls, trace (shared m') = trace (shared m) ++ calls) as (calls & Hext).
  { destruct Hcase as [(_ & _ & Htr & _)
                      |[(tk & t & k & t' & _ & _ & _ & _ & _ & _ & Htr & _)
                       |(tk & t & rest & _ & _ & _ & _ & _ & _ & _ & _ & _ & Htr)]];
      rewrite Htr; eauto. }
  assert (collected_when_done m) as HJ.
  { apply Hcwd. rewrite Hext in Hprompt.
    apply (collects_prompt_prefix _ _ Hprompt). }
  clear Hext calls.
  destruct Hcase as [(_ & _ & Htr & _)
                    |[(tk & t & k & t' & Htk & Ht & Hp & _ & _ & Hv & Htr & Hk)
                     |(tk & t & rest & Htk & Ht & Hkids & Hpos & Hamb & _ & _ & _ & _
                       & Htr)]].
  - (* no task *)
    intros p Hpa Hall. rewrite Htr in Hpa, Hall |- *.
    assert (finished match fth with Some _ => [CallOfferWait] | None => [] end = [])
      as Hf by (destruct fth; reflexivity).
    rewrite finished_app, Hf, app_nil_r in Hall |- *.
    apply HJ; [|exact Hall].
    apply elem_of_app in Hpa. destruct Hpa as [Hpa|Hpa]; [exact Hpa|].
    destruct fth; [apply list_elem_of_singleton in Hpa; discriminate | inversion Hpa].
  - (* a cell finished *)
    intros p Hpa Hall. rewrite Htr in Hpa, Hall |- *.
    rewrite finished_app, (finished_pass _ _ _ _ _ _ Hv) in Hall |- *.
    apply elem_of_app in Hpa. destruct Hpa as [Hpa|Hpa];
      [|destruct (ambiguous_pass _ _ _ _ _ _ _ Hv Hpa)].
    destruct (decide (Forall (fun j => (j :: p) ∈ finished (trace (shared m)))
                             (seq 0 children_size))) as [Hold|Hnew].
    + apply elem_of_app. left. apply HJ; [exact Hpa|].
      intros j Hj. rewrite Forall_forall in Hold. apply Hold, elem_of_seq. lia.
    + apply not_Forall_Exists in Hnew; [|intros j; apply _].
      apply Exists_exists in Hnew. destruct Hnew as (j & Hj & Hnot).
      apply elem_of_seq in Hj. simpl in Hnot.
      pose proof (Hall j ltac:(lia)) as Hin.
      apply elem_of_app in Hin. destruct Hin as [Hin|Hin]; [contradiction|].
      apply elem_of_app. right.
      destruct (walk_parent t k j p Hin) as [Hup|Hstop];
        [apply list_elem_of_further; exact Hup|].
      exfalso.
      destruct t' as [q|].
      2:{ simpl in Hk. subst k. rewrite lookup_ge_None_2 in Hstop; [discriminate|].
          apply Nat.le_refl. }
      simpl in Hk.
      pose proof (eq_trans (eq_sym Hk) Hstop) as Hqp. inversion Hqp; subst q.
      unfold climb_calls in Htr. rewrite !app_comm_cons, !app_assoc in Htr.
      destruct (Hprompt _ [] p Htr) as (j0 & Hj0 & Hout).
      apply Hout.
      pose proof (Hall j0 Hj0) as Hin0.
      rewrite <- !app_assoc, <- !app_comm_cons.
      rewrite finished_app.
      change (?c :: ?l) with ([c] ++ l).
      rewrite finished_app, finished_app.
      assert (finished
                [if 0 <? level (region tk)
                 then CallEvalInterval t
                        (of_verdict (interval_verdict (eval i) (tape tk) (region tk)).1)
                 else CallEvalLeaf t] = [t]) as ->.
      { destruct (Z.ltb_spec 0 (level (region tk))) as [Hpos|Hle]; [|reflexivity].
        destruct Hv as [Hle|Hv]; [lia|].
        destruct ((interval_verdict (eval i) (tape tk) (region tk)).1);
          [reflexivity | reflexivity | congruence]. }
      pose proof (walk_reports progress
                    (if 0 <? level (region tk)
                     then Ticks.level_ticks N (level (region tk)) else 1)
                    t k None) as [Hwalk _].
      unfold climb_calls in Hwalk. rewrite app_nil_r in Hwalk.
      rewrite finished_app in Hwalk. rewrite Hwalk.
      exact Hin0.
  - (* a cell divided *)
    intros p Hpa Hall. rewrite Htr in Hpa, Hall |- *.
    rewrite finished_app in Hall |- *.
    change (CallEvalInterval t Interval.AMBIGUOUS :: map (CallGet t) (seq 0 children_size))
      with ([CallEvalInterval t Interval.AMBIGUOUS]
            ++ map (CallGet t) (seq 0 children_size)) in Hall |- *.
    rewrite finished_app, finished_gets in Hall |- *. simpl in Hall |- *.
    rewrite app_nil_r in Hall |- *.
    apply elem_of_app in Hpa. destruct Hpa as [Hpa|Hpa]; [apply HJ; assumption|].
    apply elem_of_cons in Hpa. destruct Hpa as [Hpa|Hpa].
    + inversion Hpa; subst p. exfalso.
      pose proof (Hall O children_size_pos) as Hin.
      apply (finished_in_heap m _ Hfo) in Hin.
      rewrite Hkids in Hin. destruct Hin; discriminate.
    + apply list_elem_of_fmap in Hpa. destruct Hpa as (j & Heq & _). discriminate.
Qed.

Lemma build_run_prompt eval region_ min_feature max_err workers cancel0 cb fth sched :
  prompt_build
    (build_run eval region_ min_feature max_err workers cancel0 cb fth sched).
Proof.
  unfold build_run. apply exec_phases.
  - intros m H. exact H.
  - intros m i w Hok H Hw _. apply prompt_build_body; assumption.
  - intros m i w ((Hacc & Hdiv & Hamb & Hfin) & H) Hw _. split; [|exact H].
    split; [apply accounted_exit; assumption|]. split; [exact Hdiv|].
    split; [exact Hamb | exact Hfin].
  - apply build_start_ok.
  - split.
    + exact (build_run_finished_once eval region_ min_feature max_err workers cancel0
               cb fth []).
    + intros _ p Hp. inversion Hp.
Qed.

End WalkUpFacts.

(** *** The root is dealt with *)

Section LiveFacts.

Context {P : Params}.

Local Abbreviation Heap := (gmap Addr (Cell Leaf)).

Local Arguments alloc_children : simpl never.

(** *** [done] follows the root *)

(** A walk that goes back to the head of the loop has not dealt with the
    root, and did not start on it. *)
Lemma finish_continue eval max_err progress can t r tp s :
  (finish eval max_err progress can t r tp s).2 = Continue ->
  t <> [] /\
  ([] ∈ finished (trace (finish eval max_err progress can t r tp s).1) ->
   [] ∈ finished (trace s)).
Proof.
  rewrite finish_eq. simpl.
  destruct (climb eval max_err progress t r tp
              (tick progress (if can then Ticks.level_ticks N (level r) else 1) s))
    as [t' s'] eqn:Hc.
  apply climb_trace in Hc. destruct Hc as (k & Htr & Hk). simpl.
  destruct t' as [q|]; [|discriminate]. intros _.
  pose proof (walk_below_root t q k Hk) as Hbelow.
  split.
  - intros ->. destruct k; discriminate.
  - rewrite Htr, tick_trace, <- app_assoc, finished_app.
    rewrite (proj1 (walk_reports progress _ t k (Some q))).
    intros Hin. apply elem_of_app in Hin. destruct Hin as [Hin|Hin]; [exact Hin|].
    exfalso. apply Hbelow. apply list_elem_of_further. exact Hin.
Qed.

Lemma body_of_task_continue eval max_err progress tk t s0 w0 :
  (body_of_task eval max_err progress tk t s0 w0).2 = Continue ->
  [] ∈ finished (trace (body_of_task eval max_err progress tk t s0 w0).1.1) ->
  [] ∈ finished (trace s0).
Proof.
  unfold body_of_task.
  destruct (0 <? level (region tk)).
  - set (s1 := (evalInterval eval (tape tk) (region tk) t s0).1).
    assert (trace s1 = trace s0 ++
              [CallEvalInterval t
                 (of_verdict (interval_verdict eval (tape tk) (region tk)).1)])
      as Htr by (unfold s1; rewrite evalInterval_eq; reflexivity).
    assert (forall tp,
      (finish eval max_err progress true t (region tk) tp s1).2 = Continue ->
      [] ∈ finished (trace (finish eval max_err progress true t (region tk) tp s1).1) ->
      [] ∈ finished (trace s0)) as Hfin.
    { intros tp Hfl Hin.
      destruct (finish_continue eval max_err progress true t (region tk) tp s1 Hfl)
        as [Hne Hold].
      apply Hold in Hin. rewrite Htr, finished_app in Hin.
      apply elem_of_app in Hin. destruct Hin as [Hin|Hin]; [exact Hin|].
      exfalso. apply finished_elem in Hin.
      destruct Hin as [Hin|[(v & _ & Hin)|Hin]];
        apply list_elem_of_singleton in Hin; inversion Hin; congruence. }
    destruct (interval_verdict eval (tape tk) (region tk)).1 eqn:Hv; simpl;
      [apply Hfin | apply Hfin |].
    intros _. rewrite push_children_spec. simpl.
    rewrite finished_app, finished_gets, app_nil_r, Htr, finished_app.
    simpl. rewrite app_nil_r. auto.
  - simpl.
    set (s1 := evalLeaf eval (tape tk) (region tk)
                        (local_neighbors tk t (heap s0)) t s0).
    intros Hfl Hin.
    destruct (finish_continue eval max_err progress false t (region tk) (tape tk)
                s1 Hfl) as [Hne Hold].
    apply Hold in Hin. unfold s1 in Hin. simpl in Hin.
    rewrite finished_app in Hin.
    apply elem_of_app in Hin. destruct Hin as [Hin|Hin]; [exact Hin|].
    apply list_elem_of_singleton in Hin. congruence.
Qed.

Lemma run_body_continue eval max_err progress fth s w :
  (run_body eval max_err progress fth s w).2 = Continue ->
  [] ∈ finished (trace (run_body eval max_err progress fth s w).1.1) ->
  [] ∈ finished (trace s).
Proof.
  rewrite run_body_eq.
  pose proof (take_task_trace s w) as Htr.
  destruct (take_task s w) as [[o s0] w0]. simpl in Htr.
  assert ([] ∈ finished (trace (offerWait fth s0)) -> [] ∈ finished (trace s)) as Hidle.
  { rewrite <- Htr. destruct fth; simpl; [|auto].
    rewrite finished_app. simpl. rewrite app_nil_r. auto. }
  destruct o as [tk|]; simpl; [destruct (target tk) as [t|]; simpl|].
  - rewrite <- Htr. apply body_of_task_continue.
  - intros _. exact Hidle.
  - intros _. exact Hidle.
Qed.

Lemma run_pass_root_done eval max_err progress fth s w :
  ([] ∈ finished (trace s) -> done s = true) ->
  [] ∈ finished (trace (run_pass eval max_err progress fth s w).1) ->
  done (run_pass eval max_err progress fth s w).1 = true.
Proof.
  intros Hinv. unfold run_pass.
  destruct (negb (done s) && negb (cancel s)); [|reflexivity].
  pose proof (run_body_continue eval max_err progress fth s w) as Hcont.
  pose proof (run_body_frame eval max_err progress fth s w)
    as ((Hd & _) & _ & Hflow).
  destruct (run_body eval max_err progress fth s w) as [[s' w'] fl].
  simpl in *. destruct fl; [|reflexivity | congruence].
  intros Hin. change (done s' = true). rewrite Hd.
  apply Hinv, Hcont; [reflexivity | exact Hin].
Qed.

Lemma build_run_root_done eval region_ min_feature max_err workers cancel0 cb fth sched :
  root_done (build_run eval region_ min_feature max_err workers cancel0 cb fth sched).
Proof.
  unfold build_run. apply exec_invariant.
  - intros e m Hinv.
    destruct (step_cases eval (to_float max_err)
                (build_watcher region_ min_feature cb) fth e m)
      as [->|[(_&_&->)|(i&w&_&_&Hw&_&->)]]; [exact Hinv | exact Hinv |].
    unfold root_done. simpl. apply run_pass_root_done. exact Hinv.
  - intros H. inversion H.
Qed.

(** *** While the root waits, a task waits *)

Lemma build_run_root_cell eval region_ min_feature max_err workers cancel0 cb fth sched :
  is_Some (heap (shared (build_run eval region_ min_feature max_err workers cancel0
                                   cb fth sched)) !! []).
Proof.
  unfold build_run.
  apply (exec_phases eval (to_float max_err) (build_watcher region_ min_feature cb)
           fth (fun m => is_Some (heap (shared m) !! []))).
  - intros m H. exact H.
  - intros m i w Hok H Hw _.
    destruct (body_step_summary eval (to_float max_err)
                (build_watcher region_ min_feature cb) fth i w m Hok Hw)
      as (w' & _ & _ & _ & _ & Hcase).
    destruct Hcase as [(Hh & _)
                      |[(tk & t & k & t' & _ & _ & _ & _ & Hd & _)
                       |(tk & t & tp & nb & rest & _ & _ & _ & _ & _ & _ & _ & Hd & _)]].
    + rewrite Hh. exact H.
    + apply Hd, H.
    + apply Hd. left. exact H.
  - intros m i w H _ _. exact H.
  - apply build_start_ok.
  - apply build_start_heap. reflexivity.
Qed.

(** In a build that is not over, in which [collectChildren] answers false
    only while a child is not finished, some task waits. *)
Lemma build_run_work_left eval region_ min_feature max_err workers cancel0 cb fth sched :
  (forall r j, (j < children_size)%nat -> level (subdivide r j) = level r - 1) ->
  let m := build_run eval region_ min_feature max_err workers cancel0 cb fth sched in
  collects_prompt (trace (shared m)) ->
  done (shared m) = false ->
  pending m <> [].
Proof.
  intros Hsub m Hprompt Hdone.
  destruct (build_run_prompt eval region_ min_feature max_err workers cancel0
              cb fth sched) as (((Hnd & Hacc) & Hdiv & _) & HJ).
  pose proof (build_run_root_done eval region_ min_feature max_err workers cancel0
                cb fth sched) as Hroot.
  destruct (build_run_levels eval region_ min_feature max_err workers cancel0
              cb fth sched Hsub) as (_ & Hdeep & _).
  pose proof (build_run_root_cell eval region_ min_feature max_err workers cancel0
                cb fth sched) as Hcell.
  fold m in Hnd, Hacc, Hdiv, HJ, Hroot, Hdeep, Hcell.
  specialize (HJ Hprompt).
  set (D := Z.to_nat (Z.max 0 (level (withResolution region_ min_feature)))).
  assert (forall n a, is_Some (heap (shared m) !! a) ->
            a ∉ finished (trace (shared m)) ->
            (D - length a < n)%nat -> pending m <> []) as Hdescent.
  { induction n as [|n IH]; intros a Ha Hnot Hn; [lia|].
    apply Hacc in Ha. apply elem_of_app in Ha. destruct Ha as [Ha|Ha].
    { intros Hnil. rewrite Hnil in Ha. inversion Ha. }
    apply evaluated_calls in Ha. destruct Ha as [Ha|(v & Ha)].
    { exfalso. apply Hnot, finished_elem. left. exact Ha. }
    assert (v = Interval.AMBIGUOUS \/ v <> Interval.AMBIGUOUS) as [->|Hv]
      by (destruct v; auto; right; discriminate).
    2:{ exfalso. apply Hnot, finished_elem. right. left. eauto. }
    destruct (decide (Forall (fun j => (j :: a) ∈ finished (trace (shared m)))
                             (seq 0 children_size))) as [Hall|Hsome].
    { exfalso. apply Hnot, HJ; [exact Ha|].
      intros j Hj. rewrite Forall_forall in Hall. apply Hall, elem_of_seq. lia. }
    apply not_Forall_Exists in Hsome; [|intros j; apply _].
    apply Exists_exists in Hsome. destruct Hsome as (j & Hj & Hout).
    apply elem_of_seq in Hj. simpl in Hout.
    assert (is_Some (heap (shared m) !! (j :: a))) as Hkid.
    { apply Hdiv. split; [lia | exact Ha]. }
    pose proof (Hdeep _ Hkid) as Hd. unfold depth in Hd. simpl length in *.
    apply (IH (j :: a) Hkid Hout). simpl. unfold D. lia. }
  apply (Hdescent (S D) [] Hcell); [|simpl; lia].
  intros Hin. rewrite (Hroot Hin) in Hdone. discriminate.
Qed.

End LiveFacts.

(** *** Rounds of passes *)

Section RoundFacts.

Context {P : Params}.

Local Abbreviation Heap := (gmap Addr (Cell Leaf)).

(** *** The record of calls only grows *)

Lemma step_extends eval max_err progress fth e (m : Machine) :
  extends (shared m) (shared (step eval max_err progress fth e m)).
Proof.
  destruct (step_cases eval max_err progress fth e m)
    as [->|[(_&_&->)|(i&w&_&_&_&_&->)]].
  - apply extends_refl.
  - exists []. simpl. rewrite app_nil_r. reflexivity.
  - apply run_pass_extends.
Qed.

Lemma exec_extends eval max_err progress fth sched : forall m : Machine,
  extends (shared m) (shared (exec eval max_err progress fth sched m)).
Proof.
  induction sched as [|e rest IH]; intros m; simpl; [apply extends_refl|].
  eapply extends_trans; [apply step_extends | apply IH].
Qed.

Lemma build_run_extends eval region_ min_feature max_err workers cancel0 cb fth
    sched more :
  extends
    (shared (build_run eval region_ min_feature max_err workers cancel0 cb fth sched))
    (shared (build_run eval region_ min_feature max_err workers cancel0 cb fth
                       (sched ++ more))).
Proof. rewrite build_run_app. apply exec_extends. Qed.

Lemma evaluated_grows eval region_ min_feature max_err workers cancel0 cb fth
    sched more :
  (length (evaluated (trace (shared (build_run eval region_ min_feature max_err
                                               workers cancel0 cb fth sched))))
   <= length (evaluated (trace (shared (build_run eval region_ min_feature max_err
                                                  workers cancel0 cb fth
                                                  (sched ++ more))))))%nat.
Proof.
  destruct (build_run_extends eval region_ min_feature max_err workers cancel0
              cb fth sched more) as (calls & ->).
  rewrite evaluated_app, length_app. lia.
Qed.

Lemma build_run_done_stays eval region_ min_feature max_err workers cancel0 cb fth
    sched more :
  done (shared (build_run eval region_ min_feature max_err workers cancel0 cb fth
                          sched)) = true ->
  done (shared (build_run eval region_ min_feature max_err workers cancel0 cb fth
                          (sched ++ more))) = true.
Proof. intros H. rewrite build_run_app. apply exec_done_stays, H. Qed.

Lemma build_run_not_cancelled eval region_ min_feature max_err workers cb fth sched :
  SetCancel ∉ sched ->
  cancel (shared (build_run eval region_ min_feature max_err workers false cb fth
                            sched)) = false.
Proof.
  intros Hno. apply not_true_is_false. intros H.
  apply build_run_cancel in H. destruct H as [H|H]; [discriminate | contradiction].
Qed.

(** *** The cells of a build are those of a tree of bounded depth *)

Lemma evaluated_bounded eval region_ min_feature max_err workers cancel0 cb fth sched :
  (forall r j, (j < children_size)%nat -> level (subdivide r j) = level r - 1) ->
  (length (evaluated (trace (shared (build_run eval region_ min_feature max_err
                                               workers cancel0 cb fth sched))))
   <= length (cells_down_to
                (Z.to_nat (Z.max 0 (level (withResolution region_ min_feature))))))%nat.
Proof.
  intros Hsub.
  set (m := build_run eval region_ min_feature max_err workers cancel0 cb fth sched).
  pose proof (build_run_accounted eval region_ min_feature max_err workers cancel0
                cb fth sched) as (Hnd & Hacc).
  pose proof (build_run_divided eval region_ min_feature max_err workers cancel0
                cb fth sched) as Hdiv.
  pose proof (build_run_ok eval region_ min_feature max_err workers cancel0
                cb fth sched) as Hok.
  destruct (build_run_levels eval region_ min_feature max_err workers cancel0
              cb fth sched Hsub) as (_ & Hdeep & _).
  fold m in Hnd, Hacc, Hdiv, Hok, Hdeep.
  apply NoDup_app in Hnd. destruct Hnd as (_ & _ & Hnde).
  apply submseteq_length, NoDup_submseteq; [exact Hnde|].
  intros a Ha.
  assert (is_Some (heap (shared m) !! a)) as Hin.
  { apply Hacc, elem_of_app. right. exact Ha. }
  apply cells_down_to_elem; [apply (heap_indices m Hok Hdiv a Hin)|].
  specialize (Hdeep a Hin). unfold depth in Hdeep. lia.
Qed.

(** *** A pass finds a task or changes nothing *)

Lemma pass_idle_or_evaluates eval region_ min_feature max_err workers cancel0 cb fth
    sched i :
  let m := build_run eval region_ min_feature max_err workers cancel0 cb fth sched in
  let m' := build_run eval region_ min_feature max_err workers cancel0 cb fth
                      (sched ++ [Pass i]) in
  done (shared m) = false -> cancel (shared m) = false ->
  (exists t, evaluated (trace (shared m')) = evaluated (trace (shared m)) ++ [t]) \/
  (items (tasks (shared m')) = items (tasks (shared m)) /\
   map local (threads m') = map local (threads m) /\
   evaluated (trace (shared m')) = evaluated (trace (shared m))).
Proof.
  intros m m' Hd Hc. unfold m'. rewrite build_run_app. fold m. simpl.
  pose proof (build_run_ok eval region_ min_feature max_err workers cancel0
                cb fth sched) as Hok.
  pose proof (build_run_failed eval region_ min_feature max_err workers cancel0
                cb fth sched) as Hf.
  pose proof (build_run_returned_done eval region_ min_feature max_err workers
                cancel0 cb fth sched) as Hrd.
  pose proof (build_run_targets eval region_ min_feature max_err workers cancel0
                cb fth sched) as Htargets.
  cbv zeta in Htargets. fold m in Hok, Hf, Hrd, Htargets.
  destruct (threads m !! i) as [w|] eqn:Hw.
  2:{ right. unfold step. rewrite Hf, Hw. auto. }
  assert (returned w = false) as Hr.
  { destruct (returned w) eqn:Hr; [|reflexivity].
    rewrite (Hrd i w Hw Hr) in Hd. discriminate. }
  assert (forall tk, tk ∈ pending m ->
            (exists rest, local w = tk :: rest) \/
              (local w = [] /\ exists rest, items (tasks (shared m)) = tk :: rest) ->
            exists t,
              evaluated (trace (shared (step eval (to_float max_err)
                                          (build_watcher region_ min_feature cb) fth
                                          (Pass i) m)))
              = evaluated (trace (shared m)) ++ [t]) as Hgo.
  { intros tk Hin Hhas. destruct (Htargets tk Hin) as (t & Ht). exists t.
    apply (pass_evaluates _ _ _ _ i w tk t m); assumption. }
  destruct (local w) as [|tk rest] eqn:Hl;
    [destruct (items (tasks (shared m))) as [|tk rest] eqn:Hi|].
  - right. rewrite (step_pass _ _ _ _ i m w Hf Hw Hr).
    rewrite idle_pass by assumption. simpl.
    split; [destruct fth; simpl; exact Hi|].
    split; [rewrite list_insert_id by exact Hw; reflexivity|].
    destruct fth; simpl; [|reflexivity].
    rewrite evaluated_app. simpl. apply app_nil_r.
  - left. apply (Hgo tk).
    + unfold pending. rewrite Hi. apply list_elem_of_here.
    + right. split; [reflexivity | eauto].
  - left. apply (Hgo tk).
    + unfold pending. apply elem_of_app. right.
      apply list_elem_of_In, in_concat. exists (local w). split.
      * apply in_map, list_elem_of_In, (list_elem_of_lookup_2 _ i). exact Hw.
      * rewrite Hl. left. reflexivity.
    + left. eauto.
Qed.

(** Passes that find no task leave the stacks as they are. *)
Lemma quiet_passes eval region_ min_feature max_err workers cb fth sched pre :
  let m := build_run eval region_ min_feature max_err workers false cb fth sched in
  let m1 := build_run eval region_ min_feature max_err workers false cb fth
                      (sched ++ pre) in
  SetCancel ∉ sched -> SetCancel ∉ pre ->
  done (shared m1) = false ->
  (length (evaluated (trace (shared m))) < length (evaluated (trace (shared m1))))%nat
  \/ (items (tasks (shared m1)) = items (tasks (shared m)) /\
      map local (threads m1) = map local (threads m)).
Proof.
  simpl. intros Hno. induction pre as [|e pre IH] using rev_ind; intros Hpre Hd.
  - right. rewrite app_nil_r. auto.
  - apply not_elem_of_app in Hpre. destruct Hpre as [Hpre He].
    rewrite app_assoc in Hd |- *.
    assert (done (shared (build_run eval region_ min_feature max_err workers false
                                    cb fth (sched ++ pre))) = false) as Hd1.
    { apply not_true_is_false. intros H.
      rewrite (build_run_done_stays _ _ _ _ _ _ _ _ _ [e] H) in Hd. discriminate. }
    destruct (IH Hpre Hd1) as [Hmore|(Hi & Hl)].
    + left. eapply Nat.lt_le_trans; [exact Hmore | apply evaluated_grows].
    + destruct e as [i|]; [|exfalso; apply He, list_elem_of_here].
      destruct (pass_idle_or_evaluates eval region_ min_feature max_err workers
                  false cb fth (sched ++ pre) i Hd1)
        as [(t & Ht)|(Hi' & Hl' & _)].
      * apply build_run_not_cancelled. intros Hin. apply elem_of_app in Hin. tauto.
      * left. rewrite Ht, length_app. simpl.
        pose proof (evaluated_grows eval region_ min_feature max_err workers false
                      cb fth sched pre). lia.
      * right. split; congruence.
Qed.

(** In a build with a task that waits, some worker has a task at hand. *)
Lemma task_at_hand eval region_ min_feature max_err workers cancel0 cb fth sched :
  let m := build_run eval region_ min_feature max_err workers cancel0 cb fth sched in
  (0 < workers)%nat -> pending m <> [] ->
  exists i w tk,
    (i < workers)%nat /\ threads m !! i = Some w /\ tk ∈ pending m /\
    ((exists rest, local w = tk :: rest) \/
     (local w = [] /\ exists rest, items (tasks (shared m)) = tk :: rest)).
Proof.
  intros m Hworkers Hpend.
  pose proof (build_run_length eval region_ min_feature max_err workers cancel0
                cb fth sched) as Hlen.
  fold m in Hlen.
  destruct (list_eq_nil_dec (concat (map local (threads m)))) as [Hnil|Hsome].
  - destruct (items (tasks (shared m))) as [|tk rest] eqn:Hitems.
    { exfalso. apply Hpend. unfold pending. rewrite Hitems, Hnil. reflexivity. }
    destruct (lookup_lt_is_Some_2 (threads m) O) as (w & Hw); [lia|].
    exists O, w, tk. split; [lia|]. split; [exact Hw|].
    split; [unfold pending; rewrite Hitems; apply list_elem_of_here|].
    right. split; [|eauto].
    destruct (local w) as [|x l] eqn:Hl; [reflexivity|]. exfalso.
    assert (x ∈ concat (map local (threads m))) as Hx.
    { apply list_elem_of_In, in_concat. exists (local w). split.
      - apply in_map, list_elem_of_In, (list_elem_of_lookup_2 _ O). exact Hw.
      - rewrite Hl. left. reflexivity. }
    rewrite Hnil in Hx. inversion Hx.
  - destruct (locals_nonempty _ Hsome) as (i & w & tk & rest & Hw & Hl).
    exists i, w, tk. split; [rewrite <- Hlen; eapply lookup_lt_Some; exact Hw|].
    split; [exact Hw|]. split; [|left; eauto].
    unfold pending. apply elem_of_app. right.
    apply list_elem_of_In, in_concat. exists (local w). split.
    + apply in_map, list_elem_of_In, (list_elem_of_lookup_2 _ i). exact Hw.
    + rewrite Hl. left. reflexivity.
Qed.

(** *** Every round evaluates a cell *)

Lemma round_progress eval region_ min_feature max_err workers cb fth sched round :
  (forall r j, (j < children_size)%nat -> level (subdivide r j) = level r - 1) ->
  (0 < workers)%nat -> SetCancel ∉ sched -> fair_round workers round ->
  let m := build_run eval region_ min_feature max_err workers false cb fth sched in
  let m' := build_run eval region_ min_feature max_err workers false cb fth
                      (sched ++ round) in
  collects_prompt (trace (shared m')) ->
  done (shared m') = false ->
  (length (evaluated (trace (shared m))) < length (evaluated (trace (shared m'))))%nat.
Proof.
  intros Hsub Hworkers Hno (Hnoc & Hfair) m m' Hprompt Hd.
  assert (done (shared m) = false) as Hd0.
  { apply not_true_is_false. intros H. unfold m' in Hd.
    rewrite (build_run_done_stays _ _ _ _ _ _ _ _ _ round H) in Hd. discriminate. }
  assert (collects_prompt (trace (shared m))) as Hprompt0.
  { destruct (build_run_extends eval region_ min_feature max_err workers false
                cb fth sched round) as (calls & Hext).
    unfold m' in Hprompt. rewrite Hext in Hprompt.
    apply (collects_prompt_prefix _ _ Hprompt). }
  pose proof (build_run_work_left eval region_ min_feature max_err workers false
                cb fth sched Hsub Hprompt0 Hd0) as Hpend.
  destruct (task_at_hand eval region_ min_feature max_err workers false cb fth sched
              Hworkers Hpend) as (i & w & tk & Hi & Hw & Htk & Hhas).
  fold m in Hw, Htk, Hhas.
  destruct (build_run_targets eval region_ min_feature max_err workers false
              cb fth sched tk Htk) as (t & Ht).
  destruct (list_elem_of_split _ _ (Hfair i Hi)) as (pre & post & ->).
  apply not_elem_of_app in Hnoc. destruct Hnoc as [Hnpre _].
  set (m1 := build_run eval region_ min_feature max_err workers false cb fth
                       (sched ++ pre)).
  assert (m' = build_run eval region_ min_feature max_err workers false cb fth
                         (((sched ++ pre) ++ [Pass i]) ++ post)) as Hm'.
  { unfold m'. f_equal. rewrite <- !app_assoc. reflexivity. }
  assert (done (shared (build_run eval region_ min_feature max_err workers false
                                  cb fth ((sched ++ pre) ++ [Pass i]))) = false)
    as Hd2.
  { apply not_true_is_false. intros H. rewrite Hm' in Hd.
    rewrite (build_run_done_stays _ _ _ _ _ _ _ _ _ post H) in Hd. discriminate. }
  assert (done (shared m1) = false) as Hd1.
  { apply not_true_is_false. intros H.
    rewrite (build_run_done_stays _ _ _ _ _ _ _ _ _ [Pass i] H) in Hd2.
    discriminate. }
  assert (length (evaluated (trace (shared m))) <
          length (evaluated (trace (shared
            (build_run eval region_ min_feature max_err workers false cb fth
                       ((sched ++ pre) ++ [Pass i]))))))%nat as Hstep.
  { destruct (quiet_passes eval region_ min_feature max_err workers cb fth sched pre
                Hno Hnpre Hd1) as [Hmore|(Hitems & Hlocals)].
    - eapply Nat.lt_le_trans; [exact Hmore | apply evaluated_grows].
    - fold m m1 in Hitems, Hlocals.
      assert (exists w1, threads m1 !! i = Some w1 /\ local w1 = local w)
        as (w1 & Hw1 & Hl1).
      { pose proof (f_equal (fun l => l !! i) Hlocals) as Hli. simpl in Hli.
        rewrite !list_lookup_fmap, Hw in Hli.
        destruct (threads m1 !! i) as [w1|]; [|discriminate].
        exists w1. split; [reflexivity|]. inversion Hli. reflexivity. }
      assert (returned w1 = false) as Hr1.
      { destruct (returned w1) eqn:Hr; [|reflexivity].
        pose proof (build_run_returned_done eval region_ min_feature max_err workers
                      false cb fth (sched ++ pre) i w1 Hw1 Hr) as Hx.
        fold m1 in Hx. congruence. }
      rewrite build_run_app. fold m1. simpl.
      rewrite (pass_evaluates _ _ _ _ i w1 tk t m1).
      + rewrite length_app. simpl.
        pose proof (evaluated_grows eval region_ min_feature max_err workers false
                      cb fth sched pre) as Hg. fold m m1 in Hg. lia.
      + apply build_run_ok.
      + apply build_run_failed.
      + exact Hd1.
      + apply build_run_not_cancelled. intros Hin. apply elem_of_app in Hin. tauto.
      + exact Hw1.
      + exact Hr1.
      + exact Ht.
      + rewrite Hl1, Hitems. exact Hhas. }
  rewrite Hm'. eapply Nat.lt_le_trans; [exact Hstep | apply evaluated_grows].
Qed.

Lemma rounds_progress eval region_ min_feature max_err workers cb fth sched rounds :
  (forall r j, (j < children_size)%nat -> level (subdivide r j) = level r - 1) ->
  (0 < workers)%nat -> SetCancel ∉ sched -> Forall (fair_round workers) rounds ->
  let m := build_run eval region_ min_feature max_err workers false cb fth sched in
  let m' := build_run eval region_ min_feature max_err workers false cb fth
                      (sched ++ concat rounds) in
  collects_prompt (trace (shared m')) ->
  done (shared m') = true \/
  (length (evaluated (trace (shared m))) + length rounds
   <= length (evaluated (trace (shared m'))))%nat.
Proof.
  intros Hsub Hworkers Hno. simpl.
  induction rounds as [|r rounds IH] using rev_ind; intros Hfair Hprompt.
  - right. simpl. rewrite app_nil_r. lia.
  - apply Forall_app in Hfair. destruct Hfair as [Hfair Hr].
    rewrite Forall_singleton in Hr.
    rewrite concat_app in Hprompt |- *. simpl in Hprompt |- *.
    rewrite app_nil_r, app_assoc in Hprompt |- *.
    assert (collects_prompt
              (trace (shared (build_run eval region_ min_feature max_err workers
                                        false cb fth (sched ++ concat rounds)))))
      as Hprompt1.
    { destruct (build_run_extends eval region_ min_feature max_err workers false
                  cb fth (sched ++ concat rounds) r) as (calls & Hext).
      rewrite Hext in Hprompt. apply (collects_prompt_prefix _ _ Hprompt). }
    destruct (IH Hfair Hprompt1) as [Hdone|Hcount].
    + left. apply build_run_done_stays, Hdone.
    + destruct (done (shared (build_run eval region_ min_feature max_err workers
                                        false cb fth ((sched ++ concat rounds) ++ r))))
        eqn:Hd; [left; reflexivity|].
      right.
      assert (SetCancel ∉ sched ++ concat rounds) as Hno1.
      { intros Hin. apply elem_of_app in Hin. destruct Hin as [Hin|Hin]; [tauto|].
        apply list_elem_of_In, in_concat in Hin. destruct Hin as (x & Hx & Hin).
        rewrite Forall_forall in Hfair.
        destruct (Hfair x (proj2 (list_elem_of_In _ _) Hx)) as [Hnc _].
        apply Hnc, list_elem_of_In, Hin. }
      pose proof (round_progress eval region_ min_feature max_err workers cb fth
                    (sched ++ concat rounds) r Hsub Hworkers Hno1 Hr Hprompt Hd)
        as Hlt.
      rewrite length_app. simpl. lia.
Qed.

(** *** A build that is not cancelled returns *)

Lemma build_returns eval region_ min_feature max_err workers cb fth sched rounds :
  (forall r j, (j < children_size)%nat -> level (subdivide r j) = level r - 1) ->
  (0 < workers)%nat -> SetCancel ∉ sched -> Forall (fair_round workers) rounds ->
  (length (cells_down_to
             (Z.to_nat (Z.max 0 (level (withResolution region_ min_feature))))) + 2
   <= length rounds)%nat ->
  let m' := build_run eval region_ min_feature max_err workers false cb fth
                      (sched ++ concat rounds) in
  collects_prompt (trace (shared m')) ->
  build eval region_ min_feature max_err workers false cb fth (sched ++ concat rounds)
  = Return (out (shared m')) /\
  done (shared m') = true /\ cancel (shared m') = false.
Proof.
  intros Hsub Hworkers Hno Hfair Hlen m' Hprompt.
  set (B := length (cells_down_to
                      (Z.to_nat (Z.max 0 (level (withResolution region_ min_feature))))))
    in *.
  set (r1 := take (S B) rounds). set (r2 := drop (S B) rounds).
  assert (rounds = r1 ++ r2) as Hsplit by (symmetry; apply take_drop).
  assert (length r1 = S B) as Hl1 by (unfold r1; rewrite length_take; lia).
  assert (Forall (fair_round workers) r1) as Hf1 by (apply Forall_take, Hfair).
  assert (Forall (fair_round workers) r2) as Hf2 by (apply Forall_drop, Hfair).
  assert (sched ++ concat rounds = (sched ++ concat r1) ++ concat r2) as Hsched.
  { rewrite Hsplit, concat_app, app_assoc. reflexivity. }
  set (m1 := build_run eval region_ min_feature max_err workers false cb fth
                       (sched ++ concat r1)).
  assert (done (shared m1) = true) as Hd1.
  { assert (collects_prompt (trace (shared m1))) as Hp1.
    { destruct (build_run_extends eval region_ min_feature max_err workers false
                  cb fth (sched ++ concat r1) (concat r2)) as (calls & Hext).
      unfold m' in Hprompt. rewrite Hsched, Hext in Hprompt.
      apply (collects_prompt_prefix _ _ Hprompt). }
    destruct (rounds_progress eval region_ min_feature max_err workers cb fth sched r1
                Hsub Hworkers Hno Hf1 Hp1) as [H|H]; [exact H|].
    exfalso.
    pose proof (evaluated_bounded eval region_ min_feature max_err workers false
                  cb fth (sched ++ concat r1) Hsub) as Hb.
    fold B in Hb. lia. }
  assert (cancel (shared m') = false) as Hc.
  { apply build_run_not_cancelled. intros Hin. apply elem_of_app in Hin.
    destruct Hin as [Hin|Hin]; [tauto|].
    apply list_elem_of_In, in_concat in Hin. destruct Hin as (x & Hx & Hin).
    rewrite Forall_forall in Hfair.
    destruct (Hfair x (proj2 (list_elem_of_In _ _) Hx)) as [Hnc _].
    apply Hnc, list_elem_of_In, Hin. }
  assert (done (shared m') = true) as Hd.
  { unfold m'. rewrite Hsched. apply build_run_done_stays, Hd1. }
  split; [|split; assumption].
  pose proof (build_run_failed eval region_ min_feature max_err workers false cb fth
                (sched ++ concat rounds)) as Hfl.
  unfold build, build_return. fold m' in Hfl |- *. rewrite Hfl.
  assert (forallb returned (threads m') = true) as ->.
  { unfold m'. rewrite Hsched, build_run_app. fold m1.
    apply exec_all_return; [left; exact Hd1 | apply build_run_failed|].
    intros i Hi. unfold m1 in Hi. rewrite build_run_length in Hi.
    destruct r2 as [|r r2'] eqn:Hr2.
    { exfalso. assert (length r2 = 0%nat) as H0 by (rewrite Hr2; reflexivity).
      unfold r2 in H0. rewrite length_drop in H0. lia. }
    apply Forall_cons in Hf2. destruct Hf2 as [(_ & Hr) _].
    simpl. apply elem_of_app. left. apply Hr, Hi. }
  rewrite Hd, Hc. reflexivity.
Qed.

End RoundFacts.

(** *** The root that is returned *)

Section ResultFacts.

Context {P : Params}.

Local Abbreviation Heap := (gmap Addr (Cell Leaf)).

Lemma live_pools_returned (l : list Worker) :
  forallb returned l = true -> live_pools l = [].
Proof.
  induction l as [|w l IH]; intros H; [reflexivity|].
  simpl in H. apply andb_true_iff in H. destruct H as [Hw Hl].
  unfold live_pools. simpl. rewrite Hw. simpl. apply IH, Hl.
Qed.

(** The root that a build returns after the join has claimed the cells
    that the pools made, each once. *)
Lemma claimed_cells (m : Machine) :
  cells_held m -> claims_ok m -> forallb returned (threads m) = true ->
  NoDup (claimed (out (shared m))) /\
  forall a, a ∈ claimed (out (shared m)) <->
            is_Some (heap (shared m) !! a) /\ a <> [].
Proof.
  intros (Hmade & Hheld) (Hnd & _) Hall.
  rewrite (live_pools_returned _ Hall), app_nil_r in Hheld, Hnd.
  split; [exact Hnd|]. intros a. rewrite Hheld. apply Hmade.
Qed.

(** A state of a build that was not cancelled and in which [build] returns:
    the root has been dealt with. *)
Lemma returned_root_finished eval region_ min_feature max_err workers cancel0 cb fth
    sched r :
  let m := build_run eval region_ min_feature max_err workers cancel0 cb fth sched in
  build eval region_ min_feature max_err workers cancel0 cb fth sched = Return r ->
  cancel (shared m) = false ->
  r = out (shared m) /\ forallb returned (threads m) = true /\
  root_finished (trace (shared m)).
Proof.
  intros m Hb Hc. unfold build in Hb. fold m in Hb.
  apply build_return_cases in Hb. destruct Hb as [Hall [[Hcm _]|(_ & Hd & ->)]];
    [congruence|].
  split; [reflexivity|]. split; [exact Hall|].
  destruct (build_run_done_reason eval region_ min_feature max_err workers cancel0
              cb fth sched Hd) as [H|H]; [|exact H].
  fold m in H. congruence.
Qed.

(** The overload that takes the tree returns what the other overload
    returns. *)
Lemma build_from_tree_return t region min_feature max_err workers cb fth sched r :
  build_from_tree t region min_feature max_err workers cb fth sched = Return r ->
  build (fun _ => make_evaluator t) region min_feature max_err workers false
        cb fth (map Pass sched) = Return r.
Proof.
  unfold build_from_tree. destruct workers; [discriminate|]. intros H. exact H.
Qed.

End ResultFacts.

(** *** Workers that overlap *)

Section AmongFacts.

Context {P : Params}.

Local Abbreviation Heap := (gmap Addr (Cell Leaf)).

(** *** The children, while others use the shared stack *)

Lemma push_children_among_app others t tp r nb : forall l1 l2 s w,
  push_children_among others t tp r nb (l1 ++ l2) s w
  = push_children_among others t tp r nb l2
      (push_children_among others t tp r nb l1 s w).1
      (push_children_among others t tp r nb l1 s w).2.
Proof.
  induction l1 as [|i l1 IH]; intros l2 s w; [reflexivity|].
  simpl. destruct (stack_bounded_push _ _) as [[] q]; apply IH.
Qed.

(** Left alone, the loop is [push_children]. *)
Lemma push_children_among_alone others t tp r nb :
  (forall i s1, others i s1 = s1) ->
  forall todo s w,
  push_children_among others t tp r nb todo s w
  = push_children t tp r nb todo s w.
Proof.
  intros Hid. induction todo as [|i rest IH]; intros s w; [reflexivity|].
  simpl. rewrite Hid.
  destruct (stack_bounded_push _ _) as [[] q]; apply IH.
Qed.

(** What the loop leaves in the worker's own pool and stack does not depend
    on the others: the pool gets the cells of all the children, in order,
    and the local stack gets the tasks of some of them, the later ones on
    top. *)
Lemma push_children_among_worker others t tp r nb : forall todo s w,
  let res := push_children_among others t tp r nb todo s w in
  object_pool res.2 = object_pool w ++ map (fun i => i :: t) todo /\
  returned res.2 = returned w /\
  exists kept, sublist kept todo /\
    local res.2 = rev (map (child_task t tp r nb) kept) ++ local w.
Proof.
  induction todo as [|i rest IH]; intros s w; simpl.
  - rewrite app_nil_r. split; [reflexivity|]. split; [reflexivity|].
    exists []. split; [constructor | reflexivity].
  - destruct (stack_bounded_push _ _) as [[] q].
    + match goal with
      | |- context [push_children_among _ _ _ _ _ rest ?s' ?w'] =>
          destruct (IH s' w') as (Hp & Hr & kept & Hsub & Hl)
      end.
      simpl in Hp, Hr, Hl. rewrite Hp, Hr, <- app_assoc.
      split; [reflexivity|]. split; [reflexivity|].
      exists kept. split; [apply sublist_cons, Hsub | exact Hl].
    + match goal with
      | |- context [push_children_among _ _ _ _ _ rest ?s' ?w'] =>
          destruct (IH s' w') as (Hp & Hr & kept & Hsub & Hl)
      end.
      simpl in Hp, Hr, Hl. rewrite Hp, Hr, <- app_assoc.
      split; [reflexivity|]. split; [reflexivity|].
      exists (i :: kept). split; [apply sublist_skip, Hsub|].
      rewrite Hl. simpl. rewrite <- app_assoc. reflexivity.
Qed.

(** *** Flags set while a worker is in the body *)

Lemma in_flight_leaves (l : list bool) (i : nat) :
  l !! i = Some true ->
  S (length (filter (fun b => b = true) (<[i := false]> l)))
  = length (filter (fun b => b = true) l).
Proof.
  revert i. induction l as [|b l IH]; intros i Hi; [discriminate|].
  destruct i as [|i]; simpl in Hi.
  - inversion Hi; subst.
    change (<[0%nat := false]> (true :: l)) with (false :: l).
    rewrite (filter_cons_False _ false l) by discriminate.
    rewrite (filter_cons_True _ true l) by reflexivity. reflexivity.
  - change (<[S i := false]> (b :: l)) with (b :: <[i := false]> l).
    specialize (IH i Hi).
    destruct b.
    + rewrite !(filter_cons_True _ true) by reflexivity. simpl.
      rewrite IH. reflexivity.
    + rewrite !(filter_cons_False _ false) by discriminate. exact IH.
Qed.

Lemma in_flight_none (l : list bool) (i : nat) :
  length (filter (fun b => b = true) l) = O -> l !! i <> Some true.
Proof.
  intros H Hi. apply list_elem_of_lookup_2 in Hi.
  assert (true ∈ filter (fun b => b = true) l) as Hin
    by (apply list_elem_of_filter; auto).
  destruct (filter (fun b => b = true) l); [inversion Hin | discriminate].
Qed.

(** The body evaluates one cell at most. *)
Lemma run_body_evaluates eval max_err progress fth s w :
  (length (evaluated (trace (run_body eval max_err progress fth s w).1.1))
   <= S (length (evaluated (trace s))))%nat.
Proof.
  rewrite run_body_eq.
  pose proof (take_task_trace s w) as Htr.
  destruct (take_task s w) as [[o s0] w0]. simpl in Htr.
  assert (trace (offerWait fth s0) = trace s \/
          evaluated (trace (offerWait fth s0)) = evaluated (trace s)) as Hidle.
  { right. destruct fth; simpl; [|rewrite Htr; reflexivity].
    rewrite evaluated_app, Htr. simpl. apply app_nil_r. }
  assert (evaluated (trace (offerWait fth s0)) = evaluated (trace s)) as Hidle'
    by (destruct Hidle as [->| ->]; reflexivity).
  destruct o as [tk|]; simpl; [|rewrite Hidle'; lia].
  destruct (target tk) as [t|] eqn:Ht; simpl; [|rewrite Hidle'; lia].
  assert (evaluated (trace (body_of_task eval max_err progress tk t s0 w0).1.1)
          = evaluated (trace s0) ++ [t]) as Hev.
  { destruct (Z.ltb_spec 0 (level (region tk))) as [Hpos|Hle];
      [destruct (verdict_ambiguous_dec
                   (interval_verdict eval (tape tk) (region tk)).1) as [Hamb|Hamb]|].
    - rewrite (body_of_task_ambiguous eval max_err progress tk t s0 w0 Hpos Hamb).
      simpl. rewrite evaluated_app. f_equal.
      change (?c :: ?l) with ([c] ++ l). rewrite evaluated_app, evaluated_gets.
      reflexivity.
    - unfold body_of_task.
      destruct (Z.ltb_spec 0 (level (region tk))) as [_|Hle]; [|lia].
      assert (forall tp,
        evaluated (trace (finish eval max_err progress true t (region tk) tp
                            (evalInterval eval (tape tk) (region tk) t s0).1).1)
        = evaluated (trace s0) ++ [t]) as Hfin.
      { intros tp.
        destruct (finish_walk eval max_err progress true t (region tk) tp
                    (evalInterval eval (tape tk) (region tk) t s0).1)
          as (k & t' & Hf & _).
        rewrite Hf, evaluated_app, evaluated_walk, app_nil_r.
        rewrite evalInterval_eq. simpl. rewrite evaluated_app. reflexivity. }
      destruct (interval_verdict eval (tape tk) (region tk)).1 eqn:Hv; simpl;
        [apply Hfin | apply Hfin | congruence].
    - unfold body_of_task.
      destruct (Z.ltb_spec 0 (level (region tk))) as [Hpos|_]; [lia|]. simpl.
      destruct (finish_walk eval max_err progress false t (region tk) (tape tk)
                  (evalLeaf eval (tape tk) (region tk)
                     (local_neighbors tk t (heap s0)) t s0))
        as (k & t' & Hf & _).
      rewrite Hf, evaluated_app, evaluated_walk, app_nil_r.
      simpl. rewrite evaluated_app. reflexivity. }
  rewrite Hev, Htr, length_app. simpl. lia.
Qed.

End AmongFacts.

Section OverlapFacts.

Context {P : Params}.

Variable eval : nat -> XTreeEvaluator.
Variable max_err : float.
Variable progress : option ProgressWatcher.
Variable fth : option FreeThreadHandler.

Local Abbreviation moment1 := (moment eval max_err progress fth).
Local Abbreviation moments := (overlapped eval max_err progress fth).

Lemma overlapped_app ms1 ms2 o :
  moments (ms1 ++ ms2) o = moments ms2 (moments ms1 o).
Proof.
  revert o. induction ms1 as [|e rest IH]; intros o; simpl; [reflexivity|].
  apply IH.
Qed.

(** A worker that has not entered the body has no body to run. *)
Lemma moment_outside i o : inside o !! i <> Some true -> moment1 (Body i) o = o.
Proof.
  intros Hi. unfold moment.
  destruct (failed (shared (machine o))); [reflexivity|].
  destruct (threads (machine o) !! i); [|reflexivity].
  destruct (inside o !! i) as [[]|]; [contradiction | reflexivity | reflexivity].
Qed.

(** What the body of worker [i] leaves: the calls of [run_body], and the
    locals of [run_body]. *)
Lemma inside_step_eq i w o :
  let b := run_body (eval i) max_err progress fth (shared (machine o)) w in
  trace (shared (machine (inside_step eval max_err progress fth i w o)))
  = trace b.1.1 /\
  (stop_set (machine o) ->
   stop_set (machine (inside_step eval max_err progress fth i w o))) /\
  inside (inside_step eval max_err progress fth i w o) = <[i := false]> (inside o).
Proof.
  unfold inside_step.
  pose proof (run_body_frame (eval i) max_err progress fth (shared (machine o)) w)
    as ((Hd & Hc & _) & _).
  destruct (run_body (eval i) max_err progress fth (shared (machine o)) w)
    as [[s' w'] fl].
  simpl in Hd, Hc.
  destruct fl; simpl; (split; [reflexivity|]); (split; [|reflexivity]);
    unfold stop_set; simpl; try (rewrite Hd, Hc; tauto).
  intros _. left. reflexivity.
Qed.

(** One moment after a flag was set: the flag stays, a worker in the body
    finishes it and evaluates one cell at most, and nobody enters the body. *)
Lemma moment_stopped e o :
  stop_set (machine o) ->
  stop_set (machine (moment1 e o)) /\
  (length (evaluated (trace (shared (machine (moment1 e o)))))
   + in_flight (moment1 e o)
   <= length (evaluated (trace (shared (machine o)))) + in_flight o)%nat /\
  (in_flight o = O ->
   in_flight (moment1 e o) = O /\
   heap (shared (machine (moment1 e o))) = heap (shared (machine o)) /\
   tasks (shared (machine (moment1 e o))) = tasks (shared (machine o)) /\
   trace (shared (machine (moment1 e o))) = trace (shared (machine o)) /\
   map local (threads (machine (moment1 e o))) = map local (threads (machine o))).
Proof.
  intros Hstop.
  assert (stop_set (machine o) /\
    (length (evaluated (trace (shared (machine o)))) + in_flight o
     <= length (evaluated (trace (shared (machine o)))) + in_flight o)%nat /\
    (in_flight o = O ->
     in_flight o = O /\
     heap (shared (machine o)) = heap (shared (machine o)) /\
     tasks (shared (machine o)) = tasks (shared (machine o)) /\
     trace (shared (machine o)) = trace (shared (machine o)) /\
     map local (threads (machine o)) = map local (threads (machine o))))
    as Hsame by (split; [exact Hstop|]; split; [lia|]; intros H0; auto).
  unfold moment.
  destruct (failed (shared (machine o))); [exact Hsame|].
  destruct e as [i|i|].
  - destruct (threads (machine o) !! i) as [w|] eqn:Hw; [|exact Hsame].
    destruct (inside o !! i) as [[]|]; [exact Hsame | | exact Hsame].
    destruct (returned w); [exact Hsame|].
    unfold head_step. cbv zeta.
    assert (negb (done (shared (machine o))) && negb (cancel (shared (machine o)))
            = false) as ->.
    { destruct Hstop as [-> | ->]; [reflexivity | apply andb_false_r]. }
    simpl. split; [left; reflexivity|]. split; [unfold in_flight; simpl; lia|].
    intros H0. repeat split; try assumption.
    change (map local (<[i := set_returned true w]> (threads (machine o))))
      with (local <$> <[i := set_returned true w]> (threads (machine o))).
    rewrite list_fmap_insert. simpl. apply list_insert_id.
    rewrite list_lookup_fmap, Hw. reflexivity.
  - destruct (threads (machine o) !! i) as [w|] eqn:Hw; [|exact Hsame].
    destruct (inside o !! i) as [[]|] eqn:Hi; [| exact Hsame | exact Hsame].
    destruct (inside_step_eq i w o) as (Htr & Hst & Hin).
    split; [apply Hst, Hstop|]. split.
    + rewrite Htr. unfold in_flight. rewrite Hin.
      pose proof (in_flight_leaves (inside o) i Hi) as Hleave.
      pose proof (run_body_evaluates (eval i) max_err progress fth
                    (shared (machine o)) w) as Hev.
      lia.
    + intros H0. exfalso. exact (in_flight_none (inside o) i H0 Hi).
  - simpl. split; [right; reflexivity|]. split; [unfold in_flight; simpl; lia|].
    intros H0. auto.
Qed.

Lemma overlapped_stopped ms : forall o,
  stop_set (machine o) ->
  stop_set (machine (moments ms o)) /\
  (length (evaluated (trace (shared (machine (moments ms o)))))
   + in_flight (moments ms o)
   <= length (evaluated (trace (shared (machine o)))) + in_flight o)%nat /\
  (in_flight o = O ->
   heap (shared (machine (moments ms o))) = heap (shared (machine o)) /\
   tasks (shared (machine (moments ms o))) = tasks (shared (machine o)) /\
   trace (shared (machine (moments ms o))) = trace (shared (machine o)) /\
   map local (threads (machine (moments ms o))) = map local (threads (machine o))).
Proof.
  induction ms as [|e ms IH]; intros o Hstop; simpl.
  - split; [exact Hstop|]. split; [lia | auto].
  - destruct (moment_stopped e o Hstop) as (Hs1 & Hle1 & Hz1).
    destruct (IH _ Hs1) as (Hs2 & Hle2 & Hz2).
    split; [exact Hs2|]. split; [lia|].
    intros H0. destruct (Hz1 H0) as (H0' & A1 & A2 & A3 & A4).
    destruct (Hz2 H0') as (B1 & B2 & B3 & B4).
    rewrite B1, B2, B3, B4. auto.
Qed.

(** The two moments of a pass, one after the other, are the pass. *)
Lemma moments_of_pass i o :
  length (inside o) = length (threads (machine o)) ->
  Forall (fun b => b = false) (inside o) ->
  moments [Head i; Body i] o
  = mkOverlap (step eval max_err progress fth (Pass i) (machine o)) (inside o).
Proof.
  intros Hlen Hall. destruct o as [m ins]. simpl in Hlen, Hall. simpl.
  assert (forall o', inside o' = ins -> moment1 (Body i) o' = o') as Hout.
  { intros o' Ho'. apply moment_outside. rewrite Ho'. intros Hi.
    rewrite Forall_lookup in Hall. specialize (Hall i true Hi). discriminate. }
  unfold moment at 2, step. simpl.
  destruct (failed (shared m)) eqn:Hf; [apply Hout; reflexivity|].
  destruct (threads m !! i) as [w|] eqn:Hw; [|apply Hout; reflexivity].
  assert (ins !! i = Some false) as Hi.
  { assert (i < length ins)%nat as Hlt
      by (rewrite Hlen; apply lookup_lt_is_Some; eauto).
    apply lookup_lt_is_Some in Hlt. destruct Hlt as [b Hb].
    rewrite Forall_lookup in Hall. rewrite (Hall i b Hb) in Hb. exact Hb. }
  rewrite Hi.
  destruct (returned w) eqn:Hr; [apply Hout; reflexivity|].
  unfold head_step, run_pass. simpl.
  destruct (negb (done (shared m)) && negb (cancel (shared m))) eqn:Hrun.
  - unfold moment. simpl. rewrite Hf, Hw.
    rewrite list_lookup_insert_eq
      by (rewrite Hlen; apply lookup_lt_is_Some; eauto).
    unfold inside_step. simpl.
    rewrite list_insert_insert_eq, (list_insert_id _ _ _ Hi).
    destruct (run_body (eval i) max_err progress fth (shared m) w)
      as [[s' w'] fl].
    destruct fl; reflexivity.
  - apply Hout. reflexivity.
Qed.

(** A schedule of passes that do not overlap leaves the machine that
    [exec] gives. *)
Lemma overlapped_apart sched : forall o,
  length (inside o) = length (threads (machine o)) ->
  Forall (fun b => b = false) (inside o) ->
  moments (apart sched) o
  = mkOverlap (exec eval max_err progress fth sched (machine o)) (inside o).
Proof.
  induction sched as [|e sched IH]; intros o Hlen Hall.
  - destruct o; reflexivity.
  - change (apart (e :: sched))
      with (match e with
            | Pass i => [Head i; Body i]
            | SetCancel => [Cancelled]
            end ++ apart sched).
    rewrite overlapped_app.
    assert (moments match e with
                    | Pass i => [Head i; Body i]
                    | SetCancel => [Cancelled]
                    end o
            = mkOverlap (step eval max_err progress fth e (machine o)) (inside o))
      as ->.
    { destruct e as [i|]; [apply moments_of_pass; assumption|].
      simpl. unfold moment, step. destruct (failed (shared (machine o)));
        [destruct o|]; reflexivity. }
    rewrite IH; simpl; [reflexivity | | exact Hall].
    rewrite step_length. exact Hlen.
Qed.

End OverlapFacts.

Section CountFacts.

Context {P : Params}.

Lemma parents_of_finished (p : Addr) (l : list Addr) :
  length (filter (fun q => q = p) (omap parent l))
  = length (filter (fun a => parent a = Some p) l).
Proof.
  induction l as [|a l IH]; [reflexivity|].
  change (omap parent (a :: l))
    with (match parent a with
          | Some q => q :: omap parent l
          | None => omap parent l
          end).
  destruct (parent a) as [q|] eqn:Hq.
  - destruct (decide (q = p)) as [->|Hne].
    + rewrite (filter_cons_True (fun q => q = p)) by reflexivity.
      rewrite (filter_cons_True (fun a => parent a = Some p)) by exact Hq.
      simpl. rewrite IH. reflexivity.
    + rewrite (filter_cons_False (fun q => q = p)) by exact Hne.
      rewrite (filter_cons_False (fun a => parent a = Some p)) by congruence.
      exact IH.
  - rewrite (filter_cons_False (fun a => parent a = Some p)) by congruence.
    exact IH.
Qed.

Lemma children_nonempty : seq 0 (2 ^ N) = seq 0 (2 ^ N - 1) ++ [(2 ^ N - 1)%nat].
Proof.
  pose proof (Nat.pow_nonzero 2 N ltac:(lia)) as Hpos.
  replace (2 ^ N)%nat with (S (2 ^ N - 1)) at 1 by lia.
  rewrite seq_S. reflexivity.
Qed.

End CountFacts.

(** ** The properties of what [build] returns *)

Section Results.

Context {P : Params}.

(** C7.  When [build] returns, the root it returns is empty exactly when the
    [cancel] flag was set, at the call or later; when the flag was never
    set, the root returned is the one built on the root cell, that cell
    has been dealt with (evaluated as a leaf, found empty or filled, or
    collected), the root has claimed every other cell of the tree from
    the pools of the workers, and, [collectChildren] having answered true
    only after all the children of its cell, every cell of the tree has
    been evaluated and dealt with and no task is left.  A worker that finds
    [cancel] set at the head of its loop leaves through [run_exit]: it
    takes no task, touches no cell and makes no call.  Once the flag is
    set, a schedule that gives every worker one more pass makes [build]
    return the empty root.  And when the flag is never set, [build] does
    return the root of the tree: if [collectChildren] answers false only
    while a child of its cell is not finished and regions lose one level
    at each division, then after as many rounds, in each of which every
    worker makes a pass, as the full tree has cells, and two more, all
    workers have returned and [build] returns [out]. *)
Theorem build_empty_iff_cancel
    (eval : nat -> XTreeEvaluator) (region_ : Region)
    (min_feature max_err : double) (workers : nat) (cancel0 : bool)
    (cb : option ProgressCallback) (fth : option FreeThreadHandler)
    (sched : list Event) :
  let m := build_run eval region_ min_feature max_err workers cancel0 cb fth sched in
  (forall r,
     build eval region_ min_feature max_err workers cancel0 cb fth sched = Return r ->
     (r = Root_empty <-> cancel0 = true \/ SetCancel ∈ sched) /\
     (~ (cancel0 = true \/ SetCancel ∈ sched) ->
        r = out (shared m) /\ root_ptr r = Some [] /\
        root_finished (trace (shared m)) /\
        (forall a, is_Some (heap (shared m) !! a) -> a = [] \/ a ∈ claimed r) /\
        (collects_wait (trace (shared m)) ->
           (forall a, is_Some (heap (shared m) !! a) ->
                      a ∈ finished (trace (shared m)) /\
                      a ∈ evaluated (trace (shared m))) /\
           pending m = []))) /\
  (forall e me pw s w, cancel s = true ->
     run_pass e me pw fth s w = run_exit s w /\
     returned (run_exit s w).2 = true /\
     tasks (run_exit s w).1 = tasks s /\ local (run_exit s w).2 = local w /\
     heap (run_exit s w).1 = heap s /\ trace (run_exit s w).1 = trace s) /\
  (forall sched', cancel0 = true \/ SetCancel ∈ sched ->
     (forall j, (j < workers)%nat -> Pass j ∈ sched') ->
     build eval region_ min_feature max_err workers cancel0 cb fth
           (sched ++ sched') = Return Root_empty) /\
  (forall rounds,
     cancel0 = false -> SetCancel ∉ sched -> (0 < workers)%nat ->
     (forall r j, (j < children_size)%nat -> level (subdivide r j) = level r - 1) ->
     Forall (fair_round workers) rounds ->
     (length (cells_down_to
                (Z.to_nat (Z.max 0 (level (withResolution region_ min_feature))))) + 2
      <= length rounds)%nat ->
     let m' := build_run eval region_ min_feature max_err workers cancel0 cb fth
                         (sched ++ concat rounds) in
     collects_prompt (trace (shared m')) ->
     build eval region_ min_feature max_err workers cancel0 cb fth
           (sched ++ concat rounds) = Return (out (shared m')) /\
     root_ptr (out (shared m')) = Some [] /\
     forallb returned (threads m') = true).
Proof.
  intros m.
  pose proof (build_run_cancel eval region_ min_feature max_err workers
                cancel0 cb fth sched) as Hc. fold m in Hc.
  pose proof (build_run_root_ptr eval region_ min_feature max_err workers
                cancel0 cb fth sched) as Hp. fold m in Hp.
  split; [|split; [|split]].
  - intros r Hb. pose proof Hb as Hb'. unfold build in Hb. fold m in Hb.
    apply build_return_cases in Hb. destruct Hb as [Hall Hr].
    destruct Hr as [[Hcm ->]|(Hcm & Hd & ->)].
    + split; [split; [intros _; apply Hc, Hcm | reflexivity]|].
      intros Hn. exfalso. apply Hn, Hc, Hcm.
    + split; [split|].
      * intros Heq. rewrite Heq in Hp. discriminate.
      * intros H. apply Hc in H. congruence.
      * intros _.
        destruct (returned_root_finished eval region_ min_feature max_err workers
                    cancel0 cb fth sched _ Hb' Hcm) as (_ & _ & Hroot).
        split; [reflexivity|]. split; [exact Hp|]. split; [exact Hroot|]. split.
        -- destruct (build_run_owned eval region_ min_feature max_err workers
                       cancel0 cb fth sched) as [Hown Hcl].
           apply all_returned_claimed; assumption.
        -- intros Hwait.
           apply (build_run_populated eval region_ min_feature max_err workers
                    cancel0 cb fth sched Hwait Hroot).
  - intros e me pw s w Hs. split; [apply run_pass_exit; auto|]. simpl. auto.
  - intros sched' Hset Hfair. apply Hc in Hset.
    unfold build, build_return.
    rewrite build_run_failed.
    rewrite build_run_app. fold m.
    rewrite exec_all_return;
      [| right; exact Hset | apply build_run_failed
       | intros j Hj; apply Hfair; unfold m in Hj;
         rewrite build_run_length in Hj; exact Hj].
    assert (cancel (shared (exec eval (to_float max_err)
              (build_watcher region_ min_feature cb) fth sched' m)) = true) as Hc'.
    { apply exec_cancel; [apply build_run_failed | left; exact Hset]. }
    rewrite Hc'. rewrite orb_true_r. reflexivity.
  - intros rounds -> Hno Hworkers Hsub Hfair Hlen m' Hprompt.
    destruct (build_returns eval region_ min_feature max_err workers cb fth sched
                rounds Hsub Hworkers Hno Hfair Hlen Hprompt) as (Hb & Hd & Hcl).
    fold m' in Hb, Hd, Hcl.
    split; [exact Hb|]. split; [apply build_run_root_ptr|].
    unfold build in Hb. fold m' in Hb. apply build_return_cases in Hb. apply Hb.
Qed.

(** C8.  [evalInterval] leaves in [t->type] one of [EMPTY], [FILLED],
    [AMBIGUOUS], as the specification requires of it, so the assertion that
    follows it holds: no pass ends on a failed assertion and no build is
    stopped by one.  Consequently, when
    [evalLeaf], the only evaluation of a cell whose region has no
    [level > 0], leaves its cell classified too, every cell that has been
    evaluated is classified at every moment of a build, and every cell of
    the tree that a successful build returns is one of them: its type is
    [EMPTY], [FILLED] or [AMBIGUOUS]. *)
Theorem returned_cells_classified
    (eval : nat -> XTreeEvaluator) (region_ : Region)
    (min_feature max_err : double) (workers : nat) (cancel0 : bool)
    (cb : option ProgressCallback) (fth : option FreeThreadHandler)
    (sched : list Event) :
  (forall e tp r nb c, type (leaf_eval e tp r nb c) <> Interval.UNKNOWN) ->
  let m := build_run eval region_ min_feature max_err workers cancel0 cb fth sched in
  (forall e tp r t s,
     type_at (heap (evalInterval e tp r t s).1) t <> Interval.UNKNOWN) /\
  (forall e me pw s w, (run_body e me pw fth s w).2 ≠ Abort) /\
  failed (shared m) = false /\
  (forall a, a ∈ evaluated (trace (shared m)) ->
     type_at (heap (shared m)) a = Interval.EMPTY \/
     type_at (heap (shared m)) a = Interval.FILLED \/
     type_at (heap (shared m)) a = Interval.AMBIGUOUS) /\
  (forall r,
     build eval region_ min_feature max_err workers cancel0 cb fth sched = Return r ->
     r <> Root_empty ->
     collects_wait (trace (shared m)) ->
     forall a, is_Some (heap (shared m) !! a) ->
       type_at (heap (shared m)) a = Interval.EMPTY \/
       type_at (heap (shared m)) a = Interval.FILLED \/
       type_at (heap (shared m)) a = Interval.AMBIGUOUS).
Proof.
  intros Hleaf m.
  assert (forall a, a ∈ evaluated (trace (shared m)) ->
            type_at (heap (shared m)) a = Interval.EMPTY \/
            type_at (heap (shared m)) a = Interval.FILLED \/
            type_at (heap (shared m)) a = Interval.AMBIGUOUS) as Hcls.
  { intros a Ha.
    assert (type_at (heap (shared m)) a <> Interval.UNKNOWN) as Hknown.
    { apply evaluated_calls in Ha. destruct Ha as [Ha|(v & Ha)].
      - destruct (build_run_leaves_classified eval region_ min_feature max_err
                    workers cancel0 cb fth sched Hleaf) as (_ & H).
        apply H, Ha.
      - destruct (ok_evaluated _ _ _
                    (build_run_ok eval region_ min_feature max_err workers cancel0
                                  cb fth sched) a v Ha) as (_ & Hty & Hv).
        fold m in Hty. rewrite Hty. exact Hv. }
    destruct (type_at (heap (shared m)) a); auto. congruence. }
  split.
  { intros e tp r t s. rewrite evalInterval_type.
    destruct (interval_verdict e tp r).1; discriminate. }
  split; [intros e me pw s w; apply run_body_frame|].
  split; [apply build_run_failed|].
  split; [exact Hcls|].
  intros r Hb Hne Hwait a Ha. apply Hcls.
  assert (cancel (shared m) = false) as Hc.
  { pose proof Hb as Hb'. unfold build in Hb'. fold m in Hb'.
    apply build_return_cases in Hb'.
    destruct Hb' as [_ [[_ ->]|(Hc & _)]]; [contradiction | exact Hc]. }
  destruct (returned_root_finished eval region_ min_feature max_err workers cancel0
              cb fth sched r Hb Hc) as (_ & _ & Hroot).
  destruct (build_run_populated eval region_ min_feature max_err workers cancel0
              cb fth sched Hwait Hroot) as (Hpop & _).
  apply Hpop, Ha.
Qed.

(** C2.  The tree that [build] returns for a tree of the expression, a
    region, [min_feature] and [max_err] does not depend on the number of
    workers nor on the interleaving of their passes: when the
    classification that [evalLeaf] leaves does not depend on the neighbours
    it is given, and [collectChildren] answered true only after all the
    children of its cell, two builds that return have the same cells, with
    the same classification, under the same root, which has claimed the
    same cells; these are the cells that [task_of] gives, with the types
    that [type_of] gives. *)
Theorem build_result_independent_of_workers
    (t : Tree) (region : Region) (min_feature max_err : double)
    (workers1 workers2 : nat) (cb1 cb2 : option ProgressCallback)
    (fth1 fth2 : option FreeThreadHandler) (sched1 sched2 : list nat)
    (r1 r2 : Root) :
  (forall tp r nb nb' c c',
     type (leaf_eval (make_evaluator t) tp r nb c)
     = type (leaf_eval (make_evaluator t) tp r nb' c')) ->
  let m1 := build_run (fun _ => make_evaluator t) region min_feature max_err
                      workers1 false cb1 fth1 (map Pass sched1) in
  let m2 := build_run (fun _ => make_evaluator t) region min_feature max_err
                      workers2 false cb2 fth2 (map Pass sched2) in
  build_from_tree t region min_feature max_err workers1 cb1 fth1 sched1 = Return r1 ->
  build_from_tree t region min_feature max_err workers2 cb2 fth2 sched2 = Return r2 ->
  collects_wait (trace (shared m1)) -> collects_wait (trace (shared m2)) ->
  (forall a, is_Some (heap (shared m1) !! a) <-> is_Some (heap (shared m2) !! a)) /\
  (forall a, type_at (heap (shared m1)) a = type_at (heap (shared m2)) a) /\
  root_ptr r1 = root_ptr r2 /\ claimed r1 ≡ₚ claimed r2 /\
  (forall a, is_Some (heap (shared m1) !! a)
             <-> is_Some (task_of (make_evaluator t)
                                  (withResolution region min_feature) a)) /\
  (forall a, type_at (heap (shared m1)) a
             = type_of (make_evaluator t) (withResolution region min_feature) a).
Proof.
  intros Hleaf m1 m2 Hb1 Hb2 Hw1 Hw2.
  apply build_from_tree_return in Hb1, Hb2.
  assert (forall workers cb fth sched r,
            build (fun _ => make_evaluator t) region min_feature max_err workers
                  false cb fth (map Pass sched) = Return r ->
            let m := build_run (fun _ => make_evaluator t) region min_feature max_err
                               workers false cb fth (map Pass sched) in
            collects_wait (trace (shared m)) ->
            ((forall a, is_Some (heap (shared m) !! a)
                        <-> is_Some (task_of (make_evaluator t)
                                             (withResolution region min_feature) a)) /\
             (forall a, type_at (heap (shared m)) a
                        = type_of (make_evaluator t)
                                  (withResolution region min_feature) a)) /\
            root_ptr r = Some [] /\ NoDup (claimed r) /\
            (forall a, a ∈ claimed r <-> is_Some (heap (shared m) !! a) /\ a <> []))
    as Hone.
  { intros workers cb fth sched r Hb m Hwait.
    assert (cancel (shared m) = false) as Hc.
    { apply build_run_not_cancelled. intros Hin.
      apply list_elem_of_fmap in Hin. destruct Hin as (j & Hj & _). discriminate. }
    destruct (returned_root_finished _ _ _ _ _ _ _ _ _ _ Hb Hc)
      as (-> & Hall & Hroot).
    fold m in Hall, Hroot.
    split; [apply build_run_shape; assumption|].
    split; [apply build_run_root_ptr|].
    apply claimed_cells; [apply build_run_cells_held | apply build_run_claims | exact Hall]. }
  destruct (Hone _ _ _ _ _ Hb1 Hw1) as ((Hd1 & Ht1) & Hp1 & Hn1 & Hc1).
  destruct (Hone _ _ _ _ _ Hb2 Hw2) as ((Hd2 & Ht2) & Hp2 & Hn2 & Hc2).
  fold m1 in Hd1, Ht1, Hc1. fold m2 in Hd2, Ht2, Hc2.
  split; [intros a; rewrite Hd1, Hd2; reflexivity|].
  split; [intros a; rewrite Ht1, Ht2; reflexivity|].
  split; [congruence|].
  split; [|split; assumption].
  apply NoDup_Permutation; [assumption | assumption|].
  intros a. rewrite Hc1, Hc2, Hd1, Hd2. reflexivity.
Qed.

End Results.

(** ** The properties of workers that overlap *)

Section Overlapping.

Context {P : Params}.

(** X4.  The flags are read in the condition of the loop only.  When [done]
    or [cancel] is set, a worker that is at the condition leaves [run] and
    does nothing else, while a worker that is in the body finishes it: from
    that moment on, however the moments of the workers follow each other,
    at most one more cell is evaluated for each worker that was in the body,
    and when no worker was in the body no cell is added or written, no task
    is taken or pushed and no call is made.  The moments of passes that do
    not overlap give the states of [build_run]. *)
Theorem flags_stop_workers_at_the_loop_head
    (eval : nat -> XTreeEvaluator) (region_ : Region)
    (min_feature max_err : double) (workers : nat) (cancel0 : bool)
    (cb : option ProgressCallback) (fth : option FreeThreadHandler)
    (ms ms' : list Moment) (sched : list Event) :
  let o := build_overlapped eval region_ min_feature max_err workers cancel0
                            cb fth ms in
  let o' := build_overlapped eval region_ min_feature max_err workers cancel0
                             cb fth (ms ++ ms') in
  (stop_set (machine o) ->
   stop_set (machine o') /\
   (length (evaluated (trace (shared (machine o'))))
    <= length (evaluated (trace (shared (machine o)))) + in_flight o)%nat /\
   (in_flight o = O ->
    heap (shared (machine o')) = heap (shared (machine o)) /\
    tasks (shared (machine o')) = tasks (shared (machine o)) /\
    trace (shared (machine o')) = trace (shared (machine o)) /\
    map local (threads (machine o')) = map local (threads (machine o)))) /\
  machine (build_overlapped eval region_ min_feature max_err workers cancel0
                            cb fth (apart sched))
  = build_run eval region_ min_feature max_err workers cancel0 cb fth sched.
Proof.
  intros o o'. split.
  - intros Hstop. unfold o', build_overlapped. rewrite overlapped_app.
    fold (build_overlapped eval region_ min_feature max_err workers cancel0
                           cb fth ms). fold o.
    destruct (overlapped_stopped eval (to_float max_err)
                (build_watcher region_ min_feature cb) fth ms' o Hstop)
      as (Hs & Hle & Hz).
    split; [exact Hs|]. split; [lia | exact Hz].
  - unfold build_overlapped. rewrite overlapped_apart.
    + reflexivity.
    + simpl. rewrite !length_replicate. reflexivity.
    + simpl. apply Forall_replicate. reflexivity.
Qed.

(** X6.  The local stack of a worker is its own, and it is the first place
    where the worker looks for a task.  Whatever the other workers do to
    the shared state while a worker pushes the children of a cell, when the
    last child, of index [2^N - 1], finds the shared stack full, its task is
    put on top of the worker's local stack; and whatever the others do
    afterwards, it is the task that the worker takes next, leaving the
    shared stack alone. *)
Theorem last_child_kept_is_taken_next
    (others : nat -> Shared -> Shared) (t : Addr) (tp : Tape) (r : Region)
    (nb : Neighbors) (s : Shared) (w : Worker) :
  let last := (2 ^ N - 1)%nat in
  let before := push_children_among others t tp r nb (seq 0 last) s w in
  let at_push := others last (pool_get t last before.1 before.2).1.2 in
  let res := push_children_among others t tp r nb (seq 0 (2 ^ N)) s w in
  (capacity (tasks at_push) <= length (items (tasks at_push)))%nat ->
  local res.2 = child_task t tp r nb last :: local before.2 /\
  forall s', (take_task s' res.2).1.1 = Some (child_task t tp r nb last) /\
             (take_task s' res.2).1.2 = s'.
Proof.
  intros last before at_push res Hfull.
  assert (local res.2 = child_task t tp r nb last :: local before.2) as Hl.
  { unfold res. rewrite children_nonempty, push_children_among_app.
    fold last before. unfold at_push in Hfull. simpl in Hfull. simpl.
    unfold stack_bounded_push.
    match goal with
    | |- context [(?a <? ?b)%nat] =>
        destruct (Nat.ltb_spec a b) as [Hlt|_]; [lia|]
    end.
    reflexivity. }
  split; [exact Hl|]. intros s'. unfold take_task. rewrite Hl. auto.
Qed.

(** X7.  For every dimension [N] the template is instantiated with (2 in
    [hybrid_pool2.cpp]), the loop over the children of a cell gets exactly
    [2^N] cells from the worker's own pool, the children [i :: t] for
    [i < 2^N] in the order of their index, whatever the other workers do to
    the shared state meanwhile; the tasks that do not fit the shared stack
    when they are pushed are kept on the local stack, later children on
    top.  When no other worker touches the shared state meanwhile, the
    first [k] tasks go to the shared stack, where [k] is the room left in
    it, and the others to the local stack. *)
Theorem children_pushed_among_others
    (others : nat -> Shared -> Shared) (t : Addr) (tp : Tape) (r : Region)
    (nb : Neighbors) (s : Shared) (w : Worker) :
  let kids := map (child_task t tp r nb) (seq 0 (2 ^ N)) in
  let res := push_children_among others t tp r nb (seq 0 (2 ^ N)) s w in
  object_pool res.2 = object_pool w ++ map (fun i => i :: t) (seq 0 (2 ^ N)) /\
  (exists kept, sublist kept (seq 0 (2 ^ N)) /\
     local res.2 = rev (map (child_task t tp r nb) kept) ++ local w) /\
  (N = 2%nat -> length (map (fun i => i :: t) (seq 0 (2 ^ N))) = 4%nat) /\
  ((forall i s1, others i s1 = s1) ->
   let k := Nat.min (2 ^ N) (capacity (tasks s) - length (items (tasks s))) in
   res = push_children t tp r nb (seq 0 (2 ^ N)) s w /\
   items (tasks res.1) = rev (take k kids) ++ items (tasks s) /\
   local res.2 = rev (drop k kids) ++ local w /\
   (forall i, (i < 2 ^ N)%nat -> heap res.1 !! (i :: t) = Some new_cell) /\
   trace res.1 = trace s ++ map (CallGet t) (seq 0 (2 ^ N))).
Proof.
  intros kids res.
  destruct (push_children_among_worker others t tp r nb (seq 0 (2 ^ N)) s w)
    as (Hp & _ & Hkept).
  split; [exact Hp|]. split; [exact Hkept|].
  split; [intros HN; rewrite length_map, length_seq, HN; reflexivity|].
  intros Hid k.
  assert (res = push_children t tp r nb (seq 0 (2 ^ N)) s w) as Hres
    by (apply push_children_among_alone, Hid).
  split; [exact Hres|]. rewrite Hres, push_children_spec. simpl. fold k.
  assert (k <= 2 ^ N)%nat as Hk by (unfold k; lia).
  split.
  { unfold kids. rewrite firstn_map, take_seq.
    replace (Nat.min k (2 ^ N)) with k by lia. reflexivity. }
  split.
  { unfold kids. rewrite skipn_map, drop_seq. reflexivity. }
  split; [|reflexivity].
  intros i Hi. rewrite alloc_children_lookup.
  rewrite decide_True; [reflexivity|]. split; [reflexivity|].
  apply elem_of_seq. lia.
Qed.

(** X15.  [collectChildren] is called on a cell once for each of its
    children that is finished: in every state of a build the cells on which
    it was called are the parents of the cells finished (the root has no
    parent and gives no call), each as many times, so that the number of
    calls made on a cell is the number of its children that are finished.
    It is only ever called on a cell that interval evaluation found
    ambiguous. *)
Theorem collect_called_once_per_finished_child
    (eval : nat -> XTreeEvaluator) (region_ : Region)
    (min_feature max_err : double) (workers : nat) (cancel0 : bool)
    (cb : option ProgressCallback) (fth : option FreeThreadHandler)
    (sched : list Event) :
  let m := build_run eval region_ min_feature max_err workers cancel0 cb fth sched in
  collect_calls (trace (shared m)) ≡ₚ omap parent (finished (trace (shared m))) /\
  (forall p,
     length (filter (fun q => q = p) (collect_calls (trace (shared m))))
     = length (filter (fun a => parent a = Some p) (finished (trace (shared m))))) /\
  (forall p ok, CallCollect p ok ∈ trace (shared m) ->
                CallEvalInterval p Interval.AMBIGUOUS ∈ trace (shared m)).
Proof.
  intros m.
  pose proof (build_run_collects eval region_ min_feature max_err workers cancel0
                cb fth sched) as Heq.
  cbv zeta in Heq. fold m in Heq.
  split; [rewrite Heq; reflexivity|].
  split; [intros p; rewrite Heq; apply parents_of_finished|].
  apply (build_run_collected_ambiguous eval region_ min_feature max_err workers
           cancel0 cb fth sched).
Qed.

End Overlapping.

(** ** Their instances *)

Section NewRuns.

Import Toy.

Lemma build_empty_iff_cancel_two_cube :
  build (P := amb) evals two_cube 1 0 2 false None None
        ([Pass 0; SetCancel] ++ [Pass 1; Pass 0])%nat = Return Root_empty /\
  (forall a,
     is_Some (heap (shared (build_run (P := amb) evals two_cube 1 0 1 false
                                      None None (solo 9))) !! a) ->
     a ∈ finished (trace (shared (build_run (P := amb) evals two_cube 1 0 1 false
                                            None None (solo 9)))) /\
     a ∈ evaluated (trace (shared (build_run (P := amb) evals two_cube 1 0 1 false
                                             None None (solo 9))))) /\
  build (P := amb) evals two_cube 1 0 2 false None None ([] ++ concat (rounds2 11))
  = Return (out (shared (build_run (P := amb) evals two_cube 1 0 2 false None None
                                   ([] ++ concat (rounds2 11))))).
Proof.
  split; [|split].
  - apply (proj1 (proj2 (proj2 (build_empty_iff_cancel (P := amb) evals two_cube
                                  1 0 2 false None None [Pass 0; SetCancel]%nat)))).
    + right. apply list_elem_of_further, list_elem_of_here.
    + intros j Hj. destruct j as [|[|j]]; [| |lia].
      * apply list_elem_of_further, list_elem_of_here.
      * apply list_elem_of_here.
  - destruct (proj1 (build_empty_iff_cancel (P := amb) evals two_cube 1 0 1
                       false None None (solo 9))
                (mkRoot (Some []) (map (fun i => [i]) (seq 0 8))))
      as [_ H].
    + vm_compute. reflexivity.
    + destruct H as (_ & _ & _ & _ & H).
      * intros [Hc|Hin]; [discriminate Hc|].
        apply list_elem_of_In in Hin. simpl in Hin.
        repeat (destruct Hin as [Hin|Hin]; [discriminate Hin|]). exact Hin.
      * apply H. apply answers_checked_sound. vm_compute. reflexivity.
  - apply (proj2 (proj2 (proj2 (build_empty_iff_cancel (P := amb) evals two_cube
                                  1 0 2 false None None [])))).
    + reflexivity.
    + intros Hin. inversion Hin.
    + lia.
    + intros r j _. reflexivity.
    + apply Forall_replicate. split.
      * intros Hin. apply list_elem_of_In in Hin. simpl in Hin.
        repeat (destruct Hin as [Hin|Hin]; [discriminate Hin|]). exact Hin.
      * intros j Hj. destruct j as [|[|j]]; [| |lia].
        -- apply list_elem_of_here.
        -- apply list_elem_of_further, list_elem_of_here.
    + vm_compute. lia.
    + apply answers_checked_sound. vm_compute. reflexivity.
Defined.

Lemma returned_cells_classified_two_cube :
  (type_at (heap (shared (build_run (P := amb) evals two_cube 1 0 1 false
                                    None None (solo 9)))) [3%nat]
   = Interval.EMPTY \/
   type_at (heap (shared (build_run (P := amb) evals two_cube 1 0 1 false
                                    None None (solo 9)))) [3%nat]
   = Interval.FILLED \/
   type_at (heap (shared (build_run (P := amb) evals two_cube 1 0 1 false
                                    None None (solo 9)))) [3%nat]
   = Interval.AMBIGUOUS) /\
  (forall a,
     is_Some (heap (shared (build_run (P := amb) evals two_cube 1 0 1 false
                                      None None (solo 9))) !! a) ->
     type_at (heap (shared (build_run (P := amb) evals two_cube 1 0 1 false
                                      None None (solo 9)))) a
     = Interval.EMPTY \/
     type_at (heap (shared (build_run (P := amb) evals two_cube 1 0 1 false
                                      None None (solo 9)))) a
     = Interval.FILLED \/
     type_at (heap (shared (build_run (P := amb) evals two_cube 1 0 1 false
                                      None None (solo 9)))) a
     = Interval.AMBIGUOUS).
Proof.
  destruct (returned_cells_classified (P := amb) evals two_cube 1 0 1 false
              None None (solo 9)) as (_ & _ & _ & Hev & Hall).
  - intros e tp r nb c. discriminate.
  - split.
    + apply Hev. apply (bool_decide_eq_true_1 _). vm_compute. reflexivity.
    + apply (Hall (mkRoot (Some []) (map (fun i => [i]) (seq 0 8)))).
      * vm_compute. reflexivity.
      * discriminate.
      * apply answers_checked_sound. vm_compute. reflexivity.
Defined.

Lemma build_result_independent_of_workers_two_cube :
  (forall a,
     type_at (heap (shared (build_run (P := amb) (fun _ => @make_evaluator amb O)
                              two_cube 1 0 1 false None None
                              (map Pass one_worker)))) a
     = type_at (heap (shared (build_run (P := amb) (fun _ => @make_evaluator amb O)
                                two_cube 1 0 2 false None None
                                (map Pass two_workers)))) a) /\
  claimed (out (shared (build_run (P := amb) evals two_cube 1 0 1 false None None
                                  (map Pass one_worker))))
  ≡ₚ claimed (out (shared (build_run (P := amb) evals two_cube 1 0 2 false None None
                                     (map Pass two_workers)))).
Proof.
  destruct (build_result_independent_of_workers (P := amb) O two_cube 1 0 1%nat
              2%nat None None None None one_worker two_workers
              (out (shared (build_run (P := amb) evals two_cube 1 0 1 false
                                      None None (map Pass one_worker))))
              (out (shared (build_run (P := amb) evals two_cube 1 0 2 false
                                      None None (map Pass two_workers)))))
    as (_ & Hty & _ & Hcl & _).
  - intros tp r nb nb' c c'. reflexivity.
  - vm_compute. reflexivity.
  - vm_compute. reflexivity.
  - apply answers_checked_sound. vm_compute. reflexivity.
  - apply answers_checked_sound. vm_compute. reflexivity.
  - split; [exact Hty | exact Hcl].
Defined.

Lemma flags_stop_workers_at_the_loop_head_two_cube :
  in_flight (build_overlapped (P := amb) evals two_cube 1 0 1 false None None
                              [Head 0; Cancelled]) = 1%nat /\
  length (evaluated (trace (shared (machine
            (build_overlapped (P := amb) evals two_cube 1 0 1 false None None
                              ([Head 0; Cancelled] ++ [Body 0; Head 0])))))) = 1%nat /\
  (length (evaluated (trace (shared (machine
             (build_overlapped (P := amb) evals two_cube 1%Z 0%Z 1 false None None
                               ([Head 0; Cancelled] ++ [Body 0; Head 0]))))))
   <= length (evaluated (trace (shared (machine
                (build_overlapped (P := amb) evals two_cube 1%Z 0%Z 1 false None None
                                  [Head 0; Cancelled])))))
      + in_flight (build_overlapped (P := amb) evals two_cube 1%Z 0%Z 1 false None None
                                    [Head 0; Cancelled]))%nat.
Proof.
  split; [vm_compute; reflexivity|]. split; [vm_compute; reflexivity|].
  destruct (proj1 (flags_stop_workers_at_the_loop_head (P := amb) evals two_cube
                     1 0 1 false None None [Head 0; Cancelled] [Body 0; Head 0] []))
    as (_ & H & _).
  - right. vm_compute. reflexivity.
  - exact H.
Defined.

Lemma last_child_kept_is_taken_next_flat :
  (take_task (P := flat) flat_start
     (push_children_among (P := flat) alone [] 1%nat (mkToyRegion 2 1) []
        (seq 0 (2 ^ 2)) flat_start Worker_start).2).1.1
  = Some (child_task (P := flat) [] 1%nat (mkToyRegion 2 1) [] 3).
Proof.
  destruct (last_child_kept_is_taken_next (P := flat) alone [] 1%nat
              (mkToyRegion 2 1) [] flat_start Worker_start) as (_ & H).
  - vm_compute. lia.
  - exact (proj1 (H flat_start)).
Defined.

Lemma children_pushed_among_others_flat :
  object_pool (push_children_among (P := flat) alone [] 1%nat (mkToyRegion 2 1) []
                 (seq 0 (2 ^ 2)) flat_start Worker_start).2
  = [[0]; [1]; [2]; [3]]%nat /\
  length (map (fun i : nat => [i]) (seq 0 (2 ^ 2))) = 4%nat /\
  push_children_among (P := flat) alone [] 1%nat (mkToyRegion 2 1) []
    (seq 0 (2 ^ 2)) flat_start Worker_start
  = push_children (P := flat) [] 1%nat (mkToyRegion 2 1) []
      (seq 0 (2 ^ 2)) flat_start Worker_start.
Proof.
  destruct (children_pushed_among_others (P := flat) alone [] 1%nat
              (mkToyRegion 2 1) [] flat_start Worker_start)
    as (Hp & _ & H4 & Hal).
  split; [exact Hp|]. split; [exact (H4 eq_refl)|].
  exact (proj1 (Hal (fun _ _ => eq_refl))).
Defined.

(** What the condition on the answers of [collectChildren] is for: when the
    method answers true on the first child that is finished, [build] returns
    a tree in which seven of the eight children of the root were never
    evaluated and are still [UNKNOWN], with their tasks still waiting. *)
Lemma eager_collect_returns_unfinished_tree :
  build (P := eager) evals two_cube 1 0 1 false None None (solo 2)
  = Return (out (shared eager_run)) /\
  root_finished (trace (shared eager_run)) /\
  type_at (P := eager) (heap (shared eager_run)) [0%nat] = Interval.UNKNOWN /\
  length (pending (P := eager) eager_run) = 7%nat /\
  ~ collects_wait (P := eager) (trace (shared eager_run)).
Proof.
  assert (trace (shared eager_run)
          = take 10 (trace (shared eager_run))
            ++ CallCollect [] true :: drop 11 (trace (shared eager_run))) as Heq
    by (vm_compute; reflexivity).
  split; [vm_compute; reflexivity|].
  split.
  { right. right. right. rewrite Heq. apply elem_of_app. right.
    apply list_elem_of_here. }
  split; [vm_compute; reflexivity|].
  split; [vm_compute; reflexivity|].
  intros Hwait.
  assert (0 < children_size (P := eager))%nat as H0 by (vm_compute; lia).
  pose proof (Hwait _ _ _ Heq O H0) as Hin.
  apply (bool_decide_eq_true_2 _) in Hin. vm_compute in Hin. discriminate.
Qed.

End NewRuns.
